(** * Sliding-tile search: models of the puzzle domains and of the four
      search procedures, with the properties of the specification.

    Conventions of the embedding.
    - A Python [int] is a [Z]; an index into a tuple is a [nat].
    - A state ([Tuple[int, ...]]) is a [list Z]; tile [0] is the blank.
    - A [dict] is a [gmap], a [set] is a [gset].
    - A [while] loop is a function recursing on a [nat] of fuel, returning
      [None] when the fuel runs out; a [for] loop over a list is a fold.
    - [perf_counter()] reads an oracle [clock : nat -> Q]: the [k]-th call of
      a run returns [clock k].  *)

From stdpp Require Import gmap strings list fin_maps sorting.
From Stdlib Require Import ZArith QArith.QArith_base Lia.

Set Default Proof Using "Type".
Local Open Scope Z_scope.

(** ** Shared helpers for the three domain modules *)

(** [State = Tuple[int, ...]] *)
Abbreviation State := (list Z).

(** [s.index(x)]: position of the first occurrence ([ValueError] is [None]). *)
Fixpoint index (x : Z) (s : State) : option nat :=
  match s with
  | [] => None
  | y :: r => if Z.eqb y x then Some 0%nat else S <$> index x r
  end.

(** [lst[i], lst[j] = lst[j], lst[i]] ([IndexError] is [None]). *)
Definition swap (i j : nat) (s : State) : option State :=
  a ← s !! i; b ← s !! j; Some (<[j:=a]> (<[i:=b]> s)).

(** [for i in range(len(l)): for j in range(i+1, len(l)): acc = body l[i] l[j] acc] *)
Definition pair_loop {A} `{Inhabited A} (l : list A) (body : A → A → Z → Z) (init : Z) : Z :=
  foldl (λ acc i,
           foldl (λ acc j, body (l !!! i) (l !!! j) acc) acc
                 (seq (S i) (length l - S i)))
        init (seq 0 (length l)).

(** The inversion count shared by the three [is_solvable]:
    [arr = [x for x in s if x != 0]] and the double loop over [arr]. *)
Definition inversions (s : State) : Z :=
  let arr := filter (λ x, x ≠ 0) s in
  pair_loop arr (λ ai aj inv, if Z.ltb aj ai then inv + 1 else inv) 0.

(** The body of the three [neighbors]: one successor per index of the table
    entry, each with cost 1.  An index outside the tuple ([IndexError]) yields
    no successor. *)
Definition blank_moves (s : State) (z : nat) (js : list nat) : list (State * Z) :=
  omap (λ j, s' ← swap z j s; Some (s', 1)) js.

(** ** Random walks from the goal ([scramble])

    [random.Random(seed)] is an abstract generator: [G] is its state,
    [Random seed] the seeded state and [choice g cand] the element picked by
    [rng.choice(cand)] with the next state.  [rng.choice] of an empty
    sequence raises [IndexError], which is [None] below. *)
Section Scramble.
Context {G : Type}.
Variable Random : Z → G.
Variable choice : G → list nat → nat * G.
  (** the table of blank moves, [_NEI] or [self._nei] *)
Variable nei : nat → option (list nat).

  (** [cand.remove(x)]: drops the first occurrence *)
Fixpoint list_remove (x : nat) (l : list nat) : list nat :=
    match l with
    | [] => []
    | y :: r => if Nat.eqb y x then r else y :: list_remove x r
    end.

Definition scramble_step (st : State * option nat * G) : option (State * option nat * G) :=
    let '(s, last_blank, g) := st in
    z ← index 0 s;
    cand ← nei z;
    let cand :=
      match last_blank with
      | Some lb =>
          if bool_decide (lb ∈ cand) && bool_decide (1 < length cand)%nat
          then list_remove lb cand else cand
      | None => cand
      end in
    match cand with
    | [] => None
    | _ =>
        let '(j, g') := choice g cand in
        s' ← swap z j s;
        Some (s', Some z, g')
    end.

Fixpoint scramble_loop (n : nat) (st : State * option nat * G) : option (State * option nat * G) :=
    match n with
    | O => Some st
    | S n' => st' ← scramble_step st; scramble_loop n' st'
    end.

  (** [for _ in range(depth)]: no iteration when [depth <= 0] *)
Definition scramble_walk (goal : State) (depth seed : Z) : option State :=
    '(s, _, _) ← scramble_loop (Z.to_nat depth) (goal, None, Random seed); Some s.
End Scramble.

(** ** [src/domains/puzzle8.py] *)
Module Puzzle8.

Definition GOAL : State := [1;2;3;4;5;6;7;8;0].

Definition _NEI (i : nat) : option (list nat) :=
    match i with
    | 0 => Some [1;3]
    | 1 => Some [0;2;4]
    | 2 => Some [1;5]
    | 3 => Some [0;4;6]
    | 4 => Some [1;3;5;7]
    | 5 => Some [2;4;8]
    | 6 => Some [3;7]
    | 7 => Some [4;6;8]
    | 8 => Some [5;7]
    | _ => None
    end%nat.

  (** A tuple without blank ([ValueError]) or with the blank outside the
      table ([KeyError]) has no successor here. *)
Definition neighbors (s : State) : list (State * Z) :=
    match index 0 s with
    | Some i => match _NEI i with
                | Some js => blank_moves s i js
                | None => []
                end
    | None => []
    end.

Definition is_solvable (s : State) : bool :=
    Z.eqb (inversions s mod 2) 0.

Definition scramble {G} (Random : Z → G) (choice : G → list nat → nat * G)
      (depth seed : Z) : option State :=
    scramble_walk Random choice _NEI GOAL depth seed.

  (** [_goal_pos = {GOAL[i]: (i // 3, i % 3) for i in range(9)}] *)
Definition _goal_pos : gmap Z (Z * Z) :=
    list_to_map (imap (λ i t, (t, (Z.of_nat i / 3, Z.of_nat i mod 3))) GOAL).

  (** One round of the loop of [manhattan]; a tile that is no key of
      [_goal_pos] ([KeyError]) adds nothing. *)
Definition manhattan_term (idx : nat) (tile : Z) : Z :=
    if Z.eqb tile 0 then 0
    else
      let r := Z.of_nat idx / 3 in
      let c := Z.of_nat idx mod 3 in
      match _goal_pos !! tile with
      | Some (gr, gc) => Z.abs (r - gr) + Z.abs (c - gc)
      | None => 0
      end.

Definition manhattan (s : State) : Z :=
    foldl (λ dist '(idx, tile), dist + manhattan_term idx tile) 0 (imap pair s).

  (** [tiles = [(c, t) for c, t in enumerate(line) if t != 0 and _goal_pos[t][k] == r]] *)
Definition goal_row (t : Z) : Z := default 0 (fst <$> _goal_pos !! t).
Definition goal_col (t : Z) : Z := default 0 (snd <$> _goal_pos !! t).

Definition conflicts (line : list Z) (along across : Z → Z) (r : Z) (m : Z) : Z :=
    let tiles := filter (λ ct : nat * Z, ct.2 ≠ 0 ∧ along ct.2 = r) (imap pair line) in
    pair_loop tiles (λ a b m, if Z.ltb (across b.2) (across a.2) then m + 2 else m) m.

Definition linear_conflict (s : State) : Z :=
    let m := manhattan s in
    (* Row conflicts *)
    let m := foldl (λ m r, conflicts (take 3 (drop (3 * r) s)) goal_row goal_col (Z.of_nat r) m)
                   m (seq 0 3) in
    (* Column conflicts *)
    let m := foldl (λ m c, conflicts (omap (λ r, s !! (c + 3 * r)%nat) (seq 0 3))
                                     goal_col goal_row (Z.of_nat c) m)
                   m (seq 0 3) in
    m.

End Puzzle8.

(** ** [src/domains/puzzlemn.py] *)
Module RectPuzzle.

  (** The fields set by [__init__]; [GOAL], [_nei] and [_goal_pos] are
      functions of [R] and [C]. *)
Record t := { R : nat; C : nat }.

  (** [assert rows >= 2 and cols >= 2] ([AssertionError] is [None]) *)
Definition new (rows cols : nat) : option t :=
    if bool_decide (2 ≤ rows)%nat && bool_decide (2 ≤ cols)%nat
    then Some {| R := rows; C := cols |} else None.

Definition size (self : t) : nat := (R self * C self)%nat.

  (** [tuple(list(range(1, self.size)) + [0])] *)
Definition GOAL (self : t) : State :=
    (Z.of_nat <$> seq 1 (size self - 1)) ++ [0].

Definition _nei (self : t) (i : nat) : option (list nat) :=
    if bool_decide (i < size self)%nat then
      let r := (i / C self)%nat in
      let c := (i mod C self)%nat in
      Some ((if bool_decide (0 < r)%nat then [(i - C self)%nat] else [])
            ++ (if bool_decide (r < R self - 1)%nat then [(i + C self)%nat] else [])
            ++ (if bool_decide (0 < c)%nat then [(i - 1)%nat] else [])
            ++ (if bool_decide (c < C self - 1)%nat then [(i + 1)%nat] else []))
    else None.

Definition neighbors (self : t) (s : State) : list (State * Z) :=
    match index 0 s with
    | Some z => match _nei self z with
                | Some js => blank_moves s z js
                | None => []
                end
    | None => []
    end.

Definition scramble {G} (Random : Z → G) (choice : G → list nat → nat * G)
      (self : t) (depth seed : Z) : option State :=
    scramble_walk Random choice (_nei self) (GOAL self) depth seed.

  (** A tuple without blank makes [s.index(0)] raise; that is [false] here. *)
Definition is_solvable (self : t) (s : State) : bool :=
    let inv := inversions s in
    if Nat.eqb (C self mod 2) 1 then Z.eqb (inv mod 2) 0
    else
      match index 0 s with
      | Some z =>
          let blank_row_top_idx := (z / C self)%nat in
          let blank_row_from_bottom := Z.of_nat (R self) - Z.of_nat blank_row_top_idx in
          Z.eqb ((inv + blank_row_from_bottom) mod 2) 1
      | None => false
      end.

  (** [self._goal_pos[tile]], set for [tile] in [range(1, self.size)]
      ([KeyError] is [None]) *)
Definition _goal_pos (self : t) (tile : Z) : option (Z * Z) :=
    if bool_decide (1 ≤ tile < Z.of_nat (size self)) then
      let idx := tile - 1 in
      Some (idx / Z.of_nat (C self), idx mod Z.of_nat (C self))
    else None.

  (** One round of the loop of [manhattan]. *)
Definition manhattan_term (self : t) (idx : nat) (tile : Z) : option Z :=
    if Z.eqb tile 0 then Some 0
    else
      let r := Z.of_nat idx / Z.of_nat (C self) in
      let c := Z.of_nat idx mod Z.of_nat (C self) in
      '(gr, gc) ← _goal_pos self tile;
      Some (Z.abs (r - gr) + Z.abs (c - gc)).

Definition manhattan (self : t) (s : State) : option Z :=
    foldl (λ dist '(idx, tile),
             d ← dist; m ← manhattan_term self idx tile; Some (d + m))
          (Some 0) (imap pair s).

  (** Once [manhattan] has returned, every tile of [s] but the blank is a
      key of [_goal_pos]: the lookups below do not fail. *)
Definition goal_row (self : t) (tile : Z) : Z := default 0 (fst <$> _goal_pos self tile).
Definition goal_col (self : t) (tile : Z) : Z := default 0 (snd <$> _goal_pos self tile).

  (** [tiles = [(k, t) for k, t in enumerate(line) if t != 0 and along(t) == r]]
      and the double loop over [tiles]. *)
Definition conflicts (line : list Z) (along across : Z → Z) (r : Z) (m : Z) : Z :=
    let tiles := filter (λ ct : nat * Z, ct.2 ≠ 0 ∧ along ct.2 = r) (imap pair line) in
    pair_loop tiles (λ a b m, if Z.ltb (across b.2) (across a.2) then m + 2 else m) m.

  (** [col = [s[c + r * C] for r in range(R)]] raises [IndexError] on a
      tuple that is too short; that is [None]. *)
Definition linear_conflict (self : t) (s : State) : option Z :=
    m ← manhattan self s;
    (* Row conflicts *)
    let m := foldl (λ m r, conflicts (take (C self) (drop (r * C self) s))
                                     (goal_row self) (goal_col self) (Z.of_nat r) m)
                   m (seq 0 (R self)) in
    (* Column conflicts *)
    cols ← mapM (λ c, mapM (λ r, s !! (c + r * C self)%nat) (seq 0 (R self)))
                (seq 0 (C self));
    Some (foldl (λ m '(c, col), conflicts col (goal_col self) (goal_row self)
                                          (Z.of_nat c) m)
                m (imap pair cols)).

End RectPuzzle.

(** ** [src/domains/puzzlen.py] *)
Module NPuzzle.

Record t := { N : nat }.

  (** [assert n >= 2] *)
Definition new (n : nat) : option t :=
    if bool_decide (2 ≤ n)%nat then Some {| N := n |} else None.

Definition size (self : t) : nat := (N self * N self)%nat.

Definition GOAL (self : t) : State :=
    (Z.of_nat <$> seq 1 (size self - 1)) ++ [0].

Definition _nei (self : t) (i : nat) : option (list nat) :=
    if bool_decide (i < size self)%nat then
      let r := (i / N self)%nat in
      let c := (i mod N self)%nat in
      Some ((if bool_decide (0 < r)%nat then [(i - N self)%nat] else [])
            ++ (if bool_decide (r < N self - 1)%nat then [(i + N self)%nat] else [])
            ++ (if bool_decide (0 < c)%nat then [(i - 1)%nat] else [])
            ++ (if bool_decide (c < N self - 1)%nat then [(i + 1)%nat] else []))
    else None.

Definition neighbors (self : t) (s : State) : list (State * Z) :=
    match index 0 s with
    | Some z => match _nei self z with
                | Some js => blank_moves s z js
                | None => []
                end
    | None => []
    end.

Definition scramble {G} (Random : Z → G) (choice : G → list nat → nat * G)
      (self : t) (depth seed : Z) : option State :=
    scramble_walk Random choice (_nei self) (GOAL self) depth seed.

Definition is_solvable (self : t) (s : State) : bool :=
    let inv := inversions s in
    if Nat.eqb (N self mod 2) 1 then Z.eqb (inv mod 2) 0
    else
      match index 0 s with
      | Some z =>
          let blank_row_top_idx := (z / N self)%nat in
          let blank_row_from_bottom := Z.of_nat (N self) - Z.of_nat blank_row_top_idx in
          Z.eqb ((inv + blank_row_from_bottom) mod 2) 1
      | None => false
      end.

  (** [self._goal_pos[tile]], set for [tile] in [range(1, self.size)]
      ([KeyError] is [None]) *)
Definition _goal_pos (self : t) (tile : Z) : option (Z * Z) :=
    if bool_decide (1 ≤ tile < Z.of_nat (size self)) then
      let idx := tile - 1 in
      Some (idx / Z.of_nat (N self), idx mod Z.of_nat (N self))
    else None.

  (** One round of the loop of [manhattan]. *)
Definition manhattan_term (self : t) (idx : nat) (tile : Z) : option Z :=
    if Z.eqb tile 0 then Some 0
    else
      let r := Z.of_nat idx / Z.of_nat (N self) in
      let c := Z.of_nat idx mod Z.of_nat (N self) in
      '(gr, gc) ← _goal_pos self tile;
      Some (Z.abs (r - gr) + Z.abs (c - gc)).

Definition manhattan (self : t) (s : State) : option Z :=
    foldl (λ dist '(idx, tile),
             d ← dist; m ← manhattan_term self idx tile; Some (d + m))
          (Some 0) (imap pair s).

  (** Once [manhattan] has returned, every tile of [s] but the blank is a
      key of [_goal_pos]: the lookups below do not fail. *)
Definition goal_row (self : t) (tile : Z) : Z := default 0 (fst <$> _goal_pos self tile).
Definition goal_col (self : t) (tile : Z) : Z := default 0 (snd <$> _goal_pos self tile).

  (** [tiles = [(k, t) for k, t in enumerate(line) if t != 0 and along(t) == r]]
      and the double loop over [tiles]. *)
Definition conflicts (line : list Z) (along across : Z → Z) (r : Z) (m : Z) : Z :=
    let tiles := filter (λ ct : nat * Z, ct.2 ≠ 0 ∧ along ct.2 = r) (imap pair line) in
    pair_loop tiles (λ a b m, if Z.ltb (across b.2) (across a.2) then m + 2 else m) m.

  (** [col = [s[c + r * N] for r in range(N)]] raises [IndexError] on a
      tuple that is too short; that is [None]. *)
Definition linear_conflict (self : t) (s : State) : option Z :=
    m ← manhattan self s;
    (* Row conflicts *)
    let m := foldl (λ m r, conflicts (take (N self) (drop (r * N self) s))
                                     (goal_row self) (goal_col self) (Z.of_nat r) m)
                   m (seq 0 (N self)) in
    (* Column conflicts *)
    cols ← mapM (λ c, mapM (λ r, s !! (c + r * N self)%nat) (seq 0 (N self)))
                (seq 0 (N self));
    Some (foldl (λ m '(c, col), conflicts col (goal_col self) (goal_row self)
                                          (Z.of_nat c) m)
                m (imap pair cols)).

End NPuzzle.

(** * The search procedures

    What is common to the four modules of [src/search]: the values stored in
    the returned [dict], the clock and the timeout test. *)

(** The values of the returned record. *)
Inductive Value (St : Type) : Type :=
| VNone
| VInt (z : Z)
| VFloat (q : Q)
| VStr (s : string)
| VPath (p : list St).
Arguments VNone {St}.
Arguments VInt {St} z.
Arguments VFloat {St} q.
Arguments VStr {St} s.
Arguments VPath {St} p.

(** [timeout_sec is not None and (perf_counter() - t0) > timeout_sec]:
    the answer and the number of clock readings made so far.  The clock is
    read only when a timeout is set. *)
Definition timed_out (clock : nat → Q) (timeout_sec : option Q) (t0 : Q) (tick : nat)
  : bool * nat :=
  match timeout_sec with
  | None => (false, tick)
  | Some lim => (negb (Qle_bool (Qminus (clock tick) t0) lim), S tick)
  end.

(** [x if x is not None else None] for an optional integer *)
Definition opt_int {St} (o : option Z) : Value St :=
  match o with Some z => VInt z | None => VNone end.

(** ** [src/search/a_star.py] *)
Module AStar.
Section Defs.
Context {St : Type} `{Countable St}.

(** [@dataclass class PQItem] *)
Inductive PQItem : Type :=
  mkPQItem (f h g : Z) (state : St) (parent : option PQItem).

Definition item_f (n : PQItem) : Z := let '(mkPQItem f _ _ _ _) := n in f.
Definition item_h (n : PQItem) : Z := let '(mkPQItem _ h _ _ _) := n in h.
Definition item_g (n : PQItem) : Z := let '(mkPQItem _ _ g _ _) := n in g.
Definition item_state (n : PQItem) : St := let '(mkPQItem _ _ _ s _) := n in s.
Definition item_parent (n : PQItem) : option PQItem :=
  let '(mkPQItem _ _ _ _ p) := n in p.

(** [reconstruct_path]: follow [parent] up to [None], then reverse. *)
Fixpoint path_to_root (node : PQItem) : list St :=
  match node with
  | mkPQItem _ _ _ s None => [s]
  | mkPQItem _ _ _ s (Some p) => s :: path_to_root p
  end.

Definition reconstruct_path (node : PQItem) : list St :=
  reverse (path_to_root node).

(** An entry of [open_heap]: [(priority_tuple, counter, item)]. *)
Definition HeapEntry : Type := (Z * Z * Z) * Z * PQItem.

Definition entry_key (e : HeapEntry) : Z * Z * Z * Z :=
  let '((f, tie, c), ctr, _) := e in (f, tie, c, ctr).

Definition entry_item (e : HeapEntry) : PQItem := e.2.

(** Python compares the tuples lexicographically; the second component is
    unique in the heap, so the items themselves are never compared. *)
Definition key_lt (a b : Z * Z * Z * Z) : bool :=
  let '(f1, t1, c1, k1) := a in
  let '(f2, t2, c2, k2) := b in
  (f1 <? f2) || ((f1 =? f2) &&
    ((t1 <? t2) || ((t1 =? t2) &&
      ((c1 <? c2) || ((c1 =? c2) && (k1 <? k2)))))).

(** [heapq] is modelled by what it guarantees: [heappush] adds an entry and
    [heappop] removes and returns the least one.  The heap is a list in no
    special order. *)
Definition heappush (heap : list HeapEntry) (e : HeapEntry) : list HeapEntry :=
  e :: heap.

Fixpoint heappop (heap : list HeapEntry) : option (HeapEntry * list HeapEntry) :=
  match heap with
  | [] => None
  | e :: r =>
      match heappop r with
      | None => Some (e, [])
      | Some (m, r') =>
          if key_lt (entry_key m) (entry_key e) then Some (m, e :: r')
          else Some (e, r)
      end
  end.

Definition priority_tuple (tie_break : string) (f g h ctr : Z) : Z * Z * Z :=
  if String.eqb tie_break "h" then (f, h, ctr)
  else if String.eqb tie_break "g" then (f, - g, ctr)
  else if String.eqb tie_break "fifo" then (f, 0, ctr)
  else if String.eqb tie_break "lifo" then (f, 0, - ctr)
  else (f, h, ctr).

(** The local variables of [a_star] that the loop changes; [counter] is the
    next value of [itertools.count()], [tick] the number of clock readings. *)
Record AState : Type := mkAState {
  open_heap : list HeapEntry;
  counter : Z;
  best_g : gmap St Z;
  closed : gset St;
  expanded : Z;
  generated : Z;
  duplicates : Z;
  seen_ever : gset St;
  peak_open : Z;
  peak_closed : Z;
  tick : nat
}.

Variable default_neighbors : St → list (St * Z).
Variable clock : nat → Q.
Variable goal : St.
Variable hfun : St → Z.
Variable neighbors_fn : option (St → list (St * Z)).
Variable tie_break : string.
Variable return_path : bool.
Variable timeout_sec : option Q.

(** [neighbors = neighbors_fn or default_neighbors] *)
Definition neighbors : St → list (St * Z) := default default_neighbors neighbors_fn.

(** The three [return {...}] of [a_star]. *)
Definition result (st : AState) (path g : Value St) (time : Q) (termination : string)
  : gmap string (Value St) :=
  list_to_map
    [("path", path); ("g", g);
     ("expanded", VInt (expanded st)); ("generated", VInt (generated st));
     ("duplicates", VInt (duplicates st));
     ("peak_open", VInt (peak_open st)); ("peak_closed", VInt (peak_closed st));
     ("time", VFloat time);
     ("algorithm", VStr "A*");
     ("tie_break", VStr tie_break);
     ("termination", VStr termination)]%string.

(** One round of [for s2, c in neighbors(node.state)]. *)
Definition relax (node : PQItem) (st : AState) (edge : St * Z) : AState :=
  let '(s2, c) := edge in
  let g2 := item_g node + c in
  let h2 := hfun s2 in
  let f2 := g2 + h2 in
  let generated' := generated st + 1 in
  let '(duplicates', seen_ever') :=
    if bool_decide (s2 ∈ seen_ever st)
    then (duplicates st + 1, seen_ever st)
    else (duplicates st, {[s2]} ∪ seen_ever st) in
  let better :=
    match best_g st !! s2 with
    | Some b => g2 <? b
    | None => true
    end in
  if better then
    let child := mkPQItem f2 h2 g2 s2 (Some node) in
    let pr := priority_tuple tie_break f2 g2 h2 (counter st) in
    mkAState (heappush (open_heap st) (pr, counter st + 1, child))
             (counter st + 2)
             (<[s2:=g2]> (best_g st)) (closed st)
             (expanded st) generated' duplicates' seen_ever'
             (peak_open st) (peak_closed st) (tick st)
  else
    mkAState (open_heap st) (counter st) (best_g st) (closed st)
             (expanded st) generated' duplicates' seen_ever'
             (peak_open st) (peak_closed st) (tick st).

(** After [heappop]: the heap that is left, [peak_open] and the clock. *)
Definition popped (st : AState) (rest : list HeapEntry) (tick1 : nat) : AState :=
  mkAState rest (counter st) (best_g st) (closed st)
           (expanded st) (generated st) (duplicates st) (seen_ever st)
           (Z.max (peak_open st) (Z.of_nat (length (open_heap st))))
           (peak_closed st) tick1.

(** [closed.add(node.state); expanded += 1; peak_closed = max(...)] *)
Definition close_node (st : AState) (s : St) : AState :=
  let closed' := {[s]} ∪ closed st in
  mkAState (open_heap st) (counter st) (best_g st) closed'
           (expanded st + 1) (generated st) (duplicates st) (seen_ever st)
           (peak_open st) (Z.max (peak_closed st) (Z.of_nat (size closed')))
           (tick st).

(** [while open_heap: ...]; one unit of fuel per round. *)
Fixpoint loop (t0 : Q) (fuel : nat) (st : AState) : option (gmap string (Value St)) :=
  match fuel with
  | O => None
  | S fuel' =>
      match heappop (open_heap st) with
      | None =>
          (* Open exhausted without finding goal *)
          Some (result st VNone VNone (Qminus (clock (tick st)) t0) "exhausted")
      | Some (entry, rest) =>
          let '(to, tick1) := timed_out clock timeout_sec t0 (tick st) in
          if to then
            Some (result st VNone VNone (Qminus (clock tick1) t0) "timeout")
          else
            let st1 := popped st rest tick1 in
            let node := entry_item entry in
            if bool_decide (item_state node ∈ closed st) then loop t0 fuel' st1
            else if bool_decide (item_state node = goal) then
              Some (result st1
                      (if return_path then VPath (reconstruct_path node) else VNone)
                      (VInt (item_g node))
                      (Qminus (clock tick1) t0) "ok")
            else
              loop t0 fuel'
                   (foldl (relax node) (close_node st1 (item_state node))
                          (neighbors (item_state node)))
      end
  end.

Definition init (start : St) : AState :=
  let h0 := hfun start in
  let start_item := mkPQItem h0 h0 0 start None in
  mkAState (heappush [] (priority_tuple tie_break h0 0 h0 0, 1, start_item))
           2 {[start := 0]} ∅ 0 0 0 {[start]} 1 0 1.

Definition a_star (fuel : nat) (start : St) : option (gmap string (Value St)) :=
  loop (clock 0) fuel (init start).

End Defs.
End AStar.

(** ** [src/search/ida_star.py] *)
Module IdaStar.
Section Defs.
Context {St : Type} `{Countable St}.

(** What the inner [dfs] returns: the [TIMEOUT] sentinel, a number ([-1]
    stands for "goal found") or [math.inf]. *)
Inductive DfsRet : Type :=
| TIMEOUT
| Num (t : Z)
| Inf.

(** [t is TIMEOUT] *)
Definition is_timeout (t : DfsRet) : bool :=
  match t with
  | TIMEOUT => true
  | _ => false
  end.

(** [t == -1] *)
Definition is_found (t : DfsRet) : bool :=
  match t with
  | Num z => Z.eqb z (-1)
  | _ => false
  end.

(** [t < min_next] *)
Definition ret_lt (t min_next : DfsRet) : bool :=
  match t, min_next with
  | Num a, Num b => a <? b
  | Num _, Inf => true
  | _, _ => false
  end.

(** [if t < min_next: min_next = t] *)
Definition min_ret (t min_next : DfsRet) : DfsRet :=
  if ret_lt t min_next then t else min_next.

(** The [nonlocal] variables of [dfs], the two dictionaries and sets it
    updates in place, and the number of clock readings. *)
Record IState : Type := mkIState {
  expanded : Z;
  generated : Z;
  duplicates : Z;
  ever_seen : gset St;
  parents : gmap St (option St);
  max_depth : Z;
  solution_g : option Z;
  pathset : gset St;
  tick : nat
}.

Definition set_tick (st : IState) (tick1 : nat) : IState :=
  mkIState (expanded st) (generated st) (duplicates st) (ever_seen st) (parents st)
           (max_depth st) (solution_g st) (pathset st) tick1.

(** [max_depth = max(max_depth, depth)] *)
Definition note_depth (st : IState) (depth : Z) : IState :=
  mkIState (expanded st) (generated st) (duplicates st) (ever_seen st) (parents st)
           (Z.max (max_depth st) depth) (solution_g st) (pathset st) (tick st).

(** [solution_g = g] *)
Definition set_solution (st : IState) (g : Z) : IState :=
  mkIState (expanded st) (generated st) (duplicates st) (ever_seen st) (parents st)
           (max_depth st) (Some g) (pathset st) (tick st).

(** [expanded += 1] *)
Definition count_expanded (st : IState) : IState :=
  mkIState (expanded st + 1) (generated st) (duplicates st) (ever_seen st) (parents st)
           (max_depth st) (solution_g st) (pathset st) (tick st).

(** What [dfs] does for a child [s2] of [state] before the recursive call:
    [generated += 1], the duplicate count, [parents[s2] = state] and
    [pathset.add(s2)]. *)
Definition enter_child (state s2 : St) (st : IState) : IState :=
  let '(duplicates', ever_seen') :=
    if bool_decide (s2 ∈ ever_seen st)
    then (duplicates st + 1, ever_seen st)
    else (duplicates st, {[s2]} ∪ ever_seen st) in
  mkIState (expanded st) (generated st + 1) duplicates' ever_seen'
           (<[s2:=Some state]> (parents st)) (max_depth st)
           (solution_g st) ({[s2]} ∪ pathset st) (tick st).

(** [pathset.remove(s2)] *)
Definition leave_child (s2 : St) (st : IState) : IState :=
  mkIState (expanded st) (generated st) (duplicates st) (ever_seen st) (parents st)
           (max_depth st) (solution_g st) (pathset st ∖ {[s2]}) (tick st).

(** A fresh [pathset = {start}] for one round of the outer loop. *)
Definition new_pathset (st : IState) (start : St) : IState :=
  mkIState (expanded st) (generated st) (duplicates st) (ever_seen st) (parents st)
           (max_depth st) (solution_g st) {[start]} (tick st).

Variable default_neighbors : St → list (St * Z).
Variable clock : nat → Q.
Variable goal : St.
Variable hfun : St → Z.
Variable neighbors_fn : option (St → list (St * Z)).
Variable use_bpmx : bool.
Variable return_path : bool.
Variable timeout_sec : option Q.

Definition neighbors : St → list (St * Z) := default default_neighbors neighbors_fn.

(** [reconstruct_path(parents, goal)]: [parents.get(s)] is [None] for a
    missing key as for the start.  [None] when the fuel runs out. *)
Fixpoint path_to_root (fuel : nat) (parents : gmap St (option St)) (s : St)
  : option (list St) :=
  match fuel with
  | O => None
  | S fuel' =>
      match parents !! s with
      | Some (Some p) => cons s <$> path_to_root fuel' parents p
      | _ => Some [s]
      end
  end.

Definition reconstruct_path (fuel : nat) (parents : gmap St (option St)) (goal : St)
  : option (list St) :=
  reverse <$> path_to_root fuel parents goal.

(** The BPMX block of [dfs] for one child: [inl v] is the early
    [return g + h_parent], [inr (h_parent, h2)] the values the loop goes on
    with. *)
Definition bpmx (g bound h_parent h2_raw c : Z) : Z + Z * Z :=
  if use_bpmx then
    let maybe_parent := h2_raw - c in
    if h_parent <? maybe_parent then
      let h_parent := maybe_parent in
      if bound <? g + h_parent then inl (g + h_parent)
      else inr (h_parent, Z.max h2_raw (h_parent - c))
    else inr (h_parent, Z.max h2_raw (h_parent - c))
  else inr (h_parent, h2_raw).

(** The [for] loop of [dfs] over the children, with the recursive call as
    a parameter.  [pathset.remove(s2)] raises [KeyError] when [s2] is absent;
    that is [None], as is running out of fuel. *)
Fixpoint children
    (rec : St → Z → Z → Z → Z → IState → option (DfsRet * IState))
    (state : St) (g bound depth : Z)
    (l : list (St * Z)) (h_parent : Z) (min_next : DfsRet) (st : IState)
  : option (DfsRet * IState) :=
  match l with
  | [] => Some (min_next, st)
  | (s2, c) :: l' =>
      if bool_decide (s2 ∈ pathset st) then
        children rec state g bound depth l' h_parent min_next st
      else
        let g2 := g + c in
        let h2_raw := hfun s2 in
        match bpmx g bound h_parent h2_raw c with
        | inl v => Some (Num v, st)
        | inr (h_parent', h2) =>
            match rec s2 g2 bound h2 (depth + 1) (enter_child state s2 st) with
            | None => None
            | Some (t, st2) =>
                if is_timeout t then Some (TIMEOUT, st2)
                else if is_found t then Some (Num (-1), st2)
                else if bool_decide (s2 ∈ pathset st2) then
                  children rec state g bound depth l' h_parent'
                           (min_ret t min_next) (leave_child s2 st2)
                else None
            end
        end
  end.

(** The inner [dfs]; one unit of fuel per call depth. *)
Fixpoint dfs (t0 : Q) (fuel : nat) (state : St) (g bound h_s depth : Z) (st : IState)
  : option (DfsRet * IState) :=
  match fuel with
  | O => None
  | S fuel' =>
      let '(to, tick1) := timed_out clock timeout_sec t0 (tick st) in
      let st := set_tick st tick1 in
      if to then Some (TIMEOUT, st)
      else
        let st := note_depth st depth in
        let f_here := g + h_s in
        if bound <? f_here then Some (Num f_here, st)
        else if bool_decide (state = goal) then Some (Num (-1), set_solution st g)
        else
          children (dfs t0 fuel') state g bound depth (neighbors state) h_s Inf
                   (count_expanded st)
  end.

(** The three [return {...}] of [ida_star]. *)
Definition result (st : IState) (bound : Z) (path g : Value St) (time : Q)
    (termination : string) : gmap string (Value St) :=
  list_to_map
    [("path", path); ("g", g);
     ("expanded", VInt (expanded st)); ("generated", VInt (generated st));
     ("duplicates", VInt (duplicates st));
     ("peak_recursion", VInt (max_depth st)); ("bound_final", VInt bound);
     ("time", VFloat time);
     ("algorithm", VStr (if use_bpmx then "IDA* (BPMX ON)" else "IDA*"));
     ("termination", VStr termination)]%string.

(** [while True: ...]; [fuel] bounds the rounds, [fuel_dfs] the depth of
    each [dfs] and the length of the reconstructed path. *)
Fixpoint loop (t0 : Q) (fuel_dfs : nat) (fuel : nat) (start : St) (h0 bound : Z)
    (st : IState) : option (gmap string (Value St)) :=
  match fuel with
  | O => None
  | S fuel' =>
      match dfs t0 fuel_dfs start 0 bound h0 0 (new_pathset st start) with
      | None => None
      | Some (TIMEOUT, st1) =>
          Some (result st1 bound VNone VNone (Qminus (clock (tick st1)) t0) "timeout")
      | Some (Inf, st1) =>
          Some (result st1 bound VNone VNone (Qminus (clock (tick st1)) t0) "exhausted")
      | Some (Num t, st1) =>
          if Z.eqb t (-1) then
            match (if return_path
                   then VPath <$> reconstruct_path fuel_dfs (parents st1) goal
                   else Some VNone) with
            | Some path =>
                Some (result st1 bound path (opt_int (solution_g st1))
                             (Qminus (clock (tick st1)) t0) "ok")
            | None => None
            end
          else loop t0 fuel_dfs fuel' start h0 t st1
      end
  end.

Definition init (start : St) : IState :=
  mkIState 0 0 0 {[start]} {[start := None]} 0 None ∅ 1.

Definition ida_star (fuel : nat) (start : St) : option (gmap string (Value St)) :=
  let h0 := hfun start in
  loop (clock 0) fuel fuel start h0 h0 (init start).

End Defs.
End IdaStar.

(** ** [src/search/bfs.py] *)
Module Bfs.
Section Defs.
Context {St : Type} `{Countable St}.

Record BState : Type := mkBState {
  q : list St;
  parent : gmap St (option St);
  expanded : Z;
  generated : Z;
  seen : gset St;
  peak : Z;
  tick : nat
}.

Variable clock : nat → Q.
Variable goal : St.
Variable neighbors_fn : St → list (St * Z).
Variable timeout_sec : option Q.

(** The three [return {...}] of [bfs]: this record has no ["duplicates"]. *)
Definition result (st : BState) (path g : Value St) (time : Q) (termination : string)
  : gmap string (Value St) :=
  list_to_map
    [("path", path); ("g", g);
     ("expanded", VInt (expanded st)); ("generated", VInt (generated st));
     ("time", VFloat time);
     ("algorithm", VStr "BFS");
     ("termination", VStr termination)]%string.

(** [while s is not None: path.append(s); s = parent[s]; g += 1]: the path
    (goal first) and [g].  [parent[s]] raises [KeyError] on a missing key;
    that is [None], as is running out of fuel. *)
Fixpoint walk_back (fuel : nat) (parent : gmap St (option St)) (s : St) (path : list St)
    (g : Z) : option (list St * Z) :=
  match fuel with
  | O => None
  | S fuel' =>
      match parent !! s with
      | None => None
      | Some None => Some (path ++ [s], g + 1)
      | Some (Some p) => walk_back fuel' parent p (path ++ [s]) (g + 1)
      end
  end.

(** One round of [for s2, _ in neighbors_fn(s)]. *)
Definition visit (s : St) (st : BState) (edge : St * Z) : BState :=
  let s2 := edge.1 in
  if bool_decide (s2 ∈ seen st) then
    mkBState (q st) (parent st) (expanded st) (generated st + 1) (seen st)
             (peak st) (tick st)
  else
    mkBState (q st ++ [s2]) (<[s2:=Some s]> (parent st)) (expanded st)
             (generated st + 1) ({[s2]} ∪ seen st) (peak st) (tick st).

Fixpoint loop (t0 : Q) (fuel_path : nat) (fuel : nat) (st : BState)
  : option (gmap string (Value St)) :=
  match fuel with
  | O => None
  | S fuel' =>
      match q st with
      | [] => Some (result st VNone VNone (Qminus (clock (tick st)) t0) "exhausted")
      | s :: rest =>
          let '(to, tick1) := timed_out clock timeout_sec t0 (tick st) in
          if to then
            Some (result st VNone VNone (Qminus (clock tick1) t0) "timeout")
          else
            let peak' := Z.max (peak st) (Z.of_nat (length (q st))) in
            if bool_decide (s = goal) then
              match walk_back fuel_path (parent st) s [] 0 with
              | None => None
              | Some (path, g) =>
                  Some (result (mkBState rest (parent st) (expanded st) (generated st)
                                         (seen st) peak' tick1)
                               (VPath (reverse path)) (VInt (g - 1))
                               (Qminus (clock tick1) t0) "ok")
              end
            else
              let st1 := mkBState rest (parent st) (expanded st + 1) (generated st)
                                  (seen st) peak' tick1 in
              loop t0 fuel_path fuel' (foldl (visit s) st1 (neighbors_fn s))
      end
  end.

Definition init (start : St) : BState :=
  mkBState [start] {[start := None]} 0 0 {[start]} 1 1.

Definition bfs (fuel : nat) (start : St) : option (gmap string (Value St)) :=
  loop (clock 0) fuel fuel (init start).

End Defs.
End Bfs.

(** ** [src/search/dfs.py] *)
Module Dfs.
Section Defs.
Context {St : Type} `{Countable St}.

(** A stack entry [(state, depth, iterator, expanded_flag)]; the iterator
    is what is left of the list of neighbours. *)
Definition Frame : Type := St * Z * list (St * Z) * bool.

(** The stack has its top first. *)
Record DState : Type := mkDState {
  expanded : Z;
  generated : Z;
  duplicates : Z;
  peak_depth : Z;
  stack : list Frame;
  on_path : gset St;
  tick : nat
}.

Variable clock : nat → Q.
Variable goal : St.
Variable neighbors_fn : St → list (St * Z).
Variable max_depth : option Z.
Variable timeout_sec : option Q.

(** ["bound_final": max_depth if max_depth is not None else the empty string] *)
Definition bound_final : Value St :=
  match max_depth with
  | Some d => VInt d
  | None => VStr EmptyString
  end.

Definition result (expanded generated duplicates peak : Z) (g : Value St) (time : Q)
    (termination : string) : gmap string (Value St) :=
  list_to_map
    [("path", VNone); ("g", g);
     ("expanded", VInt expanded); ("generated", VInt generated);
     ("duplicates", VInt duplicates);
     ("peak_recursion", VInt peak); ("bound_final", bound_final);
     ("time", VFloat time);
     ("algorithm", VStr "DFS");
     ("termination", VStr termination)]%string.

(** [(max_depth is not None) and (d + 1 > max_depth)] *)
Definition too_deep (d : Z) : bool :=
  match max_depth with
  | Some m => m <? d + 1
  | None => false
  end.

(** [while stack: ...].  [on_path.remove(s)] raises [KeyError] when [s] is
    absent; that is [None], as is running out of fuel. *)
Fixpoint loop (t0 : Q) (fuel : nat) (st : DState) : option (gmap string (Value St)) :=
  match fuel with
  | O => None
  | S fuel' =>
      match stack st with
      | [] =>
          (* no solution within bound *)
          Some (result (expanded st) (generated st) (duplicates st) (peak_depth st)
                       VNone (Qminus (clock (tick st)) t0) "exhausted")
      | (s, d, it, did_expand) :: below =>
          let '(to, tick1) := timed_out clock timeout_sec t0 (tick st) in
          if to then
            Some (result (expanded st) (generated st) (duplicates st) (peak_depth st)
                         VNone (Qminus (clock tick1) t0) "timeout")
          else
            let peak' := Z.max (peak_depth st) d in
            match it with
            | [] =>
                (* done with s *)
                if bool_decide (s ∈ on_path st) then
                  loop t0 fuel'
                       (mkDState (expanded st) (generated st) (duplicates st) peak'
                                 below (on_path st ∖ {[s]}) tick1)
                else None
            | (s2, cost) :: it' =>
                if too_deep d then
                  loop t0 fuel'
                       (mkDState (expanded st) (generated st) (duplicates st) peak'
                                 ((s, d, it', did_expand) :: below) (on_path st) tick1)
                else if bool_decide (s2 ∈ on_path st) then
                  loop t0 fuel'
                       (mkDState (expanded st) (generated st) (duplicates st + 1) peak'
                                 ((s, d, it', did_expand) :: below) (on_path st) tick1)
                else
                  let expanded' := if did_expand then expanded st else expanded st + 1 in
                  let generated' := generated st + 1 in
                  if bool_decide (s2 = goal) then
                    Some (result expanded' generated' (duplicates st) peak'
                                 (VInt (d + 1)) (Qminus (clock tick1) t0) "ok")
                  else
                    loop t0 fuel'
                         (mkDState expanded' generated' (duplicates st) peak'
                                   ((s2, d + 1, neighbors_fn s2, false)
                                    :: (s, d, it', true) :: below)
                                   ({[s2]} ∪ on_path st) tick1)
            end
      end
  end.

Definition dfs (fuel : nat) (start : St) : option (gmap string (Value St)) :=
  let t0 := clock 0 in
  if bool_decide (start = goal) then
    Some (result 0 0 0 0 (VInt 0) (Qminus (clock 1) t0) "ok")
  else
    loop t0 fuel (mkDState 0 0 0 0 [(start, 0, neighbors_fn start, false)] {[start]} 1).

End Defs.
End Dfs.

(** ** [src/experiments/runner.py] *)
Module Runner.

(** [@dataclass class Instance] *)
Record Instance : Type := mkInstance {
  seed : Z;
  depth : Z;
  state : State
}.

(** How a call ends: with a value or with an exception. *)
Inductive Exn : Type :=
| RuntimeError      (* "Instance generation took too long ..." *)
| ScrambleError.    (* an exception raised inside [inst_scramble] *)

Inductive Outcome (A : Type) : Type :=
| Returns (a : A)
| Raises (e : Exn).
Arguments Returns {A} a.
Arguments Raises {A} e.

Section Gen.
Variable inst_scramble : Z → Z → option State.
Variable inst_is_solvable : State → bool.

(** [while made < per_depth: ...] for the depth [d]: the list [out] and the
    next [seed] when the loop is left.  [None] when the fuel runs out. *)
Fixpoint gen_depth (fuel : nat) (d per_depth made attempts seed : Z)
    (out : list Instance) : option (Outcome (list Instance * Z)) :=
  match fuel with
  | O => None
  | S fuel' =>
      if made <? per_depth then
        match inst_scramble d seed with
        | None => Some (Raises ScrambleError)
        | Some s =>
            let seed := seed + 1 in
            let attempts := attempts + 1 in
            let '(out, made) :=
              if inst_is_solvable s
              then (out ++ [mkInstance seed d s], made + 1)
              else (out, made) in
            if per_depth * 2000 <? attempts then Some (Raises RuntimeError)
            else gen_depth fuel' d per_depth made attempts seed out
        end
      else Some (Returns (out, seed))
  end.

(** [for d in depths: made = 0; attempts = 0; while ...] *)
Fixpoint gen_depths (fuel : nat) (depths : list Z) (per_depth seed : Z)
    (out : list Instance) : option (Outcome (list Instance)) :=
  match depths with
  | [] => Some (Returns out)
  | d :: depths' =>
      match gen_depth fuel d per_depth 0 0 seed out with
      | None => None
      | Some (Raises e) => Some (Raises e)
      | Some (Returns (out', seed')) => gen_depths fuel depths' per_depth seed' out'
      end
  end.

Definition _gen (fuel : nat) (depths : list Z) (per_depth start_seed : Z)
  : option (Outcome (list Instance)) :=
  gen_depths fuel depths per_depth start_seed [].
End Gen.

(** [next(k for k, v in enumerate(l, start=k0) if v != 0)]
    ([StopIteration] is [None]) *)
Fixpoint first_nonzero (k0 : nat) (l : list Z) : option nat :=
  match l with
  | [] => None
  | v :: r => if Z.eqb v 0 then first_nonzero (S k0) r else Some k0
  end.

Definition make_unsolvable_variant (s : State) : option State :=
  i ← first_nonzero 0 s;
  j ← first_nonzero (S i) (drop (S i) s);
  swap i j s.

End Runner.

(** * Graph notions of the statements

    A search problem is a successor function [neighbors]; [path_cost s n t]
    says that some path from [s] to [t] along its edges has total cost [n]. *)

Section Graph.
Context {St : Type}.
Variable neighbors : St → list (St * Z).

Inductive path_cost : St → Z → St → Prop :=
| path_nil s : path_cost s 0 s
| path_step s s1 c n t :
    (s1, c) ∈ neighbors s → path_cost s1 n t → path_cost s (c + n) t.

(** [n] is the least cost of a path from [s] to [t]. *)
Definition shortest (s : St) (n : Z) (t : St) : Prop :=
  path_cost s n t ∧ ∀ m, path_cost s m t → n ≤ m.

Definition unit_costs : Prop :=
  ∀ s s1 c, (s1, c) ∈ neighbors s → c = 1.

(** [h] never overestimates the cost of reaching [goal]. *)
Definition admissible (h : St → Z) (goal : St) : Prop :=
  ∀ s n, path_cost s n goal → h s ≤ n.

Definition consistent (h : St → Z) : Prop :=
  ∀ s s1 c, (s1, c) ∈ neighbors s → h s ≤ c + h s1.

Lemma path_cost_snoc (s t u : St) (n c : Z) :
  path_cost s n t → (u, c) ∈ neighbors t → path_cost s (n + c) u.
Proof.
  induction 1 as [s|s s1 c1 n t Hin Hp IH]; intros Hu.
  - replace (0 + c) with (c + 0) by lia. eapply path_step; [done|constructor].
  - replace (c1 + n + c) with (c1 + (n + c)) by lia.
    eapply path_step; [done|by apply IH].
Qed.

Lemma path_cost_app (s t u : St) (n m : Z) :
  path_cost s n t → path_cost t m u → path_cost s (n + m) u.
Proof.
  induction 1 as [s|s s1 c1 n t Hin Hp IH]; intros Hu; [done|].
  replace (c1 + n + m) with (c1 + (n + m)) by lia.
  eapply path_step; [done|by apply IH].
Qed.

Lemma path_cost_nonneg (s t : St) (n : Z) :
  unit_costs → path_cost s n t → 0 ≤ n.
Proof.
  intros Hu. induction 1 as [s|s s1 c1 n t Hin Hp IH]; [done|].
  rewrite (Hu _ _ _ Hin). lia.
Qed.
End Graph.

(** * Theory of the domains *)

(** ** Lists: [index], [swap] and the double loop *)

Lemma index_app_fresh (x : Z) (A B : State) :
  x ∉ A → index x (A ++ x :: B) = Some (length A).
Proof.
  induction A as [|a A IH]; intros Hx; simpl.
  - by rewrite Z.eqb_refl.
  - destruct (Z.eqb_spec a x) as [->|_]; [set_solver|].
    rewrite IH; [done|set_solver].
Qed.

Lemma index_Some_lookup (x : Z) (s : State) (i : nat) :
  index x s = Some i → s !! i = Some x.
Proof.
  revert i. induction s as [|a s IH]; intros i; simpl; [done|].
  destruct (Z.eqb_spec a x) as [->|_].
  - by intros [= <-].
  - destruct (index x s) as [k|]; simpl; [|done].
    intros [= <-]. by apply IH.
Qed.

Lemma index_is_Some (x : Z) (s : State) : x ∈ s → is_Some (index x s).
Proof.
  induction s as [|a s IH]; simpl; [by intros ?%elem_of_nil|].
  intros Hin. destruct (Z.eqb_spec a x); [by eexists|].
  destruct IH as [k ->]; [set_solver|]. by eexists.
Qed.

(** Swapping two positions, seen on the three-part split of the list. *)
Lemma swap_split (s : State) (i j : nat) (a b : Z) :
  (i < j)%nat → s !! i = Some a → s !! j = Some b →
  ∃ A M B, s = A ++ a :: M ++ b :: B ∧ length A = i
           ∧ length M = (j - i - 1)%nat
           ∧ <[j:=a]> (<[i:=b]> s) = A ++ b :: M ++ a :: B.
Proof.
  intros Hij Hi Hj.
  destruct (list_elem_of_split_length _ _ _ Hi) as (A & T & -> & HA).
  assert (T !! (j - i - 1)%nat = Some b) as HT.
  { rewrite lookup_app_r in Hj; [|lia].
    replace (j - length A)%nat with (S (j - i - 1)) in Hj by lia. done. }
  destruct (list_elem_of_split_length _ _ _ HT) as (M & B & -> & HM).
  exists A, M, B. repeat split; [lia..|].
  rewrite (insert_app_r_alt A _ i); [|lia].
  replace (i - length A)%nat with 0%nat by lia. simpl.
  rewrite (insert_app_r_alt A _ j); [|lia].
  replace (j - length A)%nat with (S (length M)) by lia. simpl.
  rewrite (insert_app_r_alt M _ (length M)); [|lia].
  replace (length M - length M)%nat with 0%nat by lia. done.
Qed.

Lemma foldl_ext_in {A B} (f g : A → B → A) (l : list B) (a : A) :
  (∀ a y, y ∈ l → f a y = g a y) → foldl f a l = foldl g a l.
Proof.
  revert a. induction l as [|y l IH]; intros a Hfg; simpl; [done|].
  rewrite Hfg by set_solver. apply IH. intros; apply Hfg; set_solver.
Qed.

Lemma lookups_seq {A} `{Inhabited A} (l : list A) (k : nat) :
  (λ j, l !!! j) <$> seq k (length l - k) = drop k l.
Proof.
  revert k. induction l as [|x l IH]; intros k; [by destruct k|].
  destruct k as [|k]; simpl.
  - f_equal. rewrite <- fmap_S_seq, <- list_fmap_compose.
    specialize (IH 0%nat). rewrite Nat.sub_0_r, drop_0 in IH.
    rewrite <- IH at 2. done.
  - rewrite <- (IH k), <- fmap_S_seq, <- list_fmap_compose. done.
Qed.

Lemma pair_loop_drop {A} `{Inhabited A} (l : list A) body init :
  pair_loop l body init
  = foldl (λ acc i, foldl (λ acc y, body (l !!! i) y acc) acc (drop (S i) l))
          init (seq 0 (length l)).
Proof.
  unfold pair_loop. apply foldl_ext_in. intros a i _.
  rewrite <- (lookups_seq l (S i)). by rewrite foldl_fmap.
Qed.

Lemma pair_loop_cons {A} `{Inhabited A} (x : A) (l : list A) body init :
  pair_loop (x :: l) body init
  = pair_loop l body (foldl (λ acc y, body x y acc) init l).
Proof.
  rewrite !pair_loop_drop. simpl length.
  change (seq 0 (S (length l))) with (0%nat :: seq 1 (length l)).
  simpl foldl at 1. rewrite drop_0.
  rewrite <- fmap_S_seq, foldl_fmap. done.
Qed.

(** The inversion count by structural recursion. *)
Fixpoint inv_count (l : list Z) : Z :=
  match l with
  | [] => 0
  | x :: r => Z.of_nat (length (filter (λ y, y < x) r)) + inv_count r
  end.

Lemma inversions_body_fold (x : Z) (l : list Z) (init : Z) :
  foldl (λ inv y, if Z.ltb y x then inv + 1 else inv) init l
  = init + Z.of_nat (length (filter (λ y, y < x) l)).
Proof.
  revert init. induction l as [|y l IH]; intros init; simpl; [lia|].
  rewrite IH, filter_cons. destruct (Z.ltb_spec y x); case_decide; simpl; lia.
Qed.

Lemma pair_loop_inv_count (l : list Z) (init : Z) :
  pair_loop l (λ ai aj inv, if Z.ltb aj ai then inv + 1 else inv) init
  = init + inv_count l.
Proof.
  revert init. induction l as [|x l IH]; intros init.
  - unfold pair_loop. simpl. lia.
  - rewrite pair_loop_cons, IH, inversions_body_fold. simpl. lia.
Qed.

Lemma inversions_inv_count (s : State) :
  inversions s = inv_count (filter (λ x, x ≠ 0) s).
Proof. unfold inversions. by rewrite pair_loop_inv_count. Qed.

(** ** Inversions under a blank move *)

Fixpoint cross (X Y : list Z) : Z :=
  match X with
  | [] => 0
  | x :: X' => Z.of_nat (length (filter (λ y, y < x) Y)) + cross X' Y
  end.

Lemma inv_count_app (X Y : list Z) :
  inv_count (X ++ Y) = inv_count X + inv_count Y + cross X Y.
Proof.
  induction X as [|x X IH]; simpl; [lia|].
  rewrite IH, filter_app, length_app. lia.
Qed.

Lemma cross_middle (X M B : list Z) (t : Z) :
  cross X (M ++ t :: B) = cross X (t :: M ++ B).
Proof.
  induction X as [|x X IH]; simpl; [done|].
  rewrite IH. f_equal. f_equal.
  rewrite filter_app, !filter_cons, filter_app.
  case_decide; rewrite ?length_app; simpl; rewrite ?length_app; lia.
Qed.

Lemma cross_cons_r (M B : list Z) (t : Z) :
  cross M (t :: B) = Z.of_nat (length (filter (λ m, t < m) M)) + cross M B.
Proof.
  induction M as [|m M IH]; simpl; [done|].
  rewrite IH, !filter_cons. repeat case_decide; simpl; lia.
Qed.

Lemma filter_lt_gt_length (M : list Z) (t : Z) :
  t ∉ M →
  (length (filter (λ m, (t < m)%Z) M) + length (filter (λ m, (m < t)%Z) M) = length M)%nat.
Proof.
  induction M as [|m M IH]; intros Ht; simpl; [done|].
  rewrite !filter_cons.
  assert (m ≠ t) by set_solver. assert (t ∉ M) by set_solver.
  specialize (IH ltac:(done)).
  repeat case_decide; simpl; lia.
Qed.

(** Moving [t] across the block [M] changes the count by [|M|] up to an
    even number. *)
Lemma inv_count_shift (A M B : list Z) (t : Z) :
  t ∉ M →
  ∃ k, inv_count (A ++ M ++ t :: B)
       = inv_count (A ++ t :: M ++ B) + Z.of_nat (length M) - 2 * k.
Proof.
  intros Ht. exists (Z.of_nat (length (filter (λ m, m < t) M))).
  rewrite !inv_count_app, cross_middle. simpl.
  rewrite inv_count_app, cross_cons_r, filter_app, length_app.
  pose proof (filter_lt_gt_length M t Ht). lia.
Qed.

Lemma filter_nonzero_id (M : list Z) : 0 ∉ M → filter (λ x, x ≠ 0) M = M.
Proof.
  induction M as [|m M IH]; intros H0; [done|].
  rewrite filter_cons. case_decide; [|set_solver].
  f_equal. apply IH. set_solver.
Qed.

(** The effect of sliding a tile into the blank at [z] from position [j]. *)
Lemma blank_move_effect (s : State) (z j : nat) :
  NoDup s → index 0 s = Some z → j ≠ z → (j < length s)%nat →
  ∃ s', swap z j s = Some s' ∧ s' ≡ₚ s ∧ index 0 s' = Some j
        ∧ ∃ k, inversions s'
               = inversions s + Z.of_nat (Nat.max (z - j) (j - z) - 1) - 2 * k.
Proof.
  intros Hnd Hz Hne Hj.
  apply index_Some_lookup in Hz.
  destruct (lookup_lt_is_Some_2 s j Hj) as [t Ht].
  unfold swap. rewrite Hz, Ht. simpl. eexists; split; [done|].
  rewrite !inversions_inv_count.
  destruct (decide (z < j)%nat) as [Hlt|Hge].
  - destruct (swap_split s z j 0 t Hlt Hz Ht) as (A & M & B & -> & HA & HM & ->).
    apply NoDup_app in Hnd as (HndA & HA0 & Hnd).
    apply NoDup_cons in Hnd as (H0 & Hnd).
    apply NoDup_app in Hnd as (HndM & HMt & Hnd).
    apply NoDup_cons in Hnd as (HtB & HndB).
    assert (0 ∉ A) by (intros ?; eapply HA0; [done|set_solver]).
    assert (0 ∉ M) by set_solver. assert (t ≠ 0) by set_solver.
    assert (t ∉ M) by (intros ?; eapply HMt; [done|set_solver]).
    split; [|split].
    + apply Permutation_app_head. rewrite <- !Permutation_middle.
      rewrite perm_swap. done.
    + rewrite (app_comm_cons M), app_assoc. rewrite index_app_fresh.
      * f_equal. rewrite length_app. simpl. lia.
      * set_solver.
    + rewrite !filter_app, !filter_cons, !filter_app, !filter_cons.
      repeat case_decide; try done.
      rewrite (filter_nonzero_id M) by done.
      destruct (inv_count_shift (filter (λ x, x ≠ 0) A) M (filter (λ x, x ≠ 0) B) t)
        as [k Hk]; [done|].
      exists (Z.of_nat (length M) - k). rewrite Hk.
      replace (Nat.max (z - j) (j - z) - 1)%nat with (length M) by lia. lia.
  - assert (j < z)%nat as Hlt by lia.
    rewrite list_insert_insert_ne by done.
    destruct (swap_split s j z t 0 Hlt Ht Hz) as (A & M & B & -> & HA & HM & ->).
    apply NoDup_app in Hnd as (HndA & HAt & Hnd).
    apply NoDup_cons in Hnd as (Ht' & Hnd).
    apply NoDup_app in Hnd as (HndM & HM0 & Hnd).
    apply NoDup_cons in Hnd as (H0B & HndB).
    assert (0 ∉ A) by (intros ?; eapply HAt; [done|set_solver]).
    assert (0 ∉ M) by (intros ?; eapply HM0; [done|set_solver]).
    assert (t ≠ 0) by set_solver.
    assert (t ∉ M) by set_solver.
    split; [|split].
    + apply Permutation_app_head. rewrite <- !Permutation_middle.
      rewrite perm_swap. done.
    + rewrite index_app_fresh by done. by rewrite HA.
    + rewrite !filter_app, !filter_cons, !filter_app, !filter_cons.
      repeat case_decide; try done.
      rewrite (filter_nonzero_id M) by done.
      destruct (inv_count_shift (filter (λ x, x ≠ 0) A) M (filter (λ x, x ≠ 0) B) t)
        as [k Hk]; [done|].
      exists k. rewrite Hk.
      replace (Nat.max (z - j) (j - z) - 1)%nat with (length M) by lia. lia.
Qed.

(** ** Boards of the R×C puzzle and the parity rule *)

Definition board (self : RectPuzzle.t) (s : State) : Prop :=
  s ≡ₚ RectPuzzle.GOAL self.

Lemma GOAL_NoDup (self : RectPuzzle.t) : NoDup (RectPuzzle.GOAL self).
Proof.
  unfold RectPuzzle.GOAL. apply NoDup_app. split; [|split].
  - apply NoDup_fmap_2; [apply Nat2Z.inj'|apply NoDup_seq].
  - intros x Hx ->%list_elem_of_singleton.
    apply list_elem_of_fmap in Hx as (n & Hn & Hin).
    apply elem_of_seq in Hin. lia.
  - apply NoDup_singleton.
Qed.

Lemma GOAL_length (self : RectPuzzle.t) :
  (0 < RectPuzzle.size self)%nat →
  length (RectPuzzle.GOAL self) = RectPuzzle.size self.
Proof.
  intros. unfold RectPuzzle.GOAL.
  rewrite length_app, length_fmap, length_seq. simpl. lia.
Qed.

Lemma board_facts (self : RectPuzzle.t) (s : State) :
  (0 < RectPuzzle.size self)%nat → board self s →
  NoDup s ∧ length s = RectPuzzle.size self
  ∧ ∃ z, index 0 s = Some z ∧ (z < RectPuzzle.size self)%nat.
Proof.
  intros Hsz Hb. unfold board in Hb.
  assert (NoDup s) by (rewrite Hb; apply GOAL_NoDup).
  assert (length s = RectPuzzle.size self) as Hlen
    by (rewrite Hb; by apply GOAL_length).
  do 2 (split; [done|]).
  destruct (index_is_Some 0 s) as [z Hz].
  { rewrite Hb. unfold RectPuzzle.GOAL. set_solver. }
  exists z. split; [done|].
  apply index_Some_lookup in Hz. apply lookup_lt_Some in Hz. lia.
Qed.

Lemma nei_cases (self : RectPuzzle.t) (z j : nat) (js : list nat) :
  RectPuzzle._nei self z = Some js → j ∈ js →
  (z < RectPuzzle.R self * RectPuzzle.C self)%nat
  ∧ (j < RectPuzzle.R self * RectPuzzle.C self)%nat ∧
  ((j + RectPuzzle.C self = z ∧ j / RectPuzzle.C self + 1 = z / RectPuzzle.C self)
   ∨ (j = z + RectPuzzle.C self ∧ j / RectPuzzle.C self = z / RectPuzzle.C self + 1)
   ∨ (j + 1 = z ∧ j / RectPuzzle.C self = z / RectPuzzle.C self)
   ∨ (j = z + 1 ∧ j / RectPuzzle.C self = z / RectPuzzle.C self))%nat.
Proof.
  unfold RectPuzzle._nei, RectPuzzle.size.
  set (R := RectPuzzle.R self). set (C := RectPuzzle.C self).
  intros Hn Hj. case_bool_decide as Hz; [|done].
  injection Hn as <-.
  assert (C ≠ 0)%nat as HC0 by (intros E; rewrite E in Hz; lia).
  pose proof (Nat.div_mod_eq z C) as Hdm.
  pose proof (Nat.mod_upper_bound z C HC0) as Hmod.
  set (r := (z / C)%nat) in *. set (c := (z mod C)%nat) in *.
  assert (r < R)%nat as HrR by nia.
  split; [done|].
  rewrite !elem_of_app in Hj.
  destruct Hj as [Hj|[Hj|[Hj|Hj]]]; case_bool_decide as Hc; try (by apply elem_of_nil in Hj);
    apply list_elem_of_singleton in Hj; subst j.
  - split; [lia|]. left.
    assert ((z - C) / C = r - 1)%nat as ->
      by (symmetry; apply (Nat.div_unique _ _ _ c); [done|nia]).
    split; nia.
  - split; [nia|]. right; left.
    assert ((z + C) / C = r + 1)%nat as ->
      by (symmetry; apply (Nat.div_unique _ _ _ c); [done|nia]).
    done.
  - split; [lia|]. right; right; left.
    assert ((z - 1) / C = r)%nat as ->
      by (symmetry; apply (Nat.div_unique _ _ _ (c - 1)); [lia|nia]).
    split; lia.
  - split; [nia|]. right; right; right.
    assert ((z + 1) / C = r)%nat as ->
      by (symmetry; apply (Nat.div_unique _ _ _ (c + 1)); [lia|nia]).
    done.
Qed.

Lemma mod2_shift (a q : Z) : (a + 2 * q) mod 2 = a mod 2.
Proof. rewrite (Z.mul_comm 2 q). apply Z_mod_plus_full. Qed.

(** A blank move keeps the board and the value of [is_solvable]. *)
Lemma rect_move_solvable (self : RectPuzzle.t) (s : State) (z j : nat) (js : list nat) :
  board self s → index 0 s = Some z →
  RectPuzzle._nei self z = Some js → j ∈ js →
  ∃ s', swap z j s = Some s' ∧ board self s'
        ∧ RectPuzzle.is_solvable self s' = RectPuzzle.is_solvable self s.
Proof.
  intros Hb Hz Hn Hj.
  destruct (nei_cases self z j js Hn Hj) as (HzS & HjS & Hcases).
  destruct (board_facts self s) as (Hnd & Hlen & _); [unfold RectPuzzle.size; lia|done|].
  destruct (blank_move_effect s z j Hnd Hz) as (s' & Hsw & Hperm & Hz' & k & Hinv).
  { lia. }
  { rewrite Hlen. done. }
  exists s'. split; [done|]. split; [by unfold board; rewrite Hperm|].
  unfold RectPuzzle.is_solvable. rewrite Hz, Hz', Hinv.
  set (C := RectPuzzle.C self) in *. set (R := RectPuzzle.R self) in *.
  assert (C ≠ 0)%nat as HC0 by lia.
  pose proof (Nat.div_mod_eq C 2) as HC2.
  pose proof (Nat.mod_upper_bound C 2 ltac:(done)) as HC2b.
  destruct (Nat.eqb_spec (C mod 2) 1) as [Hodd|Heven].
  - f_equal.
    destruct Hcases as [[? ?]|[[? ?]|[[? ?]|[? ?]]]].
    + replace (Nat.max (z - j) (j - z) - 1)%nat with (2 * (C / 2))%nat by lia.
      rewrite Nat2Z.inj_mul.
      replace (inversions s + Z.of_nat 2 * Z.of_nat (C / 2) - 2 * k)
        with (inversions s + 2 * (Z.of_nat (C / 2) - k)) by lia.
      apply mod2_shift.
    + replace (Nat.max (z - j) (j - z) - 1)%nat with (2 * (C / 2))%nat by lia.
      rewrite Nat2Z.inj_mul.
      replace (inversions s + Z.of_nat 2 * Z.of_nat (C / 2) - 2 * k)
        with (inversions s + 2 * (Z.of_nat (C / 2) - k)) by lia.
      apply mod2_shift.
    + replace (Nat.max (z - j) (j - z) - 1)%nat with 0%nat by lia.
      replace (inversions s + Z.of_nat 0 - 2 * k) with (inversions s + 2 * (- k)) by lia.
      apply mod2_shift.
    + replace (Nat.max (z - j) (j - z) - 1)%nat with 0%nat by lia.
      replace (inversions s + Z.of_nat 0 - 2 * k) with (inversions s + 2 * (- k)) by lia.
      apply mod2_shift.
  - assert (C = 2 * (C / 2))%nat as HCe by lia.
    f_equal.
    destruct Hcases as [[? Hr]|[[? Hr]|[[? Hr]|[? Hr]]]].
    + replace (Nat.max (z - j) (j - z) - 1)%nat with (C - 1)%nat by lia.
      replace (inversions s + Z.of_nat (C - 1) - 2 * k + (Z.of_nat R - Z.of_nat (j / C)))
        with (inversions s + (Z.of_nat R - Z.of_nat (z / C)) + 2 * (Z.of_nat (C / 2) - k)) by lia.
      apply mod2_shift.
    + replace (Nat.max (z - j) (j - z) - 1)%nat with (C - 1)%nat by lia.
      replace (inversions s + Z.of_nat (C - 1) - 2 * k + (Z.of_nat R - Z.of_nat (j / C)))
        with (inversions s + (Z.of_nat R - Z.of_nat (z / C)) + 2 * (Z.of_nat (C / 2) - k - 1)) by lia.
      apply mod2_shift.
    + replace (Nat.max (z - j) (j - z) - 1)%nat with 0%nat by lia. rewrite Hr.
      replace (inversions s + Z.of_nat 0 - 2 * k + (Z.of_nat R - Z.of_nat (z / C)))
        with (inversions s + (Z.of_nat R - Z.of_nat (z / C)) + 2 * (- k)) by lia.
      apply mod2_shift.
    + replace (Nat.max (z - j) (j - z) - 1)%nat with 0%nat by lia. rewrite Hr.
      replace (inversions s + Z.of_nat 0 - 2 * k + (Z.of_nat R - Z.of_nat (z / C)))
        with (inversions s + (Z.of_nat R - Z.of_nat (z / C)) + 2 * (- k)) by lia.
      apply mod2_shift.
Qed.

(** ** The random walk keeps any invariant that blank moves keep *)

Lemma list_remove_subseteq (x : nat) (l : list nat) : list_remove x l ⊆ l.
Proof.
  induction l as [|y l IH]; simpl; [done|].
  destruct (Nat.eqb y x); set_solver.
Qed.

Lemma list_remove_nonempty (x : nat) (l : list nat) :
  (1 < length l)%nat → list_remove x l ≠ [].
Proof.
  destruct l as [|y [|y' l]]; simpl; try lia.
  intros _. by destruct (Nat.eqb y x).
Qed.

Section ScrambleTheory.
Context {G : Type} (Random : Z → G) (choice : G → list nat → nat * G).
Hypothesis choice_elem : ∀ g cand, cand ≠ [] → (choice g cand).1 ∈ cand.
Variable nei : nat → option (list nat).
Variable Inv : State → Prop.
Hypothesis Inv_move :
  ∀ s, Inv s →
       ∃ z js, index 0 s = Some z ∧ nei z = Some js ∧ js ≠ []
               ∧ ∀ j, j ∈ js → ∃ s', swap z j s = Some s' ∧ Inv s'.

Lemma scramble_step_inv (s : State) (lb : option nat) (g : G) :
  Inv s →
  ∃ s' lb' g', scramble_step choice nei (s, lb, g) = Some (s', lb', g') ∧ Inv s'.
Proof using choice_elem Inv_move.
  intros HI. destruct (Inv_move s HI) as (z & js & Hz & Hn & Hne & Hmv).
  unfold scramble_step. rewrite Hz. simpl. rewrite Hn. simpl.
  set (cand := match lb with
               | Some lb0 => if bool_decide (lb0 ∈ js) && bool_decide (1 < length js)%nat
                             then list_remove lb0 js else js
               | None => js
               end).
  assert (cand ≠ [] ∧ cand ⊆ js) as [Hc1 Hc2].
  { subst cand. destruct lb as [lb0|]; [|done].
    destruct (bool_decide (lb0 ∈ js)); simpl; [|done].
    case_bool_decide; [|done].
    split; [by apply list_remove_nonempty|apply list_remove_subseteq]. }
  pose proof (choice_elem g cand Hc1) as Hin.
  destruct cand as [|c0 cand'] eqn:Hcand; [done|].
  destruct (choice g (c0 :: cand')) as [j g'] eqn:Hch. simpl in Hin.
  destruct (Hmv j) as (s' & Hsw & HI'); [by apply Hc2|].
  rewrite Hsw. simpl. by exists s', (Some z), g'.
Qed.

Lemma scramble_loop_inv (n : nat) (s : State) (lb : option nat) (g : G) :
  Inv s →
  ∃ s' lb' g', scramble_loop choice nei n (s, lb, g) = Some (s', lb', g') ∧ Inv s'.
Proof using choice_elem Inv_move.
  revert s lb g. induction n as [|n IH]; intros s lb g HI.
  - by exists s, lb, g.
  - destruct (scramble_step_inv s lb g HI) as (s1 & lb1 & g1 & Hst & HI1).
    cbn [scramble_loop]. rewrite Hst. by apply IH.
Qed.

Lemma scramble_walk_inv (goal : State) (depth seed : Z) :
  Inv goal →
  ∃ s, scramble_walk Random choice nei goal depth seed = Some s ∧ Inv s.
Proof using choice_elem Inv_move.
  intros HI. unfold scramble_walk.
  destruct (scramble_loop_inv (Z.to_nat depth) goal None (Random seed) HI)
    as (s & lb & g & -> & HI').
  simpl. by exists s.
Qed.
End ScrambleTheory.

(** ** The goal is solvable *)

Lemma filter_none {A} (P : A → Prop) `{∀ x, Decision (P x)} (l : list A) :
  (∀ x, x ∈ l → ¬ P x) → filter P l = [].
Proof.
  induction l as [|y l IH]; intros HP; [done|].
  rewrite filter_cons_False by (apply HP; set_solver).
  apply IH. intros; apply HP; set_solver.
Qed.

Lemma inv_count_increasing (a n : nat) : inv_count (Z.of_nat <$> seq a n) = 0.
Proof.
  revert a. induction n as [|n IH]; intros a; simpl; [done|].
  rewrite IH, filter_none; [done|].
  intros x Hx.
  apply list_elem_of_fmap in Hx as (m & -> & Hm).
  apply elem_of_seq in Hm. lia.
Qed.

Lemma rect_GOAL_solvable (self : RectPuzzle.t) :
  (2 ≤ RectPuzzle.R self)%nat → (2 ≤ RectPuzzle.C self)%nat →
  RectPuzzle.is_solvable self (RectPuzzle.GOAL self) = true.
Proof.
  intros HR HC. unfold RectPuzzle.is_solvable.
  assert (inversions (RectPuzzle.GOAL self) = 0) as ->.
  { rewrite inversions_inv_count. unfold RectPuzzle.GOAL.
    rewrite filter_app, filter_cons, filter_nil. case_decide; [done|].
    rewrite app_nil_r, filter_nonzero_id; [apply inv_count_increasing|].
    intros Hx. apply list_elem_of_fmap in Hx as (m & ? & Hm).
    apply elem_of_seq in Hm. lia. }
  destruct (Nat.eqb (RectPuzzle.C self mod 2) 1); [done|].
  assert (index 0 (RectPuzzle.GOAL self) = Some (RectPuzzle.size self - 1)%nat) as ->.
  { unfold RectPuzzle.GOAL. rewrite index_app_fresh.
    - by rewrite length_fmap, length_seq.
    - intros Hx. apply list_elem_of_fmap in Hx as (m & ? & Hm).
      apply elem_of_seq in Hm. lia. }
  unfold RectPuzzle.size.
  set (R := RectPuzzle.R self) in *. set (C := RectPuzzle.C self) in *.
  assert ((R * C - 1) / C = R - 1)%nat as ->.
  { symmetry. apply (Nat.div_unique _ _ _ (C - 1)); [lia|nia]. }
  replace (0 + (Z.of_nat R - Z.of_nat (R - 1))) with 1 by lia. done.
Qed.

Lemma rect_nei_nonempty (self : RectPuzzle.t) (z : nat) (js : list nat) :
  (2 ≤ RectPuzzle.R self)%nat →
  RectPuzzle._nei self z = Some js → js ≠ [].
Proof.
  intros HR. unfold RectPuzzle._nei. case_bool_decide; [|done].
  intros [= <-].
  destruct (decide (0 < z / RectPuzzle.C self)%nat).
  - rewrite bool_decide_eq_true_2 by done. done.
  - rewrite (bool_decide_eq_false_2 (0 < _)%nat) by done.
    rewrite (bool_decide_eq_true_2 (_ < RectPuzzle.R self - 1)%nat) by lia. done.
Qed.

Definition rect_inv (self : RectPuzzle.t) (s : State) : Prop :=
  board self s ∧ RectPuzzle.is_solvable self s = true.

Lemma rect_inv_move (self : RectPuzzle.t) :
  (2 ≤ RectPuzzle.R self)%nat → (2 ≤ RectPuzzle.C self)%nat →
  ∀ s, rect_inv self s →
       ∃ z js, index 0 s = Some z ∧ RectPuzzle._nei self z = Some js ∧ js ≠ []
               ∧ ∀ j, j ∈ js → ∃ s', swap z j s = Some s' ∧ rect_inv self s'.
Proof.
  intros HR HC s [Hb Hs].
  destruct (board_facts self s) as (_ & _ & z & Hz & Hlt);
    [unfold RectPuzzle.size; nia|done|].
  assert (∃ js, RectPuzzle._nei self z = Some js) as [js Hjs].
  { unfold RectPuzzle._nei. rewrite bool_decide_eq_true_2 by done. by eexists. }
  exists z, js. split; [done|]. split; [done|].
  split; [by eapply rect_nei_nonempty|].
  intros j Hj.
  destruct (rect_move_solvable self s z j js Hb Hz Hjs Hj) as (s' & ? & ? & Hs').
  exists s'. split; [done|]. split; [done|]. by rewrite Hs'.
Qed.

(** ** The 3×3 module and the N×N class against the R×C class *)

Definition board33 : RectPuzzle.t := {| RectPuzzle.R := 3; RectPuzzle.C := 3 |}.

Lemma puzzle8_is_solvable_rect (s : State) :
  Puzzle8.is_solvable s = RectPuzzle.is_solvable board33 s.
Proof. reflexivity. Qed.

Lemma puzzle8_NEI_rect (z : nat) :
  (z < 9)%nat →
  ∃ js js', Puzzle8._NEI z = Some js ∧ RectPuzzle._nei board33 z = Some js'
            ∧ js ≠ [] ∧ js ⊆ js'.
Proof.
  intros Hz.
  do 9 (destruct z as [|z];
        [eexists _, _; split; [reflexivity|]; split; [reflexivity|];
         split; [done|set_solver]|]).
  lia.
Qed.

Lemma puzzle8_inv_move (s : State) :
  rect_inv board33 s →
  ∃ z js, index 0 s = Some z ∧ Puzzle8._NEI z = Some js ∧ js ≠ []
          ∧ ∀ j, j ∈ js → ∃ s', swap z j s = Some s' ∧ rect_inv board33 s'.
Proof.
  intros HI.
  destruct (rect_inv_move board33 ltac:(simpl; lia) ltac:(simpl; lia) s HI)
    as (z & js' & Hz & Hn' & _ & Hmv).
  assert (z < 9)%nat as Hz9.
  { unfold RectPuzzle._nei in Hn'. case_bool_decide as Hlt; [|done]. exact Hlt. }
  destruct (puzzle8_NEI_rect z Hz9) as (js & js'' & Hn & Hn'' & Hne & Hsub).
  assert (js'' = js') as -> by congruence.
  exists z, js. repeat split; try done. intros j Hj. apply Hmv. by apply Hsub.
Qed.

Definition npuzzle_rect (self : NPuzzle.t) : RectPuzzle.t :=
  {| RectPuzzle.R := NPuzzle.N self; RectPuzzle.C := NPuzzle.N self |}.

Lemma npuzzle_scramble_rect {G} (Random : Z → G) choice (self : NPuzzle.t) depth seed :
  NPuzzle.scramble Random choice self depth seed
  = RectPuzzle.scramble Random choice (npuzzle_rect self) depth seed.
Proof. reflexivity. Qed.

Lemma npuzzle_is_solvable_rect (self : NPuzzle.t) (s : State) :
  NPuzzle.is_solvable self s = RectPuzzle.is_solvable (npuzzle_rect self) s.
Proof. reflexivity. Qed.

(** A concrete generator for the examples: a counter, and the element at the
    counter modulo the length. *)
Definition counter_Random (seed : Z) : nat := Z.to_nat (Z.abs seed).
Definition counter_choice (g : nat) (cand : list nat) : nat * nat :=
  (nth (g mod length cand) cand 0%nat, S g).

Lemma counter_choice_elem (g : nat) (cand : list nat) :
  cand ≠ [] → (counter_choice g cand).1 ∈ cand.
Proof.
  intros Hne. unfold counter_choice. simpl.
  apply list_elem_of_In, nth_In, Nat.mod_upper_bound.
  destruct cand; [done|simpl; lia].
Qed.

(** C6. For every generator whose [choice] returns an element of its
    non-empty argument, every depth and every seed, [scramble] returns a
    state on which [is_solvable] is true: in the 3x3 module, in the NxN class
    and in the RxC class (any width, even or odd). *)
Theorem scramble_is_solvable {G} (Random : Z → G) (choice : G → list nat → nat * G) :
  (∀ g cand, cand ≠ [] → (choice g cand).1 ∈ cand) →
  ∀ depth seed : Z,
    (∃ s, Puzzle8.scramble Random choice depth seed = Some s
          ∧ Puzzle8.is_solvable s = true)
    ∧ (∀ n self, NPuzzle.new n = Some self →
         ∃ s, NPuzzle.scramble Random choice self depth seed = Some s
              ∧ NPuzzle.is_solvable self s = true)
    ∧ (∀ rows cols self, RectPuzzle.new rows cols = Some self →
         ∃ s, RectPuzzle.scramble Random choice self depth seed = Some s
              ∧ RectPuzzle.is_solvable self s = true).
Proof.
  intros Hch depth seed.
  assert (∀ self, (2 ≤ RectPuzzle.R self)%nat → (2 ≤ RectPuzzle.C self)%nat →
            ∃ s, RectPuzzle.scramble Random choice self depth seed = Some s
                 ∧ RectPuzzle.is_solvable self s = true) as Hrect.
  { intros self HR HC.
    destruct (scramble_walk_inv Random choice Hch (RectPuzzle._nei self)
                (rect_inv self) (rect_inv_move self HR HC)
                (RectPuzzle.GOAL self) depth seed) as (s & Hs & _ & Hsol).
    - split; [unfold board; reflexivity|by apply rect_GOAL_solvable].
    - by exists s. }
  split; [|split].
  - destruct (scramble_walk_inv Random choice Hch Puzzle8._NEI
                (rect_inv board33) puzzle8_inv_move
                Puzzle8.GOAL depth seed) as (s & Hs & _ & Hsol).
    + split; [unfold board; reflexivity|]. by apply rect_GOAL_solvable; simpl; lia.
    + exists s. split; [done|]. by rewrite puzzle8_is_solvable_rect.
  - intros n self Hnew. unfold NPuzzle.new in Hnew.
    case_bool_decide; [|done]. injection Hnew as <-.
    rewrite npuzzle_scramble_rect.
    setoid_rewrite npuzzle_is_solvable_rect. by apply Hrect.
  - intros rows cols self Hnew. unfold RectPuzzle.new in Hnew.
    destruct (bool_decide (2 ≤ rows)%nat) eqn:E1; [|done].
    destruct (bool_decide (2 ≤ cols)%nat) eqn:E2; [|done].
    injection Hnew as <-.
    apply bool_decide_eq_true_1 in E1. apply bool_decide_eq_true_1 in E2.
    by apply Hrect.
Qed.

Lemma scramble_is_solvable_witness :
  (∃ s, Puzzle8.scramble counter_Random counter_choice 6 0 = Some s
        ∧ Puzzle8.is_solvable s = true)
  ∧ (∃ self s, RectPuzzle.new 3 4 = Some self
        ∧ RectPuzzle.scramble counter_Random counter_choice self 5 7 = Some s
        ∧ RectPuzzle.is_solvable self s = true).
Proof.
  pose proof (scramble_is_solvable counter_Random counter_choice counter_choice_elem) as H.
  split.
  - exact (proj1 (H 6 0)).
  - destruct (proj2 (proj2 (H 5 7)) 3%nat 4%nat _ eq_refl) as (s & Hs).
    eexists _, s. split; [reflexivity|exact Hs].
Defined.

Example scramble_6_0 :
  Puzzle8.scramble counter_Random counter_choice 6 0 = Some [1;2;3;4;0;8;7;6;5].
Proof. vm_compute. reflexivity. Qed.

(** ** The 3×3 graph: edges, boards, symmetry *)

Arguments Puzzle8._NEI : simpl never.
Arguments swap : simpl never.

Lemma swap_Permutation (s s' : State) (i j : nat) :
  swap i j s = Some s' → s' ≡ₚ s.
Proof.
  unfold swap. intros Hsw.
  destruct (s !! i) as [a|] eqn:Hi; [|done].
  destruct (s !! j) as [b|] eqn:Hj; [|done].
  simpl in Hsw. injection Hsw as <-.
  destruct (lt_eq_lt_dec i j) as [[Hlt| ->]|Hgt].
  - destruct (swap_split s i j a b Hlt Hi Hj) as (A & M & B & -> & _ & _ & ->).
    apply Permutation_app_head. rewrite <- !Permutation_middle.
    by rewrite perm_swap.
  - assert (a = b) as -> by congruence.
    rewrite list_insert_insert_eq. by rewrite list_insert_id.
  - rewrite list_insert_insert_ne by lia.
    destruct (swap_split s j i b a Hgt Hj Hi) as (A & M & B & -> & _ & _ & ->).
    apply Permutation_app_head. rewrite <- !Permutation_middle.
    by rewrite perm_swap.
Qed.

Lemma swap_back (s s' : State) (i j : nat) :
  swap i j s = Some s' → swap j i s' = Some s.
Proof.
  unfold swap. intros Hsw.
  destruct (s !! i) as [a|] eqn:Hi; [|done].
  destruct (s !! j) as [b|] eqn:Hj; [|done].
  simpl in Hsw. injection Hsw as <-.
  pose proof (lookup_lt_Some _ _ _ Hi) as Hli.
  pose proof (lookup_lt_Some _ _ _ Hj) as Hlj.
  destruct (decide (i = j)) as [->|Hne].
  - assert (a = b) as -> by congruence.
    rewrite list_insert_insert_eq, list_insert_id by done.
    rewrite Hj. simpl. by rewrite list_insert_insert_eq, list_insert_id.
  - rewrite list_lookup_insert_eq by (by rewrite length_insert).
    rewrite list_lookup_insert_ne by done.
    rewrite list_lookup_insert_eq by done. simpl. f_equal.
    rewrite list_insert_insert_eq.
    rewrite (list_insert_insert_ne _ j i) by done.
    rewrite list_insert_insert_eq.
    rewrite (list_insert_id s j b) by done. by rewrite list_insert_id.
Qed.

Lemma blank_moves_elem (s s1 : State) (z : nat) (js : list nat) (c : Z) :
  (s1, c) ∈ blank_moves s z js ↔ ∃ j, j ∈ js ∧ swap z j s = Some s1 ∧ c = 1.
Proof.
  unfold blank_moves. rewrite list_elem_of_omap. split.
  - intros (j & Hj & Hsw). exists j. split; [done|].
    destruct (swap z j s); simpl in Hsw; [|done]. by injection Hsw as <- <-.
  - intros (j & Hj & Hsw & ->). exists j. split; [done|]. by rewrite Hsw.
Qed.

Lemma puzzle8_neighbors_elem (s s1 : State) (c : Z) :
  (s1, c) ∈ Puzzle8.neighbors s ↔
  ∃ z js j, index 0 s = Some z ∧ Puzzle8._NEI z = Some js ∧ j ∈ js
            ∧ swap z j s = Some s1 ∧ c = 1.
Proof.
  unfold Puzzle8.neighbors. split.
  - destruct (index 0 s) as [z|]; simpl; [|by intros ?%elem_of_nil].
    destruct (Puzzle8._NEI z) as [js|] eqn:En; simpl; [|by intros ?%elem_of_nil].
    intros (j & ? & ? & ?)%blank_moves_elem. by exists z, js, j.
  - intros (z & js & j & -> & -> & ? & ? & ?). apply blank_moves_elem. by exists j.
Qed.

Lemma puzzle8_unit_costs : unit_costs Puzzle8.neighbors.
Proof. intros s s1 c (? & ? & ? & ? & ? & ? & ? & ?)%puzzle8_neighbors_elem. done. Qed.

Lemma puzzle8_NEI_sym (z j : nat) (js : list nat) :
  Puzzle8._NEI z = Some js → j ∈ js →
  j ≠ z ∧ ∃ js', Puzzle8._NEI j = Some js' ∧ z ∈ js'.
Proof.
  intros Hn Hj.
  do 9 (destruct z as [|z];
        [injection Hn as <-;
         repeat (apply elem_of_cons in Hj as [->|Hj];
                 [split; [done|]; eexists; split; [reflexivity|set_solver]|]);
         by apply elem_of_nil in Hj|]).
  done.
Qed.

Lemma board33_back (s s1 : State) (c : Z) :
  (s1, c) ∈ Puzzle8.neighbors s → board board33 s1 → board board33 s.
Proof.
  intros (z & js & j & _ & _ & _ & Hsw & _)%puzzle8_neighbors_elem Hb.
  unfold board in *. etrans; [symmetry; by eapply swap_Permutation|done].
Qed.

Lemma board33_forward (s s1 : State) (c : Z) :
  (s1, c) ∈ Puzzle8.neighbors s → board board33 s → board board33 s1.
Proof.
  intros (z & js & j & _ & _ & _ & Hsw & _)%puzzle8_neighbors_elem Hb.
  unfold board in *. etrans; [by eapply swap_Permutation|done].
Qed.

(** The 3×3 graph is symmetric on boards. *)
Lemma puzzle8_neighbors_sym (s s1 : State) (c : Z) :
  board board33 s → (s1, c) ∈ Puzzle8.neighbors s → (s, 1) ∈ Puzzle8.neighbors s1.
Proof.
  intros Hb (z & js & j & Hz & Hn & Hj & Hsw & _)%puzzle8_neighbors_elem.
  destruct (puzzle8_NEI_sym z j js Hn Hj) as (Hne & js' & Hn' & Hz').
  destruct (board_facts board33 s) as (Hnd & Hlen & _); [vm_compute; lia|done|].
  destruct (blank_move_effect s z j Hnd Hz Hne) as (s' & Hsw' & _ & Hj' & _).
  { apply lookup_lt_is_Some. unfold swap in Hsw.
    destruct (s !! z); [|done]. destruct (s !! j); [by eexists|done]. }
  assert (s' = s1) as -> by congruence.
  apply puzzle8_neighbors_elem. exists j, js', z.
  repeat split; try done. by apply swap_back.
Qed.

Lemma path_to_GOAL_board (s : State) (n : Z) :
  path_cost Puzzle8.neighbors s n Puzzle8.GOAL → board board33 s.
Proof.
  remember Puzzle8.GOAL as t eqn:Ht.
  induction 1 as [s|s s1 c n t Hin Hp IH]; subst.
  - unfold board. reflexivity.
  - eapply board33_back; [done|]. by apply IH.
Qed.

(** ** Manhattan distance along a blank move *)

Fixpoint msum (k : nat) (s : list Z) : Z :=
  match s with
  | [] => 0
  | t :: r => Puzzle8.manhattan_term k t + msum (S k) r
  end.

Lemma manhattan_fold (s : State) (k : nat) (acc : Z) :
  foldl (λ dist '(idx, tile), dist + Puzzle8.manhattan_term idx tile) acc
        (imap (λ i, pair (k + i)%nat) s)
  = acc + msum k s.
Proof.
  revert k acc. induction s as [|t s IH]; intros k acc; simpl; [lia|].
  rewrite Nat.add_0_r.
  rewrite (imap_ext _ (λ i, pair (S k + i)%nat)) by (intros; simpl; f_equal; lia).
  rewrite IH. lia.
Qed.

Lemma manhattan_msum (s : State) : Puzzle8.manhattan s = msum 0 s.
Proof. unfold Puzzle8.manhattan. apply (manhattan_fold s 0 0). Qed.

Lemma msum_insert (k : nat) (s : State) (i : nat) (x old : Z) :
  s !! i = Some old →
  msum k (<[i:=x]> s)
  = msum k s - Puzzle8.manhattan_term (k + i) old + Puzzle8.manhattan_term (k + i) x.
Proof.
  revert k i. induction s as [|t s IH]; intros k i Hi; [done|].
  destruct i as [|i]; simpl in *.
  - injection Hi as ->. rewrite Nat.add_0_r. lia.
  - rewrite (IH (S k) i Hi). replace (S k + i)%nat with (k + S i)%nat by lia. lia.
Qed.

Lemma manhattan_term_blank (k : nat) : Puzzle8.manhattan_term k 0 = 0.
Proof. reflexivity. Qed.

Lemma manhattan_term_adjacent (z j : nat) (js : list nat) (t : Z) :
  Puzzle8._NEI z = Some js → j ∈ js → 1 ≤ t ≤ 8 →
  -1 ≤ Puzzle8.manhattan_term z t - Puzzle8.manhattan_term j t ≤ 1.
Proof.
  intros Hn Hj Ht.
  assert (t = 1 ∨ t = 2 ∨ t = 3 ∨ t = 4 ∨ t = 5 ∨ t = 6 ∨ t = 7 ∨ t = 8) as Hcases by lia.
  do 9 (destruct z as [|z];
        [injection Hn as <-;
         repeat (apply elem_of_cons in Hj as [->|Hj];
                 [destruct Hcases as [->|[->|[->|[->|[->|[->|[->| ->]]]]]]];
                  vm_compute; split; discriminate|]);
         by apply elem_of_nil in Hj|]).
  done.
Qed.

Lemma board33_tiles (s : State) (t : Z) :
  board board33 s → t ∈ s → 0 ≤ t ≤ 8.
Proof.
  intros Hb Ht. unfold board in Hb. rewrite Hb in Ht.
  change (RectPuzzle.GOAL board33) with [1;2;3;4;5;6;7;8;0] in Ht.
  repeat (apply elem_of_cons in Ht as [->|Ht]; [lia|]).
  by apply elem_of_nil in Ht.
Qed.

(** Each blank move changes the Manhattan distance by at most one. *)
Lemma manhattan_move (s s1 : State) (c : Z) :
  board board33 s → (s1, c) ∈ Puzzle8.neighbors s →
  c = 1 ∧ -1 ≤ Puzzle8.manhattan s1 - Puzzle8.manhattan s ≤ 1.
Proof.
  intros Hb (z & js & j & Hz & Hn & Hj & Hsw & ->)%puzzle8_neighbors_elem.
  split; [done|].
  destruct (puzzle8_NEI_sym z j js Hn Hj) as (Hne & _).
  destruct (board_facts board33 s) as (Hnd & Hlen & _); [vm_compute; lia|done|].
  apply index_Some_lookup in Hz.
  unfold swap in Hsw. rewrite Hz in Hsw. simpl in Hsw.
  destruct (s !! j) as [t|] eqn:Ht; [|done]. simpl in Hsw. injection Hsw as <-.
  assert (t ≠ 0).
  { intros ->. apply Hne. by eapply NoDup_lookup. }
  assert (0 ≤ t ≤ 8) by (eapply board33_tiles; [done|by eapply list_elem_of_lookup_2]).
  rewrite !manhattan_msum.
  rewrite (msum_insert 0 _ j 0 t) by (by rewrite list_lookup_insert_ne).
  rewrite (msum_insert 0 s z t 0) by done.
  rewrite !manhattan_term_blank. simpl.
  pose proof (manhattan_term_adjacent z j js t Hn Hj ltac:(lia)). lia.
Qed.

Lemma puzzle8_manhattan_GOAL : Puzzle8.manhattan Puzzle8.GOAL = 0.
Proof. reflexivity. Qed.

Lemma manhattan_admissible_aux (s : State) (n : Z) :
  path_cost Puzzle8.neighbors s n Puzzle8.GOAL → Puzzle8.manhattan s ≤ n.
Proof.
  intros Hp. pose proof (path_to_GOAL_board s n Hp) as Hb. revert Hb.
  remember Puzzle8.GOAL as t eqn:Ht.
  induction Hp as [s|s s1 c n t Hin Hp IH]; subst; intros Hb.
  - by rewrite puzzle8_manhattan_GOAL.
  - destruct (manhattan_move s s1 c Hb Hin) as [-> Hm].
    specialize (IH eq_refl (board33_forward _ _ _ Hin Hb)). lia.
Qed.

(** ** Checking a path by evaluation *)

Section PathCheck.
Context {St : Type} `{EqDecision St}.
Variable neighbors : St → list (St * Z).

Fixpoint is_path (s : St) (rest : list St) (t : St) : bool :=
  match rest with
  | [] => bool_decide (s = t)
  | s1 :: r => bool_decide ((s1, 1) ∈ neighbors s) && is_path s1 r t
  end.

Lemma is_path_sound (s t : St) (rest : list St) :
  is_path s rest t = true → path_cost neighbors s (Z.of_nat (length rest)) t.
Proof.
  revert s. induction rest as [|s1 r IH]; intros s; simpl.
  - intros ->%bool_decide_eq_true. constructor.
  - intros [Hin Hr]%andb_true_iff. apply bool_decide_eq_true in Hin.
    replace (Z.of_nat (S (length r))) with (1 + Z.of_nat (length r)) by lia.
    eapply path_step; [done|by apply IH].
Qed.
End PathCheck.

(** ** Linear conflict near the goal *)

(** The states from which the goal is [k] moves away (with repetitions). *)
Fixpoint layer (k : nat) : list State :=
  match k with
  | O => [Puzzle8.GOAL]
  | S k' => s ← layer k'; fst <$> Puzzle8.neighbors s
  end.

Lemma path_in_layer (s : State) (n : Z) :
  path_cost Puzzle8.neighbors s n Puzzle8.GOAL → s ∈ layer (Z.to_nat n).
Proof.
  intros Hp. pose proof (path_to_GOAL_board s n Hp) as Hb. revert Hb.
  remember Puzzle8.GOAL as t eqn:Ht.
  induction Hp as [s|s s1 c n t Hin Hp IH]; subst; intros Hb.
  - simpl. set_solver.
  - pose proof (puzzle8_unit_costs _ _ _ Hin) as ->.
    pose proof (path_cost_nonneg _ _ _ _ puzzle8_unit_costs Hp) as Hn.
    replace (Z.to_nat (1 + n)) with (S (Z.to_nat n)) by lia. simpl.
    apply list_elem_of_bind. exists s1. split.
    + apply list_elem_of_fmap. exists (s, 1). split; [done|].
      by eapply puzzle8_neighbors_sym.
    + apply IH; [done|]. by eapply board33_forward.
Qed.

Definition lc_ok_at (k : nat) (s : State) : bool :=
  Z.leb (Puzzle8.linear_conflict s) (Z.of_nat k)
  && forallb (λ '(s1, c), Z.leb (Puzzle8.linear_conflict s) (c + Puzzle8.linear_conflict s1))
             (Puzzle8.neighbors s).

Lemma lc_layers_ok :
  forallb (λ k, forallb (lc_ok_at k) (layer k)) (seq 0 9) = true.
Proof. vm_compute. reflexivity. Qed.

Lemma linear_conflict_depth8 (s : State) (n : Z) :
  path_cost Puzzle8.neighbors s n Puzzle8.GOAL → n ≤ 8 →
  Puzzle8.linear_conflict s ≤ n
  ∧ ∀ s1 c, (s1, c) ∈ Puzzle8.neighbors s →
            Puzzle8.linear_conflict s ≤ c + Puzzle8.linear_conflict s1.
Proof.
  intros Hp Hn.
  pose proof (path_cost_nonneg _ _ _ _ puzzle8_unit_costs Hp) as Hn0.
  pose proof (path_in_layer s n Hp) as Hl.
  pose proof lc_layers_ok as Hok.
  rewrite forallb_forall in Hok.
  specialize (Hok (Z.to_nat n)).
  rewrite forallb_forall in Hok.
  specialize (Hok ltac:(apply in_seq; lia) s ltac:(by apply list_elem_of_In)).
  unfold lc_ok_at in Hok. apply andb_true_iff in Hok as [H1 H2].
  apply Z.leb_le in H1.
  split; [lia|].
  intros s1 c Hin. rewrite forallb_forall in H2.
  specialize (H2 (s1, c) ltac:(by apply list_elem_of_In)). simpl in H2.
  by apply Z.leb_le in H2.
Qed.

(** C3 (amended). On the 3x3 puzzle, [manhattan] is consistent on every edge
    leaving a board and never exceeds the cost of a path to the goal;
    [linear_conflict] never exceeds the cost of a path to the goal of cost at
    most 8, and is consistent on the edges leaving the states that have such
    a path. *)
Theorem puzzle8_heuristics_near_goal :
  (∀ s s1 c, board board33 s → (s1, c) ∈ Puzzle8.neighbors s →
             Puzzle8.manhattan s ≤ c + Puzzle8.manhattan s1)
  ∧ admissible Puzzle8.neighbors Puzzle8.manhattan Puzzle8.GOAL
  ∧ (∀ s n, path_cost Puzzle8.neighbors s n Puzzle8.GOAL → n ≤ 8 →
            Puzzle8.linear_conflict s ≤ n
            ∧ ∀ s1 c, (s1, c) ∈ Puzzle8.neighbors s →
                      Puzzle8.linear_conflict s ≤ c + Puzzle8.linear_conflict s1).
Proof.
  split; [|split].
  - intros s s1 c Hb Hin. destruct (manhattan_move s s1 c Hb Hin) as [-> ?]. lia.
  - intros s n. apply manhattan_admissible_aux.
  - apply linear_conflict_depth8.
Qed.

Definition lc_overestimated : State := [8;7;0;6;5;4;3;2;1].
Definition lc_overestimated_path : list State :=
  [[8;7;4;6;5;0;3;2;1]; [8;7;4;6;5;1;3;2;0]; [8;7;4;6;5;1;3;0;2];
   [8;7;4;6;5;1;0;3;2]; [8;7;4;0;5;1;6;3;2]; [0;7;4;8;5;1;6;3;2];
   [7;0;4;8;5;1;6;3;2]; [7;4;0;8;5;1;6;3;2]; [7;4;1;8;5;0;6;3;2];
   [7;4;1;8;5;2;6;3;0]; [7;4;1;8;5;2;6;0;3]; [7;4;1;8;5;2;0;6;3];
   [7;4;1;0;5;2;8;6;3]; [0;4;1;7;5;2;8;6;3]; [4;0;1;7;5;2;8;6;3];
   [4;1;0;7;5;2;8;6;3]; [4;1;2;7;5;0;8;6;3]; [4;1;2;7;5;3;8;6;0];
   [4;1;2;7;5;3;8;0;6]; [4;1;2;7;5;3;0;8;6]; [4;1;2;0;5;3;7;8;6];
   [0;1;2;4;5;3;7;8;6]; [1;0;2;4;5;3;7;8;6]; [1;2;0;4;5;3;7;8;6];
   [1;2;3;4;5;0;7;8;6]; [1;2;3;4;5;6;7;8;0]].

Definition lc_inconsistent : State := [1;2;3;5;6;4;7;8;0].
Definition lc_inconsistent_path : list State :=
  [[1;2;3;5;6;0;7;8;4]; [1;2;3;5;0;6;7;8;4]; [1;2;3;0;5;6;7;8;4];
   [1;2;3;7;5;6;0;8;4]; [1;2;3;7;5;6;8;0;4]; [1;2;3;7;5;6;8;4;0];
   [1;2;3;7;5;0;8;4;6]; [1;2;3;7;0;5;8;4;6]; [1;2;3;7;4;5;8;0;6];
   [1;2;3;7;4;5;0;8;6]; [1;2;3;0;4;5;7;8;6]; [1;2;3;4;0;5;7;8;6];
   [1;2;3;4;5;0;7;8;6]; [1;2;3;4;5;6;7;8;0]].

(** C3 fails for [linear_conflict]: the state [8 7 0 / 6 5 4 / 3 2 1] has a
    path of cost 26 to the goal and the value 28, and on the edge from
    [1 2 3 / 5 6 4 / 7 8 0] (which has a path to the goal) the value drops
    from 8 to 5 at cost 1. *)
Lemma linear_conflict_overestimates :
  path_cost Puzzle8.neighbors lc_overestimated 26 Puzzle8.GOAL
  ∧ Puzzle8.linear_conflict lc_overestimated = 28
  ∧ path_cost Puzzle8.neighbors lc_inconsistent 14 Puzzle8.GOAL
  ∧ ([1;2;3;5;6;0;7;8;4], 1) ∈ Puzzle8.neighbors lc_inconsistent
  ∧ Puzzle8.linear_conflict lc_inconsistent = 8
  ∧ Puzzle8.linear_conflict [1;2;3;5;6;0;7;8;4] = 5.
Proof.
  split; [|split; [|split; [|split; [|split]]]].
  - apply (is_path_sound Puzzle8.neighbors lc_overestimated Puzzle8.GOAL
             lc_overestimated_path).
    vm_compute. reflexivity.
  - vm_compute. reflexivity.
  - apply (is_path_sound Puzzle8.neighbors lc_inconsistent Puzzle8.GOAL
             lc_inconsistent_path).
    vm_compute. reflexivity.
  - apply (proj1 (bool_decide_eq_true _)). vm_compute. reflexivity.
  - vm_compute. reflexivity.
  - vm_compute. reflexivity.
Qed.

Lemma puzzle8_heuristics_near_goal_witness :
  Puzzle8.manhattan [1;2;3;4;5;0;7;8;6] ≤ 1 + Puzzle8.manhattan Puzzle8.GOAL
  ∧ Puzzle8.manhattan [1;2;3;4;5;0;7;8;6] ≤ 1
  ∧ Puzzle8.linear_conflict [1;2;3;4;5;0;7;8;6] ≤ 1.
Proof.
  assert (([1;2;3;4;5;6;7;8;0] : State, 1) ∈ Puzzle8.neighbors [1;2;3;4;5;0;7;8;6]) as Hin.
  { apply (proj1 (bool_decide_eq_true _)). vm_compute. reflexivity. }
  assert (path_cost Puzzle8.neighbors [1;2;3;4;5;0;7;8;6] 1 Puzzle8.GOAL) as Hp.
  { apply (is_path_sound Puzzle8.neighbors _ _ [Puzzle8.GOAL]). vm_compute. reflexivity. }
  destruct puzzle8_heuristics_near_goal as (H1 & H2 & H3).
  split; [|split].
  - apply H1; [|exact Hin]. exact (path_to_GOAL_board _ _ Hp).
  - apply (H2 _ _ Hp).
  - apply (H3 _ _ Hp). lia.
Defined.

(** * The returned records *)

Arguments AStar.result : simpl never.
Arguments IdaStar.result : simpl never.
Arguments Bfs.result : simpl never.
Arguments Dfs.result : simpl never.
Arguments timed_out : simpl never.

Section Records.
Context {St : Type}.

(** The key [k] holds an integer. *)
Definition has_int (r : gmap string (Value St)) (k : string) : Prop :=
  ∃ z, r !! k = Some (VInt z).

Definition termination_is (r : gmap string (Value St)) (t : string) : Prop :=
  r !! "termination"%string = Some (VStr t).

(** Exactly one of the two holds. *)
Definition exactly_one (P Q : Prop) : Prop := (P ∧ ¬ Q) ∨ (¬ P ∧ Q).

(** The invariant of the result record: either a cost with ["ok"], or no cost
    with ["timeout"] or ["exhausted"]; the two counters are there. *)
Definition record_ok (r : gmap string (Value St)) : Prop :=
  exactly_one (has_int r "g") (¬ termination_is r "ok")
  ∧ (has_int r "g" ∨ r !! "g"%string = Some VNone)
  ∧ (termination_is r "ok" ∨ termination_is r "timeout" ∨ termination_is r "exhausted")
  ∧ has_int r "expanded" ∧ has_int r "generated".

Lemma record_ok_intro (r : gmap string (Value St)) :
  ((has_int r "g" ∧ termination_is r "ok")
   ∨ (r !! "g"%string = Some VNone
      ∧ (termination_is r "timeout" ∨ termination_is r "exhausted"))) →
  has_int r "expanded" → has_int r "generated" → record_ok r.
Proof.
  unfold record_ok, exactly_one, termination_is, has_int.
  intros [[[z Hg] Ht]|[Hg Ht]] He Hgen.
  - split; [|by eauto 10]. left. split; [by eauto|]. intros Hn. by apply Hn.
  - split; [|by intuition eauto]. right. split.
    + intros [z Hz]. rewrite Hg in Hz. done.
    + intros Hok. destruct Ht as [Ht|Ht]; rewrite Ht in Hok; done.
Qed.
End Records.

Section RecordShapes.
Context {St : Type} `{Countable St}.

Lemma astar_result_ok tb (st : AStar.AState) (p : Value St) z tm :
  record_ok (AStar.result tb st p (VInt z) tm "ok").
Proof. apply record_ok_intro; [left; split; [by eexists|]|by eexists..]. reflexivity. Qed.

Lemma astar_result_none tb (st : AStar.AState) tm term :
  term = "timeout"%string ∨ term = "exhausted"%string →
  record_ok (AStar.result tb st (VNone : Value St) VNone tm term).
Proof.
  intros Ht. apply record_ok_intro; [right; split; [reflexivity|]|by eexists..].
  destruct Ht as [-> | ->]; [left|right]; reflexivity.
Qed.

Lemma ida_result_ok b (st : IdaStar.IState) bd (p : Value St) z tm :
  record_ok (IdaStar.result b st bd p (VInt z) tm "ok").
Proof. apply record_ok_intro; [left; split; [by eexists|]|by eexists..]. reflexivity. Qed.

Lemma ida_result_none b (st : IdaStar.IState) bd tm term :
  term = "timeout"%string ∨ term = "exhausted"%string →
  record_ok (IdaStar.result b st bd (VNone : Value St) VNone tm term).
Proof.
  intros Ht. apply record_ok_intro; [right; split; [reflexivity|]|by eexists..].
  destruct Ht as [-> | ->]; [left|right]; reflexivity.
Qed.

Lemma bfs_result_ok (st : Bfs.BState) (p : Value St) z tm :
  record_ok (Bfs.result st p (VInt z) tm "ok").
Proof. apply record_ok_intro; [left; split; [by eexists|]|by eexists..]. reflexivity. Qed.

Lemma bfs_result_none (st : Bfs.BState) tm term :
  term = "timeout"%string ∨ term = "exhausted"%string →
  record_ok (Bfs.result st (VNone : Value St) VNone tm term).
Proof.
  intros Ht. apply record_ok_intro; [right; split; [reflexivity|]|by eexists..].
  destruct Ht as [-> | ->]; [left|right]; reflexivity.
Qed.

Lemma dfs_result_ok md e g d pk z tm :
  record_ok (Dfs.result (St:=St) md e g d pk (VInt z) tm "ok").
Proof. apply record_ok_intro; [left; split; [by eexists|]|by eexists..]. reflexivity. Qed.

Lemma dfs_result_none md e g d pk tm term :
  term = "timeout"%string ∨ term = "exhausted"%string →
  record_ok (Dfs.result (St:=St) md e g d pk VNone tm term).
Proof.
  intros Ht. apply record_ok_intro; [right; split; [reflexivity|]|by eexists..].
  destruct Ht as [-> | ->]; [left|right]; reflexivity.
Qed.

Lemma timed_out_cases (clock : nat → Q) (timeout_sec : option Q) (t0 : Q) (tick : nat) :
  ∃ b tick', timed_out clock timeout_sec t0 tick = (b, tick')
             ∧ (timeout_sec = None → b = false ∧ tick' = tick).
Proof.
  unfold timed_out. destruct timeout_sec; eexists _, _; split; try done.
Qed.

(** *** [a_star] *)
Lemma astar_loop_record dn clock goal hfun nf tb rp tmo t0 fuel (st : AStar.AState) r :
  AStar.loop (St:=St) dn clock goal hfun nf tb rp tmo t0 fuel st = Some r →
  record_ok r.
Proof.
  revert st. induction fuel as [|fuel IH]; intros st Hr; [done|].
  simpl in Hr.
  destruct (AStar.heappop (AStar.open_heap st)) as [[entry rest]|].
  2: { injection Hr as <-. apply astar_result_none. by right. }
  destruct (timed_out clock tmo t0 (AStar.tick st)) as [[|] tick1].
  { injection Hr as <-. apply astar_result_none. by left. }
  case_bool_decide; [by eapply IH|].
  case_bool_decide; [|by eapply IH].
  injection Hr as <-. apply astar_result_ok.
Qed.

(** *** [bfs] *)
Lemma bfs_loop_record clock goal nf tmo t0 fp fuel (st : Bfs.BState) r :
  Bfs.loop (St:=St) clock goal nf tmo t0 fp fuel st = Some r → record_ok r.
Proof.
  revert st. induction fuel as [|fuel IH]; intros st Hr; [done|].
  simpl in Hr.
  destruct (Bfs.q st) as [|s rest].
  { injection Hr as <-. apply bfs_result_none. by right. }
  destruct (timed_out clock tmo t0 (Bfs.tick st)) as [[|] tick1].
  { injection Hr as <-. apply bfs_result_none. by left. }
  case_bool_decide; [|by eapply IH].
  destruct (Bfs.walk_back _ _ _ _ _) as [[p g]|]; [|done].
  injection Hr as <-. apply bfs_result_ok.
Qed.

(** *** [dfs] *)
Lemma dfs_loop_record clock goal nf md tmo t0 fuel (st : Dfs.DState) r :
  Dfs.loop (St:=St) clock goal nf md tmo t0 fuel st = Some r → record_ok r.
Proof.
  revert st. induction fuel as [|fuel IH]; intros st Hr; [done|].
  simpl in Hr.
  destruct (Dfs.stack st) as [|[[[s d] it] fl] below].
  { injection Hr as <-. apply dfs_result_none. by right. }
  destruct (timed_out clock tmo t0 (Dfs.tick st)) as [[|] tick1].
  { injection Hr as <-. apply dfs_result_none. by left. }
  destruct it as [|[s2 cost] it'].
  { case_bool_decide; [by eapply IH|done]. }
  destruct (Dfs.too_deep md d); [by eapply IH|].
  case_bool_decide; [by eapply IH|].
  case_bool_decide; [|by eapply IH].
  injection Hr as <-. apply dfs_result_ok.
Qed.

End RecordShapes.

(** *** [ida_star]: a proof rule for the loop over the children *)
Section IdaRule.
Context {St : Type} `{Countable St}.
Variable hfun : St → Z.
Variable use_bpmx : bool.
Variable rec : St → Z → Z → Z → Z → IdaStar.IState (St:=St)
               → option (IdaStar.DfsRet * IdaStar.IState (St:=St)).
Variables (state : St) (g bound depth : Z).
(** the invariant before each round, and what holds of the value returned *)
Variable Inv : list (St * Z) → Z → IdaStar.DfsRet → IdaStar.IState (St:=St) → Prop.
Variable Post : IdaStar.DfsRet → IdaStar.IState (St:=St) → Prop.

Hypothesis rule_end : ∀ hp mn st, Inv [] hp mn st → Post mn st.
Hypothesis rule_skip :
  ∀ s2 c l hp mn st,
    Inv ((s2, c) :: l) hp mn st → s2 ∈ IdaStar.pathset st → Inv l hp mn st.
Hypothesis rule_cutoff :
  ∀ s2 c l hp mn st v,
    Inv ((s2, c) :: l) hp mn st → s2 ∉ IdaStar.pathset st →
    IdaStar.bpmx use_bpmx g bound hp (hfun s2) c = inl v →
    Post (IdaStar.Num v) st.
Hypothesis rule_call :
  ∀ s2 c l hp mn st hp' h2 t st2,
    Inv ((s2, c) :: l) hp mn st → s2 ∉ IdaStar.pathset st →
    IdaStar.bpmx use_bpmx g bound hp (hfun s2) c = inr (hp', h2) →
    rec s2 (g + c) bound h2 (depth + 1) (IdaStar.enter_child state s2 st)
    = Some (t, st2) →
    (IdaStar.is_timeout t = true → Post IdaStar.TIMEOUT st2)
    ∧ (IdaStar.is_timeout t = false → IdaStar.is_found t = true →
       Post (IdaStar.Num (-1)) st2)
    ∧ (IdaStar.is_timeout t = false → IdaStar.is_found t = false →
       s2 ∈ IdaStar.pathset st2 →
       Inv l hp' (IdaStar.min_ret t mn) (IdaStar.leave_child s2 st2)).

Lemma children_rule l hp mn st ret st' :
  Inv l hp mn st →
  IdaStar.children hfun use_bpmx rec state g bound depth l hp mn st = Some (ret, st') →
  Post ret st'.
Proof using rule_end rule_skip rule_cutoff rule_call.
  revert hp mn st. induction l as [|[s2 c] l IH]; intros hp mn st HI Hr.
  - injection Hr as <- <-. by eapply rule_end.
  - cbn [IdaStar.children] in Hr.
    destruct (bool_decide (s2 ∈ IdaStar.pathset st)) eqn:Hps.
    { apply bool_decide_eq_true in Hps. eapply IH; [|exact Hr]. by eapply rule_skip. }
    apply bool_decide_eq_false in Hps.
    destruct (IdaStar.bpmx use_bpmx g bound hp (hfun s2) c) as [v|[hp' h2]] eqn:Hb.
    { injection Hr as <- <-. by eapply rule_cutoff. }
    destruct (rec s2 (g + c) bound h2 (depth + 1) (IdaStar.enter_child state s2 st))
      as [[t st2]|] eqn:Hrec; [|done].
    destruct (rule_call s2 c l hp mn st hp' h2 t st2 HI Hps Hb Hrec) as (H1 & H2 & H3).
    destruct (IdaStar.is_timeout t) eqn:Ht.
    { injection Hr as <- <-. by apply H1. }
    destruct (IdaStar.is_found t) eqn:Hf.
    { injection Hr as <- <-. by apply H2. }
    destruct (bool_decide (s2 ∈ IdaStar.pathset st2)) eqn:Hps2; [|done].
    apply bool_decide_eq_true in Hps2.
    eapply IH; [|exact Hr]. by apply H3.
Qed.
End IdaRule.

Lemma ida_dfs_unfold {St} `{Countable St} dn clock goal hfun nf bp tmo t0 fuel
    (state : St) g bound h_s depth st :
  IdaStar.dfs dn clock goal hfun nf bp tmo t0 (S fuel) state g bound h_s depth st
  = let '(to, tick1) := timed_out clock tmo t0 (IdaStar.tick st) in
    let st := IdaStar.set_tick st tick1 in
    if to then Some (IdaStar.TIMEOUT, st)
    else
      let st := IdaStar.note_depth st depth in
      if bound <? g + h_s then Some (IdaStar.Num (g + h_s), st)
      else if bool_decide (state = goal) then
             Some (IdaStar.Num (-1), IdaStar.set_solution st g)
      else IdaStar.children hfun bp (IdaStar.dfs dn clock goal hfun nf bp tmo t0 fuel)
                            state g bound depth (IdaStar.neighbors dn nf state) h_s
                            IdaStar.Inf (IdaStar.count_expanded st).
Proof. reflexivity. Qed.

Lemma min_ret_not_found (t mn : IdaStar.DfsRet) :
  IdaStar.is_found t = false → IdaStar.is_found mn = false →
  IdaStar.is_found (IdaStar.min_ret t mn) = false.
Proof. unfold IdaStar.min_ret. by destruct (IdaStar.ret_lt t mn). Qed.

(** *** [ida_star]: the value [-1] is returned only when the goal was found *)
Section IdaFound.
Context {St : Type} `{Countable St}.
Variable default_neighbors : St → list (St * Z).
Variable clock : nat → Q.
Variable goal : St.
Variable hfun : St → Z.
Variable neighbors_fn : option (St → list (St * Z)).
Variable use_bpmx : bool.
Variable timeout_sec : option Q.
Hypothesis hfun_nonneg : ∀ s, 0 ≤ hfun s.
Hypothesis costs_nonneg :
  ∀ s s2 c, (s2, c) ∈ IdaStar.neighbors default_neighbors neighbors_fn s → 0 ≤ c.

Definition found_sets_g (ret : IdaStar.DfsRet) (st : IdaStar.IState (St:=St)) : Prop :=
  IdaStar.is_found ret = true → is_Some (IdaStar.solution_g st).

Lemma bpmx_nonneg (g bound h_parent h2_raw c : Z) :
  0 ≤ g → 0 ≤ h_parent → 0 ≤ h2_raw →
  match IdaStar.bpmx use_bpmx g bound h_parent h2_raw c with
  | inl v => 0 ≤ v
  | inr (hp, h2) => 0 ≤ hp ∧ 0 ≤ h2
  end.
Proof.
  intros. unfold IdaStar.bpmx. destruct use_bpmx; [|done].
  destruct (Z.ltb_spec h_parent (h2_raw - c)).
  - destruct (Z.ltb_spec bound (g + (h2_raw - c))); lia.
  - lia.
Qed.

Lemma dfs_found t0 fuel (state : St) (g bound h_s depth : Z) st ret st' :
  0 ≤ g → 0 ≤ h_s →
  IdaStar.dfs default_neighbors clock goal hfun neighbors_fn use_bpmx timeout_sec
              t0 fuel state g bound h_s depth st = Some (ret, st') →
  found_sets_g ret st'.
Proof using hfun_nonneg costs_nonneg.
  revert state g h_s depth st ret st'.
  induction fuel as [|fuel IH]; intros state g h_s depth st ret st' Hg Hh Hr; [done|].
  rewrite ida_dfs_unfold in Hr.
  destruct (timed_out clock timeout_sec t0 (IdaStar.tick st)) as [[|] tick1].
  { injection Hr as <- <-. done. }
  cbv zeta in Hr.
  destruct (Z.ltb_spec bound (g + h_s)).
  { injection Hr as <- <-. intros Hf. simpl in Hf. apply Z.eqb_eq in Hf. lia. }
  case_bool_decide.
  { injection Hr as <- <-. intros _. by eexists. }
  revert Hr.
  apply (children_rule hfun use_bpmx _ state g bound depth
           (λ l hp mn _, 0 ≤ hp ∧ IdaStar.is_found mn = false
                         ∧ ∀ s2 c, (s2, c) ∈ l → 0 ≤ c)
           found_sets_g).
  - intros hp mn st0 (_ & Hmn & _) Hf. congruence.
  - intros s2 c l hp mn st0 (? & ? & Hl) _. split; [done|]. split; [done|].
    intros s3 c3 ?. apply (Hl s3 c3), elem_of_cons. by right.
  - intros s2 c l hp mn st0 v (Hhp & _ & Hl) _ Hb Hf.
    simpl in Hf. apply Z.eqb_eq in Hf. subst v.
    assert (0 ≤ c) by (apply (Hl s2 c), elem_of_cons; by left).
    pose proof (bpmx_nonneg g bound hp (hfun s2) c Hg Hhp (hfun_nonneg s2)) as Hn.
    rewrite Hb in Hn. lia.
  - intros s2 c l hp mn st0 hp' h2 t st2 (Hhp & Hmn & Hl) _ Hb Hrec.
    assert (0 ≤ c) by (apply (Hl s2 c), elem_of_cons; by left).
    pose proof (bpmx_nonneg g bound hp (hfun s2) c Hg Hhp (hfun_nonneg s2)) as Hn.
    rewrite Hb in Hn. destruct Hn as [Hhp' Hh2].
    apply IH in Hrec; [|lia|lia].
    split; [done|]. split.
    + intros _ Hf _. by apply Hrec.
    + intros _ Hf _. split; [done|]. split; [by apply min_ret_not_found|].
      intros s3 c3 ?. apply (Hl s3 c3), elem_of_cons. by right.
  - split; [done|]. split; [done|]. intros s2 c. apply costs_nonneg.
Qed.

Lemma ida_loop_record rp t0 fd fuel start h0 bound (st : IdaStar.IState) r :
  0 ≤ h0 →
  IdaStar.loop default_neighbors clock goal hfun neighbors_fn use_bpmx rp timeout_sec
               t0 fd fuel start h0 bound st = Some r →
  record_ok r.
Proof using hfun_nonneg costs_nonneg.
  intros Hh0. revert bound st. induction fuel as [|fuel IH]; intros bound st Hr; [done|].
  cbn [IdaStar.loop] in Hr.
  destruct (IdaStar.dfs _ _ _ _ _ _ _ _ _ _ _ _ _ _ _) as [[ret st1]|] eqn:Hd; [|done].
  apply dfs_found in Hd; [|done..].
  destruct ret as [|t|].
  - injection Hr as <-. apply ida_result_none. by left.
  - destruct (Z.eqb_spec t (-1)) as [->|Hne]; [|by eapply IH].
    destruct Hd as [z Hz]; [done|]. rewrite Hz in Hr.
    destruct (if rp then _ else _) as [p|]; [|done].
    injection Hr as <-. apply ida_result_ok.
  - injection Hr as <-. apply ida_result_none. by right.
Qed.
End IdaFound.

(** *** Every returned record is one of the [return {...}] *)
Section Shapes.
Context {St : Type} `{Countable St}.

Lemma astar_loop_shape dn clock goal hfun nf tb rp tmo t0 fuel (st : AStar.AState) r :
  AStar.loop (St:=St) dn clock goal hfun nf tb rp tmo t0 fuel st = Some r →
  ∃ st' p g tm term, r = AStar.result tb st' p g tm term.
Proof.
  revert st. induction fuel as [|fuel IH]; intros st Hr; [done|].
  simpl in Hr.
  destruct (AStar.heappop (AStar.open_heap st)) as [[entry rest]|].
  2: { injection Hr as <-. by eexists _, _, _, _, _. }
  destruct (timed_out clock tmo t0 (AStar.tick st)) as [[|] tick1].
  { injection Hr as <-. by eexists _, _, _, _, _. }
  case_bool_decide; [by eapply IH|].
  case_bool_decide; [|by eapply IH].
  injection Hr as <-. by eexists _, _, _, _, _.
Qed.

Lemma ida_loop_shape dn clock goal hfun nf bp rp tmo t0 fd fuel start h0 bound
    (st : IdaStar.IState) r :
  IdaStar.loop (St:=St) dn clock goal hfun nf bp rp tmo t0 fd fuel start h0 bound st
  = Some r →
  ∃ st' bd p g tm term, r = IdaStar.result bp st' bd p g tm term.
Proof.
  revert bound st. induction fuel as [|fuel IH]; intros bound st Hr; [done|].
  cbn [IdaStar.loop] in Hr.
  destruct (IdaStar.dfs _ _ _ _ _ _ _ _ _ _ _ _ _ _ _) as [[ret st1]|]; [|done].
  destruct ret as [|t|].
  - injection Hr as <-. by eexists _, _, _, _, _, _.
  - destruct (Z.eqb t (-1)); [|by eapply IH].
    destruct (if rp then _ else _) as [p|]; [|done].
    injection Hr as <-. by eexists _, _, _, _, _, _.
  - injection Hr as <-. by eexists _, _, _, _, _, _.
Qed.

Lemma bfs_loop_shape clock goal nf tmo t0 fp fuel (st : Bfs.BState) r :
  Bfs.loop (St:=St) clock goal nf tmo t0 fp fuel st = Some r →
  ∃ st' p g tm term, r = Bfs.result st' p g tm term.
Proof.
  revert st. induction fuel as [|fuel IH]; intros st Hr; [done|].
  simpl in Hr.
  destruct (Bfs.q st) as [|s rest].
  { injection Hr as <-. by eexists _, _, _, _, _. }
  destruct (timed_out clock tmo t0 (Bfs.tick st)) as [[|] tick1].
  { injection Hr as <-. by eexists _, _, _, _, _. }
  case_bool_decide; [|by eapply IH].
  destruct (Bfs.walk_back _ _ _ _ _) as [[p g]|]; [|done].
  injection Hr as <-. by eexists _, _, _, _, _.
Qed.

Lemma dfs_loop_shape clock goal nf md tmo t0 fuel (st : Dfs.DState) r :
  Dfs.loop (St:=St) clock goal nf md tmo t0 fuel st = Some r →
  ∃ e g d pk v tm term, r = Dfs.result md e g d pk v tm term.
Proof.
  revert st. induction fuel as [|fuel IH]; intros st Hr; [done|].
  simpl in Hr.
  destruct (Dfs.stack st) as [|[[[s d] it] fl] below].
  { injection Hr as <-. by eexists _, _, _, _, _, _, _. }
  destruct (timed_out clock tmo t0 (Dfs.tick st)) as [[|] tick1].
  { injection Hr as <-. by eexists _, _, _, _, _, _, _. }
  destruct it as [|[s2 cost] it'].
  { case_bool_decide; [by eapply IH|done]. }
  destruct (Dfs.too_deep md d); [by eapply IH|].
  case_bool_decide; [by eapply IH|].
  case_bool_decide; [|by eapply IH].
  injection Hr as <-. by eexists _, _, _, _, _, _, _.
Qed.

(** The three counters are in the record. *)
Definition has_counters (r : gmap string (Value St)) : Prop :=
  has_int r "expanded" ∧ has_int r "generated" ∧ has_int r "duplicates".

(** [start] is returned at once: ["ok"], cost 0, nothing expanded or
    generated. *)
Definition ok_at_start (r : gmap string (Value St)) : Prop :=
  termination_is r "ok" ∧ r !! "g"%string = Some (VInt 0)
  ∧ r !! "expanded"%string = Some (VInt 0) ∧ r !! "generated"%string = Some (VInt 0).
End Shapes.

(** C4. Whatever the arguments and the fuel, a record returned by [a_star],
    [bfs] or [dfs], and by [ida_star] for a heuristic and edge costs that are
    not negative, has either an integer ["g"] and the termination ["ok"], or
    ["g"] [None] and the termination ["timeout"] or ["exhausted"] (exactly
    one of "g present" and "termination is not ok" holds); and it has the
    counters ["expanded"] and ["generated"] in each of these cases. *)
Theorem result_record_invariant {St} `{Countable St}
    (dn : St → list (St * Z)) (clock : nat → Q) (goal : St) (hfun : St → Z)
    (nf : option (St → list (St * Z))) (nfb : St → list (St * Z))
    (tb : string) (bp rp : bool) (md : option Z) (tmo : option Q)
    (fuel : nat) (start : St) :
  (∀ r, AStar.a_star dn clock goal hfun nf tb rp tmo fuel start = Some r → record_ok r)
  ∧ ((∀ s, 0 ≤ hfun s) →
     (∀ s s2 c, (s2, c) ∈ IdaStar.neighbors dn nf s → 0 ≤ c) →
     ∀ r, IdaStar.ida_star dn clock goal hfun nf bp rp tmo fuel start = Some r →
          record_ok r)
  ∧ (∀ r, Bfs.bfs clock goal nfb tmo fuel start = Some r → record_ok r)
  ∧ (∀ r, Dfs.dfs clock goal nfb md tmo fuel start = Some r → record_ok r).
Proof.
  split; [|split; [|split]].
  - intros r. apply astar_loop_record.
  - intros Hh Hc r. apply ida_loop_record; [done|done|apply Hh].
  - intros r. apply bfs_loop_record.
  - intros r. unfold Dfs.dfs. case_bool_decide.
    + intros [= <-]. apply dfs_result_ok.
    + apply dfs_loop_record.
Qed.

(** C8 (amended). The records of [a_star], [ida_star] and [dfs] hold the
    three counters in every case; the record of [bfs] holds ["expanded"] and
    ["generated"] and has no key ["duplicates"]. *)
Theorem counters_in_record {St} `{Countable St}
    (dn : St → list (St * Z)) (clock : nat → Q) (goal : St) (hfun : St → Z)
    (nf : option (St → list (St * Z))) (nfb : St → list (St * Z))
    (tb : string) (bp rp : bool) (md : option Z) (tmo : option Q)
    (fuel : nat) (start : St) :
  (∀ r, AStar.a_star dn clock goal hfun nf tb rp tmo fuel start = Some r →
        has_counters r)
  ∧ (∀ r, IdaStar.ida_star dn clock goal hfun nf bp rp tmo fuel start = Some r →
          has_counters r)
  ∧ (∀ r, Dfs.dfs clock goal nfb md tmo fuel start = Some r → has_counters r)
  ∧ (∀ r, Bfs.bfs clock goal nfb tmo fuel start = Some r →
          has_int r "expanded" ∧ has_int r "generated"
          ∧ r !! "duplicates"%string = None).
Proof.
  split; [|split; [|split]].
  - intros r (? & ? & ? & ? & ? & ->)%astar_loop_shape.
    repeat split; by eexists.
  - intros r (? & ? & ? & ? & ? & ? & ->)%ida_loop_shape.
    repeat split; by eexists.
  - intros r. unfold Dfs.dfs. case_bool_decide.
    + intros [= <-]. repeat split; by eexists.
    + intros (? & ? & ? & ? & ? & ? & ? & ->)%dfs_loop_shape.
      repeat split; by eexists.
  - intros r (? & ? & ? & ? & ? & ->)%bfs_loop_shape.
    split; [by eexists|]. split; [by eexists|]. reflexivity.
Qed.

(** C10 (amended). When [start] is the goal and no timeout is set, [a_star],
    [ida_star] and [bfs] return ["ok"] with cost 0 and nothing expanded or
    generated, for any positive fuel; [dfs] does so whatever the timeout,
    the depth bound and the fuel. *)
Theorem start_is_goal {St} `{Countable St}
    (dn : St → list (St * Z)) (clock : nat → Q) (goal : St) (hfun : St → Z)
    (nf : option (St → list (St * Z))) (nfb : St → list (St * Z))
    (tb : string) (bp rp : bool) (md : option Z) (tmo : option Q) (fuel : nat) :
  (∃ r, AStar.a_star dn clock goal hfun nf tb rp None (S fuel) goal = Some r
        ∧ ok_at_start r)
  ∧ (∃ r, IdaStar.ida_star dn clock goal hfun nf bp rp None (S fuel) goal = Some r
          ∧ ok_at_start r)
  ∧ (∃ r, Bfs.bfs clock goal nfb None (S fuel) goal = Some r ∧ ok_at_start r)
  ∧ (∃ r, Dfs.dfs clock goal nfb md tmo fuel goal = Some r ∧ ok_at_start r).
Proof.
  split; [|split; [|split]].
  - unfold AStar.a_star. cbn [AStar.loop AStar.init AStar.heappush AStar.heappop
                               AStar.open_heap].
    cbn [AStar.entry_item snd AStar.item_state AStar.closed].
    unfold timed_out.
    rewrite bool_decide_eq_false_2 by set_solver.
    rewrite bool_decide_eq_true_2 by done.
    eexists. split; [done|]. repeat split.
  - unfold IdaStar.ida_star. cbn [IdaStar.loop]. rewrite ida_dfs_unfold.
    unfold timed_out. cbv zeta.
    rewrite (proj2 (Z.ltb_ge _ _)) by lia.
    rewrite bool_decide_eq_true_2 by done.
    rewrite Z.eqb_refl.
    assert (IdaStar.reconstruct_path (S fuel) {[goal := None]} goal = Some [goal]) as Hp.
    { unfold IdaStar.reconstruct_path. simpl. by rewrite lookup_singleton_eq. }
    destruct rp.
    + simpl IdaStar.parents. unfold IdaStar.init. simpl IdaStar.parents.
      rewrite Hp. eexists. split; [done|]. repeat split.
    + eexists. split; [done|]. repeat split.
  - unfold Bfs.bfs. cbn [Bfs.loop Bfs.init Bfs.q]. unfold timed_out.
    rewrite bool_decide_eq_true_2 by done.
    cbn [Bfs.walk_back Bfs.parent Bfs.init]. rewrite lookup_singleton_eq.
    eexists. split; [done|]. repeat split.
  - unfold Dfs.dfs. rewrite bool_decide_eq_true_2 by done.
    eexists. split; [done|]. repeat split.
Qed.

(** *** Concrete runs on the 3×3 puzzle *)

(** A clock that stands still, and one that advances by one per reading. *)
Definition still_clock (k : nat) : Q := 0%Q.
Definition ticking_clock (k : nat) : Q := inject_Z (Z.of_nat k).

Definition near_goal : State := [1;2;3;4;5;0;7;8;6].

Lemma manhattan_term_nonneg (k : nat) (t : Z) : 0 ≤ Puzzle8.manhattan_term k t.
Proof.
  unfold Puzzle8.manhattan_term. destruct (Z.eqb t 0); [done|].
  destruct (Puzzle8._goal_pos !! t) as [[gr gc]|]; lia.
Qed.

Lemma manhattan_nonneg (s : State) : 0 ≤ Puzzle8.manhattan s.
Proof.
  rewrite manhattan_msum. generalize 0%nat.
  induction s as [|t s IH]; intros k; simpl; [done|].
  pose proof (manhattan_term_nonneg k t). specialize (IH (S k)). lia.
Qed.

(** Reading the record of a concrete run key by key: the record itself is
    never unfolded. *)
Lemma run_returns {A} (o : option A) :
  (if o then true else false) = true → ∃ r, o = Some r.
Proof. destruct o as [r|]; [by exists r|done]. Qed.

Lemma run_lookup {St} (o : option (gmap string (Value St))) (r : gmap string (Value St))
    (k : string) (v : option (Value St)) :
  o = Some r → option_map (λ r, r !! k) o = Some v → r !! k = v.
Proof. intros -> [= <-]. done. Qed.

Ltac run_some := apply run_returns; vm_compute; reflexivity.
Ltac run_key E := eapply (run_lookup _ _ _ _ E); vm_compute; reflexivity.

Lemma result_record_invariant_witness :
  match IdaStar.ida_star Puzzle8.neighbors still_clock Puzzle8.GOAL Puzzle8.manhattan
                         None true true None 20 near_goal with
  | Some r => record_ok r
  | None => False
  end.
Proof.
  destruct (run_returns
              (IdaStar.ida_star Puzzle8.neighbors still_clock Puzzle8.GOAL
                                Puzzle8.manhattan None true true None 20 near_goal))
    as [r E]; [vm_compute; reflexivity|].
  rewrite E.
  refine (proj1 (proj2 (result_record_invariant
            Puzzle8.neighbors still_clock Puzzle8.GOAL Puzzle8.manhattan None
            Puzzle8.neighbors "h" true true None None 20 near_goal)) _ _ r E).
  - exact manhattan_nonneg.
  - intros s s2 c Hin. rewrite (puzzle8_unit_costs s s2 c Hin). lia.
Defined.

Lemma counters_in_record_witness :
  match Bfs.bfs still_clock Puzzle8.GOAL Puzzle8.neighbors None 20 near_goal with
  | Some r => has_int r "expanded" ∧ has_int r "generated"
              ∧ r !! "duplicates"%string = None
  | None => False
  end.
Proof.
  destruct (run_returns
              (Bfs.bfs still_clock Puzzle8.GOAL Puzzle8.neighbors None 20 near_goal))
    as [r E]; [vm_compute; reflexivity|].
  rewrite E.
  exact (proj2 (proj2 (proj2 (counters_in_record
            Puzzle8.neighbors still_clock Puzzle8.GOAL Puzzle8.manhattan None
            Puzzle8.neighbors "h" true true None None 20 near_goal))) r E).
Defined.

(** C8 fails for [bfs]: its record has no ["duplicates"]. *)
Lemma bfs_record_without_duplicates :
  ∃ r, Bfs.bfs still_clock Puzzle8.GOAL Puzzle8.neighbors None 20 near_goal = Some r
       ∧ termination_is r "ok" ∧ r !! "g"%string = Some (VInt 1)
       ∧ r !! "duplicates"%string = None.
Proof.
  destruct (run_returns
              (Bfs.bfs still_clock Puzzle8.GOAL Puzzle8.neighbors None 20 near_goal))
    as [r E]; [vm_compute; reflexivity|].
  exists r. split; [exact E|]. split; [|split]; run_key E.
Qed.

(** C10 fails under a timeout: with [timeout_sec = 0] and a clock that has
    advanced at the first test, [a_star], [ida_star] and [bfs] started at the
    goal return ["timeout"] and no cost. *)
Lemma start_is_goal_timeout :
  (∃ r, AStar.a_star Puzzle8.neighbors ticking_clock Puzzle8.GOAL Puzzle8.manhattan
                     None "h" true (Some 0%Q) 20 Puzzle8.GOAL = Some r
        ∧ termination_is r "timeout" ∧ r !! "g"%string = Some VNone)
  ∧ (∃ r, IdaStar.ida_star Puzzle8.neighbors ticking_clock Puzzle8.GOAL
                           Puzzle8.manhattan None false true (Some 0%Q) 20 Puzzle8.GOAL
          = Some r
          ∧ termination_is r "timeout" ∧ r !! "g"%string = Some VNone)
  ∧ (∃ r, Bfs.bfs ticking_clock Puzzle8.GOAL Puzzle8.neighbors (Some 0%Q) 20 Puzzle8.GOAL
          = Some r
          ∧ termination_is r "timeout" ∧ r !! "g"%string = Some VNone).
Proof.
  split; [|split].
  - destruct (run_returns
                (AStar.a_star Puzzle8.neighbors ticking_clock Puzzle8.GOAL
                              Puzzle8.manhattan None "h" true (Some 0%Q) 20 Puzzle8.GOAL))
      as [r E]; [vm_compute; reflexivity|].
    exists r. split; [exact E|]. split; run_key E.
  - destruct (run_returns
                (IdaStar.ida_star Puzzle8.neighbors ticking_clock Puzzle8.GOAL
                                  Puzzle8.manhattan None false true (Some 0%Q) 20
                                  Puzzle8.GOAL))
      as [r E]; [vm_compute; reflexivity|].
    exists r. split; [exact E|]. split; run_key E.
  - destruct (run_returns
                (Bfs.bfs ticking_clock Puzzle8.GOAL Puzzle8.neighbors (Some 0%Q) 20
                         Puzzle8.GOAL))
      as [r E]; [vm_compute; reflexivity|].
    exists r. split; [exact E|]. split; run_key E.
Qed.

(** * Returned paths *)

Section Paths.
Context {St : Type}.
Variable neighbors : St → list (St * Z).

(** Consecutive states are joined by an edge. *)
Fixpoint valid_path (p : list St) : Prop :=
  match p with
  | a :: r => match r with
              | b :: _ => (∃ c, (b, c) ∈ neighbors a) ∧ valid_path r
              | [] => True
              end
  | [] => True
  end.

(** The same for a list that runs from the last state back to the first. *)
Fixpoint valid_back (p : list St) : Prop :=
  match p with
  | b :: r => match r with
              | a :: _ => (∃ c, (b, c) ∈ neighbors a) ∧ valid_back r
              | [] => True
              end
  | [] => True
  end.

(** [p] starts at [start], ends at [goal] and follows edges. *)
Definition is_path_from_to (start goal : St) (p : list St) : Prop :=
  head p = Some start ∧ last p = Some goal ∧ valid_path p.

Lemma valid_path_snoc (p : list St) (b : St) :
  valid_path p → (∀ a, last p = Some a → ∃ c, (b, c) ∈ neighbors a) →
  valid_path (p ++ [b]).
Proof.
  induction p as [|a p IH]; intros Hv Hl; [done|].
  destruct p as [|a' p].
  - simpl. split; [|done]. apply Hl. done.
  - destruct Hv as [He Hv]. simpl. split; [done|]. apply IH; [done|].
    intros x Hx. apply Hl. done.
Qed.

Lemma valid_path_reverse (l : list St) : valid_back l → valid_path (reverse l).
Proof.
  induction l as [|b l IH]; intros Hv; [done|].
  rewrite reverse_cons. destruct l as [|a l].
  - done.
  - destruct Hv as [He Hv]. apply valid_path_snoc; [by apply IH|].
    intros x Hx. rewrite reverse_cons, last_snoc in Hx. by injection Hx as <-.
Qed.

Lemma head_reverse (l : list St) : head (reverse l) = last l.
Proof.
  induction l as [|a l IH] using rev_ind; [done|].
  by rewrite reverse_snoc, last_snoc.
Qed.

Lemma last_reverse (l : list St) : last (reverse l) = head l.
Proof. destruct l as [|a l]; [done|]. by rewrite reverse_cons, last_snoc. Qed.

(** A valid path is a path of the graph, of cost its number of edges when
    all costs are 1. *)
Lemma valid_path_cost (p : list St) (s t : St) :
  unit_costs neighbors → head p = Some s → last p = Some t → valid_path p →
  path_cost neighbors s (Z.of_nat (length p) - 1) t.
Proof.
  intros Hu. revert s. induction p as [|a p IH]; intros s Hh Hl Hv; [done|].
  injection Hh as ->. destruct p as [|b p].
  - injection Hl as ->. simpl. constructor.
  - destruct Hv as [[c Hc] Hv]. pose proof (Hu _ _ _ Hc) as ->.
    replace (Z.of_nat (length (s :: b :: p)) - 1)
      with (1 + (Z.of_nat (length (b :: p)) - 1)) by (simpl; lia).
    eapply path_step; [done|]. apply IH; done.
Qed.
End Paths.

(** ** [a_star]: the heap and the loop *)

Section AStarRule.
Context {St : Type} `{Countable St}.

Lemma heappop_None (h : list (AStar.HeapEntry (St:=St))) :
  AStar.heappop h = None → h = [].
Proof.
  destruct h as [|e r]; [done|]. simpl.
  destruct (AStar.heappop r) as [[m r']|]; [|done].
  by destruct (AStar.key_lt _ _).
Qed.

Lemma heappop_perm (h : list (AStar.HeapEntry (St:=St))) e rest :
  AStar.heappop h = Some (e, rest) → h ≡ₚ e :: rest.
Proof.
  revert e rest. induction h as [|e0 r IH]; intros e rest Hp; [done|].
  simpl in Hp. destruct (AStar.heappop r) as [[m r']|] eqn:Hr.
  - specialize (IH m r' eq_refl).
    destruct (AStar.key_lt _ _); injection Hp as <- <-; [|done].
    rewrite IH. apply perm_swap.
  - apply heappop_None in Hr. subst r. by injection Hp as <- <-.
Qed.

Definition key_le (a b : Z * Z * Z * Z) : Prop := AStar.key_lt b a = false.

Lemma key_lt_f (a b : Z * Z * Z * Z) :
  AStar.key_lt a b = false → b.1.1.1 ≤ a.1.1.1.
Proof.
  destruct a as [[[f1 t1] c1] k1], b as [[[f2 t2] c2] k2]. simpl.
  intros Hk. apply orb_false_iff in Hk as [Hk _]. lia.
Qed.

Lemma key_lt_trans_false (a b c : Z * Z * Z * Z) :
  AStar.key_lt b a = false → AStar.key_lt c b = false → AStar.key_lt c a = false.
Proof.
  destruct a as [[[f1 t1] c1] k1], b as [[[f2 t2] c2] k2], c as [[[f3 t3] c3] k3].
  unfold AStar.key_lt.
  rewrite !orb_false_iff, !andb_false_iff, !orb_false_iff, !andb_false_iff,
    !orb_false_iff, !andb_false_iff.
  rewrite !Z.ltb_ge, !Z.eqb_neq. lia.
Qed.

Lemma key_lt_true_false (a b : Z * Z * Z * Z) :
  AStar.key_lt a b = true → AStar.key_lt b a = false.
Proof.
  destruct a as [[[f1 t1] c1] k1], b as [[[f2 t2] c2] k2].
  unfold AStar.key_lt.
  rewrite !orb_true_iff, !andb_true_iff, !orb_true_iff, !andb_true_iff,
    !orb_true_iff, !andb_true_iff.
  rewrite !orb_false_iff, !andb_false_iff, !orb_false_iff, !andb_false_iff,
    !orb_false_iff, !andb_false_iff.
  rewrite !Z.ltb_lt, !Z.ltb_ge, !Z.eqb_neq, !Z.eqb_eq. lia.
Qed.

(** The entry popped is least: no entry of the heap is below it. *)
Lemma heappop_min (h : list (AStar.HeapEntry (St:=St))) e rest e' :
  AStar.heappop h = Some (e, rest) → e' ∈ h →
  AStar.key_lt (AStar.entry_key e') (AStar.entry_key e) = false.
Proof.
  revert e rest. induction h as [|e0 r IH]; intros e rest Hp Hin; [by apply elem_of_nil in Hin|].
  simpl in Hp. destruct (AStar.heappop r) as [[m r']|] eqn:Hr.
  - destruct (AStar.key_lt (AStar.entry_key m) (AStar.entry_key e0)) eqn:Hlt;
      injection Hp as <- <-.
    + apply elem_of_cons in Hin as [->|Hin]; [by apply key_lt_true_false|].
      by eapply IH.
    + apply elem_of_cons in Hin as [->|Hin].
      * destruct (AStar.entry_key e0) as [[[f1 t1] c1] k1]. unfold AStar.key_lt.
        rewrite !Z.ltb_irrefl, !Z.eqb_refl. done.
      * eapply key_lt_trans_false; [exact Hlt|]. by eapply IH.
  - apply heappop_None in Hr. subst r. injection Hp as <- <-.
    apply list_elem_of_singleton in Hin as ->.
    destruct (AStar.entry_key e0) as [[[f1 t1] c1] k1]. unfold AStar.key_lt.
    rewrite !Z.ltb_irrefl, !Z.eqb_refl. done.
Qed.

Lemma foldl_invariant {A B} (P : A → Prop) (f : A → B → A) (l : list B) (a : A) :
  (∀ a b, b ∈ l → P a → P (f a b)) → P a → P (foldl f a l).
Proof.
  revert a. induction l as [|b l IH]; intros a Hf Ha; [done|].
  simpl. apply IH.
  - intros a' b' Hb'. apply Hf. by apply elem_of_cons; right.
  - apply Hf; [by apply elem_of_cons; left|done].
Qed.

Variable default_neighbors : St → list (St * Z).
Variable clock : nat → Q.
Variable goal : St.
Variable hfun : St → Z.
Variable neighbors_fn : option (St → list (St * Z)).
Variable tie_break : string.
Variable return_path : bool.
Variable timeout_sec : option Q.
Variable t0 : Q.

Variable Inv : AStar.AState (St:=St) → Prop.
Variable Post : gmap string (Value St) → Prop.

Hypothesis rule_exhausted :
  ∀ st tm, Inv st → AStar.open_heap st = [] →
           Post (AStar.result tie_break st VNone VNone tm "exhausted").
Hypothesis rule_timeout :
  ∀ st tm, Inv st → timeout_sec ≠ None →
           Post (AStar.result tie_break st VNone VNone tm "timeout").
Hypothesis rule_stale :
  ∀ st e rest tick1,
    Inv st → AStar.heappop (AStar.open_heap st) = Some (e, rest) →
    AStar.item_state (AStar.entry_item e) ∈ AStar.closed st →
    Inv (AStar.popped st rest tick1).
Hypothesis rule_goal :
  ∀ st e rest tick1 tm,
    Inv st → AStar.heappop (AStar.open_heap st) = Some (e, rest) →
    AStar.item_state (AStar.entry_item e) ∉ AStar.closed st →
    AStar.item_state (AStar.entry_item e) = goal →
    Post (AStar.result tie_break (AStar.popped st rest tick1)
            (if return_path then VPath (AStar.reconstruct_path (AStar.entry_item e))
             else VNone)
            (VInt (AStar.item_g (AStar.entry_item e))) tm "ok").
Hypothesis rule_expand :
  ∀ st e rest tick1,
    Inv st → AStar.heappop (AStar.open_heap st) = Some (e, rest) →
    AStar.item_state (AStar.entry_item e) ∉ AStar.closed st →
    AStar.item_state (AStar.entry_item e) ≠ goal →
    Inv (foldl (AStar.relax hfun tie_break (AStar.entry_item e))
               (AStar.close_node (AStar.popped st rest tick1)
                                 (AStar.item_state (AStar.entry_item e)))
               (AStar.neighbors default_neighbors neighbors_fn
                                (AStar.item_state (AStar.entry_item e)))).

Lemma astar_loop_rule fuel st r :
  Inv st →
  AStar.loop default_neighbors clock goal hfun neighbors_fn tie_break return_path
             timeout_sec t0 fuel st = Some r →
  Post r.
Proof using rule_exhausted rule_timeout rule_stale rule_goal rule_expand.
  revert st. induction fuel as [|fuel IH]; intros st HI Hr; [done|].
  cbn [AStar.loop] in Hr.
  destruct (AStar.heappop (AStar.open_heap st)) as [[e rest]|] eqn:Hp.
  2: { injection Hr as <-. apply rule_exhausted; [done|by apply heappop_None]. }
  unfold timed_out in Hr. destruct timeout_sec as [lim|] eqn:Htmo.
  - destruct (negb _).
    { injection Hr as <-. by apply rule_timeout. }
    case_bool_decide.
    { eapply IH; [|exact Hr]. by eapply rule_stale. }
    case_bool_decide.
    { injection Hr as <-. by eapply rule_goal. }
    eapply IH; [|exact Hr]. by eapply rule_expand.
  - case_bool_decide.
    { eapply IH; [|exact Hr]. by eapply rule_stale. }
    case_bool_decide.
    { injection Hr as <-. by eapply rule_goal. }
    eapply IH; [|exact Hr]. by eapply rule_expand.
Qed.
End AStarRule.

(** ** [a_star]: items and their chains of parents *)

Section AStarItems.
Context {St : Type} `{Countable St}.
Variable neighbors : St → list (St * Z).
Variable hfun : St → Z.
Variable tie_break : string.
Variable start : St.

(** An item is well formed: [f = g + h], [h = hfun state], and its parent
    is well formed and has an edge to it whose cost is the difference of the
    two [g]; the root is the start with [g = 0]. *)
Fixpoint item_wf (n : AStar.PQItem (St:=St)) : Prop :=
  match n with
  | AStar.mkPQItem f h g s None => f = g + h ∧ h = hfun s ∧ s = start ∧ g = 0
  | AStar.mkPQItem f h g s (Some p) =>
      f = g + h ∧ h = hfun s ∧ item_wf p
      ∧ ∃ c, (s, c) ∈ neighbors (AStar.item_state (St:=St) p)
             ∧ g = AStar.item_g (St:=St) p + c
  end.

Lemma PQItem_parent_ind (P : AStar.PQItem (St:=St) → Prop) :
  (∀ f h g s, P (AStar.mkPQItem f h g s None)) →
  (∀ f h g s p, P p → P (AStar.mkPQItem f h g s (Some p))) →
  ∀ n, P n.
Proof.
  intros H1 H2. fix IH 1. intros [f h g s [p|]].
  - apply H2, IH.
  - apply H1.
Qed.

Lemma item_wf_fh (n : AStar.PQItem (St:=St)) :
  item_wf n → AStar.item_f n = AStar.item_g n + hfun (AStar.item_state n).
Proof. destruct n as [f h g s [p|]]; simpl; intros (-> & -> & _); done. Qed.

Lemma item_wf_head (n : AStar.PQItem (St:=St)) :
  head (AStar.path_to_root n) = Some (AStar.item_state n).
Proof. by destruct n as [f h g s [p|]]. Qed.

Lemma item_wf_last (n : AStar.PQItem (St:=St)) :
  item_wf n → last (AStar.path_to_root n) = Some start.
Proof.
  induction n as [f h g s|f h g s p IH] using PQItem_parent_ind.
  - simpl. by intros (_ & _ & -> & _).
  - simpl. intros (_ & _ & Hp & _). specialize (IH Hp).
    destruct (AStar.path_to_root p) eqn:E; [done|]. done.
Qed.

Lemma item_wf_valid_back (n : AStar.PQItem (St:=St)) :
  item_wf n → valid_back neighbors (AStar.path_to_root n).
Proof.
  induction n as [f h g s|f h g s p IH] using PQItem_parent_ind.
  - done.
  - simpl. intros (_ & _ & Hp & c & Hc & _). specialize (IH Hp).
    pose proof (item_wf_head p) as Hh.
    destruct (AStar.path_to_root p) as [|a l] eqn:E; [done|].
    injection Hh as ->. split; [by exists c|done].
Qed.

Lemma item_wf_path_cost (n : AStar.PQItem (St:=St)) :
  item_wf n → path_cost neighbors start (AStar.item_g n) (AStar.item_state n).
Proof.
  induction n as [f h g s|f h g s p IH] using PQItem_parent_ind.
  - simpl. intros (_ & _ & -> & ->). constructor.
  - simpl. intros (_ & _ & Hp & c & Hc & ->). specialize (IH Hp).
    by eapply path_cost_snoc.
Qed.

Lemma item_wf_length (n : AStar.PQItem (St:=St)) :
  unit_costs neighbors → item_wf n →
  AStar.item_g n = Z.of_nat (length (AStar.path_to_root n)) - 1.
Proof.
  intros Hu.
  induction n as [f h g s|f h g s p IH] using PQItem_parent_ind.
  - simpl. by intros (_ & _ & _ & ->).
  - simpl. intros (_ & _ & Hp & c & Hc & ->). specialize (IH Hp).
    rewrite (Hu _ _ _ Hc). lia.
Qed.

(** The effect of one round of the loop over the neighbours. *)
Lemma relax_cases (node : AStar.PQItem (St:=St)) (st : AStar.AState (St:=St)) (s2 : St) (c : Z) :
  let st' := AStar.relax hfun tie_break node st (s2, c) in
  let g2 := AStar.item_g node + c in
  AStar.closed st' = AStar.closed st
  ∧ AStar.expanded st' = AStar.expanded st
  ∧ AStar.generated st' = AStar.generated st + 1
  ∧ (AStar.duplicates st' = AStar.duplicates st
     ∨ AStar.duplicates st' = AStar.duplicates st + 1)
  ∧ (((AStar.best_g st !! s2 = None
       ∨ ∃ b, AStar.best_g st !! s2 = Some b ∧ g2 < b)
      ∧ AStar.best_g st' = <[s2:=g2]> (AStar.best_g st)
      ∧ ∃ pr ctr,
          AStar.open_heap st'
          = (pr, ctr, AStar.mkPQItem (g2 + hfun s2) (hfun s2) g2 s2 (Some node))
            :: AStar.open_heap st)
     ∨ ((∃ b, AStar.best_g st !! s2 = Some b ∧ b ≤ g2)
        ∧ AStar.best_g st' = AStar.best_g st
        ∧ AStar.open_heap st' = AStar.open_heap st)).
Proof.
  unfold AStar.relax. cbv zeta.
  destruct (bool_decide (s2 ∈ AStar.seen_ever st));
    destruct (AStar.best_g st !! s2) as [b|] eqn:Hb.
  all: try destruct (Z.ltb_spec (AStar.item_g node + c) b); simpl.
  all: repeat split; eauto 10.
  all: try (left; repeat split; eauto 10; fail).
  all: right; repeat split; eauto 10.
Qed.
End AStarItems.

(** ** [a_star]: the returned path *)

Section AStarPath.
Context {St : Type} `{Countable St}.
Variable default_neighbors : St → list (St * Z).
Variable clock : nat → Q.
Variable goal : St.
Variable hfun : St → Z.
Variable neighbors_fn : option (St → list (St * Z)).
Variable tie_break : string.
Variable return_path : bool.
Variable timeout_sec : option Q.
Variable start : St.

Abbreviation nbrs := (AStar.neighbors default_neighbors neighbors_fn).

(** Every entry of the heap holds a well-formed item. *)
Definition heap_wf (st : AStar.AState (St:=St)) : Prop :=
  Forall (λ e, item_wf nbrs hfun start (AStar.entry_item e)) (AStar.open_heap st).

Lemma heap_wf_init : heap_wf (AStar.init hfun tie_break start).
Proof.
  unfold heap_wf, AStar.init. simpl. apply Forall_cons. split; [|done].
  simpl. repeat split; lia.
Qed.

Lemma heap_wf_popped st e rest tick1 :
  heap_wf st → AStar.heappop (AStar.open_heap st) = Some (e, rest) →
  item_wf nbrs hfun start (AStar.entry_item e) ∧ heap_wf (AStar.popped st rest tick1).
Proof.
  unfold heap_wf. intros Hw Hp. apply heappop_perm in Hp.
  rewrite Hp in Hw. apply Forall_cons in Hw as [He Hw]. done.
Qed.

Lemma heap_wf_relax node st (s2 : St) (c : Z) :
  item_wf nbrs hfun start node → (s2, c) ∈ nbrs (AStar.item_state node) →
  heap_wf st → heap_wf (AStar.relax hfun tie_break node st (s2, c)).
Proof.
  intros Hn Hin Hw. unfold heap_wf.
  destruct (relax_cases hfun tie_break node st s2 c)
    as (_ & _ & _ & _ & [(_ & _ & pr & ctr & ->)|(_ & _ & ->)]); [|done].
  apply Forall_cons. split; [|done].
  simpl. repeat split; try done. by exists c.
Qed.

Lemma heap_wf_expand node st :
  item_wf nbrs hfun start node → heap_wf st →
  heap_wf (foldl (AStar.relax hfun tie_break node)
                 (AStar.close_node st (AStar.item_state node))
                 (nbrs (AStar.item_state node))).
Proof.
  intros Hn Hw. apply foldl_invariant; [|done].
  intros st' [s2 c] Hin Hw'. by apply heap_wf_relax.
Qed.

(** What the claim says of a returned path; the cost is the number of edges
    when all edge costs are 1. *)
Definition path_ok (neighbors : St → list (St * Z)) (r : gmap string (Value St)) : Prop :=
  ∀ p, r !! "path"%string = Some (VPath p) →
       is_path_from_to neighbors start goal p
       ∧ (unit_costs neighbors →
          r !! "g"%string = Some (VInt (Z.of_nat (length p) - 1))).

Lemma astar_path_ok fuel r :
  AStar.a_star default_neighbors clock goal hfun neighbors_fn tie_break return_path
               timeout_sec fuel start = Some r →
  path_ok nbrs r.
Proof.
  unfold AStar.a_star.
  apply (astar_loop_rule default_neighbors clock goal hfun neighbors_fn tie_break
           return_path timeout_sec (clock 0%nat) heap_wf (path_ok nbrs)).
  - intros st tm _ _ p Hp. discriminate Hp.
  - intros st tm _ _ p Hp. discriminate Hp.
  - intros st e rest tick1 Hw Hp _. by eapply heap_wf_popped.
  - intros st e rest tick1 tm Hw Hp _ Hg p Hpath.
    destruct (heap_wf_popped st e rest tick1 Hw Hp) as [He _].
    destruct return_path; [|discriminate Hpath].
    assert (p = AStar.reconstruct_path (AStar.entry_item e)) as ->.
    { change (Some (VPath (AStar.reconstruct_path (AStar.entry_item e)))
              = Some (VPath p)) in Hpath. by injection Hpath. }
    unfold AStar.reconstruct_path. split; [split; [|split]|].
    + rewrite head_reverse. by eapply item_wf_last.
    + rewrite last_reverse, item_wf_head. by rewrite Hg.
    + apply valid_path_reverse. by eapply item_wf_valid_back.
    + intros Hu. rewrite length_reverse.
      rewrite <- (item_wf_length nbrs hfun start _ Hu He). reflexivity.
  - intros st e rest tick1 Hw Hp _ _.
    destruct (heap_wf_popped st e rest tick1 Hw Hp) as [He Hw'].
    by apply heap_wf_expand.
  - apply heap_wf_init.
Qed.
End AStarPath.

(** ** [ida_star]: the dictionary [parents] along the current path *)

Section IdaPath.
Context {St : Type} `{Countable St}.
Variable default_neighbors : St → list (St * Z).
Variable clock : nat → Q.
Variable goal : St.
Variable hfun : St → Z.
Variable neighbors_fn : option (St → list (St * Z)).
Variable use_bpmx : bool.
Variable return_path : bool.
Variable timeout_sec : option Q.
Variable start : St.

Abbreviation nbrs := (IdaStar.neighbors default_neighbors neighbors_fn).

(** [cur] is the current path, last state first: [parents] maps each state
    to the next one, edges join them, and the last one is [start], mapped to
    [None]. *)
Fixpoint chain_ok (parents : gmap St (option St)) (cur : list St) : Prop :=
  match cur with
  | [] => False
  | s :: r =>
      match r with
      | [] => s = start ∧ parents !! s = Some None
      | p :: _ => parents !! s = Some (Some p) ∧ (∃ c, (s, c) ∈ nbrs p)
                  ∧ chain_ok parents r
      end
  end.

Lemma chain_ok_cons parents (s p : St) r :
  chain_ok parents (s :: p :: r)
  ↔ parents !! s = Some (Some p) ∧ (∃ c, (s, c) ∈ nbrs p) ∧ chain_ok parents (p :: r).
Proof. done. Qed.

Definition on_path (cur : list St) (st : IdaStar.IState (St:=St)) : Prop :=
  IdaStar.pathset st = list_to_set cur ∧ NoDup cur
  ∧ chain_ok (IdaStar.parents st) cur.

Lemma chain_ok_insert parents cur (s2 : St) v :
  s2 ∉ cur → chain_ok parents cur → chain_ok (<[s2:=v]> parents) cur.
Proof.
  induction cur as [|s r IH]; intros Hn Hc; [done|].
  assert (s2 ≠ s) by (intros ->; apply Hn; by left).
  assert (s2 ∉ r) by (intros ?; apply Hn; by right).
  simpl in *. destruct r as [|p r'].
  - destruct Hc as [-> Hc]. by rewrite lookup_insert_ne.
  - destruct Hc as (Hc1 & Hc2 & Hc3). rewrite lookup_insert_ne by done.
    split; [done|]. split; [done|]. by apply IH.
Qed.

Lemma chain_ok_last parents cur : chain_ok parents cur → last cur = Some start.
Proof.
  induction cur as [|s r IH]; [done|]. simpl. destruct r as [|p r'].
  - by intros [-> _].
  - intros (_ & _ & Hc). by apply IH.
Qed.

Lemma chain_ok_valid_back parents cur : chain_ok parents cur → valid_back nbrs cur.
Proof.
  induction cur as [|s r IH]; [done|]. simpl. destruct r as [|p r'].
  - done.
  - intros (_ & He & Hc). split; [done|]. by apply IH.
Qed.

Lemma chain_ok_path_to_root parents cur s fuel l :
  chain_ok parents cur → head cur = Some s →
  IdaStar.path_to_root fuel parents s = Some l → l = cur.
Proof.
  revert cur s l. induction fuel as [|fuel IH]; intros cur s l Hc Hh Hp; [done|].
  destruct cur as [|s' r]; [done|]. injection Hh as ->.
  simpl in Hp, Hc. destruct r as [|p r'].
  - destruct Hc as [_ Hc]. rewrite Hc in Hp. by injection Hp as <-.
  - destruct Hc as (Hc1 & _ & Hc3). rewrite Hc1 in Hp.
    destruct (IdaStar.path_to_root fuel parents p) as [l'|] eqn:E; [|done].
    simpl in Hp. injection Hp as <-. f_equal. by eapply IH.
Qed.

(** What a call of [dfs] on the head of [cur] leaves behind. *)
Definition path_post (cur : list St) (ret : IdaStar.DfsRet)
    (st' : IdaStar.IState (St:=St)) : Prop :=
  if IdaStar.is_timeout ret then True
  else if IdaStar.is_found ret then
    ∃ cur' g', head cur' = Some goal ∧ chain_ok (IdaStar.parents st') cur'
               ∧ IdaStar.solution_g st' = Some g'
               ∧ (unit_costs nbrs → g' = Z.of_nat (length cur') - 1)
  else on_path cur st'.

Lemma on_path_enter cur (state s2 : St) (c : Z) st :
  head cur = Some state → (s2, c) ∈ nbrs state → s2 ∉ IdaStar.pathset st →
  on_path cur st → on_path (s2 :: cur) (IdaStar.enter_child state s2 st).
Proof.
  intros Hh Hin Hn (Hps & Hnd & Hc).
  assert (s2 ∉ cur) as Hn' by (rewrite Hps in Hn; set_solver).
  unfold on_path, IdaStar.enter_child.
  destruct (bool_decide (s2 ∈ IdaStar.ever_seen st)); simpl IdaStar.pathset;
    simpl IdaStar.parents.
  all: split; [rewrite Hps; set_solver|]; split; [by apply NoDup_cons|].
  all: destruct cur as [|s r]; [done|]; injection Hh as ->.
  all: apply chain_ok_cons; rewrite lookup_insert_eq.
  all: split; [done|]; split; [by exists c|]; by apply chain_ok_insert.
Qed.

Lemma on_path_leave cur (s2 : St) st :
  on_path (s2 :: cur) st → cur ≠ [] → on_path cur (IdaStar.leave_child s2 st).
Proof.
  clear hfun.
  intros (Hps & Hnd & Hc) Hne. apply NoDup_cons in Hnd as [Hn Hnd].
  unfold on_path, IdaStar.leave_child. simpl.
  split; [rewrite Hps; set_solver|]. split; [done|].
  destruct cur as [|s r]; [done|]. simpl in Hc. by destruct Hc as (_ & _ & Hc).
Qed.

Lemma min_ret_not_timeout (t mn : IdaStar.DfsRet) :
  IdaStar.is_timeout t = false → IdaStar.is_timeout mn = false →
  IdaStar.is_timeout (IdaStar.min_ret t mn) = false.
Proof. unfold IdaStar.min_ret. by destruct (IdaStar.ret_lt t mn). Qed.

Hypothesis hfun_nonneg : ∀ s, 0 ≤ hfun s.
Hypothesis costs_nonneg : ∀ s s2 c, (s2, c) ∈ nbrs s → 0 ≤ c.

Lemma dfs_path t0 fuel (state : St) (g bound h_s depth : Z) rest st ret st' :
  on_path (state :: rest) st → 0 ≤ g →
  (unit_costs nbrs → g = Z.of_nat (length rest)) → 0 ≤ h_s →
  IdaStar.dfs default_neighbors clock goal hfun neighbors_fn use_bpmx timeout_sec
              t0 fuel state g bound h_s depth st = Some (ret, st') →
  path_post (state :: rest) ret st'.
Proof using hfun_nonneg costs_nonneg.
  revert state g h_s depth rest st ret st'.
  induction fuel as [|fuel IH];
    intros state g h_s depth rest st ret st' Hon Hg Hlen Hh Hr; [done|].
  rewrite ida_dfs_unfold in Hr.
  destruct (timed_out clock timeout_sec t0 (IdaStar.tick st)) as [[|] tick1].
  { injection Hr as <- <-. done. }
  cbv zeta in Hr.
  destruct (Z.ltb_spec bound (g + h_s)).
  { injection Hr as <- <-. unfold path_post. simpl.
    destruct (Z.eqb_spec (g + h_s) (-1)); [lia|]. exact Hon. }
  case_bool_decide as Hgoal.
  { injection Hr as <- <-. unfold path_post. simpl.
    exists (state :: rest), g. destruct Hon as (_ & _ & Hc).
    split; [by rewrite Hgoal|]. split; [done|]. split; [done|].
    intros Hu. rewrite (Hlen Hu). simpl length. lia. }
  revert Hr.
  apply (children_rule hfun use_bpmx _ state g bound depth
           (λ l hp mn st0, 0 ≤ hp ∧ IdaStar.is_found mn = false
                           ∧ IdaStar.is_timeout mn = false
                           ∧ on_path (state :: rest) st0
                           ∧ ∀ s2 c, (s2, c) ∈ l → (s2, c) ∈ nbrs state)
           (path_post (state :: rest))).
  - intros hp mn st0 (_ & Hf & Ht & Hon' & _). unfold path_post. by rewrite Ht, Hf.
  - intros s2 c l hp mn st0 (? & ? & ? & ? & Hl) _.
    do 4 (split; [done|]).
    intros s3 c3 ?. apply (Hl s3 c3), elem_of_cons. by right.
  - intros s2 c l hp mn st0 v (Hhp & _ & _ & Hon' & Hl) _ Hb.
    assert (0 ≤ c) by (eapply costs_nonneg, (Hl s2 c), elem_of_cons; by left).
    pose proof (bpmx_nonneg use_bpmx g bound hp (hfun s2) c Hg Hhp (hfun_nonneg s2)) as Hn.
    rewrite Hb in Hn. unfold path_post. simpl.
    destruct (Z.eqb_spec v (-1)); [lia|]. exact Hon'.
  - intros s2 c l hp mn st0 hp' h2 t st2 (Hhp & Hmf & Hmt & Hon' & Hl) Hps Hb Hrec.
    assert ((s2, c) ∈ nbrs state) as Hin by (apply (Hl s2 c), elem_of_cons; by left).
    assert (0 ≤ c) by (by eapply costs_nonneg).
    pose proof (bpmx_nonneg use_bpmx g bound hp (hfun s2) c Hg Hhp (hfun_nonneg s2)) as Hn.
    rewrite Hb in Hn. destruct Hn as [Hhp' Hh2].
    apply (IH _ _ _ _ (state :: rest)) in Hrec; [|by eapply on_path_enter|lia| |lia].
    2: { intros Hu. rewrite (Hlen Hu), (Hu _ _ _ Hin). simpl length. lia. }
    unfold path_post in Hrec. split; [|split].
    + intros Ht. unfold path_post. done.
    + intros Ht Hf. rewrite Ht, Hf in Hrec. unfold path_post. simpl. exact Hrec.
    + intros Ht Hf _. rewrite Ht, Hf in Hrec.
      split; [done|]. split; [by apply min_ret_not_found|].
      split; [by apply min_ret_not_timeout|].
      split; [by apply on_path_leave|].
      intros s3 c3 ?. apply (Hl s3 c3), elem_of_cons. by right.
  - do 3 (split; [done|]). split; [exact Hon|done].
Qed.

Lemma ida_loop_path t0 fd fuel h0 bound (st : IdaStar.IState) r :
  0 ≤ h0 → IdaStar.parents st !! start = Some None →
  IdaStar.loop default_neighbors clock goal hfun neighbors_fn use_bpmx return_path
               timeout_sec t0 fd fuel start h0 bound st = Some r →
  path_ok goal start nbrs r.
Proof using hfun_nonneg costs_nonneg.
  intros Hh0. revert bound st. induction fuel as [|fuel IH]; intros bound st Hst Hr; [done|].
  cbn [IdaStar.loop] in Hr.
  destruct (IdaStar.dfs _ _ _ _ _ _ _ _ _ _ _ _ _ _ _) as [[ret st1]|] eqn:Hd; [|done].
  apply (dfs_path _ _ _ _ _ _ _ []) in Hd; [| |done|done|done].
  2: { unfold on_path, IdaStar.new_pathset. simpl.
       split; [set_solver|]. split; [apply NoDup_singleton|done]. }
  unfold path_post in Hd.
  destruct ret as [|t|]; simpl in Hd.
  - injection Hr as <-. intros p Hp. discriminate Hp.
  - destruct (Z.eqb_spec t (-1)) as [->|Hne].
    + destruct Hd as (cur & g' & Hhead & Hc & Hsol & Hlen).
      rewrite Hsol in Hr. destruct return_path.
      * destruct (IdaStar.reconstruct_path fd (IdaStar.parents st1) goal) as [p0|] eqn:Hrp;
          [|done].
        simpl in Hr. injection Hr as <-. intros p Hp.
        assert (p = p0) as -> by (by injection Hp).
        unfold IdaStar.reconstruct_path in Hrp.
        destruct (IdaStar.path_to_root fd (IdaStar.parents st1) goal) as [l|] eqn:Hl;
          [|done].
        simpl in Hrp. injection Hrp as <-.
        apply (chain_ok_path_to_root _ cur) in Hl; [|done..]. subst l.
        split; [split; [|split]|].
        -- rewrite head_reverse. by eapply chain_ok_last.
        -- by rewrite last_reverse.
        -- apply valid_path_reverse. by eapply chain_ok_valid_back.
        -- intros Hu. rewrite length_reverse, (Hlen Hu). reflexivity.
      * injection Hr as <-. intros p Hp. discriminate Hp.
    + apply (IH _ _ ltac:(by destruct Hd as (_ & _ & [_ ?])) Hr).
  - injection Hr as <-. intros p Hp. discriminate Hp.
Qed.

Lemma ida_path_ok fuel r :
  IdaStar.ida_star default_neighbors clock goal hfun neighbors_fn use_bpmx return_path
                   timeout_sec fuel start = Some r →
  path_ok goal start nbrs r.
Proof using hfun_nonneg costs_nonneg.
  unfold IdaStar.ida_star. apply ida_loop_path; [apply hfun_nonneg|].
  apply lookup_singleton_eq.
Qed.
End IdaPath.

(** C5 (amended). A path returned by [a_star], or by [ida_star] run with a
    heuristic and edge costs that are not negative, starts at the start
    state, ends at the goal and follows edges of the neighbour function; when
    all edge costs are 1, its length minus one is the returned cost [g]. *)
Theorem returned_path_valid {St} `{Countable St}
    (dn : St → list (St * Z)) (clock : nat → Q) (goal : St) (hfun : St → Z)
    (nf : option (St → list (St * Z))) (tb : string) (bp rp : bool)
    (tmo : option Q) (fuel : nat) (start : St) :
  (∀ r, AStar.a_star dn clock goal hfun nf tb rp tmo fuel start = Some r →
        path_ok goal start (AStar.neighbors dn nf) r)
  ∧ ((∀ s, 0 ≤ hfun s) →
     (∀ s s2 c, (s2, c) ∈ IdaStar.neighbors dn nf s → 0 ≤ c) →
     ∀ r, IdaStar.ida_star dn clock goal hfun nf bp rp tmo fuel start = Some r →
          path_ok goal start (IdaStar.neighbors dn nf) r).
Proof.
  split.
  - intros r. apply astar_path_ok.
  - intros Hh Hc r. by apply ida_path_ok.
Qed.

Lemma returned_path_valid_witness :
  match IdaStar.ida_star Puzzle8.neighbors still_clock Puzzle8.GOAL Puzzle8.manhattan
                         None true true None 20 near_goal with
  | Some r => path_ok Puzzle8.GOAL near_goal Puzzle8.neighbors r
  | None => False
  end.
Proof.
  destruct (run_returns
              (IdaStar.ida_star Puzzle8.neighbors still_clock Puzzle8.GOAL
                                Puzzle8.manhattan None true true None 20 near_goal))
    as [r E]; [vm_compute; reflexivity|].
  rewrite E.
  refine (proj2 (returned_path_valid
            Puzzle8.neighbors still_clock Puzzle8.GOAL Puzzle8.manhattan None
            "h" true true None 20 near_goal) _ _ r E).
  - exact manhattan_nonneg.
  - intros s s2 c Hin. rewrite (puzzle8_unit_costs s s2 c Hin). lia.
Defined.

(** A graph with one edge, of cost 2, from state 0 to state 1. *)
Definition one_edge (s : nat) : list (nat * Z) :=
  match s with
  | O => [(1%nat, 2)]
  | _ => []
  end.

(** C5 fails when an edge cost is not 1: on [one_edge] both searches return
    the path [0, 1], of length 2, with the cost 2. *)
Lemma path_length_is_not_cost :
  (∃ r, AStar.a_star one_edge still_clock 1%nat (λ _, 0) None "h" true None 10 0%nat
        = Some r
        ∧ r !! "path"%string = Some (VPath [0%nat; 1%nat])
        ∧ r !! "g"%string = Some (VInt 2) ∧ termination_is r "ok")
  ∧ (∃ r, IdaStar.ida_star one_edge still_clock 1%nat (λ _, 0) None false true None
                           10 0%nat = Some r
          ∧ r !! "path"%string = Some (VPath [0%nat; 1%nat])
          ∧ r !! "g"%string = Some (VInt 2) ∧ termination_is r "ok").
Proof.
  split.
  - destruct (run_returns
                (AStar.a_star one_edge still_clock 1%nat (λ _, 0) None "h" true None 10
                              0%nat))
      as [r E]; [vm_compute; reflexivity|].
    exists r. split; [exact E|]. split; [|split]; run_key E.
  - destruct (run_returns
                (IdaStar.ida_star one_edge still_clock 1%nat (λ _, 0) None false true
                                  None 10 0%nat))
      as [r E]; [vm_compute; reflexivity|].
    exists r. split; [exact E|]. split; [|split]; run_key E.
Qed.

(** * The counters *)

(** The record holds the three counters, [duplicates <= generated] and
    [expanded <= generated + slack]. *)
Definition counters_sane {St} (slack : Z) (r : gmap string (Value St)) : Prop :=
  ∃ e g d, r !! "expanded"%string = Some (VInt e)
           ∧ r !! "generated"%string = Some (VInt g)
           ∧ r !! "duplicates"%string = Some (VInt d)
           ∧ d ≤ g ∧ e ≤ g + slack.

(** The same with no bound on [expanded]. *)
Definition duplicates_sane {St} (r : gmap string (Value St)) : Prop :=
  ∃ g d, r !! "generated"%string = Some (VInt g)
         ∧ r !! "duplicates"%string = Some (VInt d) ∧ d ≤ g.

Section AStarCounters.
Context {St : Type} `{Countable St}.
Variable default_neighbors : St → list (St * Z).
Variable clock : nat → Q.
Variable goal : St.
Variable hfun : St → Z.
Variable neighbors_fn : option (St → list (St * Z)).
Variable tie_break : string.
Variable return_path : bool.
Variable timeout_sec : option Q.
Variable start : St.

Abbreviation nbrs := (AStar.neighbors default_neighbors neighbors_fn).

Lemma relax_fold_counters node (l : list (St * Z)) (st : AStar.AState) :
  let st' := foldl (AStar.relax hfun tie_break node) st l in
  AStar.expanded st' = AStar.expanded st
  ∧ AStar.generated st' = AStar.generated st + Z.of_nat (length l)
  ∧ AStar.duplicates st' - AStar.duplicates st ≤ Z.of_nat (length l).
Proof.
  revert st. induction l as [|[s2 c] l IH]; intros st; [simpl; lia|].
  cbn [foldl].
  destruct (relax_cases hfun tie_break node st s2 c) as (_ & He & Hg & Hd & _).
  destruct (IH (AStar.relax hfun tie_break node st (s2, c))) as (He' & Hg' & Hd').
  rewrite He', Hg', He, Hg. simpl length. lia.
Qed.

(** Each state that can be reached from [start] has a successor. *)
Hypothesis has_successor : ∀ s n, path_cost nbrs start n s → nbrs s ≠ [].

Definition counters_inv (st : AStar.AState (St:=St)) : Prop :=
  heap_wf default_neighbors hfun neighbors_fn start st
  ∧ AStar.duplicates st ≤ AStar.generated st
  ∧ AStar.expanded st ≤ AStar.generated st.

Lemma astar_result_counters st p g tm term :
  counters_inv st → counters_sane 0 (AStar.result tie_break st p g tm term).
Proof.
  intros (_ & Hd & He). exists (AStar.expanded st), (AStar.generated st),
    (AStar.duplicates st).
  repeat split; try reflexivity; lia.
Qed.

Lemma astar_counters fuel r :
  AStar.a_star default_neighbors clock goal hfun neighbors_fn tie_break return_path
               timeout_sec fuel start = Some r →
  counters_sane 0 r.
Proof using has_successor.
  unfold AStar.a_star.
  apply (astar_loop_rule default_neighbors clock goal hfun neighbors_fn tie_break
           return_path timeout_sec (clock 0%nat) counters_inv (counters_sane 0)).
  - intros st tm HI _. by apply astar_result_counters.
  - intros st tm HI _. by apply astar_result_counters.
  - intros st e rest tick1 (Hw & Hd & He) Hp _.
    split; [by eapply heap_wf_popped|]. done.
  - intros st e rest tick1 tm (Hw & Hd & He) Hp _ _.
    apply astar_result_counters.
    split; [by eapply heap_wf_popped|]. done.
  - intros st e rest tick1 (Hw & Hd & He) Hp _ _.
    destruct (heap_wf_popped _ _ _ _ st e rest tick1 Hw Hp) as [Hwe Hw'].
    split; [by apply heap_wf_expand|].
    pose proof (has_successor _ _ (item_wf_path_cost _ _ _ _ Hwe)) as Hne.
    destruct (relax_fold_counters (AStar.entry_item e)
                (nbrs (AStar.item_state (AStar.entry_item e)))
                (AStar.close_node (AStar.popped st rest tick1)
                                  (AStar.item_state (AStar.entry_item e))))
      as (He' & Hg' & Hd').
    rewrite He', Hg'. simpl in *.
    destruct (nbrs (AStar.item_state (AStar.entry_item e))); [done|].
    simpl length in *. lia.
  - split; [apply heap_wf_init|]. simpl. lia.
Qed.
End AStarCounters.

Section IdaCounters.
Context {St : Type} `{Countable St}.
Variable default_neighbors : St → list (St * Z).
Variable clock : nat → Q.
Variable goal : St.
Variable hfun : St → Z.
Variable neighbors_fn : option (St → list (St * Z)).
Variable use_bpmx : bool.
Variable return_path : bool.
Variable timeout_sec : option Q.

(** [generated - expanded] *)
Definition surplus (st : IdaStar.IState (St:=St)) : Z :=
  IdaStar.generated st - IdaStar.expanded st.

(** [generated - duplicates] *)
Definition fresh (st : IdaStar.IState (St:=St)) : Z :=
  IdaStar.generated st - IdaStar.duplicates st.

(** What a call of [dfs] started in [sb] does to the counters: without BPMX
    the surplus does not decrease, except by one when [math.inf] is
    returned. *)
Definition counters_post (sb : IdaStar.IState (St:=St)) (ret : IdaStar.DfsRet)
    (st' : IdaStar.IState (St:=St)) : Prop :=
  fresh sb ≤ fresh st'
  ∧ (use_bpmx = false →
     match ret with
     | IdaStar.Inf => surplus sb - 1 ≤ surplus st'
     | _ => surplus sb ≤ surplus st'
     end).

Lemma enter_child_counters (state s2 : St) st :
  surplus (IdaStar.enter_child state s2 st) = surplus st + 1
  ∧ fresh st ≤ fresh (IdaStar.enter_child state s2 st).
Proof.
  unfold IdaStar.enter_child, surplus, fresh.
  destruct (bool_decide (s2 ∈ IdaStar.ever_seen st)); simpl; lia.
Qed.

Lemma dfs_counters t0 fuel (state : St) (g bound h_s depth : Z) st ret st' :
  IdaStar.dfs default_neighbors clock goal hfun neighbors_fn use_bpmx timeout_sec
              t0 fuel state g bound h_s depth st = Some (ret, st') →
  counters_post st ret st'.
Proof.
  revert state g h_s depth st ret st'.
  induction fuel as [|fuel IH]; intros state g h_s depth st ret st' Hr; [done|].
  rewrite ida_dfs_unfold in Hr.
  destruct (timed_out clock timeout_sec t0 (IdaStar.tick st)) as [[|] tick1].
  { injection Hr as <- <-. split; [done|]. by intros _. }
  cbv zeta in Hr.
  destruct (Z.ltb_spec bound (g + h_s)).
  { injection Hr as <- <-. split; [done|]. by intros _. }
  case_bool_decide as Hgoal.
  { injection Hr as <- <-. split; [done|]. by intros _. }
  revert Hr.
  apply (children_rule hfun use_bpmx _ state g bound depth
           (λ l hp mn stc,
              fresh st ≤ fresh stc
              ∧ IdaStar.is_timeout mn = false
              ∧ (use_bpmx = false →
                 match mn with
                 | IdaStar.Inf => surplus st - 1 ≤ surplus stc
                 | _ => surplus st ≤ surplus stc
                 end))
           (counters_post st)).
  - intros hp mn stc (Hf & Ht & Hs). done.
  - intros s2 c l hp mn stc HI _. done.
  - intros s2 c l hp mn stc v (Hf & Ht & Hs) _ Hb. split; [done|].
    intros Hbp. unfold IdaStar.bpmx in Hb. rewrite Hbp in Hb. done.
  - intros s2 c l hp mn stc hp' h2 t st2 (Hf & Ht & Hs) _ _ Hrec.
    apply IH in Hrec. destruct Hrec as [Hf2 Hs2].
    destruct (enter_child_counters state s2 stc) as [Hs1 Hf1].
    split; [|split].
    + intros Htt. split; [lia|]. intros Hbp.
      specialize (Hs Hbp). specialize (Hs2 Hbp).
      destruct t; try done. destruct mn; try done; lia.
    + intros _ Hfd. split; [lia|]. intros Hbp.
      specialize (Hs Hbp). specialize (Hs2 Hbp).
      destruct t; try done. destruct mn; try done; lia.
    + intros Htt Hfd _. split; [unfold fresh in *; simpl; lia|].
      split; [by apply min_ret_not_timeout|]. intros Hbp.
      specialize (Hs Hbp). specialize (Hs2 Hbp).
      unfold surplus in *. unfold IdaStar.min_ret.
      destruct t as [|t|]; [done| |]; destruct mn as [|m|]; try done; simpl.
      * destruct (t <? m); lia.
      * lia.
      * lia.
      * lia.
  - split; [unfold fresh; simpl; lia|]. split; [done|].
    intros _. unfold surplus. simpl. lia.
Qed.

Definition counters_ok (slack : Z) (st : IdaStar.IState (St:=St)) : Prop :=
  0 ≤ fresh st ∧ (use_bpmx = false → -slack ≤ surplus st).

Lemma ida_result_counters st bd p g tm term :
  counters_ok 0 st →
  duplicates_sane (IdaStar.result use_bpmx st bd p g tm term)
  ∧ (use_bpmx = false → counters_sane 0 (IdaStar.result use_bpmx st bd p g tm term)).
Proof.
  intros [Hf Hs]. unfold fresh, surplus in *. split.
  - exists (IdaStar.generated st), (IdaStar.duplicates st).
    repeat split; try reflexivity; lia.
  - intros Hbp. specialize (Hs Hbp).
    exists (IdaStar.expanded st), (IdaStar.generated st), (IdaStar.duplicates st).
    repeat split; try reflexivity; lia.
Qed.

(** What holds of the record of [ida_star]. *)
Definition ida_counters_post (r : gmap string (Value St)) : Prop :=
  duplicates_sane r
  ∧ (use_bpmx = false →
     (termination_is r "exhausted" → counters_sane 1 r)
     ∧ (¬ termination_is r "exhausted" → counters_sane 0 r)).

Lemma ida_loop_counters t0 fd fuel start h0 bound (st : IdaStar.IState) r :
  counters_ok 0 st →
  IdaStar.loop default_neighbors clock goal hfun neighbors_fn use_bpmx return_path
               timeout_sec t0 fd fuel start h0 bound st = Some r →
  ida_counters_post r.
Proof.
  revert bound st. induction fuel as [|fuel IH]; intros bound st Hst Hr; [done|].
  cbn [IdaStar.loop] in Hr.
  destruct (IdaStar.dfs _ _ _ _ _ _ _ _ _ _ _ _ _ _ _) as [[ret st1]|] eqn:Hd; [|done].
  apply dfs_counters in Hd. destruct Hd as [Hf Hs]. destruct Hst as [Hf0 Hs0].
  change (fresh (IdaStar.new_pathset st start)) with (fresh st) in Hf.
  change (surplus (IdaStar.new_pathset st start)) with (surplus st) in Hs.
  destruct ret as [|t|].
  - injection Hr as <-.
    destruct (ida_result_counters st1 bound VNone VNone
                (Qminus (clock (IdaStar.tick st1)) t0) "timeout") as [H1 H2].
    { split; [lia|]. intros Hbp. specialize (Hs Hbp). specialize (Hs0 Hbp). lia. }
    split; [done|]. intros Hbp. split; [|by auto]. intros Hx. discriminate Hx.
  - assert (counters_ok 0 st1) as Hok.
    { split; [lia|]. intros Hbp. specialize (Hs Hbp). specialize (Hs0 Hbp). lia. }
    destruct (Z.eqb t (-1)); [|by eapply IH].
    destruct (if return_path then _ else _) as [p|]; [|done].
    injection Hr as <-.
    destruct (ida_result_counters st1 bound p (opt_int (IdaStar.solution_g st1))
                (Qminus (clock (IdaStar.tick st1)) t0) "ok" Hok) as [H1 H2].
    split; [done|]. intros Hbp. split; [|by auto]. intros Hx. discriminate Hx.
  - injection Hr as <-. unfold fresh, surplus in *. split.
    + exists (IdaStar.generated st1), (IdaStar.duplicates st1).
      repeat split; try reflexivity; lia.
    + intros Hbp. specialize (Hs Hbp). specialize (Hs0 Hbp). split.
      * intros _.
        exists (IdaStar.expanded st1), (IdaStar.generated st1), (IdaStar.duplicates st1).
        repeat split; try reflexivity; lia.
      * intros Hx. exfalso. apply Hx. reflexivity.
Qed.

Lemma ida_counters fuel start r :
  IdaStar.ida_star default_neighbors clock goal hfun neighbors_fn use_bpmx return_path
                   timeout_sec fuel start = Some r →
  ida_counters_post r.
Proof.
  unfold IdaStar.ida_star. apply ida_loop_counters.
  split; [unfold fresh; simpl; lia|]. intros _. unfold surplus. simpl. lia.
Qed.
End IdaCounters.

(** C7 (amended). On every run of [a_star] over a graph in which each state
    reachable from the start has a successor, the record has
    [generated >= expanded] and [duplicates <= generated].  On every run of
    [ida_star] the record has [duplicates <= generated]; without BPMX it has
    [generated >= expanded] when the termination is ["ok"] or ["timeout"],
    and [generated + 1 >= expanded] when it is ["exhausted"]. *)
Theorem counters_are_sane {St} `{Countable St}
    (dn : St → list (St * Z)) (clock : nat → Q) (goal : St) (hfun : St → Z)
    (nf : option (St → list (St * Z))) (tb : string) (bp rp : bool)
    (tmo : option Q) (fuel : nat) (start : St) :
  ((∀ s n, path_cost (AStar.neighbors dn nf) start n s → AStar.neighbors dn nf s ≠ []) →
   ∀ r, AStar.a_star dn clock goal hfun nf tb rp tmo fuel start = Some r →
        counters_sane 0 r)
  ∧ (∀ r, IdaStar.ida_star dn clock goal hfun nf bp rp tmo fuel start = Some r →
          duplicates_sane r
          ∧ (bp = false →
             (termination_is r "exhausted" → counters_sane 1 r)
             ∧ (¬ termination_is r "exhausted" → counters_sane 0 r))).
Proof.
  split.
  - intros Hs r. by apply astar_counters.
  - intros r. apply ida_counters.
Qed.

Lemma path_from_board (s t : State) (n : Z) :
  board board33 s → path_cost Puzzle8.neighbors s n t → board board33 t.
Proof.
  intros Hb Hp. induction Hp as [s|s s1 c n t Hin Hp IH]; [done|].
  apply IH. by eapply board33_forward.
Qed.

Lemma puzzle8_neighbors_nonempty (s : State) :
  board board33 s → Puzzle8.neighbors s ≠ [].
Proof.
  intros Hb.
  destruct (board_facts board33 s) as (Hnd & Hlen & z & Hz & Hlt); [vm_compute; lia|done|].
  destruct (puzzle8_NEI_rect z Hlt) as (js & js' & Hn & Hn' & Hne & Hsub).
  destruct js as [|j js]; [done|].
  assert (j ∈ js') as Hj by (apply Hsub; by left).
  destruct (nei_cases board33 z j js' Hn' Hj) as (_ & Hj9 & Hcases).
  destruct (blank_move_effect s z j Hnd Hz) as (s' & Hsw & _).
  { simpl in Hcases. lia. }
  { rewrite Hlen. exact Hj9. }
  assert ((s', 1) ∈ Puzzle8.neighbors s) as Hin.
  { apply puzzle8_neighbors_elem. exists z, (j :: js), j.
    repeat split; try done. by left. }
  intros E. rewrite E in Hin. by apply elem_of_nil in Hin.
Qed.

Lemma near_goal_board : board board33 near_goal.
Proof.
  apply (path_to_GOAL_board near_goal 1).
  apply (is_path_sound Puzzle8.neighbors _ _ [Puzzle8.GOAL]). vm_compute. reflexivity.
Qed.

Lemma counters_are_sane_witness :
  match AStar.a_star Puzzle8.neighbors still_clock Puzzle8.GOAL Puzzle8.manhattan
                     None "h" true None 20 near_goal with
  | Some r => counters_sane 0 r
  | None => False
  end.
Proof.
  destruct (run_returns
              (AStar.a_star Puzzle8.neighbors still_clock Puzzle8.GOAL Puzzle8.manhattan
                            None "h" true None 20 near_goal))
    as [r E]; [vm_compute; reflexivity|].
  rewrite E.
  refine (proj1 (counters_are_sane
            Puzzle8.neighbors still_clock Puzzle8.GOAL Puzzle8.manhattan None
            "h" true true None 20 near_goal) _ r E).
  intros s n Hp. apply puzzle8_neighbors_nonempty.
  exact (path_from_board _ _ _ near_goal_board Hp).
Defined.

(** A clock that jumps from 0 to 10 at its third reading. *)
Definition late_clock (k : nat) : Q := if (k <? 2)%nat then 0%Q else inject_Z 10.

Definition early_cutoff : State := [0;7;3;4;5;2;1;8;6].

(** C7 fails for [ida_star] with BPMX: from [0 7 3 / 4 5 2 / 1 8 6] with
    [linear_conflict], the first child raises the parent's value above the
    bound, so the first round returns before counting any child; a timeout
    at the start of the second round returns [expanded = 1] and
    [generated = 0]. *)
Lemma bpmx_cutoff_counters :
  Puzzle8.is_solvable early_cutoff = true
  ∧ ∃ r, IdaStar.ida_star Puzzle8.neighbors late_clock Puzzle8.GOAL
                          Puzzle8.linear_conflict None true true (Some 1%Q) 20
                          early_cutoff = Some r
         ∧ termination_is r "timeout"
         ∧ r !! "expanded"%string = Some (VInt 1)
         ∧ r !! "generated"%string = Some (VInt 0).
Proof.
  split; [vm_compute; reflexivity|].
  destruct (run_returns
              (IdaStar.ida_star Puzzle8.neighbors late_clock Puzzle8.GOAL
                                Puzzle8.linear_conflict None true true (Some 1%Q) 20
                                early_cutoff))
    as [r E]; [vm_compute; reflexivity|].
  exists r. split; [exact E|]. split; [|split]; run_key E.
Qed.

(** * Depth-first search under a depth bound *)

Section Steps.
Context {St : Type}.
Variable neighbors : St → list (St * Z).

(** [steps s n t]: some path of [n] edges leads from [s] to [t]. *)
Inductive steps : St → nat → St → Prop :=
| steps_nil s : steps s 0 s
| steps_cons s s1 c n t :
    (s1, c) ∈ neighbors s → steps s1 n t → steps s (S n) t.

Lemma steps_path_cost (s t : St) (n : nat) :
  unit_costs neighbors → steps s n t → path_cost neighbors s (Z.of_nat n) t.
Proof.
  intros Hu. induction 1 as [s|s s1 c n t Hin Hs IH]; [constructor|].
  replace (Z.of_nat (S n)) with (c + Z.of_nat n) by (rewrite (Hu _ _ _ Hin); lia).
  by eapply path_step.
Qed.

Lemma path_cost_steps (s t : St) (n : Z) :
  unit_costs neighbors → path_cost neighbors s n t → steps s (Z.to_nat n) t.
Proof.
  intros Hu Hp. pose proof (path_cost_nonneg _ _ _ _ Hu Hp) as Hn.
  induction Hp as [s|s s1 c n t Hin Hp IH]; [constructor|].
  pose proof (path_cost_nonneg _ _ _ _ Hu Hp).
  rewrite (Hu _ _ _ Hin). replace (Z.to_nat (1 + n)) with (S (Z.to_nat n)) by lia.
  eapply steps_cons; [done|]. apply IH. lia.
Qed.
End Steps.

Section DfsBound.
Context {St : Type} `{Countable St}.
Variable clock : nat → Q.
Variable goal : St.
Variable neighbors_fn : St → list (St * Z).
Variable m : Z.

Abbreviation run := (Dfs.loop clock goal neighbors_fn (Some m) None (clock 0%nat)).

(** No state within the bound below a frame of depth [d] on [s] is the
    goal. *)
Definition safe (d : Z) (s : St) : Prop :=
  ∀ j t, steps neighbors_fn s j t → d + Z.of_nat j ≤ m → t ≠ goal.

Lemma safe_child (d : Z) (s s2 : St) (c : Z) :
  safe d s → (s2, c) ∈ neighbors_fn s → safe (d + 1) s2.
Proof.
  intros Hs Hin j t Hst Hj. apply (Hs (S j) t); [by eapply steps_cons|lia].
Qed.

(** A frame is worked off in finitely many rounds: the loop reaches the
    stack below it, with the state of the frame gone from [on_path]. *)
Lemma frame_done (n : nat) :
  ∀ d s it fl below e g dup pk onp tick,
    m - d < Z.of_nat n →
    (∀ s2 c, (s2, c) ∈ it → (s2, c) ∈ neighbors_fn s) →
    safe d s → s ∈ onp →
    ∃ k e' g' dup' pk',
      ∀ fuel,
        run (k + fuel)%nat (Dfs.mkDState e g dup pk ((s, d, it, fl) :: below) onp tick)
        = run fuel (Dfs.mkDState e' g' dup' pk' below (onp ∖ {[s]}) tick).
Proof.
  induction n as [|n IHn].
  - (* the bound is passed: every child is skipped *)
    intros d s it. induction it as [|[s2 c] it IH];
      intros fl below e g dup pk onp tick Hd Hit Hsafe Hon.
    + exists 1%nat, e, g, dup, (Z.max pk d). intros fuel.
      cbn [Nat.add Dfs.loop Dfs.stack Dfs.tick timed_out Dfs.on_path].
      unfold timed_out. by rewrite bool_decide_eq_true_2.
    + destruct (IH fl below e g dup (Z.max pk d) onp tick) as (k & e' & g' & dup' & pk' & Hk);
        [done| |done|done|].
      { intros s3 c3 ?. apply Hit. by right. }
      exists (S k), e', g', dup', pk'. intros fuel.
      cbn [Nat.add Dfs.loop Dfs.stack Dfs.tick Dfs.on_path].
      unfold timed_out, Dfs.too_deep.
      rewrite (proj2 (Z.ltb_lt m (d + 1))) by lia.
      apply Hk.
  - intros d s it. induction it as [|[s2 c] it IH];
      intros fl below e g dup pk onp tick Hd Hit Hsafe Hon.
    + exists 1%nat, e, g, dup, (Z.max pk d). intros fuel.
      cbn [Nat.add Dfs.loop Dfs.stack Dfs.tick timed_out Dfs.on_path].
      unfold timed_out. by rewrite bool_decide_eq_true_2.
    + assert (∀ s3 c3, (s3, c3) ∈ it → (s3, c3) ∈ neighbors_fn s) as Hit'
        by (intros s3 c3 ?; apply Hit; by right).
      assert ((s2, c) ∈ neighbors_fn s) as Hin by (apply Hit; by left).
      destruct (Z.ltb_spec m (d + 1)) as [Hdeep|Hok].
      { destruct (IH fl below e g dup (Z.max pk d) onp tick)
          as (k & e' & g' & dup' & pk' & Hk); [done..|].
        exists (S k), e', g', dup', pk'. intros fuel.
        cbn [Nat.add Dfs.loop Dfs.stack Dfs.tick Dfs.on_path].
        unfold timed_out, Dfs.too_deep.
        rewrite (proj2 (Z.ltb_lt m (d + 1))) by lia.
        apply Hk. }
      destruct (decide (s2 ∈ onp)) as [Hs2|Hs2].
      { destruct (IH fl below e g (dup + 1) (Z.max pk d) onp tick)
          as (k & e' & g' & dup' & pk' & Hk); [done..|].
        exists (S k), e', g', dup', pk'. intros fuel.
        cbn [Nat.add Dfs.loop Dfs.stack Dfs.tick Dfs.on_path Dfs.duplicates].
        unfold timed_out, Dfs.too_deep.
        rewrite (proj2 (Z.ltb_ge m (d + 1))) by lia.
        rewrite bool_decide_eq_true_2 by done.
        apply Hk. }
      assert (s2 ≠ goal) as Hng.
      { apply (Hsafe 1%nat s2); [|lia]. eapply steps_cons; [done|constructor]. }
      set (e1 := if fl then e else e + 1).
      destruct (IHn (d + 1) s2 (neighbors_fn s2) false ((s, d, it, true) :: below)
                    e1 (g + 1) dup (Z.max pk d) ({[s2]} ∪ onp) tick)
        as (k1 & e2 & g2 & dup2 & pk2 & Hk1).
      { lia. }
      { done. }
      { by eapply safe_child. }
      { set_solver. }
      assert (({[s2]} ∪ onp) ∖ {[s2]} = onp) as Hback by set_solver.
      rewrite Hback in Hk1.
      destruct (IH true below e2 g2 dup2 pk2 onp tick)
        as (k & e' & g' & dup' & pk' & Hk); [done..|].
      exists (S (k1 + k)), e', g', dup', pk'. intros fuel.
      cbn [Nat.add Dfs.loop Dfs.stack Dfs.tick Dfs.on_path Dfs.duplicates
             Dfs.expanded Dfs.generated Dfs.peak_depth].
      unfold timed_out, Dfs.too_deep.
      rewrite (proj2 (Z.ltb_ge m (d + 1))) by lia.
      rewrite bool_decide_eq_false_2 by done.
      rewrite bool_decide_eq_false_2 by done.
      fold e1. rewrite <- Nat.add_assoc, Hk1. apply Hk.
Qed.
End DfsBound.

(** C9 (amended). For every start state other than the goal from which no
    path of at most [max_depth] edges leads to the goal, [dfs] run with that
    [max_depth] and no timeout returns, for all fuel beyond some bound, a
    record with the termination ["exhausted"] and ["g"] [None]. *)
Theorem dfs_depth_bound {St} `{Countable St}
    (clock : nat → Q) (goal : St) (neighbors_fn : St → list (St * Z))
    (max_depth : Z) (start : St) :
  start ≠ goal →
  (∀ n, steps neighbors_fn start n goal → max_depth < Z.of_nat n) →
  ∃ N, ∀ fuel, (N ≤ fuel)%nat →
    ∃ r, Dfs.dfs clock goal neighbors_fn (Some max_depth) None fuel start = Some r
         ∧ termination_is r "exhausted" ∧ r !! "g"%string = Some VNone.
Proof.
  intros Hne Hdeep.
  destruct (frame_done clock goal neighbors_fn max_depth (S (Z.to_nat max_depth))
              0 start (neighbors_fn start) false [] 0 0 0 0 {[start]} 1%nat)
    as (k & e' & g' & dup' & pk' & Hk).
  - lia.
  - done.
  - intros j t Hst Hj Ht. subst t. specialize (Hdeep j Hst). lia.
  - set_solver.
  - exists (S k). intros fuel Hfuel.
    unfold Dfs.dfs. rewrite bool_decide_eq_false_2 by done.
    replace fuel with (k + S (fuel - S k))%nat by lia.
    rewrite Hk. cbn [Dfs.loop Dfs.stack].
    eexists. split; [reflexivity|]. split; reflexivity.
Qed.

(** An instance six moves from the goal. *)
Definition six_away : State := [4;1;2;5;0;3;7;8;6].

Example six_away_path :
  path_cost Puzzle8.neighbors six_away 6 Puzzle8.GOAL.
Proof.
  apply (is_path_sound Puzzle8.neighbors six_away Puzzle8.GOAL
           [[4;1;2;0;5;3;7;8;6]; [0;1;2;4;5;3;7;8;6]; [1;0;2;4;5;3;7;8;6];
            [1;2;0;4;5;3;7;8;6]; [1;2;3;4;5;0;7;8;6]; [1;2;3;4;5;6;7;8;0]]).
  vm_compute. reflexivity.
Qed.

Lemma six_away_far (n : nat) :
  steps Puzzle8.neighbors six_away n Puzzle8.GOAL → 5 < Z.of_nat n.
Proof.
  intros Hs. apply (steps_path_cost _ _ _ _ puzzle8_unit_costs) in Hs.
  apply path_in_layer in Hs. rewrite Nat2Z.id in Hs.
  assert (forallb (λ k, negb (bool_decide (six_away ∈ layer k))) (seq 0 6) = true) as Hl
    by (vm_compute; reflexivity).
  rewrite forallb_forall in Hl.
  destruct (decide (n < 6)%nat) as [Hlt|]; [|lia].
  specialize (Hl n ltac:(apply in_seq; lia)).
  apply negb_true_iff, bool_decide_eq_false in Hl. done.
Qed.

Lemma dfs_depth_bound_witness :
  ∃ N, ∀ fuel, (N ≤ fuel)%nat →
    ∃ r, Dfs.dfs still_clock Puzzle8.GOAL Puzzle8.neighbors (Some 3) None fuel six_away
         = Some r
         ∧ termination_is r "exhausted" ∧ r !! "g"%string = Some VNone.
Proof.
  apply (dfs_depth_bound still_clock Puzzle8.GOAL Puzzle8.neighbors 3 six_away).
  - discriminate.
  - intros n Hs. pose proof (six_away_far n Hs). lia.
Defined.

(** C9 fails when the start is the goal and the bound is negative: the
    depth 0 of the solution exceeds the bound [-1], and [dfs] returns ["ok"]
    with cost 0. *)
Lemma dfs_goal_below_bound :
  (-1 < Z.of_nat 0)
  ∧ ∃ r, Dfs.dfs still_clock Puzzle8.GOAL Puzzle8.neighbors (Some (-1)) None 10
                 Puzzle8.GOAL = Some r
         ∧ termination_is r "ok" ∧ r !! "g"%string = Some (VInt 0).
Proof.
  split; [done|].
  destruct (run_returns
              (Dfs.dfs still_clock Puzzle8.GOAL Puzzle8.neighbors (Some (-1)) None 10
                       Puzzle8.GOAL))
    as [r E]; [vm_compute; reflexivity|].
  exists r. split; [exact E|]. split; run_key E.
Qed.

(** * Optimality of the searches *)

Unset Default Proof Using.

(** ** Reachable states and shortest paths *)

Section Reach.
Context {St : Type} `{Countable St}.
Variable neighbors : St → list (St * Z).

Definition reachable (s t : St) : Prop := ∃ n, path_cost neighbors s n t.

(** The states at most [k] edges away from [s]. *)
Fixpoint ball (k : nat) (s : St) : list St :=
  match k with
  | O => [s]
  | S k' => s :: (neighbors s ≫= λ e, ball k' e.1)
  end.

Lemma ball_steps (k : nat) (s t : St) :
  t ∈ ball k s ↔ ∃ j, (j ≤ k)%nat ∧ steps neighbors s j t.
Proof.
  revert s. induction k as [|k IH]; intros s; simpl.
  - rewrite list_elem_of_singleton. split.
    + intros ->. exists 0%nat. split; [lia|constructor].
    + intros (j & Hj & Hs). assert (j = 0%nat) as -> by lia. by inversion Hs.
  - rewrite elem_of_cons, list_elem_of_bind. split.
    + intros [->|([s1 c] & Hb & Hin)].
      * exists 0%nat. split; [lia|constructor].
      * apply IH in Hb as (j & Hj & Hs).
        exists (S j). split; [lia|]. by eapply steps_cons.
    + intros (j & Hj & Hs). inversion Hs as [|? s1 c n ? Hin Hs1]; subst; [by left|].
      right. exists (s1, c). split; [|done].
      apply IH. exists n. split; [lia|done].
Qed.

Lemma path_cost_ball (s t : St) (n : Z) :
  unit_costs neighbors → path_cost neighbors s n t → t ∈ ball (Z.to_nat n) s.
Proof.
  intros Hu Hp. apply ball_steps. exists (Z.to_nat n). split; [lia|].
  by apply path_cost_steps.
Qed.

Lemma least_ball (k : nat) (s t : St) :
  t ∈ ball k s → ∃ k0, t ∈ ball k0 s ∧ ∀ j, t ∈ ball j s → (k0 ≤ j)%nat.
Proof.
  induction k as [|k IH]; intros Hin.
  - exists 0%nat. split; [done|]. intros j _. lia.
  - destruct (decide (t ∈ ball k s)) as [Hk|Hk]; [by apply IH|].
    exists (S k). split; [done|]. intros j Hj.
    destruct (decide (S k ≤ j)%nat) as [|Hlt]; [done|]. exfalso. apply Hk.
    apply ball_steps in Hj as (i & Hi & Hs). apply ball_steps.
    exists i. split; [lia|done].
Qed.

(** A reachable state has a least distance. *)
Lemma reachable_shortest (s t : St) :
  unit_costs neighbors → reachable s t → ∃ n, shortest neighbors s n t.
Proof.
  intros Hu [n Hp].
  destruct (least_ball _ _ _ (path_cost_ball _ _ _ Hu Hp)) as (k0 & Hk0 & Hmin).
  exists (Z.of_nat k0). apply ball_steps in Hk0 as (j & Hj & Hs).
  assert (j = k0) as ->.
  { assert (k0 ≤ j)%nat; [|lia]. apply Hmin, ball_steps. exists j. split; [lia|done]. }
  split; [by apply steps_path_cost|].
  intros m Hm. pose proof (path_cost_nonneg _ _ _ _ Hu Hm).
  specialize (Hmin _ (path_cost_ball _ _ _ Hu Hm)). lia.
Qed.

Lemma shortest_unique (s t : St) (n m : Z) :
  shortest neighbors s n t → shortest neighbors s m t → n = m.
Proof. intros [H1 H2] [H3 H4]. specialize (H2 _ H3). specialize (H4 _ H1). lia. Qed.

(** A path ends with an edge, unless it is empty. *)
Lemma path_cost_inv_r (s t : St) (n : Z) :
  path_cost neighbors s n t →
  (s = t ∧ n = 0)
  ∨ ∃ u c m, path_cost neighbors s m u ∧ (t, c) ∈ neighbors u ∧ n = m + c.
Proof.
  induction 1 as [s|s s1 c n t Hin Hp IH]; [by left|]. right.
  destruct IH as [[-> ->]|(u & c' & m & Hu & Ht & ->)].
  - exists s, c, 0. split; [constructor|]. split; [done|lia].
  - exists u, c', (c + m). split; [by eapply path_step|]. split; [done|lia].
Qed.

(** The state before the last on a shortest path is at its least distance. *)
Lemma shortest_pred (s t : St) (n : Z) :
  unit_costs neighbors → shortest neighbors s n t → t ≠ s →
  ∃ u, (t, 1) ∈ neighbors u ∧ shortest neighbors s (n - 1) u.
Proof.
  intros Hu [Hp Hmin] Hne.
  destruct (path_cost_inv_r _ _ _ Hp) as [[-> _]|(u & c & m & Hpu & Hin & ->)]; [done|].
  pose proof (Hu _ _ _ Hin) as ->. exists u. split; [done|].
  replace (m + 1 - 1) with m by lia. split; [done|].
  intros m' Hm'. specialize (Hmin (m' + 1) (path_cost_snoc _ _ _ _ _ _ Hm' Hin)). lia.
Qed.

(** The rest of a shortest path is a shortest path. *)
Lemma shortest_suffix (s x t : St) (dx d n : Z) :
  shortest neighbors s d t → path_cost neighbors s dx x → path_cost neighbors x n t →
  dx + n = d → shortest neighbors x n t.
Proof.
  intros [_ Hmin] Hx Hn Hd. split; [done|].
  intros m Hm. specialize (Hmin _ (path_cost_app _ _ _ _ _ _ Hx Hm)). lia.
Qed.

Lemma reachable_trans (s t u : St) (n : Z) :
  reachable s t → path_cost neighbors t n u → reachable s u.
Proof. intros [m Hm] Hn. exists (m + n). by eapply path_cost_app. Qed.

(** A heuristic that is consistent on the states reachable from [s0]
    decreases by at most the cost along a path. *)
Lemma consistent_path (h : St → Z) (s0 s t : St) (n : Z) :
  (∀ x x1 c, reachable s0 x → (x1, c) ∈ neighbors x → h x ≤ c + h x1) →
  reachable s0 s → path_cost neighbors s n t → h s ≤ n + h t.
Proof.
  intros Hc Hr Hp. induction Hp as [s|s s1 c n t Hin Hp IH]; [lia|].
  specialize (Hc _ _ _ Hr Hin).
  assert (reachable s0 s1) as Hr1.
  { eapply reachable_trans; [exact Hr|].
    eapply path_step; [exact Hin|constructor]. }
  specialize (IH Hr1). lia.
Qed.

Lemma ball_mono (j k : nat) (s t : St) :
  (j ≤ k)%nat → t ∈ ball j s → t ∈ ball k s.
Proof.
  intros Hjk (i & Hi & Hs)%ball_steps. apply ball_steps. exists i. split; [lia|done].
Qed.

End Reach.

Section Weight.
Context {St : Type} `{Countable St}.

(** The total weight of the states of [L] outside the set [cl]: what a
    loop that fills [cl] has left to do. *)
Definition weight (w : St → nat) (cl : gset St) (L : list St) : nat :=
  sum_list_with (λ s, if decide (s ∈ cl) then 0%nat else w s) L.

Lemma weight_mono (w : St → nat) (cl cl' : gset St) (L : list St) :
  cl ⊆ cl' → (weight w cl' L ≤ weight w cl L)%nat.
Proof.
  intros Hsub. induction L as [|s L IH]; simpl; [lia|].
  destruct (decide (s ∈ cl)) as [Hs|Hs].
  - rewrite decide_True by set_solver. lia.
  - destruct (decide (s ∈ cl')); lia.
Qed.

Lemma weight_close (w : St → nat) (n : St) (cl cl' : gset St) (L : list St) :
  n ∈ L → n ∉ cl → n ∈ cl' → cl ⊆ cl' →
  (weight w cl' L + w n ≤ weight w cl L)%nat.
Proof.
  intros Hin Hn Hn' Hsub. induction L as [|s L IH]; [by apply elem_of_nil in Hin|].
  simpl. apply elem_of_cons in Hin as [<-|Hin].
  - rewrite decide_True by done. rewrite decide_False by done.
    pose proof (weight_mono w cl cl' L Hsub). lia.
  - specialize (IH Hin). pose proof (weight_mono w cl cl' [s] Hsub) as Hm.
    simpl in Hm. lia.
Qed.
End Weight.

(** ** [a_star] with a consistent heuristic *)

Lemma priority_tuple_f (tb : string) (f g h ctr : Z) :
  (AStar.priority_tuple tb f g h ctr).1.1 = f.
Proof.
  unfold AStar.priority_tuple.
  repeat match goal with |- context [String.eqb ?a ?b] => destruct (String.eqb a b) end;
    reflexivity.
Qed.

Section AStarOptimal.
Context {St : Type} `{Countable St}.
Variable default_neighbors : St → list (St * Z).
Variable clock : nat → Q.
Variable goal : St.
Variable hfun : St → Z.
Variable neighbors_fn : option (St → list (St * Z)).
Variable tie_break : string.
Variable return_path : bool.
Variable start : St.
Variable C : Z.

Abbreviation nbrs := (AStar.neighbors default_neighbors neighbors_fn).
Abbreviation Heap := (list (AStar.HeapEntry (St:=St))).
Abbreviation st_of e := (AStar.item_state (AStar.entry_item e)).
Abbreviation g_of e := (AStar.item_g (AStar.entry_item e)).
Abbreviation f_of e := (AStar.item_f (AStar.entry_item e)).

Hypothesis Hunit : unit_costs nbrs.
Hypothesis Hnonneg : ∀ s, 0 ≤ hfun s.
Hypothesis Hcons :
  ∀ s s1 c, reachable nbrs start s → (s1, c) ∈ nbrs s → hfun s ≤ c + hfun s1.
Hypothesis Hadm :
  ∀ s n, reachable nbrs start s → path_cost nbrs s n goal → hfun s ≤ n.
Hypothesis Hgoal : shortest nbrs start C goal.

(** An entry of the heap: a well-formed item, filed under its [f], whose
    [g] is not below the best known for its state. *)
Definition entry_ok (bg : gmap St Z) (e : AStar.HeapEntry (St:=St)) : Prop :=
  item_wf nbrs hfun start (AStar.entry_item e)
  ∧ (AStar.entry_key e).1.1.1 = f_of e
  ∧ ∃ b, bg !! st_of e = Some b ∧ b ≤ g_of e.

(** The edges [l] leaving [s] have been relaxed. *)
Definition edges_ok (bg : gmap St Z) (s : St) (l : list (St * Z)) : Prop :=
  ∀ s2 c, (s2, c) ∈ l →
    ∃ b b2, bg !! s = Some b ∧ bg !! s2 = Some b2 ∧ b2 ≤ b + c.

(** The heap, [best_g] and [closed] fit together. *)
Record core (hp : Heap) (bg : gmap St Z) (cl : gset St) : Prop := mkCore {
  core_heap : ∀ e, e ∈ hp → entry_ok bg e;
  core_real : ∀ s b, bg !! s = Some b → path_cost nbrs start b s;
  core_open :
    ∀ s b, bg !! s = Some b → s ∉ cl → ∃ e, e ∈ hp ∧ st_of e = s ∧ g_of e = b;
  core_closed :
    ∀ s, s ∈ cl →
      ∃ b, bg !! s = Some b ∧ shortest nbrs start b s ∧ b + hfun s ≤ C ∧ s ≠ goal;
  core_start : bg !! start = Some 0
}.

(** The invariant of the loop: closed states have their least cost as
    [best_g] and all their edges relaxed; every other state with a [best_g]
    has an entry of that cost in the heap. *)
Definition ainv (hp : Heap) (bg : gmap St Z) (cl : gset St) : Prop :=
  core hp bg cl ∧ ∀ s, s ∈ cl → edges_ok bg s (nbrs s).

(** The first state outside [closed] on a shortest path to [t] has an
    entry with its least cost. *)
Definition frontier_of (hp : Heap) (t : St) (d : Z) : Prop :=
  ∃ e x dx, e ∈ hp ∧ st_of e = x ∧ g_of e = dx
            ∧ shortest nbrs start dx x ∧ path_cost nbrs x (d - dx) t.

Lemma shortest_start : shortest nbrs start 0 start.
Proof.
  split; [constructor|]. intros m Hm. by eapply path_cost_nonneg.
Qed.

Lemma frontier_start hp bg cl :
  core hp bg cl → start ∉ cl → frontier_of hp start 0.
Proof.
  intros Hc Hncl.
  destruct (core_open _ _ _ Hc start 0 (core_start _ _ _ Hc) Hncl) as (e & Hin & Hs & Hg).
  exists e, start, 0. do 3 (split; [done|]). split; [exact shortest_start|].
  constructor.
Qed.

Lemma frontier hp bg cl (t : St) (d : Z) :
  ainv hp bg cl → shortest nbrs start d t → t ∈ cl ∨ frontier_of hp t d.
Proof.
  intros [Hc He]. remember (Z.to_nat d) as k eqn:Hk. revert t d Hk.
  induction k as [|k IH]; intros t d Hk Hd.
  all: destruct (decide (t ∈ cl)) as [|Hncl]; [by left|right].
  all: destruct (decide (t = start)) as [->|Hne];
    [rewrite (shortest_unique _ _ _ _ _ Hd shortest_start); by eapply frontier_start|].
  all: destruct (shortest_pred _ _ _ _ Hunit Hd Hne) as (u & Hin & Hu).
  all: pose proof (path_cost_nonneg _ _ _ _ Hunit (proj1 Hu)).
  1: lia.
  destruct (IH u (d - 1) ltac:(lia) Hu) as [Hcl|(e & x & dx & Hin' & Hs & Hg & Hx & Hp)].
  - destruct (He u Hcl t 1 Hin) as (b & b2 & Hb & Hb2 & Hle).
    destruct (core_closed _ _ _ Hc u Hcl) as (b' & Hb' & Hsh & _).
    rewrite Hb in Hb'. injection Hb' as <-.
    rewrite (shortest_unique _ _ _ _ _ Hsh Hu) in Hle.
    pose proof (core_real _ _ _ Hc t b2 Hb2) as Hreal.
    pose proof (proj2 Hd _ Hreal).
    assert (b2 = d) as -> by lia.
    destruct (core_open _ _ _ Hc t d Hb2 Hncl) as (e & Hin' & Hs & Hg).
    exists e, t, d. do 3 (split; [done|]). split; [exact Hd|].
    replace (d - d) with 0 by lia. constructor.
  - exists e, x, dx. do 3 (split; [done|]). split; [exact Hx|].
    replace (d - dx) with (d - 1 - dx + 1) by lia. by eapply path_cost_snoc.
Qed.

(** The entry popped has the least [f] of the heap. *)
Lemma popped_least hp bg cl e rest e' :
  core hp bg cl → AStar.heappop hp = Some (e, rest) → e' ∈ hp → f_of e ≤ f_of e'.
Proof.
  intros Hc Hp Hin'.
  assert (e ∈ hp) as Hin by (rewrite (heappop_perm _ _ _ Hp); by left).
  destruct (core_heap _ _ _ Hc e Hin) as (_ & <- & _).
  destruct (core_heap _ _ _ Hc e' Hin') as (_ & <- & _).
  apply key_lt_f. by eapply heappop_min.
Qed.

(** No entry popped before the goal has an [f] above the least cost. *)
Lemma popped_within hp bg cl e rest :
  ainv hp bg cl → AStar.heappop hp = Some (e, rest) → f_of e ≤ C.
Proof.
  intros Hi Hp. pose proof Hi as [Hc _].
  destruct (frontier _ _ _ goal C Hi Hgoal)
    as [Hcl|(e' & x & dx & Hin & Hs & Hg & Hx & Hpx)].
  { by destruct (core_closed _ _ _ Hc goal Hcl) as (_ & _ & _ & _ & ?). }
  etrans; [by eapply popped_least|].
  destruct (core_heap _ _ _ Hc e' Hin) as (Hwf & _).
  rewrite (item_wf_fh _ _ _ _ Hwf), Hs, Hg.
  assert (hfun x ≤ C - dx); [|lia].
  apply Hadm; [|done]. exists dx. apply Hx.
Qed.

(** The state of an entry popped outside [closed] is reached at its least
    cost. *)
Lemma popped_optimal hp bg cl e rest :
  ainv hp bg cl → AStar.heappop hp = Some (e, rest) → st_of e ∉ cl →
  shortest nbrs start (g_of e) (st_of e).
Proof.
  intros Hi Hp Hncl. pose proof Hi as [Hc _].
  assert (e ∈ hp) as Hin by (rewrite (heappop_perm _ _ _ Hp); by left).
  destruct (core_heap _ _ _ Hc e Hin) as (Hwf & _).
  pose proof (item_wf_path_cost _ _ _ _ Hwf) as Hreal.
  destruct (reachable_shortest nbrs start _ Hunit (ex_intro _ _ Hreal)) as [d Hd].
  destruct (frontier _ _ _ _ d Hi Hd)
    as [Hcl|(e' & x & dx & Hin' & Hs & Hg & Hx & Hpx)]; [done|].
  pose proof (popped_least _ _ _ e rest e' Hc Hp Hin') as Hle.
  destruct (core_heap _ _ _ Hc e' Hin') as (Hwf' & _).
  rewrite (item_wf_fh _ _ _ _ Hwf), (item_wf_fh _ _ _ _ Hwf'), Hs, Hg in Hle.
  assert (hfun x ≤ (d - dx) + hfun (st_of e)) as Hh.
  { eapply consistent_path; [exact Hcons| |exact Hpx]. exists dx. apply Hx. }
  pose proof (proj2 Hd _ Hreal).
  assert (g_of e = d) as -> by lia. done.
Qed.

Lemma heappop_rest (hp : Heap) e rest e' :
  AStar.heappop hp = Some (e, rest) → e' ∈ hp → e' ≠ e → e' ∈ rest.
Proof.
  intros Hp Hin Hne. rewrite (heappop_perm _ _ _ Hp) in Hin.
  by apply elem_of_cons in Hin as [?|?].
Qed.

Lemma heappop_sub (hp : Heap) e rest e' :
  AStar.heappop hp = Some (e, rest) → e' ∈ rest → e' ∈ hp.
Proof. intros Hp Hin. rewrite (heappop_perm _ _ _ Hp). by right. Qed.

Lemma heappop_length (hp : Heap) e rest :
  AStar.heappop hp = Some (e, rest) → length hp = S (length rest).
Proof. intros Hp. by rewrite (heappop_perm _ _ _ Hp). Qed.

(** Popping an entry of a closed state keeps the invariant. *)
Lemma ainv_stale hp bg cl e rest :
  ainv hp bg cl → AStar.heappop hp = Some (e, rest) → st_of e ∈ cl → ainv rest bg cl.
Proof.
  intros [Hc He] Hp Hcl. split; [|done]. split; try apply Hc.
  - intros e' Hin. apply (core_heap _ _ _ Hc). by eapply heappop_sub.
  - intros s b Hb Hn.
    destruct (core_open _ _ _ Hc s b Hb Hn) as (e' & Hin & Hs & Hg).
    exists e'. split; [|done]. eapply heappop_rest; [done..|].
    intros ->. by rewrite Hs in Hcl.
Qed.

(** Closing the state of the entry popped. *)
Lemma core_close hp bg cl e rest :
  ainv hp bg cl → AStar.heappop hp = Some (e, rest) → st_of e ∉ cl →
  st_of e ≠ goal →
  core rest bg ({[st_of e]} ∪ cl) ∧ bg !! st_of e = Some (g_of e).
Proof.
  intros Hi Hp Hncl Hng. pose proof Hi as [Hc He].
  assert (e ∈ hp) as Hin by (rewrite (heappop_perm _ _ _ Hp); by left).
  destruct (core_heap _ _ _ Hc e Hin) as (Hwf & _ & b & Hb & Hle).
  pose proof (popped_optimal _ _ _ _ _ Hi Hp Hncl) as Hopt.
  pose proof (proj2 Hopt _ (core_real _ _ _ Hc _ _ Hb)).
  assert (b = g_of e) as -> by lia.
  split; [|done]. split; try apply Hc.
  - intros e' Hin'. apply (core_heap _ _ _ Hc). by eapply heappop_sub.
  - intros s b Hsb Hn. apply not_elem_of_union in Hn as [Hne Hn].
    destruct (core_open _ _ _ Hc s b Hsb Hn) as (e' & Hin' & Hs & Hg).
    exists e'. split; [|done]. eapply heappop_rest; [done..|].
    intros ->. apply Hne. rewrite Hs. by apply elem_of_singleton.
  - intros s [Hs|Hs]%elem_of_union; [|by apply (core_closed _ _ _ Hc)].
    apply elem_of_singleton in Hs as ->. exists (g_of e).
    do 2 (split; [done|]). split; [|done].
    rewrite <- (item_wf_fh _ _ _ _ Hwf). by eapply popped_within.
Qed.

Lemma entry_key_f (pr : Z * Z * Z) (ctr : Z) (it : AStar.PQItem (St:=St)) :
  (AStar.entry_key (pr, ctr, it)).1.1.1 = pr.1.1.
Proof. by destruct pr as [[? ?] ?]. Qed.

(** What one round of the loop over the neighbours does to the heap and to
    [best_g]. *)
Lemma relax_effect (node : AStar.PQItem (St:=St)) (st : AStar.AState (St:=St))
    (s2 : St) (c : Z) :
  let st' := AStar.relax hfun tie_break node st (s2, c) in
  let g2 := AStar.item_g node + c in
  AStar.closed st' = AStar.closed st
  ∧ (((AStar.best_g st !! s2 = None ∨ ∃ b, AStar.best_g st !! s2 = Some b ∧ g2 < b)
      ∧ AStar.best_g st' = <[s2:=g2]> (AStar.best_g st)
      ∧ AStar.open_heap st'
        = (AStar.priority_tuple tie_break (g2 + hfun s2) g2 (hfun s2) (AStar.counter st),
           AStar.counter st + 1,
           AStar.mkPQItem (g2 + hfun s2) (hfun s2) g2 s2 (Some node))
          :: AStar.open_heap st)
     ∨ ((∃ b, AStar.best_g st !! s2 = Some b ∧ b ≤ g2)
        ∧ AStar.best_g st' = AStar.best_g st
        ∧ AStar.open_heap st' = AStar.open_heap st)).
Proof.
  unfold AStar.relax. cbv zeta.
  destruct (bool_decide (s2 ∈ AStar.seen_ever st));
    destruct (AStar.best_g st !! s2) as [b|] eqn:Hb.
  all: try destruct (Z.ltb_spec (AStar.item_g node + c) b); simpl.
  all: split; [done|].
  all: try (left; repeat split; eauto 10; fail).
  all: right; repeat split; eauto 10.
Qed.

(** [best_g] only decreases. *)
Definition bg_le (bg' bg : gmap St Z) : Prop :=
  ∀ s b, bg !! s = Some b → ∃ b', bg' !! s = Some b' ∧ b' ≤ b.

Lemma edges_ok_mono (bg bg' : gmap St Z) (s : St) (l : list (St * Z)) :
  bg' !! s = bg !! s → bg_le bg' bg → edges_ok bg s l → edges_ok bg' s l.
Proof.
  intros Hs Hle He s2 c Hin. destruct (He s2 c Hin) as (b & b2 & Hb & Hb2 & Hc).
  destruct (Hle s2 b2 Hb2) as (b2' & Hb2' & Hc').
  exists b, b2'. rewrite Hs. repeat split; try done. lia.
Qed.

Lemma relax_step (node : AStar.PQItem (St:=St)) (st : AStar.AState (St:=St))
    (s2 : St) (c : Z) :
  let st' := AStar.relax hfun tie_break node st (s2, c) in
  item_wf nbrs hfun start node → (s2, c) ∈ nbrs (AStar.item_state node) →
  core (AStar.open_heap st) (AStar.best_g st) (AStar.closed st) →
  AStar.closed st' = AStar.closed st
  ∧ core (AStar.open_heap st') (AStar.best_g st') (AStar.closed st')
  ∧ bg_le (AStar.best_g st') (AStar.best_g st)
  ∧ (∀ s, s ∈ AStar.closed st → AStar.best_g st' !! s = AStar.best_g st !! s)
  ∧ (∃ b2, AStar.best_g st' !! s2 = Some b2 ∧ b2 ≤ AStar.item_g node + c)
  ∧ (length (AStar.open_heap st') ≤ S (length (AStar.open_heap st)))%nat.
Proof.
  intros st' Hwf Hin Hc.
  destruct (relax_effect node st s2 c) as (Hcl & [(Himp & Hbg & Hhp)|(Hno & Hbg & Hhp)]);
    fold st' in Hcl, Hbg, Hhp; rewrite Hcl, Hbg, Hhp.
  2: { split; [done|]. split; [done|]. split; [intros s b ?; exists b; split; [done|lia]|].
       split; [done|]. split; [|lia]. destruct Hno as (b & ? & ?). by exists b. }
  set (g2 := AStar.item_g node + c) in *.
  assert (path_cost nbrs start g2 s2) as Hreal.
  { eapply path_cost_snoc; [|exact Hin]. by apply item_wf_path_cost with (hfun := hfun). }
  assert (∀ b, AStar.best_g st !! s2 = Some b → g2 < b) as Hlt.
  { intros b Hb. destruct Himp as [Hn|(b' & Hb' & ?)]; [by rewrite Hn in Hb|].
    rewrite Hb in Hb'. injection Hb' as <-. done. }
  assert (∀ s, s ∈ AStar.closed st → s ≠ s2) as Hclosed.
  { intros s Hs ->. destruct (core_closed _ _ _ Hc s2 Hs) as (b & Hb & Hsh & _).
    specialize (Hlt b Hb). pose proof (proj2 Hsh _ Hreal). lia. }
  assert (start ≠ s2) as Hstart.
  { intros <-. specialize (Hlt 0 (core_start _ _ _ Hc)).
    pose proof (path_cost_nonneg _ _ _ _ Hunit Hreal). lia. }
  split; [done|]. split; [split|].
  - intros e [->|He]%elem_of_cons.
    + split; [|split].
      * simpl. do 2 (split; [done|]). split; [done|]. by exists c.
      * rewrite entry_key_f. apply priority_tuple_f.
      * exists g2. simpl. by rewrite lookup_insert_eq.
    + destruct (core_heap _ _ _ Hc e He) as (Hw & Hk & b & Hb & Hle).
      do 2 (split; [done|]).
      destruct (decide (st_of e = s2)) as [Heq|Hne].
      * exists g2. rewrite Heq, lookup_insert_eq. split; [done|].
        rewrite Heq in Hb. specialize (Hlt b Hb). lia.
      * exists b. by rewrite lookup_insert_ne.
  - intros s b Hb. destruct (decide (s = s2)) as [->|Hne].
    + rewrite lookup_insert_eq in Hb. by injection Hb as <-.
    + rewrite lookup_insert_ne in Hb by done. by apply (core_real _ _ _ Hc).
  - intros s b Hb Hn. destruct (decide (s = s2)) as [->|Hne].
    + rewrite lookup_insert_eq in Hb. injection Hb as <-.
      eexists. split; [by left|]. done.
    + rewrite lookup_insert_ne in Hb by done.
      destruct (core_open _ _ _ Hc s b Hb Hn) as (e & He & Hs & Hg).
      exists e. split; [by right|done].
  - intros s Hs. rewrite lookup_insert_ne by (by apply not_eq_sym, Hclosed).
    by apply (core_closed _ _ _ Hc).
  - rewrite lookup_insert_ne by (by apply not_eq_sym). apply Hc.
  - split; [|split; [|split]].
    + intros s b Hb. destruct (decide (s = s2)) as [->|Hne].
      * exists g2. rewrite lookup_insert_eq. split; [done|]. specialize (Hlt b Hb). lia.
      * exists b. rewrite lookup_insert_ne by done. split; [done|lia].
    + intros s Hs. by rewrite lookup_insert_ne by (by apply not_eq_sym, Hclosed).
    + exists g2. by rewrite lookup_insert_eq.
    + simpl. lia.
Qed.

(** The loop over the neighbours of the closed state [n]. *)
Lemma relax_fold (node : AStar.PQItem (St:=St)) (l : list (St * Z)) :
  ∀ (st : AStar.AState (St:=St)) (done : list (St * Z)),
    let n := AStar.item_state node in
    let st' := foldl (AStar.relax hfun tie_break node) st l in
    item_wf nbrs hfun start node → (∀ s2 c, (s2, c) ∈ l → (s2, c) ∈ nbrs n) →
    n ∈ AStar.closed st → AStar.best_g st !! n = Some (AStar.item_g node) →
    core (AStar.open_heap st) (AStar.best_g st) (AStar.closed st) →
    (∀ s, s ∈ AStar.closed st → s ≠ n → edges_ok (AStar.best_g st) s (nbrs s)) →
    edges_ok (AStar.best_g st) n done →
    AStar.closed st' = AStar.closed st
    ∧ core (AStar.open_heap st') (AStar.best_g st') (AStar.closed st')
    ∧ (∀ s, s ∈ AStar.closed st → s ≠ n → edges_ok (AStar.best_g st') s (nbrs s))
    ∧ edges_ok (AStar.best_g st') n (done ++ l)
    ∧ (length (AStar.open_heap st') ≤ length (AStar.open_heap st) + length l)%nat.
Proof.
  induction l as [|[s2 c] l IH]; intros st dn n st' Hwf Hl Hn Hbn Hc He Hd.
  { subst st'. simpl. rewrite app_nil_r. do 4 (split; [done|]). lia. }
  subst st'. cbn [foldl].
  destruct (relax_step node st s2 c Hwf (Hl s2 c ltac:(by left)) Hc)
    as (Hcl & Hc' & Hle & Hsame & (b2 & Hb2 & Hb2le) & Hlen).
  destruct (IH (AStar.relax hfun tie_break node st (s2, c)) (dn ++ [(s2, c)]))
    as (Hcl2 & Hc2 & He2 & Hd2 & Hlen2); try done.
  - intros s3 c3 ?. apply Hl. by right.
  - by rewrite Hcl.
  - by rewrite Hsame.
  - rewrite Hcl. intros s Hs Hne. eapply edges_ok_mono; [by apply Hsame|done|by apply He].
  - intros s3 c3 [Hin|Hin]%elem_of_app.
    + eapply edges_ok_mono; [by apply Hsame|done|exact Hd|exact Hin].
    + apply list_elem_of_singleton in Hin. injection Hin as -> ->.
      exists (AStar.item_g node), b2. by rewrite Hsame.
  - rewrite Hcl2, Hcl. split; [done|]. split; [by rewrite <- Hcl, <- Hcl2|].
    split; [by rewrite <- Hcl|]. split; [by rewrite <- app_assoc in Hd2|].
    cbn [length]. cbv zeta in Hlen. lia.
Qed.

(** The potential of the loop: the length of the heap and, for every state
    of the ball that is not closed yet, one more than the number of its
    edges. *)
Definition potential (st : AStar.AState (St:=St)) : nat :=
  (length (AStar.open_heap st)
   + weight (λ s, S (length (nbrs s))) (AStar.closed st)
            (ball nbrs (Z.to_nat C) start))%nat.

(** With enough fuel the loop returns the least cost. *)
Lemma astar_loop_total (t0 : Q) (fuel : nat) :
  ∀ st : AStar.AState (St:=St),
    ainv (AStar.open_heap st) (AStar.best_g st) (AStar.closed st) →
    (potential st < fuel)%nat →
    ∃ r, AStar.loop default_neighbors clock goal hfun neighbors_fn tie_break
                    return_path None t0 fuel st = Some r
         ∧ termination_is r "ok" ∧ r !! "g"%string = Some (VInt C).
Proof.
  induction fuel as [|fuel IH]; intros st Hi Hpot; [lia|].
  pose proof Hi as [Hc He]. cbn [AStar.loop].
  destruct (AStar.heappop (AStar.open_heap st)) as [[e rest]|] eqn:Hp.
  2: { apply heappop_None in Hp.
       destruct (frontier _ _ _ goal C Hi Hgoal) as [Hcl|(e' & x & dx & Hin & _)].
       - by destruct (core_closed _ _ _ Hc goal Hcl) as (_ & _ & _ & _ & ?).
       - rewrite Hp in Hin. by apply elem_of_nil in Hin. }
  change (timed_out clock None t0 (AStar.tick st)) with (false, AStar.tick st).
  cbv beta iota zeta.
  pose proof (heappop_length _ _ _ Hp) as Hlen. unfold potential in Hpot.
  case_bool_decide as Hcl.
  { apply IH.
    - by eapply ainv_stale.
    - unfold potential. simpl. lia. }
  case_bool_decide as Hg.
  { eexists. split; [reflexivity|]. split; [reflexivity|].
    pose proof (popped_optimal _ _ _ _ _ Hi Hp Hcl) as Hopt. rewrite Hg in Hopt.
    rewrite (shortest_unique _ _ _ _ _ Hopt Hgoal). reflexivity. }
  destruct (core_close _ _ _ _ _ Hi Hp Hcl Hg) as [Hc1 Hbn].
  assert (e ∈ AStar.open_heap st) as Hin by (rewrite (heappop_perm _ _ _ Hp); by left).
  destruct (core_heap _ _ _ Hc e Hin) as (Hwf & _).
  set (st1 := AStar.close_node (AStar.popped st rest (AStar.tick st)) (st_of e)).
  destruct (relax_fold (AStar.entry_item e) (nbrs (st_of e)) st1 [])
    as (Hcl2 & Hc2 & He2 & Hd2 & Hlen2); try done.
  - simpl. set_solver.
  - simpl. intros s [Hs|Hs]%elem_of_union Hne; [|by apply He].
    by apply elem_of_singleton in Hs.
  - intros s2 c Hin2. by apply elem_of_nil in Hin2.
  - apply IH.
    + split; [done|]. rewrite Hcl2. intros s Hs.
      destruct (decide (s = st_of e)) as [->|Hne]; [exact Hd2|by apply He2].
    + unfold potential. rewrite Hcl2. simpl AStar.closed. simpl in Hlen2.
      assert (st_of e ∈ ball nbrs (Z.to_nat C) start) as Hball.
      { pose proof (item_wf_path_cost _ _ _ _ Hwf) as Hreal.
        pose proof (popped_within _ _ _ _ _ Hi Hp) as Hf.
        rewrite (item_wf_fh _ _ _ _ Hwf) in Hf.
        pose proof (Hnonneg (st_of e)).
        eapply ball_mono; [|by apply path_cost_ball]. lia. }
      pose proof (weight_close (λ s, S (length (nbrs s))) _ (AStar.closed st)
                    ({[st_of e]} ∪ AStar.closed st) _ Hball Hcl
                    ltac:(set_solver) ltac:(set_solver)) as Hw.
      cbv beta in Hw. lia.
Qed.

Lemma ainv_init :
  ainv (AStar.open_heap (AStar.init hfun tie_break start))
       (AStar.best_g (AStar.init hfun tie_break start))
       (AStar.closed (AStar.init hfun tie_break start)).
Proof.
  simpl. split; [split|].
  - intros e ->%list_elem_of_singleton. split; [|split].
    + simpl. repeat split; lia.
    + rewrite entry_key_f. apply priority_tuple_f.
    + exists 0. simpl. by rewrite lookup_singleton_eq.
  - intros s b [-> <-]%lookup_singleton_Some. constructor.
  - intros s b [-> <-]%lookup_singleton_Some _. eexists. split; [by left|done].
  - intros s Hs. by apply elem_of_empty in Hs.
  - apply lookup_singleton_eq.
  - intros s Hs. by apply elem_of_empty in Hs.
Qed.

(** [a_star] returns the least cost. *)
Lemma astar_optimal :
  ∃ N, ∀ fuel, (N ≤ fuel)%nat →
    ∃ r, AStar.a_star default_neighbors clock goal hfun neighbors_fn tie_break
                      return_path None fuel start = Some r
         ∧ termination_is r "ok" ∧ r !! "g"%string = Some (VInt C).
Proof.
  exists (S (potential (AStar.init hfun tie_break start))). intros fuel Hfuel.
  unfold AStar.a_star. apply astar_loop_total; [apply ainv_init|lia].
Qed.
End AStarOptimal.

(** ** [ida_star] with a consistent heuristic *)

Section IdaOptimal.
Context {St : Type} `{Countable St}.
Variable default_neighbors : St → list (St * Z).
Variable clock : nat → Q.
Variable goal : St.
Variable hfun : St → Z.
Variable neighbors_fn : option (St → list (St * Z)).
Variable use_bpmx : bool.
Variable return_path : bool.
Variable start : St.
Variable C : Z.

Abbreviation nbrs := (IdaStar.neighbors default_neighbors neighbors_fn).
Abbreviation dfs := (IdaStar.dfs default_neighbors clock goal hfun neighbors_fn use_bpmx None).

Hypothesis Hunit : unit_costs nbrs.
Hypothesis Hnonneg : ∀ s, 0 ≤ hfun s.
Hypothesis Hcons :
  ∀ s s1 c, reachable nbrs start s → (s1, c) ∈ nbrs s → hfun s ≤ c + hfun s1.
Hypothesis Hback :
  ∀ s s1 c, reachable nbrs start s → (s1, c) ∈ nbrs s → hfun s1 ≤ c + hfun s.
Hypothesis Hadm :
  ∀ s n, reachable nbrs start s → path_cost nbrs s n goal → hfun s ≤ n.
Hypothesis Hgoal : shortest nbrs start C goal.

(** With a heuristic that changes by at most the cost along an edge, in
    either direction, BPMX raises nothing. *)
Lemma bpmx_noop (s s1 : St) (c g bound : Z) :
  reachable nbrs start s → (s1, c) ∈ nbrs s →
  IdaStar.bpmx use_bpmx g bound (hfun s) (hfun s1) c = inr (hfun s, hfun s1).
Proof.
  intros Hr Hin. pose proof (Hcons _ _ _ Hr Hin). pose proof (Hback _ _ _ Hr Hin).
  unfold IdaStar.bpmx. destruct use_bpmx; [|done].
  destruct (Z.ltb_spec (hfun s) (hfun s1 - c)); [lia|].
  f_equal. f_equal. lia.
Qed.

(** A value returned for a cutoff: above the bound, and not a sentinel. *)
Definition cut (bound : Z) (ret : IdaStar.DfsRet) : Prop :=
  ret = IdaStar.Inf ∨ ∃ t, ret = IdaStar.Num t ∧ bound < t ∧ 0 ≤ t.

(** A cutoff value that does not exceed the least cost. *)
Definition good (ret : IdaStar.DfsRet) : Prop := ∃ t, ret = IdaStar.Num t ∧ t ≤ C.

(** The goal was reached within the bound. *)
Definition found (bound : Z) (ret : IdaStar.DfsRet) (st' : IdaStar.IState (St:=St)) : Prop :=
  ret = IdaStar.Num (-1)
  ∧ ∃ g', IdaStar.solution_g st' = Some g' ∧ g' ≤ bound ∧ path_cost nbrs start g' goal.

(** [s], reached at cost [g], lies on a shortest path from the start to
    the goal, and no state of the current path is nearer the goal. *)
Definition on_opt (g : Z) (s : St) (P : gset St) : Prop :=
  shortest nbrs s (C - g) goal
  ∧ ∀ p, p ∈ P → ∀ n, path_cost nbrs p n goal → C - g ≤ n.

Lemma cut_not_timeout bound ret : cut bound ret → IdaStar.is_timeout ret = false.
Proof. by intros [->|(t & -> & _)]. Qed.

Lemma cut_not_found bound ret : cut bound ret → IdaStar.is_found ret = false.
Proof.
  intros [->|(t & -> & _ & Ht)]; [done|]. simpl. apply Z.eqb_neq. lia.
Qed.

Lemma min_ret_cut bound r mn : cut bound r → cut bound mn → cut bound (IdaStar.min_ret r mn).
Proof. intros Hr Hm. unfold IdaStar.min_ret. by destruct (IdaStar.ret_lt r mn). Qed.

Lemma min_ret_good bound r mn :
  cut bound r → cut bound mn → good r ∨ good mn → good (IdaStar.min_ret r mn).
Proof.
  intros Hr Hm Hg. unfold IdaStar.min_ret.
  destruct (IdaStar.ret_lt r mn) eqn:Hlt.
  - destruct Hg as [Hg|(b & -> & Hb)]; [done|].
    destruct Hr as [->|(a & -> & _)]; [done|]. simpl in Hlt.
    exists a. split; [done|]. apply Z.ltb_lt in Hlt. lia.
  - destruct Hg as [(a & -> & Ha)|Hg]; [|done].
    destruct Hm as [->|(b & -> & _)]; [done|]. simpl in Hlt.
    exists b. split; [done|]. apply Z.ltb_ge in Hlt. lia.
Qed.

Lemma pathset_enter_child (s s2 : St) (st : IdaStar.IState (St:=St)) :
  IdaStar.pathset (IdaStar.enter_child s s2 st) = {[s2]} ∪ IdaStar.pathset st.
Proof. unfold IdaStar.enter_child. by destruct (bool_decide _). Qed.

(** The next state of a shortest path is not on the current path. *)
Lemma on_opt_next (g : Z) (s : St) (P : gset St) :
  on_opt g s P → s ≠ goal →
  ∃ s1 c, (s1, c) ∈ nbrs s ∧ s1 ∉ P ∧ on_opt (g + c) s1 ({[s1]} ∪ P).
Proof.
  intros [[Hp Hmin] HP] Hne.
  inversion Hp as [|s' s1 c n t' Hin Hp1]; subst.
  { by destruct Hne. }
  pose proof (Hunit _ _ _ Hin) as ->.
  assert (∀ m, path_cost nbrs s1 m goal → n ≤ m) as Hmin1.
  { intros m Hm. specialize (Hmin _ (path_step _ _ _ _ _ _ Hin Hm)). lia. }
  exists s1, 1. split; [done|]. split.
  - intros Hs1. specialize (HP _ Hs1 _ Hp1). lia.
  - unfold on_opt. replace (C - (g + 1)) with n by lia. split; [by split|].
    intros p [Hp'|Hp']%elem_of_union m Hm.
    + apply elem_of_singleton in Hp' as ->. by apply Hmin1.
    + specialize (HP _ Hp' _ Hm). lia.
Qed.

(** What a call of [dfs] on [s], reached at cost [g] with the path [P],
    returns: the goal within the bound, or a cutoff value, which is not above
    the least cost when [s] lies on a shortest path. *)
Definition dfs_post (g bound : Z) (s : St) (P : gset St) (ret : IdaStar.DfsRet)
    (st' : IdaStar.IState (St:=St)) : Prop :=
  found bound ret st'
  ∨ (cut bound ret ∧ IdaStar.pathset st' = P ∧ (on_opt g s P → good ret)).

Lemma children_total
    (rec : St → Z → Z → Z → Z → IdaStar.IState (St:=St)
           → option (IdaStar.DfsRet * IdaStar.IState (St:=St)))
    (s : St) (g bound depth : Z) (P : gset St) :
  reachable nbrs start s →
  (∀ s2 c st, (s2, c) ∈ nbrs s → s2 ∉ P → IdaStar.pathset st = {[s2]} ∪ P →
     ∃ ret st', rec s2 (g + c) bound (hfun s2) (depth + 1) st = Some (ret, st')
                ∧ dfs_post (g + c) bound s2 ({[s2]} ∪ P) ret st') →
  ∀ l mn st,
    (∀ e, e ∈ l → e ∈ nbrs s) → IdaStar.pathset st = P → cut bound mn →
    ∃ ret st',
      IdaStar.children hfun use_bpmx rec s g bound depth l (hfun s) mn st
      = Some (ret, st')
      ∧ (found bound ret st'
         ∨ (cut bound ret ∧ IdaStar.pathset st' = P ∧ (good mn → good ret)
            ∧ ∀ s2 c, (s2, c) ∈ l → s2 ∉ P → on_opt (g + c) s2 ({[s2]} ∪ P)
                      → good ret)).
Proof.
  intros Hr Hrec. induction l as [|[s2 c] l IH]; intros mn st Hl HP Hmn.
  { exists mn, st. split; [done|]. right. do 3 (split; [done|]).
    intros s2 c Hin. by apply elem_of_nil in Hin. }
  assert (∀ e, e ∈ l → e ∈ nbrs s) as Hl' by (intros e ?; apply Hl; by right).
  assert ((s2, c) ∈ nbrs s) as Hin by (apply Hl; by left).
  cbn [IdaStar.children]. case_bool_decide as Hps.
  { destruct (IH mn st Hl' HP Hmn) as (ret & st' & Hch & Hpost).
    exists ret, st'. split; [done|].
    destruct Hpost as [Hf|(Hc & HP' & Hg & Hall)]; [by left|right].
    do 3 (split; [done|]). intros s3 c3 [Heq|Hin3]%elem_of_cons Hn3; [|by eapply Hall].
    injection Heq as -> ->. by rewrite HP in Hps. }
  rewrite (bpmx_noop s s2 c g bound Hr Hin).
  rewrite HP in Hps.
  destruct (Hrec s2 c (IdaStar.enter_child s s2 st) Hin Hps)
    as (ret1 & st2 & -> & Hpost1).
  { by rewrite pathset_enter_child, HP. }
  destruct Hpost1 as [Hf|(Hc1 & HP1 & Hg1)].
  { pose proof Hf as [-> _]. simpl. exists (IdaStar.Num (-1)), st2. split; [done|by left]. }
  rewrite (cut_not_timeout _ _ Hc1), (cut_not_found _ _ Hc1).
  rewrite bool_decide_eq_true_2 by (rewrite HP1; set_solver).
  destruct (IH (IdaStar.min_ret ret1 mn) (IdaStar.leave_child s2 st2) Hl')
    as (ret & st' & Hch & Hpost).
  { simpl. rewrite HP1. set_solver. }
  { by apply min_ret_cut. }
  exists ret, st'. split; [done|].
  destruct Hpost as [Hf|(Hc & HP' & Hg & Hall)]; [by left|right].
  do 2 (split; [done|]). split.
  - intros Hgm. apply Hg. eapply min_ret_good; [done..|by right].
  - intros s3 c3 [Heq|Hin3]%elem_of_cons Hn3 Hopt; [|by eapply Hall].
    injection Heq as -> ->. apply Hg. eapply min_ret_good; [done..|]. left. by apply Hg1.
Qed.

Lemma dfs_total (t0 : Q) (fuel : nat) :
  ∀ s g bound depth (st : IdaStar.IState (St:=St)),
    path_cost nbrs start g s → (Z.to_nat (bound + 1 - g) < fuel)%nat →
    ∃ ret st',
      dfs t0 fuel s g bound (hfun s) depth st = Some (ret, st')
      ∧ dfs_post g bound s (IdaStar.pathset st) ret st'.
Proof.
  induction fuel as [|fuel IH]; intros s g bound depth st Hp Hfuel; [lia|].
  rewrite ida_dfs_unfold.
  change (timed_out clock None t0 (IdaStar.tick st)) with (false, IdaStar.tick st).
  cbv beta iota zeta.
  pose proof (path_cost_nonneg _ _ _ _ Hunit Hp) as Hg0.
  pose proof (Hnonneg s) as Hh0.
  assert (reachable nbrs start s) as Hr by (by exists g).
  destruct (Z.ltb_spec bound (g + hfun s)).
  { eexists _, _. split; [done|]. right. split; [|split; [done|]].
    - right. exists (g + hfun s). split; [done|lia].
    - intros [[Hs _] _]. exists (g + hfun s). split; [done|].
      pose proof (Hadm s _ Hr Hs). lia. }
  case_bool_decide as Hgoal'.
  { eexists _, _. split; [done|]. left. split; [done|].
    exists g. split; [done|]. split; [lia|]. by rewrite <- Hgoal'. }
  set (st1 := IdaStar.count_expanded _).
  destruct (children_total (dfs t0 fuel) s g bound depth (IdaStar.pathset st) Hr)
    with (l := nbrs s) (mn := IdaStar.Inf) (st := st1)
    as (ret & st' & Hch & Hpost); try done.
  { intros s2 c st2 Hin Hn HP2. rewrite <- HP2. apply IH.
    - by eapply path_cost_snoc.
    - rewrite (Hunit _ _ _ Hin). lia. }
  { by left. }
  exists ret, st'. split; [done|].
  destruct Hpost as [Hf|(Hc & HP' & _ & Hall)]; [by left|right].
  do 2 (split; [done|]). intros Hopt.
  destruct (on_opt_next g s _ Hopt Hgoal') as (s1 & c & Hin & Hn & Hopt1).
  by eapply Hall.
Qed.

Abbreviation chain := (chain_ok default_neighbors neighbors_fn start).

(** With fuel for its length the chain of parents is read off. *)
Lemma chain_ok_path_to_root_total parents cur (s : St) (fuel : nat) :
  chain parents cur → head cur = Some s → (length cur ≤ fuel)%nat →
  IdaStar.path_to_root fuel parents s = Some cur.
Proof.
  revert cur s. induction fuel as [|fuel IH]; intros cur s Hc Hh Hlen.
  { destruct cur; [done|simpl in Hlen; lia]. }
  destruct cur as [|s' r]; [done|]. injection Hh as ->.
  simpl in Hc |- *. destruct r as [|p r'].
  - destruct Hc as [_ Hc]. by rewrite Hc.
  - destruct Hc as (Hc1 & _ & Hc3). rewrite Hc1.
    rewrite (IH (p :: r') p Hc3 eq_refl); [done|]. simpl in Hlen |- *. lia.
Qed.

(** With enough fuel for the rounds and for each [dfs], the outer loop
    returns the least cost. *)
Lemma ida_loop_total (t0 : Q) (fd fuel : nat) :
  ∀ bound (st : IdaStar.IState (St:=St)),
    bound ≤ C → (Z.to_nat (C - bound) < fuel)%nat → (Z.to_nat (C + 1) < fd)%nat →
    IdaStar.parents st !! start = Some None →
    ∃ r, IdaStar.loop default_neighbors clock goal hfun neighbors_fn use_bpmx
                      return_path None t0 fd fuel start (hfun start) bound st = Some r
         ∧ termination_is r "ok" ∧ r !! "g"%string = Some (VInt C).
Proof.
  induction fuel as [|fuel IH]; intros bound st Hb Hfuel Hfd Hst; [lia|].
  cbn [IdaStar.loop].
  destruct (dfs_total t0 fd start 0 bound 0 (IdaStar.new_pathset st start))
    as (ret & st1 & Hd & Hpost); [constructor|lia|].
  rewrite Hd.
  apply (dfs_path default_neighbors clock goal hfun neighbors_fn use_bpmx None start
           Hnonneg) with (rest := []) in Hd; [| |split; [|split]|done|done|done].
  2: { intros s s2 c Hin. rewrite (Hunit _ _ _ Hin). lia. }
  2: { simpl. set_solver. }
  2: { apply NoDup_singleton. }
  2: { done. }
  unfold path_post in Hd.
  destruct Hpost as [[-> (g' & Hsol & Hle & Hp)]|(Hc & HP & Hg)].
  - simpl in Hd. destruct Hd as (cur & g'' & Hhead & Hchain & Hsol' & Hlen).
    rewrite Hsol in Hsol'. injection Hsol' as <-. specialize (Hlen Hunit).
    pose proof (proj2 Hgoal _ Hp). assert (g' = C) as -> by lia.
    change (-1 =? -1) with true. cbv iota.
    assert (IdaStar.reconstruct_path fd (IdaStar.parents st1) goal = Some (reverse cur))
      as Hrp.
    { unfold IdaStar.reconstruct_path.
      rewrite (chain_ok_path_to_root_total _ cur); [done..|lia]. }
    rewrite Hrp, Hsol. destruct return_path; simpl.
    all: eexists; split; [reflexivity|]; split; reflexivity.
  - rewrite (cut_not_timeout _ _ Hc), (cut_not_found _ _ Hc) in Hd.
    destruct Hg as (t & -> & Ht).
    { split; [by replace (C - 0) with C by lia|].
      intros p Hp n Hn. simpl in Hp. apply elem_of_singleton in Hp as ->.
      pose proof (proj2 Hgoal _ Hn). lia. }
    destruct Hc as [?|(t' & [= <-] & Hlt & Ht0)]; [done|].
    destruct (Z.eqb_spec t (-1)); [lia|].
    apply IH; [done|lia|done|]. by destruct Hd as (_ & _ & [_ ?]).
Qed.

Lemma ida_optimal :
  ∃ N, ∀ fuel, (N ≤ fuel)%nat →
    ∃ r, IdaStar.ida_star default_neighbors clock goal hfun neighbors_fn use_bpmx
                          return_path None fuel start = Some r
         ∧ termination_is r "ok" ∧ r !! "g"%string = Some (VInt C).
Proof.
  exists (Z.to_nat C + 2)%nat. intros fuel Hfuel. unfold IdaStar.ida_star.
  pose proof (Hnonneg start).
  assert (hfun start ≤ C).
  { apply Hadm; [exists 0; constructor|apply Hgoal]. }
  apply ida_loop_total; [done|lia|lia|]. apply lookup_singleton_eq.
Qed.
End IdaOptimal.

(** ** [bfs] on a graph with unit costs *)

Section BfsOptimal.
Context {St : Type} `{Countable St}.
Variable clock : nat → Q.
Variable goal : St.
Variable nbrs : St → list (St * Z).
Variable start : St.
Variable C : Z.

Hypothesis Hunit : unit_costs nbrs.
Hypothesis Hgoal : shortest nbrs start C goal.

(** [parent] leads from [s] to the start in [n] steps. *)
Inductive pchain (par : gmap St (option St)) : St → nat → Prop :=
| pchain_root s : par !! s = Some None → pchain par s 0
| pchain_step s p n :
    par !! s = Some (Some p) → pchain par p n → pchain par s (S n).

Lemma walk_back_total par (s : St) (n fuel : nat) (path : list St) (g : Z) :
  pchain par s n → (n < fuel)%nat →
  ∃ path', Bfs.walk_back fuel par s path g = Some (path', g + Z.of_nat n + 1).
Proof.
  intros Hc. revert fuel path g.
  induction Hc as [s Hs|s p n Hs Hc IH]; intros [|fuel] path g Hf; try lia; simpl;
    rewrite Hs.
  - eexists. do 2 f_equal. lia.
  - destruct (IH fuel (path ++ [s]) (g + 1)) as [p' Hp']; [lia|].
    exists p'. rewrite Hp'. do 2 f_equal. lia.
Qed.

Lemma pchain_insert par (s s2 : St) (n : nat) v :
  par !! s2 = None → pchain par s n → pchain (<[s2:=v]> par) s n.
Proof.
  intros Hn. induction 1 as [s Hs|s p n Hs Hc IH].
  - apply pchain_root. rewrite lookup_insert_ne; [done|]. intros ->. congruence.
  - eapply pchain_step; [|exact IH]. rewrite lookup_insert_ne; [done|].
    intros ->. congruence.
Qed.

(** The queue is [A ++ Bq]: the states of [A] are [L] steps from the
    start, those of [Bq] one more; [E] are the states taken off the queue. *)
Record bcore (L : Z) (E : gset St) (A Bq : list St) (par : gmap St (option St))
    (seen : gset St) : Prop := mkBcore {
  b_seen : ∀ s, s ∈ seen ↔ s ∈ E ∨ s ∈ A ++ Bq;
  b_nodup : NoDup (A ++ Bq);
  b_disj : ∀ s, s ∈ A ++ Bq → s ∉ E;
  b_goal : goal ∉ E;
  b_A : ∀ s, s ∈ A → shortest nbrs start L s;
  b_B : ∀ s, s ∈ Bq → shortest nbrs start (L + 1) s;
  b_below : ∀ t k, shortest nbrs start k t → k ≤ L → t ∈ seen;
  b_start : start ∈ seen;
  b_dom : ∀ s, s ∉ seen → par !! s = None;
  b_chain :
    ∀ s, s ∈ seen → ∃ n, pchain par s n ∧ shortest nbrs start (Z.of_nat n) s
}.

Definition edges_seen (seen : gset St) (l : list (St * Z)) : Prop :=
  ∀ s2 c, (s2, c) ∈ l → s2 ∈ seen.

Definition binv (L : Z) (E : gset St) (A Bq : list St) (par : gmap St (option St))
    (seen : gset St) : Prop :=
  bcore L E A Bq par seen ∧ ∀ s, s ∈ E → edges_seen seen (nbrs s).

(** The goal is not passed: the level of the queue is at most [C]. *)
Lemma bcore_level L E A Bq par seen : bcore L E A Bq par seen → L ≤ C.
Proof.
  intros Hc. destruct (decide (L ≤ C)) as [|Hgt]; [done|]. exfalso.
  assert (goal ∈ seen) as Hg by (eapply b_below; [done..|lia]).
  apply (b_seen _ _ _ _ _ _ Hc) in Hg as [Hg|[Hg|Hg]%elem_of_app].
  - by apply (b_goal _ _ _ _ _ _ Hc).
  - pose proof (shortest_unique _ _ _ _ _ (b_A _ _ _ _ _ _ Hc _ Hg) Hgoal). lia.
  - pose proof (shortest_unique _ _ _ _ _ (b_B _ _ _ _ _ _ Hc _ Hg) Hgoal). lia.
Qed.

(** When the states of level [L] are used up, the queue holds those of the
    next level. *)
Lemma binv_advance L E Bq par seen :
  binv L E [] Bq par seen → binv (L + 1) E Bq [] par seen.
Proof.
  intros [Hc He]. split; [|done]. destruct Hc. split; try done.
  - by rewrite app_nil_r.
  - by rewrite app_nil_r.
  - by rewrite app_nil_r.
  - intros s Hs. by apply elem_of_nil in Hs.
  - intros t k Hk Hle. destruct (decide (k ≤ L)) as [|Hgt]; [by eapply b_below0|].
    destruct (decide (t = start)) as [->|Hne]; [done|].
    destruct (shortest_pred _ _ _ _ Hunit Hk Hne) as (u & Hin & Hu).
    assert (u ∈ seen) as Hus by (eapply b_below0; [done|lia]).
    apply b_seen0 in Hus as [Hus|Hus]; [by eapply He|].
    simpl in Hus. pose proof (shortest_unique _ _ _ _ _ (b_B0 _ Hus) Hu). lia.
Qed.

Lemma seen_closed L E par seen (s t : St) (n : Z) :
  binv L E [] [] par seen → path_cost nbrs s n t → s ∈ seen → t ∈ seen.
Proof.
  intros [Hc He]. induction 1 as [s|s s1 c n t Hin Hp IH]; [done|].
  intros Hs. apply IH. apply (b_seen _ _ _ _ _ _ Hc) in Hs as [Hs|Hs].
  - by eapply He.
  - by apply elem_of_nil in Hs.
Qed.

(** The queue does not run empty before the goal is taken off. *)
Lemma binv_nonempty L E par seen : binv L E [] [] par seen → False.
Proof.
  intros Hi. pose proof Hi as [Hc _].
  assert (goal ∈ seen) as Hg.
  { eapply seen_closed; [done|apply Hgoal|]. by eapply b_start. }
  apply (b_seen _ _ _ _ _ _ Hc) in Hg as [Hg|Hg].
  - by apply (b_goal _ _ _ _ _ _ Hc).
  - by apply elem_of_nil in Hg.
Qed.

(** A queue that is not empty starts with a state of its level. *)
Lemma binv_normal L E A Bq par seen s rest :
  binv L E A Bq par seen → A ++ Bq = s :: rest →
  ∃ L' A' Bq', rest = A' ++ Bq' ∧ binv L' E (s :: A') Bq' par seen.
Proof.
  intros Hi Hq. destruct A as [|a A].
  - simpl in Hq. subst Bq. exists (L + 1), rest, []. split; [by rewrite app_nil_r|].
    by apply binv_advance.
  - injection Hq as -> <-. by exists L, A, Bq.
Qed.

(** Taking the first state off the queue. *)
Lemma bcore_pop L E A Bq par seen (s : St) :
  bcore L E (s :: A) Bq par seen → s ≠ goal → bcore L ({[s]} ∪ E) A Bq par seen.
Proof.
  intros Hc Hne. destruct Hc. simpl in *. apply NoDup_cons in b_nodup0 as [Hn Hnd].
  split; try done.
  - intros s'. rewrite b_seen0, elem_of_cons, elem_of_union, elem_of_singleton. tauto.
  - intros s' Hs' [Heq|HE]%elem_of_union.
    + apply elem_of_singleton in Heq as ->. done.
    + apply (b_disj0 s'); [by right|done].
  - intros [Heq|HE]%elem_of_union; [|done]. apply elem_of_singleton in Heq. done.
  - intros s' Hs'. apply b_A0. by right.
Qed.

Abbreviation Bl := (ball nbrs (Z.to_nat (C + 1)) start).

(** The potential of the loop: the length of the queue and two for every
    state of the ball not seen yet. *)
Definition bpot (st : Bfs.BState (St:=St)) : nat :=
  (length (Bfs.q st) + weight (λ _, 2%nat) (Bfs.seen st) Bl)%nat.

(** One round of the loop over the neighbours of [s]. *)
Lemma visit_step L E A Bq (s : St) (st : Bfs.BState (St:=St)) (s2 : St) (c : Z) :
  let st' := Bfs.visit s st (s2, c) in
  Bfs.q st = A ++ Bq → bcore L E A Bq (Bfs.parent st) (Bfs.seen st) →
  s ∈ E → shortest nbrs start L s → (s2, c) ∈ nbrs s →
  ∃ Bq', Bfs.q st' = A ++ Bq'
         ∧ bcore L E A Bq' (Bfs.parent st') (Bfs.seen st')
         ∧ Bfs.seen st ⊆ Bfs.seen st' ∧ s2 ∈ Bfs.seen st'
         ∧ (bpot st' ≤ bpot st)%nat.
Proof.
  intros st' Hq Hc HsE Hs Hin. subst st'. unfold Bfs.visit. simpl.
  case_bool_decide as Hseen.
  { exists Bq. simpl. do 4 (split; [done|]). unfold bpot. simpl. lia. }
  pose proof (Hunit _ _ _ Hin) as ->.
  assert (path_cost nbrs start (L + 1) s2) as Hreal.
  { eapply path_cost_snoc; [apply Hs|done]. }
  destruct (reachable_shortest nbrs start s2 Hunit (ex_intro _ _ Hreal)) as [k Hk].
  assert (k = L + 1) as ->.
  { pose proof (proj2 Hk _ Hreal). destruct (decide (k ≤ L)); [|lia].
    exfalso. apply Hseen. by eapply b_below. }
  assert (s ∈ Bfs.seen st) as Hss by (apply (b_seen _ _ _ _ _ _ Hc); by left).
  destruct (b_chain _ _ _ _ _ _ Hc s Hss) as (n & Hn & Hsn).
  pose proof (shortest_unique _ _ _ _ _ Hsn Hs) as HnL.
  pose proof (b_dom _ _ _ _ _ _ Hc s2 Hseen) as Hdom.
  assert (s2 ∉ A ++ Bq) as HnAB.
  { intros Hab. apply Hseen, (b_seen _ _ _ _ _ _ Hc). by right. }
  exists (Bq ++ [s2]). simpl. split; [by rewrite Hq, app_assoc|]. split; [split|].
  - intros s'. rewrite elem_of_union, elem_of_singleton, (b_seen _ _ _ _ _ _ Hc).
    rewrite app_assoc, (elem_of_app (A ++ Bq)), list_elem_of_singleton. tauto.
  - rewrite app_assoc. apply NoDup_app. split; [exact (b_nodup _ _ _ _ _ _ Hc)|]. split; [|apply NoDup_singleton].
    intros x Hx ->%list_elem_of_singleton. done.
  - intros s'. rewrite app_assoc. intros [Hs'|Hs']%elem_of_app.
    + by apply (b_disj _ _ _ _ _ _ Hc).
    + apply list_elem_of_singleton in Hs' as ->. intros HE.
      apply Hseen, (b_seen _ _ _ _ _ _ Hc). by left.
  - exact (b_goal _ _ _ _ _ _ Hc).
  - exact (b_A _ _ _ _ _ _ Hc).
  - intros s' [Hs'|Hs']%elem_of_app; [by apply (b_B _ _ _ _ _ _ Hc)|].
    by apply list_elem_of_singleton in Hs' as ->.
  - intros t k Hk' Hle. apply elem_of_union. right. by eapply b_below.
  - apply elem_of_union. right. exact (b_start _ _ _ _ _ _ Hc).
  - intros s' Hs'. apply not_elem_of_union in Hs' as [Hne Hs'].
    rewrite lookup_insert_ne by set_solver. by apply (b_dom _ _ _ _ _ _ Hc).
  - intros s' [Heq|Hs']%elem_of_union.
    + apply elem_of_singleton in Heq as ->. exists (S n). split.
      * eapply pchain_step; [apply lookup_insert_eq|]. by apply pchain_insert.
      * replace (Z.of_nat (S n)) with (L + 1) by lia. done.
    + destruct (b_chain _ _ _ _ _ _ Hc s' Hs') as (n' & Hn' & Hsn').
      exists n'. split; [by apply pchain_insert|done].
  - split; [set_solver|]. split; [set_solver|].
    unfold bpot. simpl. rewrite length_app. simpl.
    assert (s2 ∈ Bl) as Hball.
    { pose proof (bcore_level _ _ _ _ _ _ Hc).
      eapply ball_mono; [|by apply path_cost_ball]. lia. }
    pose proof (weight_close (λ _, 2%nat) s2 (Bfs.seen st) ({[s2]} ∪ Bfs.seen st) Bl
                  Hball Hseen ltac:(set_solver) ltac:(set_solver)) as Hw.
    cbv beta in Hw. lia.
Qed.

Lemma visit_fold L E A (s : St) (l : list (St * Z)) :
  ∀ (st : Bfs.BState (St:=St)) Bq done,
    let st' := foldl (Bfs.visit s) st l in
    Bfs.q st = A ++ Bq → bcore L E A Bq (Bfs.parent st) (Bfs.seen st) →
    s ∈ E → shortest nbrs start L s → (∀ e, e ∈ l → e ∈ nbrs s) →
    edges_seen (Bfs.seen st) done →
    ∃ Bq', Bfs.q st' = A ++ Bq'
           ∧ bcore L E A Bq' (Bfs.parent st') (Bfs.seen st')
           ∧ Bfs.seen st ⊆ Bfs.seen st'
           ∧ edges_seen (Bfs.seen st') (done ++ l)
           ∧ (bpot st' ≤ bpot st)%nat.
Proof.
  induction l as [|[s2 c] l IH]; intros st Bq dn st' Hq Hc HsE Hs Hl Hd; subst st'.
  { exists Bq. simpl. rewrite app_nil_r. done. }
  cbn [foldl].
  destruct (visit_step L E A Bq s st s2 c Hq Hc HsE Hs (Hl _ ltac:(by left)))
    as (Bq1 & Hq1 & Hc1 & Hsub1 & Hs2 & Hpot1).
  destruct (IH (Bfs.visit s st (s2, c)) Bq1 (dn ++ [(s2, c)]) Hq1 Hc1 HsE Hs)
    as (Bq2 & Hq2 & Hc2 & Hsub2 & Hd2 & Hpot2).
  { intros e ?. apply Hl. by right. }
  { intros s3 c3 [Hin|Hin]%elem_of_app.
    - apply Hsub1. by eapply Hd.
    - apply list_elem_of_singleton in Hin. by injection Hin as -> ->. }
  exists Bq2. split; [done|]. split; [done|]. split; [set_solver|].
  split; [by rewrite <- app_assoc in Hd2|lia].
Qed.

(** With enough fuel the loop returns the least number of steps. *)
Lemma bfs_loop_total (t0 : Q) (fp fuel : nat) :
  ∀ (st : Bfs.BState (St:=St)) L E A Bq,
    Bfs.q st = A ++ Bq → binv L E A Bq (Bfs.parent st) (Bfs.seen st) →
    (bpot st < fuel)%nat → (Z.to_nat C < fp)%nat →
    ∃ r, Bfs.loop clock goal nbrs None t0 fp fuel st = Some r
         ∧ termination_is r "ok" ∧ r !! "g"%string = Some (VInt C).
Proof.
  induction fuel as [|fuel IH]; intros st L E A Bq Hq Hi Hpot Hfp; [lia|].
  cbn [Bfs.loop]. unfold bpot in Hpot.
  destruct (Bfs.q st) as [|s rest] eqn:Hqs.
  { exfalso. symmetry in Hq. apply app_eq_nil in Hq as [-> ->].
    by eapply binv_nonempty. }
  change (timed_out clock None t0 (Bfs.tick st)) with (false, Bfs.tick st).
  cbv beta iota zeta.
  destruct (binv_normal _ _ _ _ _ _ s rest Hi (eq_sym Hq))
    as (L' & A' & Bq' & Hrest & [Hc He]).
  assert (shortest nbrs start L' s) as HsL.
  { apply (b_A _ _ _ _ _ _ Hc). by left. }
  case_bool_decide as Hg.
  - assert (s ∈ Bfs.seen st) as Hss.
    { apply (b_seen _ _ _ _ _ _ Hc). right. by left. }
    destruct (b_chain _ _ _ _ _ _ Hc s Hss) as (n & Hn & Hsn).
    rewrite Hg in Hsn. pose proof (shortest_unique _ _ _ _ _ Hsn Hgoal) as HnC.
    destruct (walk_back_total _ s n fp [] 0 Hn ltac:(lia)) as [path' ->].
    eexists. split; [reflexivity|]. split; [reflexivity|].
    replace (0 + Z.of_nat n + 1 - 1) with C by lia. reflexivity.
  - pose proof (bcore_pop _ _ _ _ _ _ _ Hc Hg) as Hc1.
    set (st1 := Bfs.mkBState rest _ _ _ _ _ _).
    destruct (visit_fold L' ({[s]} ∪ E) A' s (nbrs s) st1 Bq' [])
      as (Bq2 & Hq2 & Hc2 & Hsub2 & Hd2 & Hpot2); try done.
    { set_solver. }
    { intros s2 c Hin. by apply elem_of_nil in Hin. }
    eapply (IH _ L' ({[s]} ∪ E) A' Bq2); [done| |unfold bpot in *; simpl in *; lia|done].
    split; [done|]. intros s' [Heq|HE]%elem_of_union.
    + apply elem_of_singleton in Heq as ->. exact Hd2.
    + intros s2 c Hin. apply Hsub2. by eapply He.
Qed.

Lemma path_cost_zero (s t : St) : path_cost nbrs s 0 t → s = t.
Proof.
  inversion 1 as [|s' s1 c n t' Hin Hp Hs Hc]; [done|]. subst.
  pose proof (Hunit _ _ _ Hin). pose proof (path_cost_nonneg _ _ _ _ Hunit Hp). lia.
Qed.

Lemma binv_init :
  binv 0 ∅ [start] [] (Bfs.parent (Bfs.init start)) (Bfs.seen (Bfs.init start)).
Proof.
  assert (shortest nbrs start 0 start) as H0.
  { split; [constructor|]. intros m Hm. by eapply path_cost_nonneg. }
  simpl. split; [split|].
  - intros s. set_solver.
  - apply NoDup_singleton.
  - intros s _. set_solver.
  - set_solver.
  - by intros s ->%list_elem_of_singleton.
  - intros s Hs. by apply elem_of_nil in Hs.
  - intros t k Hk Hle. pose proof (path_cost_nonneg _ _ _ _ Hunit (proj1 Hk)).
    assert (k = 0) as -> by lia. apply elem_of_singleton. symmetry.
    apply path_cost_zero, Hk.
  - by apply elem_of_singleton.
  - intros s Hs. apply lookup_singleton_ne. set_solver.
  - intros s ->%elem_of_singleton. exists 0%nat. split; [|done].
    apply pchain_root, lookup_singleton_eq.
  - intros s Hs. by apply elem_of_empty in Hs.
Qed.

(** [bfs] returns the least number of steps. *)
Lemma bfs_optimal :
  ∃ N, ∀ fuel, (N ≤ fuel)%nat →
    ∃ r, Bfs.bfs clock goal nbrs None fuel start = Some r
         ∧ termination_is r "ok" ∧ r !! "g"%string = Some (VInt C).
Proof.
  exists (S (bpot (Bfs.init start)) + Z.to_nat C)%nat. intros fuel Hfuel.
  unfold Bfs.bfs. eapply (bfs_loop_total _ _ _ _ 0 ∅ [start] []);
    [done|apply binv_init|lia|lia].
Qed.
End BfsOptimal.

(** ** The searches agree on the cost *)

Section Agreement.
Context {St : Type} `{Countable St}.
Variable neighbors : St → list (St * Z).
Variable start : St.

(** [h] is consistent on the states reachable from [start]. *)
Definition consistent_from (h : St → Z) : Prop :=
  ∀ s s1 c, reachable neighbors start s → (s1, c) ∈ neighbors s → h s ≤ c + h s1.

(** [h] is admissible on the states reachable from [start]. *)
Definition admissible_from (h : St → Z) (goal : St) : Prop :=
  ∀ s n, reachable neighbors start s → path_cost neighbors s n goal → h s ≤ n.

(** Every move from a state reachable from [start] can be undone at the
    same cost. *)
Definition reversible_from : Prop :=
  ∀ s s1 c, reachable neighbors start s → (s1, c) ∈ neighbors s →
            (s, c) ∈ neighbors s1.

Lemma consistent_back (h : St → Z) :
  reversible_from → consistent_from h →
  ∀ s s1 c, reachable neighbors start s → (s1, c) ∈ neighbors s → h s1 ≤ c + h s.
Proof.
  intros Hrev Hcons s s1 c Hr Hin. apply Hcons; [|by apply Hrev].
  eapply reachable_trans; [exact Hr|]. eapply path_step; [exact Hin|constructor].
Qed.
End Agreement.

(** Both records are ["ok"] with the cost [g]. *)
Definition both_ok {St} (g : Z) (r1 r2 : gmap string (Value St)) : Prop :=
  termination_is r1 "ok" ∧ termination_is r2 "ok"
  ∧ r1 !! "g"%string = Some (VInt g) ∧ r2 !! "g"%string = Some (VInt g).

(** C1 (amended). On a graph with unit costs, for every start state from
    which the goal can be reached, [a_star] run without timeout with a
    non-negative heuristic that is admissible and consistent returns, for all
    fuel beyond some bound, the termination ["ok"] and the least cost of a
    path to the goal, and [bfs] on the same start, goal and neighbours
    returns the same cost. *)
Theorem a_star_matches_bfs {St} `{Countable St}
    (dn : St → list (St * Z)) (clock : nat → Q) (goal : St) (hfun : St → Z)
    (nf : option (St → list (St * Z))) (tb : string) (rp : bool) (start : St) :
  unit_costs (AStar.neighbors dn nf) →
  (∀ s, 0 ≤ hfun s) →
  admissible_from (AStar.neighbors dn nf) start hfun goal →
  consistent_from (AStar.neighbors dn nf) start hfun →
  reachable (AStar.neighbors dn nf) start goal →
  ∃ g N, shortest (AStar.neighbors dn nf) start g goal
    ∧ ∀ fuel, (N ≤ fuel)%nat →
        ∃ ra rb,
          AStar.a_star dn clock goal hfun nf tb rp None fuel start = Some ra
          ∧ Bfs.bfs clock goal (AStar.neighbors dn nf) None fuel start = Some rb
          ∧ both_ok g ra rb.
Proof.
  intros Hunit Hnn Hadm Hcons Hreach.
  destruct (reachable_shortest _ _ _ Hunit Hreach) as [g Hg].
  destruct (astar_optimal dn clock goal hfun nf tb rp start g Hunit Hnn Hcons Hadm Hg)
    as [Na Ha].
  destruct (bfs_optimal clock goal (AStar.neighbors dn nf) start g Hunit Hg) as [Nb Hb].
  exists g, (Na + Nb)%nat. split; [done|]. intros fuel Hfuel.
  destruct (Ha fuel ltac:(lia)) as (ra & Hra & Hoka & Hga).
  destruct (Hb fuel ltac:(lia)) as (rb & Hrb & Hokb & Hgb).
  exists ra, rb. by repeat split.
Qed.

(** C2. On a graph with unit costs whose moves can be undone, for every
    start state from which the goal can be reached, with a non-negative
    heuristic that is admissible and consistent and no timeout, [ida_star]
    returns the same cost as [a_star], the least one, with [use_bpmx] false
    and with [use_bpmx] true. *)
Theorem ida_star_matches_a_star {St} `{Countable St}
    (dn : St → list (St * Z)) (clock : nat → Q) (goal : St) (hfun : St → Z)
    (nf : option (St → list (St * Z))) (tb : string) (rp : bool) (start : St) :
  unit_costs (AStar.neighbors dn nf) →
  reversible_from (AStar.neighbors dn nf) start →
  (∀ s, 0 ≤ hfun s) →
  admissible_from (AStar.neighbors dn nf) start hfun goal →
  consistent_from (AStar.neighbors dn nf) start hfun →
  reachable (AStar.neighbors dn nf) start goal →
  ∃ g N, shortest (AStar.neighbors dn nf) start g goal
    ∧ ∀ fuel, (N ≤ fuel)%nat →
        ∃ ra, AStar.a_star dn clock goal hfun nf tb rp None fuel start = Some ra
          ∧ ∀ use_bpmx,
              ∃ ri, IdaStar.ida_star dn clock goal hfun nf use_bpmx rp None fuel start
                    = Some ri
                    ∧ both_ok g ra ri.
Proof.
  intros Hunit Hrev Hnn Hadm Hcons Hreach.
  destruct (reachable_shortest _ _ _ Hunit Hreach) as [g Hg].
  destruct (astar_optimal dn clock goal hfun nf tb rp start g Hunit Hnn Hcons Hadm Hg)
    as [Na Ha].
  pose proof (consistent_back _ _ _ Hrev Hcons) as Hback.
  destruct (ida_optimal dn clock goal hfun nf false rp start g Hunit Hnn Hcons Hback
              Hadm Hg) as [N0 H0].
  destruct (ida_optimal dn clock goal hfun nf true rp start g Hunit Hnn Hcons Hback
              Hadm Hg) as [N1 H1].
  exists g, (Na + N0 + N1)%nat. split; [done|]. intros fuel Hfuel.
  destruct (Ha fuel ltac:(lia)) as (ra & Hra & Hoka & Hga).
  exists ra. split; [done|]. intros [|].
  - destruct (H1 fuel ltac:(lia)) as (ri & Hri & Hoki & Hgi). exists ri. by repeat split.
  - destruct (H0 fuel ltac:(lia)) as (ri & Hri & Hoki & Hgi). exists ri. by repeat split.
Qed.

(** *** The 3×3 puzzle with the Manhattan distance *)

Lemma six_away_board : board board33 six_away.
Proof. exact (path_to_GOAL_board _ _ six_away_path). Qed.

Lemma six_away_reach (s : State) :
  reachable Puzzle8.neighbors six_away s → board board33 s.
Proof. intros [n Hp]. exact (path_from_board _ _ _ six_away_board Hp). Qed.

Lemma six_away_reversible : reversible_from Puzzle8.neighbors six_away.
Proof.
  intros s s1 c Hr Hin. rewrite (puzzle8_unit_costs _ _ _ Hin).
  eapply puzzle8_neighbors_sym; [by apply six_away_reach|exact Hin].
Qed.

Lemma six_away_consistent : consistent_from Puzzle8.neighbors six_away Puzzle8.manhattan.
Proof.
  intros s s1 c Hr Hin.
  destruct (manhattan_move s s1 c (six_away_reach s Hr) Hin) as [-> ?]. lia.
Qed.

Lemma six_away_admissible :
  admissible_from Puzzle8.neighbors six_away Puzzle8.manhattan Puzzle8.GOAL.
Proof. intros s n _. apply manhattan_admissible_aux. Qed.

Lemma a_star_matches_bfs_witness :
  ∃ g N, shortest Puzzle8.neighbors six_away g Puzzle8.GOAL
    ∧ ∀ fuel, (N ≤ fuel)%nat →
        ∃ ra rb,
          AStar.a_star Puzzle8.neighbors still_clock Puzzle8.GOAL Puzzle8.manhattan
                       None "h" true None fuel six_away = Some ra
          ∧ Bfs.bfs still_clock Puzzle8.GOAL Puzzle8.neighbors None fuel six_away
            = Some rb
          ∧ both_ok g ra rb.
Proof.
  apply (a_star_matches_bfs Puzzle8.neighbors still_clock Puzzle8.GOAL Puzzle8.manhattan
           None "h" true six_away).
  - exact puzzle8_unit_costs.
  - exact manhattan_nonneg.
  - exact six_away_admissible.
  - exact six_away_consistent.
  - exists 6. exact six_away_path.
Defined.

Lemma ida_star_matches_a_star_witness :
  ∃ g N, shortest Puzzle8.neighbors six_away g Puzzle8.GOAL
    ∧ ∀ fuel, (N ≤ fuel)%nat →
        ∃ ra, AStar.a_star Puzzle8.neighbors still_clock Puzzle8.GOAL Puzzle8.manhattan
                           None "h" true None fuel six_away = Some ra
          ∧ ∀ use_bpmx,
              ∃ ri, IdaStar.ida_star Puzzle8.neighbors still_clock Puzzle8.GOAL
                                     Puzzle8.manhattan None use_bpmx true None fuel
                                     six_away = Some ri
                    ∧ both_ok g ra ri.
Proof.
  apply (ida_star_matches_a_star Puzzle8.neighbors still_clock Puzzle8.GOAL
           Puzzle8.manhattan None "h" true six_away).
  - exact puzzle8_unit_costs.
  - exact six_away_reversible.
  - exact manhattan_nonneg.
  - exact six_away_admissible.
  - exact six_away_consistent.
  - exists 6. exact six_away_path.
Defined.

(** *** An admissible heuristic that is not consistent *)

(** Nine states of a cycle of twelve blank moves below [eight_away]. *)
Definition zero_states : list State :=
  [[4;1;2;0;5;3;7;8;6];
   [0;1;2;4;5;3;7;8;6];
   [1;0;2;4;5;3;7;8;6];
   [1;5;2;4;0;3;7;8;6];
   [1;5;2;0;4;3;7;8;6];
   [0;5;2;1;4;3;7;8;6];
   [5;0;2;1;4;3;7;8;6];
   [5;4;2;1;0;3;7;8;6];
   [5;4;2;0;1;3;7;8;6]].

(** The Manhattan distance, lowered to 0 on [zero_states]. *)
Definition h_low (s : State) : Z :=
  if bool_decide (s ∈ zero_states) then 0 else Puzzle8.manhattan s.

Definition eight_away : State := [0;4;2;5;1;3;7;8;6].

Lemma h_low_admissible : admissible Puzzle8.neighbors h_low Puzzle8.GOAL.
Proof.
  intros s n Hp. unfold h_low. case_bool_decide.
  - by eapply path_cost_nonneg, Hp; apply puzzle8_unit_costs.
  - by apply manhattan_admissible_aux.
Qed.

(** C1 fails for a heuristic that is admissible but not consistent: a
    closed state is never opened again, and from [0 4 2 / 5 1 3 / 7 8 6]
    with [h_low], [a_star] returns the cost 10 where [bfs] returns 8. *)
Lemma a_star_admissible_not_optimal :
  admissible Puzzle8.neighbors h_low Puzzle8.GOAL
  ∧ (∀ s, 0 ≤ h_low s)
  ∧ (∃ r, AStar.a_star Puzzle8.neighbors still_clock Puzzle8.GOAL h_low None "h" false
                       None 100 eight_away = Some r
          ∧ termination_is r "ok" ∧ r !! "g"%string = Some (VInt 10))
  ∧ (∃ r, Bfs.bfs still_clock Puzzle8.GOAL Puzzle8.neighbors None 1000 eight_away
          = Some r
          ∧ termination_is r "ok" ∧ r !! "g"%string = Some (VInt 8)).
Proof.
  split; [exact h_low_admissible|]. split.
  { intros s. unfold h_low. case_bool_decide; [done|apply manhattan_nonneg]. }
  split.
  - destruct (run_returns
                (AStar.a_star Puzzle8.neighbors still_clock Puzzle8.GOAL h_low None "h"
                              false None 100 eight_away))
      as [r E]; [vm_compute; reflexivity|].
    exists r. split; [exact E|]. split; run_key E.
  - destruct (run_returns
                (Bfs.bfs still_clock Puzzle8.GOAL Puzzle8.neighbors None 1000 eight_away))
      as [r E]; [vm_compute; reflexivity|].
    exists r. split; [exact E|]. split; run_key E.
Qed.

(** * Further properties of the domains *)

(** ** Moves of the rectangular puzzle *)

Lemma rect_neighbors_elem (self : RectPuzzle.t) (s s1 : State) (c : Z) :
  (s1, c) ∈ RectPuzzle.neighbors self s ↔
  ∃ z js j, index 0 s = Some z ∧ RectPuzzle._nei self z = Some js ∧ j ∈ js
            ∧ swap z j s = Some s1 ∧ c = 1.
Proof.
  unfold RectPuzzle.neighbors. split.
  - destruct (index 0 s) as [z|]; simpl; [|by intros ?%elem_of_nil].
    destruct (RectPuzzle._nei self z) as [js|] eqn:En; simpl; [|by intros ?%elem_of_nil].
    intros (j & ? & ? & ?)%blank_moves_elem. by exists z, js, j.
  - intros (z & js & j & -> & -> & ? & ? & ?). apply blank_moves_elem. by exists j.
Qed.

(** The table of blank moves is symmetric. *)
Lemma rect_nei_sym (self : RectPuzzle.t) (z j : nat) (js : list nat) :
  RectPuzzle._nei self z = Some js → j ∈ js →
  j ≠ z ∧ ∃ js', RectPuzzle._nei self j = Some js' ∧ z ∈ js'.
Proof.
  intros Hn Hj. destruct (nei_cases self z j js Hn Hj) as (Hz & Hj' & Hc).
  set (C := RectPuzzle.C self) in *. set (R := RectPuzzle.R self) in *.
  assert (C ≠ 0)%nat as HC0 by lia.
  pose proof (Nat.div_mod_eq z C) as Hdz. pose proof (Nat.div_mod_eq j C) as Hdj.
  pose proof (Nat.mod_upper_bound z C HC0). pose proof (Nat.mod_upper_bound j C HC0).
  assert (z / C < R)%nat by (apply Nat.Div0.div_lt_upper_bound; lia).
  split; [lia|].
  unfold RectPuzzle._nei, RectPuzzle.size. fold C R.
  rewrite bool_decide_eq_true_2 by done. eexists. split; [reflexivity|].
  rewrite !elem_of_app.
  destruct Hc as [[? Hr]|[[? Hr]|[[? Hr]|[? Hr]]]].
  - right; left. rewrite bool_decide_eq_true_2 by lia.
    apply list_elem_of_singleton. lia.
  - left. rewrite bool_decide_eq_true_2 by lia. apply list_elem_of_singleton. lia.
  - right; right; right. rewrite Hr in Hdj.
    rewrite bool_decide_eq_true_2 by lia. apply list_elem_of_singleton. lia.
  - right; right; left. rewrite Hr in Hdj.
    rewrite bool_decide_eq_true_2 by lia. apply list_elem_of_singleton. lia.
Qed.

Lemma rect_board_forward (self : RectPuzzle.t) (s s1 : State) (c : Z) :
  (s1, c) ∈ RectPuzzle.neighbors self s → board self s → board self s1.
Proof.
  intros (z & js & j & _ & _ & _ & Hsw & _)%rect_neighbors_elem Hb.
  unfold board in *. etrans; [by eapply swap_Permutation|done].
Qed.

Lemma rect_board_back (self : RectPuzzle.t) (s s1 : State) (c : Z) :
  (s1, c) ∈ RectPuzzle.neighbors self s → board self s1 → board self s.
Proof.
  intros (z & js & j & _ & _ & _ & Hsw & _)%rect_neighbors_elem Hb.
  unfold board in *. etrans; [symmetry; by eapply swap_Permutation|done].
Qed.

Lemma rect_unit_costs (self : RectPuzzle.t) : unit_costs (RectPuzzle.neighbors self).
Proof. intros s s1 c (? & ? & ? & ? & ? & ? & ? & ?)%rect_neighbors_elem. done. Qed.

Lemma rect_path_board (self : RectPuzzle.t) (s t : State) (n : Z) :
  path_cost (RectPuzzle.neighbors self) s n t → board self t → board self s.
Proof.
  induction 1 as [s|s s1 c n t Hin Hp IH]; [done|].
  intros Hb. eapply rect_board_back; [done|]. by apply IH.
Qed.

Lemma rect_size_pos (self : RectPuzzle.t) :
  (2 ≤ RectPuzzle.R self)%nat → (2 ≤ RectPuzzle.C self)%nat →
  (0 < RectPuzzle.size self)%nat.
Proof. unfold RectPuzzle.size. nia. Qed.

(** Every move of a board can be undone. *)
Lemma rect_neighbors_sym (self : RectPuzzle.t) (s s1 : State) (c : Z) :
  (0 < RectPuzzle.size self)%nat →
  board self s → (s1, c) ∈ RectPuzzle.neighbors self s →
  (s, 1) ∈ RectPuzzle.neighbors self s1.
Proof.
  intros Hsz Hb (z & js & j & Hz & Hn & Hj & Hsw & _)%rect_neighbors_elem.
  destruct (rect_nei_sym self z j js Hn Hj) as (Hne & js' & Hn' & Hz').
  destruct (board_facts self s Hsz Hb) as (Hnd & Hlen & _).
  destruct (blank_move_effect s z j Hnd Hz Hne) as (s' & Hsw' & _ & Hj' & _).
  { apply lookup_lt_is_Some. unfold swap in Hsw.
    destruct (s !! z); [|done]. destruct (s !! j); [by eexists|done]. }
  assert (s' = s1) as -> by congruence.
  apply rect_neighbors_elem. exists j, js', z.
  repeat split; try done. by apply swap_back.
Qed.

(** The table has two to four entries for a cell of a board with at least
    two rows and two columns, all distinct. *)
Lemma rect_nei_length (self : RectPuzzle.t) (z : nat) (js : list nat) :
  (2 ≤ RectPuzzle.R self)%nat → (2 ≤ RectPuzzle.C self)%nat →
  RectPuzzle._nei self z = Some js → (2 ≤ length js ≤ 4)%nat ∧ NoDup js.
Proof.
  intros HR HC. unfold RectPuzzle._nei, RectPuzzle.size.
  set (C := RectPuzzle.C self) in *. set (R := RectPuzzle.R self) in *.
  case_bool_decide as Hz; [|done]. intros [= <-].
  pose proof (Nat.div_mod_eq z C) as Hdz.
  pose proof (Nat.mod_upper_bound z C ltac:(lia)) as Hm.
  repeat case_bool_decide; simpl; (split; [lia|]).
  all: repeat (apply NoDup_cons; split; [rewrite ?elem_of_cons, ?elem_of_nil; lia|]).
  all: apply NoDup_nil_2.
Qed.

Lemma blank_moves_length (s : State) (z : nat) (js : list nat) :
  (∀ j, j ∈ js → is_Some (swap z j s)) → length (blank_moves s z js) = length js.
Proof.
  unfold blank_moves. induction js as [|j js IH]; intros Hall; [done|].
  destruct (Hall j ltac:(by left)) as [s' Hs']. simpl. rewrite Hs'. simpl.
  f_equal. apply IH. intros j' ?. apply Hall. by right.
Qed.

Lemma rect_board_blank (self : RectPuzzle.t) (s : State) :
  (0 < RectPuzzle.size self)%nat → board self s →
  ∃ z js, index 0 s = Some z ∧ RectPuzzle._nei self z = Some js.
Proof.
  intros Hsz Hb. destruct (board_facts self s Hsz Hb) as (_ & _ & z & Hz & Hlt).
  exists z. unfold RectPuzzle._nei. rewrite bool_decide_eq_true_2 by done. by eexists.
Qed.

Lemma rect_neighbors_length (self : RectPuzzle.t) (s : State) :
  (2 ≤ RectPuzzle.R self)%nat → (2 ≤ RectPuzzle.C self)%nat → board self s →
  (2 ≤ length (RectPuzzle.neighbors self s) ≤ 4)%nat.
Proof.
  intros HR HC Hb.
  destruct (rect_board_blank self s (rect_size_pos self HR HC) Hb) as (z & js & Hz & Hn).
  unfold RectPuzzle.neighbors. rewrite Hz, Hn.
  rewrite blank_moves_length; [by apply (rect_nei_length self z js HR HC)|].
  intros j Hj. destruct (rect_move_solvable self s z j js Hb Hz Hn Hj) as (s' & -> & _).
  by eexists.
Qed.

(** ** [is_solvable] along paths *)

Lemma rect_neighbors_solvable (self : RectPuzzle.t) (s s1 : State) (c : Z) :
  board self s → (s1, c) ∈ RectPuzzle.neighbors self s →
  RectPuzzle.is_solvable self s1 = RectPuzzle.is_solvable self s.
Proof.
  intros Hb (z & js & j & Hz & Hn & Hj & Hsw & _)%rect_neighbors_elem.
  destruct (rect_move_solvable self s z j js Hb Hz Hn Hj) as (s' & Hsw' & _ & Hs).
  congruence.
Qed.

Lemma rect_path_solvable (self : RectPuzzle.t) (s t : State) (n : Z) :
  path_cost (RectPuzzle.neighbors self) s n t → board self s →
  RectPuzzle.is_solvable self t = RectPuzzle.is_solvable self s.
Proof.
  induction 1 as [s|s s1 c n t Hin Hp IH]; [done|].
  intros Hb. rewrite IH by (by eapply rect_board_forward).
  by eapply rect_neighbors_solvable.
Qed.

(** A state from which the goal can be reached is a solvable board. *)
Lemma rect_reaches_goal_solvable (self : RectPuzzle.t) (s : State) (n : Z) :
  (2 ≤ RectPuzzle.R self)%nat → (2 ≤ RectPuzzle.C self)%nat →
  path_cost (RectPuzzle.neighbors self) s n (RectPuzzle.GOAL self) →
  board self s ∧ RectPuzzle.is_solvable self s = true.
Proof.
  intros HR HC Hp.
  assert (board self s) as Hb by (eapply rect_path_board; [done|by unfold board]).
  split; [done|]. rewrite <- (rect_path_solvable self s _ n Hp Hb).
  by apply rect_GOAL_solvable.
Qed.

(** ** The Manhattan distance of the rectangular puzzle *)

Section RectManhattan.
Variable self : RectPuzzle.t.

Abbreviation sizeZ := (Z.of_nat (RectPuzzle.size self)).

(** The tiles of [s] are keys of [_goal_pos], or the blank. *)
Definition tile_ok (t : Z) : Prop := t = 0 ∨ 1 ≤ t < sizeZ.
Definition tiles_ok (s : State) : Prop := ∀ t, t ∈ s → tile_ok t.

(** The value of one round of [manhattan] when it does not raise. *)
Definition mterm (idx : nat) (t : Z) : Z :=
  default 0 (RectPuzzle.manhattan_term self idx t).

Fixpoint rsum (k : nat) (s : list Z) : Z :=
  match s with
  | [] => 0
  | t :: r => mterm k t + rsum (S k) r
  end.

Lemma rect_term_Some (idx : nat) (t : Z) :
  tile_ok t → RectPuzzle.manhattan_term self idx t = Some (mterm idx t).
Proof.
  intros Ht. unfold mterm, RectPuzzle.manhattan_term, RectPuzzle._goal_pos.
  destruct (Z.eqb_spec t 0); [done|].
  rewrite bool_decide_eq_true_2 by (unfold tile_ok in Ht; lia). done.
Qed.

Lemma rect_term_None (idx : nat) (t : Z) :
  ¬ tile_ok t → RectPuzzle.manhattan_term self idx t = None.
Proof.
  intros Ht. unfold RectPuzzle.manhattan_term, RectPuzzle._goal_pos.
  unfold tile_ok in Ht. destruct (Z.eqb_spec t 0); [lia|].
  rewrite bool_decide_eq_false_2 by lia. done.
Qed.

Lemma mterm_nonneg (idx : nat) (t : Z) : 0 ≤ mterm idx t.
Proof.
  unfold mterm, RectPuzzle.manhattan_term.
  destruct (Z.eqb t 0); [done|].
  destruct (RectPuzzle._goal_pos self t) as [[gr gc]|]; simpl; lia.
Qed.

Lemma rsum_nonneg (k : nat) (s : list Z) : 0 ≤ rsum k s.
Proof.
  revert k. induction s as [|t s IH]; intros k; simpl; [done|].
  pose proof (mterm_nonneg k t). specialize (IH (S k)). lia.
Qed.

Abbreviation mstep :=
  (λ (dist : option Z) '(idx, tile),
     d ← dist; m ← RectPuzzle.manhattan_term self idx tile; Some (d + m)).

Lemma rect_fold_None (l : list (nat * Z)) : foldl mstep None l = None.
Proof. induction l as [|[i t] l IH]; [done|]. simpl. exact IH. Qed.

Lemma rect_fold_Some (s : State) (k : nat) (acc : Z) :
  tiles_ok s →
  foldl mstep (Some acc) (imap (λ i, pair (k + i)%nat) s) = Some (acc + rsum k s).
Proof.
  revert k acc. induction s as [|t s IH]; intros k acc Hok; simpl; [f_equal; lia|].
  rewrite Nat.add_0_r, rect_term_Some by (apply Hok; by left). simpl.
  rewrite (imap_ext _ (λ i, pair (S k + i)%nat)) by (intros; simpl; f_equal; lia).
  rewrite IH by (intros t' ?; apply Hok; by right). f_equal. lia.
Qed.

Lemma rect_fold_bad (s : State) (k : nat) (acc : option Z) :
  ¬ tiles_ok s → foldl mstep acc (imap (λ i, pair (k + i)%nat) s) = None.
Proof.
  revert k acc. induction s as [|t s IH]; intros k acc Hbad; simpl.
  { destruct Hbad. intros t Ht. by apply elem_of_nil in Ht. }
  rewrite (imap_ext _ (λ i, pair (S k + i)%nat)) by (intros; simpl; f_equal; lia).
  destruct (decide (t = 0 ∨ 1 ≤ t < sizeZ)) as [Ht|Ht].
  - apply IH. intros Hok. apply Hbad. intros t' [->|?]%elem_of_cons; [done|by apply Hok].
  - rewrite Nat.add_0_r, (rect_term_None _ _ Ht).
    destruct acc; simpl; apply rect_fold_None.
Qed.

Lemma rect_manhattan_Some (s : State) :
  tiles_ok s → RectPuzzle.manhattan self s = Some (rsum 0 s).
Proof. intros Hok. unfold RectPuzzle.manhattan. apply (rect_fold_Some s 0 0 Hok). Qed.

Lemma rect_manhattan_None (s : State) :
  ¬ tiles_ok s → RectPuzzle.manhattan self s = None.
Proof. intros Hbad. unfold RectPuzzle.manhattan. apply (rect_fold_bad s 0 _ Hbad). Qed.

Lemma rsum_insert (k : nat) (s : State) (i : nat) (x old : Z) :
  s !! i = Some old →
  rsum k (<[i:=x]> s) = rsum k s - mterm (k + i) old + mterm (k + i) x.
Proof.
  revert k i. induction s as [|t s IH]; intros k i Hi; [done|].
  destruct i as [|i]; simpl in *.
  - injection Hi as ->. rewrite Nat.add_0_r. lia.
  - rewrite (IH (S k) i Hi). replace (S k + i)%nat with (k + S i)%nat by lia. lia.
Qed.

Lemma rsum_app (k : nat) (A B : list Z) :
  rsum k (A ++ B) = rsum k A + rsum (k + length A) B.
Proof.
  revert k. induction A as [|a A IH]; intros k; simpl.
  - by rewrite Nat.add_0_r.
  - rewrite IH. replace (S k + length A)%nat with (k + S (length A))%nat by lia. lia.
Qed.

(** A tile that moves to an adjacent cell gets one step nearer its goal
    cell or one step farther from it. *)
Lemma mterm_adjacent (z j : nat) (js : list nat) (t : Z) :
  RectPuzzle._nei self z = Some js → j ∈ js → 1 ≤ t < sizeZ →
  mterm z t - mterm j t = 1 ∨ mterm z t - mterm j t = -1.
Proof.
  intros Hn Hj Ht. destruct (nei_cases self z j js Hn Hj) as (Hz & Hj' & Hc).
  unfold mterm, RectPuzzle.manhattan_term, RectPuzzle._goal_pos.
  destruct (Z.eqb_spec t 0); [lia|].
  rewrite bool_decide_eq_true_2 by lia. simpl.
  set (C := RectPuzzle.C self) in *.
  assert (C ≠ 0)%nat as HC0 by lia.
  rewrite <- !Nat2Z.inj_div, <- !Nat2Z.inj_mod.
  pose proof (Nat.div_mod_eq z C) as Hdz. pose proof (Nat.div_mod_eq j C) as Hdj.
  pose proof (Nat.mod_upper_bound z C HC0). pose proof (Nat.mod_upper_bound j C HC0).
  destruct Hc as [[? Hr]|[[? Hr]|[[? Hr]|[? Hr]]]].
  - assert (z mod C = j mod C)%nat as -> by nia. lia.
  - assert (z mod C = j mod C)%nat as -> by nia. lia.
  - rewrite Hr in *. assert (z mod C = j mod C + 1)%nat as -> by lia. lia.
  - rewrite Hr in *. assert (j mod C = z mod C + 1)%nat as -> by lia. lia.
Qed.

Lemma board_tiles_ok (s : State) : board self s → tiles_ok s.
Proof.
  intros Hb t Ht. unfold board in Hb. rewrite Hb in Ht.
  unfold RectPuzzle.GOAL in Ht. apply elem_of_app in Ht as [Ht|Ht].
  - apply list_elem_of_fmap in Ht as (i & -> & Hi). apply elem_of_seq in Hi.
    right. lia.
  - apply list_elem_of_singleton in Ht as ->. by left.
Qed.

(** Each blank move changes the Manhattan distance by exactly one. *)
Lemma rect_manhattan_move (s s1 : State) (c : Z) :
  (0 < RectPuzzle.size self)%nat →
  board self s → (s1, c) ∈ RectPuzzle.neighbors self s →
  ∃ m m1, RectPuzzle.manhattan self s = Some m
          ∧ RectPuzzle.manhattan self s1 = Some m1
          ∧ 0 ≤ m ∧ 0 ≤ m1 ∧ (m1 = m + 1 ∨ m1 = m - 1).
Proof.
  intros Hsz Hb Hin.
  pose proof (rect_board_forward _ _ _ _ Hin Hb) as Hb1.
  apply rect_neighbors_elem in Hin as (z & js & j & Hz & Hn & Hj & Hsw & ->).
  exists (rsum 0 s), (rsum 0 s1).
  split; [by apply rect_manhattan_Some, board_tiles_ok|].
  split; [by apply rect_manhattan_Some, board_tiles_ok|].
  split; [apply rsum_nonneg|]. split; [apply rsum_nonneg|].
  destruct (rect_nei_sym self z j js Hn Hj) as (Hne & _).
  destruct (board_facts self s Hsz Hb) as (Hnd & Hlen & _).
  apply index_Some_lookup in Hz.
  unfold swap in Hsw. rewrite Hz in Hsw. simpl in Hsw.
  destruct (s !! j) as [t|] eqn:Ht; [|done]. simpl in Hsw. injection Hsw as <-.
  assert (t ≠ 0).
  { intros ->. apply Hne. by eapply NoDup_lookup. }
  assert (tile_ok t) as Hok
    by (apply (board_tiles_ok s Hb); by eapply list_elem_of_lookup_2).
  rewrite (rsum_insert 0 _ j 0 t) by (by rewrite list_lookup_insert_ne).
  rewrite (rsum_insert 0 s z t 0) by done.
  assert (∀ k, mterm k 0 = 0) as H0 by done. rewrite !H0. simpl.
  destruct (mterm_adjacent z j js t Hn Hj) as [Hd|Hd];
    [unfold tile_ok in Hok; lia|lia|lia].
Qed.

Lemma rsum_goal_prefix (k n : nat) :
  (k + n < RectPuzzle.size self)%nat → rsum k (Z.of_nat <$> seq (S k) n) = 0.
Proof.
  revert k. induction n as [|n IH]; intros k Hk; simpl; [done|].
  rewrite IH by lia.
  unfold mterm, RectPuzzle.manhattan_term, RectPuzzle._goal_pos.
  destruct (Z.eqb_spec (Z.of_nat (S k)) 0); [lia|].
  rewrite bool_decide_eq_true_2 by lia. simpl.
  replace (Z.of_nat (S k) - 1) with (Z.of_nat k) by lia. lia.
Qed.

Lemma rect_manhattan_GOAL :
  RectPuzzle.manhattan self (RectPuzzle.GOAL self) = Some 0.
Proof.
  rewrite rect_manhattan_Some by (apply board_tiles_ok; by unfold board).
  unfold RectPuzzle.GOAL. rewrite rsum_app. simpl.
  destruct (RectPuzzle.size self) as [|n] eqn:E; [done|].
  rewrite rsum_goal_prefix by (rewrite E; lia).
  assert (∀ k, mterm k 0 = 0) as H0 by done. rewrite H0. done.
Qed.

(** The Manhattan distance is a lower bound of the length of every path to
    the goal, and has its parity. *)
Lemma rect_manhattan_path (s : State) (n : Z) :
  (0 < RectPuzzle.size self)%nat →
  path_cost (RectPuzzle.neighbors self) s n (RectPuzzle.GOAL self) →
  ∃ m, RectPuzzle.manhattan self s = Some m ∧ 0 ≤ m ≤ n ∧ (n - m) mod 2 = 0.
Proof.
  intros Hsz Hp.
  assert (board self s) as Hb by (eapply rect_path_board; [done|by unfold board]).
  revert Hb. remember (RectPuzzle.GOAL self) as g eqn:Hg.
  induction Hp as [s|s s1 c n t Hin Hp IH]; intros Hb; subst.
  - exists 0. by rewrite rect_manhattan_GOAL.
  - destruct (rect_manhattan_move s s1 c Hsz Hb Hin) as (m & m1 & Hm & Hm1 & ? & ? & Hd).
    destruct (IH eq_refl (rect_board_forward _ _ _ _ Hin Hb)) as (m' & Hm' & Hle & Hpar).
    rewrite Hm1 in Hm'. injection Hm' as <-.
    rewrite (rect_unit_costs _ _ _ _ Hin).
    exists m. split; [done|]. split; [lia|].
    destruct Hd as [->| ->].
    + replace (1 + n - m) with (n - (m + 1) + 2 * 1) by lia. by rewrite mod2_shift.
    + replace (1 + n - m) with (n - (m - 1) + 2 * 0) by lia. by rewrite mod2_shift.
Qed.
End RectManhattan.

(** ** Linear conflict *)

(** [x] exceeds [m] by an even amount. *)
Definition above (m x : Z) : Prop := ∃ k, 0 ≤ k ∧ x = m + 2 * k.

Lemma above_refl (m : Z) : above m m.
Proof. exists 0. lia. Qed.

Lemma above_step (m x : Z) (b : bool) : above m x → above m (if b then x + 2 else x).
Proof. intros (k & ? & ->). destruct b; [exists (k + 1)|exists k]; lia. Qed.

Lemma pair_loop_above {A} `{Inhabited A} (l : list A) (w : A → A → bool) (m init : Z) :
  above m init → above m (pair_loop l (λ a b x, if w a b then x + 2 else x) init).
Proof.
  intros Hi. unfold pair_loop. apply foldl_invariant; [|done].
  intros x i _ Hx. apply foldl_invariant; [|done].
  intros y j _ Hy. by apply above_step.
Qed.

Lemma puzzle8_conflicts_above line along across r (m x : Z) :
  above m x → above m (Puzzle8.conflicts line along across r x).
Proof.
  intros Hx. unfold Puzzle8.conflicts. cbv zeta.
  by apply (pair_loop_above _ (λ a b, Z.ltb (across b.2) (across a.2))).
Qed.

(** The linear-conflict value is the Manhattan distance plus twice the
    number of conflicts counted. *)
Lemma puzzle8_linear_conflict_above (s : State) :
  above (Puzzle8.manhattan s) (Puzzle8.linear_conflict s).
Proof.
  unfold Puzzle8.linear_conflict. cbv zeta.
  apply foldl_invariant.
  - intros x c _ Hx. by apply puzzle8_conflicts_above.
  - apply foldl_invariant; [|apply above_refl].
    intros x r _ Hx. by apply puzzle8_conflicts_above.
Qed.

Lemma rect_conflicts_above line along across r (m x : Z) :
  above m x → above m (RectPuzzle.conflicts line along across r x).
Proof. apply puzzle8_conflicts_above. Qed.

Lemma rect_linear_conflict_above (self : RectPuzzle.t) (s : State) (v : Z) :
  RectPuzzle.linear_conflict self s = Some v →
  ∃ m, RectPuzzle.manhattan self s = Some m ∧ above m v.
Proof.
  unfold RectPuzzle.linear_conflict.
  destruct (RectPuzzle.manhattan self s) as [m|]; [|done]. simpl.
  destruct (mapM _ _) as [cols|]; [|done]. simpl. intros [= <-].
  exists m. split; [done|].
  apply foldl_invariant.
  - intros x [c col] _ Hx. by apply rect_conflicts_above.
  - apply foldl_invariant; [|apply above_refl].
    intros x r _ Hx. by apply rect_conflicts_above.
Qed.

(** On a tuple of the right length whose tiles are known, [linear_conflict]
    does not raise. *)
Lemma rect_linear_conflict_Some (self : RectPuzzle.t) (s : State) :
  tiles_ok self s → (RectPuzzle.size self ≤ length s)%nat →
  is_Some (RectPuzzle.linear_conflict self s).
Proof.
  intros Hok Hlen. unfold RectPuzzle.linear_conflict.
  rewrite (rect_manhattan_Some self s Hok). simpl.
  destruct (mapM _ _) as [cols|] eqn:E; [by eexists|]. exfalso.
  assert (is_Some (mapM (λ c, mapM (λ r, s !! (c + r * RectPuzzle.C self)%nat)
                                   (seq 0 (RectPuzzle.R self)))
                        (seq 0 (RectPuzzle.C self)))) as [? Hs]; [|congruence].
  apply mapM_is_Some, Forall_forall. intros c Hc%elem_of_seq.
  apply mapM_is_Some, Forall_forall. intros r Hr%elem_of_seq.
  apply lookup_lt_is_Some. unfold RectPuzzle.size in Hlen. nia.
Qed.

(** A tuple that is too short makes the column loop raise. *)
Lemma rect_linear_conflict_short (self : RectPuzzle.t) (s : State) :
  (length s < RectPuzzle.size self)%nat → RectPuzzle.linear_conflict self s = None.
Proof.
  intros Hlen. unfold RectPuzzle.linear_conflict.
  destruct (RectPuzzle.manhattan self s) as [m|]; [|done]. simpl.
  destruct (mapM _ _) as [cols|] eqn:E; [|done]. exfalso.
  set (R := RectPuzzle.R self) in *. set (C := RectPuzzle.C self) in *.
  unfold RectPuzzle.size in Hlen. fold R C in Hlen.
  assert (0 < R)%nat by nia. assert (0 < C)%nat by nia.
  assert (is_Some (mapM (λ c, mapM (λ r, s !! (c + r * C)%nat) (seq 0 R)) (seq 0 C)))
    as Hs by (by eexists).
  rewrite mapM_is_Some, Forall_forall in Hs.
  specialize (Hs (C - 1)%nat ltac:(apply elem_of_seq; lia)). simpl in Hs.
  rewrite mapM_is_Some, Forall_forall in Hs.
  specialize (Hs (R - 1)%nat ltac:(apply elem_of_seq; lia)). simpl in Hs.
  apply lookup_lt_is_Some in Hs. nia.
Qed.

(** ** The N×N class against the R×C class *)

Lemma npuzzle_rect_agree (self : NPuzzle.t) (s : State) :
  NPuzzle.GOAL self = RectPuzzle.GOAL (npuzzle_rect self)
  ∧ NPuzzle.neighbors self s = RectPuzzle.neighbors (npuzzle_rect self) s
  ∧ NPuzzle.is_solvable self s = RectPuzzle.is_solvable (npuzzle_rect self) s
  ∧ NPuzzle.manhattan self s = RectPuzzle.manhattan (npuzzle_rect self) s
  ∧ NPuzzle.linear_conflict self s = RectPuzzle.linear_conflict (npuzzle_rect self) s.
Proof. repeat split. Qed.

(** ** The 3×3 module against the 3×3 board of the classes *)

(** The two tables list the same moves, in another order: [puzzle8] goes
    left and right before up and down, the classes up and down first. *)
Lemma puzzle8_NEI_perm (z : nat) :
  match Puzzle8._NEI z, RectPuzzle._nei board33 z with
  | Some js, Some js' => js ≡ₚ js'
  | None, None => True
  | _, _ => False
  end.
Proof.
  do 9 (destruct z as [|z]; [vm_compute; apply (bool_decide_unpack _); vm_compute; exact I|]).
  done.
Qed.

Lemma puzzle8_neighbors_perm (s : State) :
  Puzzle8.neighbors s ≡ₚ RectPuzzle.neighbors board33 s.
Proof.
  unfold Puzzle8.neighbors, RectPuzzle.neighbors.
  destruct (index 0 s) as [z|]; [|done].
  pose proof (puzzle8_NEI_perm z) as Hp.
  destruct (Puzzle8._NEI z) as [js|], (RectPuzzle._nei board33 z) as [js'|]; try done.
  unfold blank_moves. by rewrite Hp.
Qed.









(** * The experiment runner *)

(** ** [make_unsolvable_variant] *)

Definition zeros (l : list Z) : Prop := Forall (λ v, v = 0) l.

Lemma drop_S_middle (A r : list Z) (a : Z) :
  drop (S (length A)) (A ++ a :: r) = r.
Proof.
  rewrite cons_middle, app_assoc.
  apply drop_app_length'. rewrite length_app. simpl. lia.
Qed.

Lemma swap_two (A M B : list Z) (a b : Z) :
  swap (length A) (S (length A) + length M) (A ++ a :: M ++ b :: B)
  = Some (A ++ b :: M ++ a :: B).
Proof.
  unfold swap.
  assert ((A ++ a :: M ++ b :: B) !! length A = Some a) as ->
    by (by apply list_lookup_middle).
  assert ((A ++ a :: M ++ b :: B) !! (S (length A) + length M)%nat = Some b) as ->.
  { rewrite lookup_app_r by lia.
    replace (S (length A) + length M - length A)%nat with (S (length M)) by lia.
    simpl. by apply list_lookup_middle. }
  simpl. f_equal.
  rewrite (insert_app_r_alt A _ (length A)) by lia.
  replace (length A - length A)%nat with 0%nat by lia. simpl.
  rewrite (insert_app_r_alt A _ (S (length A + length M))) by lia.
  replace (S (length A + length M) - length A)%nat with (S (length M)) by lia.
  simpl. rewrite (insert_app_r_alt M _ (length M)) by lia.
  replace (length M - length M)%nat with 0%nat by lia. done.
Qed.

Lemma first_nonzero_Some (k0 : nat) (l : list Z) (i : nat) :
  Runner.first_nonzero k0 l = Some i ↔
  ∃ A v r, l = A ++ v :: r ∧ zeros A ∧ v ≠ 0 ∧ i = (k0 + length A)%nat.
Proof.
  revert k0. induction l as [|x l IH]; intros k0; simpl.
  - split; [done|]. intros (A & v & r & Hl & _). by destruct A.
  - destruct (Z.eqb_spec x 0) as [->|Hx].
    + rewrite IH. split.
      * intros (A & v & r & -> & HA & Hv & ->).
        exists (0 :: A), v, r. split_and!; [done|by constructor|done|simpl; lia].
      * intros (A & v & r & Hl & HA & Hv & ->).
        destruct A as [|a A]; simplify_eq/=; try done.
        apply Forall_cons in HA as [_ HA].
        exists A, v, r. split_and!; [done..|lia].
    + split.
      * intros [= <-]. exists [], x, l. split_and!; [done|constructor|done|simpl; lia].
      * intros (A & v & r & Hl & HA & Hv & ->).
        destruct A as [|a A]; simplify_eq/=; [f_equal; lia|].
        by apply Forall_cons in HA as [HA _].
Qed.

Lemma first_nonzero_None (k0 : nat) (l : list Z) :
  Runner.first_nonzero k0 l = None ↔ zeros l.
Proof.
  revert k0. induction l as [|x l IH]; intros k0; simpl.
  - split; [constructor|done].
  - destruct (Z.eqb_spec x 0) as [->|Hx].
    + rewrite IH. split; [by constructor|by intros [_ ?]%Forall_cons].
    + split; [done|]. by intros [? _]%Forall_cons.
Qed.

(** The two entries exchanged are the first two that are not the blank. *)
Lemma variant_Some (s s' : State) :
  Runner.make_unsolvable_variant s = Some s' ↔
  ∃ A a M b B, s = A ++ a :: M ++ b :: B ∧ zeros A ∧ zeros M ∧ a ≠ 0 ∧ b ≠ 0
               ∧ s' = A ++ b :: M ++ a :: B.
Proof.
  unfold Runner.make_unsolvable_variant. split.
  - intros Hv.
    destruct (Runner.first_nonzero 0 s) as [i|] eqn:Hi; [|done]. simpl in Hv.
    apply first_nonzero_Some in Hi as (A & a & r & -> & HA & Ha & ->).
    simpl in Hv. rewrite drop_S_middle in Hv.
    destruct (Runner.first_nonzero (S (length A)) r) as [j|] eqn:Hj; [|done].
    simpl in Hv.
    apply first_nonzero_Some in Hj as (M & b & B & -> & HM & Hb & ->).
    exists A, a, M, b, B. do 5 (split; [done|]).
    rewrite swap_two in Hv. by injection Hv.
  - intros (A & a & M & b & B & -> & HA & HM & Ha & Hb & ->).
    assert (Runner.first_nonzero 0 (A ++ a :: M ++ b :: B) = Some (length A)) as ->.
    { apply first_nonzero_Some. by exists A, a, (M ++ b :: B). }
    simpl. rewrite drop_S_middle.
    assert (Runner.first_nonzero (S (length A)) (M ++ b :: B)
            = Some (S (length A) + length M)%nat) as ->.
    { apply first_nonzero_Some. by exists M, b, B. }
    simpl. apply swap_two.
Qed.

Lemma filter_zeros (l : list Z) : zeros l → filter (λ x, x ≠ 0) l = [].
Proof.
  induction 1 as [|x l -> _ IH]; [done|].
  rewrite filter_cons_False by (intros ?; done). done.
Qed.

Lemma filter_nonzero_split (A M B : list Z) (a b : Z) :
  zeros A → zeros M → a ≠ 0 → b ≠ 0 →
  filter (λ x, x ≠ 0) (A ++ a :: M ++ b :: B) = a :: b :: filter (λ x, x ≠ 0) B.
Proof.
  intros HA HM Ha Hb.
  rewrite filter_app, (filter_zeros A HA). simpl.
  rewrite filter_cons_True by done.
  rewrite filter_app, (filter_zeros M HM). simpl.
  by rewrite filter_cons_True by done.
Qed.

(** [StopIteration]: fewer than two entries are not the blank. *)
Lemma variant_None (s : State) :
  Runner.make_unsolvable_variant s = None ↔
  (length (filter (λ x, x ≠ 0%Z) s) < 2)%nat.
Proof.
  split.
  - unfold Runner.make_unsolvable_variant. intros Hv.
    destruct (Runner.first_nonzero 0 s) as [i|] eqn:Hi.
    + apply first_nonzero_Some in Hi as (A & a & r & -> & HA & Ha & ->).
      simpl in Hv. rewrite drop_S_middle in Hv.
      destruct (Runner.first_nonzero (S (length A)) r) as [j|] eqn:Hj.
      * apply first_nonzero_Some in Hj as (M & b & B & -> & HM & Hb & ->).
        cbn [mbind option_bind] in Hv. by rewrite swap_two in Hv.
      * apply first_nonzero_None in Hj.
        rewrite filter_app, (filter_zeros A HA). simpl.
        rewrite filter_cons_True by done. rewrite (filter_zeros r Hj). simpl. lia.
    + apply first_nonzero_None in Hi. rewrite (filter_zeros s Hi). simpl. lia.
  - intros Hlen. destruct (Runner.make_unsolvable_variant s) as [s'|] eqn:Hv; [|done].
    apply variant_Some in Hv as (A & a & M & b & B & -> & HA & HM & Ha & Hb & _).
    rewrite filter_nonzero_split in Hlen by done. simpl in Hlen. lia.
Qed.

Lemma variant_involutive (s s' : State) :
  Runner.make_unsolvable_variant s = Some s' →
  Runner.make_unsolvable_variant s' = Some s.
Proof.
  intros (A & a & M & b & B & -> & HA & HM & Ha & Hb & ->)%variant_Some.
  apply variant_Some. by exists A, b, M, a, B.
Qed.

Lemma variant_Permutation (s s' : State) :
  Runner.make_unsolvable_variant s = Some s' → s' ≡ₚ s.
Proof.
  intros (A & a & M & b & B & -> & HA & HM & Ha & Hb & ->)%variant_Some.
  apply Permutation_app_head. rewrite <- !Permutation_middle. by rewrite perm_swap.
Qed.

Lemma index_app (x : Z) (A B : State) :
  index x (A ++ B)
  = match index x A with
    | Some i => Some i
    | None => (λ k, (length A + k)%nat) <$> index x B
    end.
Proof.
  induction A as [|a A IH]; simpl.
  - destruct (index x B); [done|done].
  - destruct (Z.eqb_spec a x); [done|]. rewrite IH.
    destruct (index x A); [done|]. by destruct (index x B).
Qed.

(** The blank stays where it is. *)
Lemma variant_blank (s s' : State) :
  Runner.make_unsolvable_variant s = Some s' → index 0 s' = index 0 s.
Proof.
  intros (A & a & M & b & B & -> & HA & HM & Ha & Hb & ->)%variant_Some.
  rewrite !index_app. destruct (index 0 A); [done|]. f_equal. simpl.
  destruct (Z.eqb_spec a 0); [done|]. destruct (Z.eqb_spec b 0); [done|].
  rewrite !index_app. destruct (index 0 M); [done|]. simpl.
  destruct (Z.eqb_spec a 0); [done|]. destruct (Z.eqb_spec b 0); [done|]. done.
Qed.

(** The inversion count moves by one, up or down. *)
Lemma variant_inversions (s s' : State) :
  NoDup s → Runner.make_unsolvable_variant s = Some s' →
  inversions s' = inversions s + 1 ∨ inversions s' = inversions s - 1.
Proof.
  intros Hnd (A & a & M & b & B & -> & HA & HM & Ha & Hb & ->)%variant_Some.
  assert (a ≠ b) as Hab.
  { intros ->. apply NoDup_app in Hnd as (_ & _ & Hnd).
    apply NoDup_cons in Hnd as [Hnd _]. apply Hnd. set_solver. }
  rewrite !inversions_inv_count, !filter_nonzero_split by done.
  set (L := filter (λ x, x ≠ 0) B). simpl.
  rewrite !filter_cons. repeat case_decide; simpl; lia.
Qed.

Lemma variant_puzzle8_solvable (s s' : State) :
  NoDup s → Runner.make_unsolvable_variant s = Some s' →
  Puzzle8.is_solvable s' = negb (Puzzle8.is_solvable s).
Proof.
  intros Hnd Hv. unfold Puzzle8.is_solvable.
  destruct (variant_inversions s s' Hnd Hv) as [-> | ->];
    destruct (Z.eqb_spec (inversions s mod 2) 0);
    destruct (Z.eqb_spec ((inversions s + 1) mod 2) 0);
    destruct (Z.eqb_spec ((inversions s - 1) mod 2) 0); simpl; try done;
    exfalso; Z.div_mod_to_equations; lia.
Qed.

Lemma variant_rect_solvable (self : RectPuzzle.t) (s s' : State) :
  (0 < RectPuzzle.size self)%nat → board self s →
  Runner.make_unsolvable_variant s = Some s' →
  board self s' ∧ RectPuzzle.is_solvable self s' = negb (RectPuzzle.is_solvable self s).
Proof.
  intros Hsz Hb Hv.
  destruct (board_facts self s Hsz Hb) as (Hnd & Hlen & z & Hz & Hzlt).
  split.
  { unfold board. by rewrite (variant_Permutation s s' Hv). }
  unfold RectPuzzle.is_solvable. cbv zeta.
  rewrite (variant_blank s s' Hv), Hz.
  set (row := Z.of_nat (RectPuzzle.R self) - Z.of_nat (z / RectPuzzle.C self)).
  destruct (variant_inversions s s' Hnd Hv) as [-> | ->];
    destruct (Nat.eqb _ 1);
    destruct (Z.eqb_spec (inversions s mod 2) 0);
    destruct (Z.eqb_spec ((inversions s + 1) mod 2) 0);
    destruct (Z.eqb_spec ((inversions s - 1) mod 2) 0);
    destruct (Z.eqb_spec ((inversions s + row) mod 2) 1);
    destruct (Z.eqb_spec ((inversions s + 1 + row) mod 2) 1);
    destruct (Z.eqb_spec ((inversions s - 1 + row) mod 2) 1);
    simpl; try done; exfalso; Z.div_mod_to_equations; lia.
Qed.

Lemma board_nonzero_length (self : RectPuzzle.t) (s : State) :
  board self s →
  length (filter (λ x, x ≠ 0) s) = (RectPuzzle.size self - 1)%nat.
Proof.
  intros Hb. unfold board in Hb. rewrite Hb. unfold RectPuzzle.GOAL.
  rewrite filter_app, filter_nonzero_id.
  - rewrite filter_cons_False by (intros ?; done). simpl.
    rewrite length_app, length_fmap, length_seq. simpl. lia.
  - intros (n & Hn & Hin%elem_of_seq)%list_elem_of_fmap. lia.
Qed.

(** A board with at least two tiles has a variant. *)
Lemma variant_board_Some (self : RectPuzzle.t) (s : State) :
  (3 ≤ RectPuzzle.size self)%nat → board self s →
  is_Some (Runner.make_unsolvable_variant s).
Proof.
  intros Hsz Hb.
  destruct (Runner.make_unsolvable_variant s) eqn:Hv; [by eexists|].
  apply variant_None in Hv. rewrite (board_nonzero_length self s Hb) in Hv. lia.
Qed.

(** ** [_gen] *)

Section GenTheory.
Variable inst_scramble : Z → Z → option State.
Variable inst_is_solvable : State → bool.

Abbreviation gen_depth := (Runner.gen_depth inst_scramble inst_is_solvable).
Abbreviation gen_depths := (Runner.gen_depths inst_scramble inst_is_solvable).
Abbreviation _gen := (Runner._gen inst_scramble inst_is_solvable).

(** An instance made for the depth [d]: its state is the scramble of the
    seed before the one recorded, and it passed the solvability test. *)
Definition made_for (d : Z) (i : Runner.Instance) : Prop :=
  Runner.depth i = d
  ∧ inst_scramble d (Runner.seed i - 1) = Some (Runner.state i)
  ∧ inst_is_solvable (Runner.state i) = true.

(** The seeds of [l] increase strictly, from above [lo] up to [hi]. *)
Fixpoint seeds_between (lo hi : Z) (l : list Runner.Instance) : Prop :=
  match l with
  | [] => lo ≤ hi
  | i :: r => lo < Runner.seed i ∧ seeds_between (Runner.seed i) hi r
  end.

Lemma seeds_between_le (lo hi : Z) (l : list Runner.Instance) :
  seeds_between lo hi l → lo ≤ hi.
Proof.
  revert lo. induction l as [|i r IH]; intros lo; simpl; [done|].
  intros [Hlo Hr]. apply IH in Hr. lia.
Qed.

Lemma seeds_between_weaken (lo lo' hi : Z) (l : list Runner.Instance) :
  lo' ≤ lo → seeds_between lo hi l → seeds_between lo' hi l.
Proof. destruct l as [|i r]; simpl; [lia|]. intros ? [? ?]. split; [lia|done]. Qed.

Lemma seeds_between_app (lo mid hi : Z) (l1 l2 : list Runner.Instance) :
  seeds_between lo mid l1 → seeds_between mid hi l2 → seeds_between lo hi (l1 ++ l2).
Proof.
  revert lo. induction l1 as [|i r IH]; intros lo; simpl.
  - intros. by eapply seeds_between_weaken.
  - intros [Hlo Hr] H2. split; [done|]. by apply IH.
Qed.

Lemma seeds_between_lookup (lo hi : Z) (l : list Runner.Instance) (k : nat) i :
  seeds_between lo hi l → l !! k = Some i →
  lo < Runner.seed i ≤ hi ∧ seeds_between (Runner.seed i) hi (drop (S k) l).
Proof.
  revert lo k. induction l as [|j r IH]; intros lo k; [done|].
  simpl. intros [Hlo Hr]. destruct k as [|k]; simpl.
  - intros [= ->]. rewrite drop_0. split; [|done].
    apply seeds_between_le in Hr. lia.
  - intros Hk. destruct (IH _ _ Hr Hk) as [? ?]. split; [lia|done].
Qed.

Lemma seeds_between_increasing (lo hi : Z) (l : list Runner.Instance) (k1 k2 : nat) i1 i2 :
  seeds_between lo hi l → (k1 < k2)%nat → l !! k1 = Some i1 → l !! k2 = Some i2 →
  Runner.seed i1 < Runner.seed i2.
Proof.
  intros Hs Hk H1 H2.
  destruct (seeds_between_lookup _ _ _ _ _ Hs H1) as [_ Hd].
  assert (drop (S k1) l !! (k2 - S k1)%nat = Some i2) as H2'.
  { rewrite lookup_drop. rewrite <- H2. f_equal. lia. }
  destruct (seeds_between_lookup _ _ _ _ _ Hd H2') as [? _]. lia.
Qed.

(** What one round of the [for] loop adds. *)
Lemma gen_depth_returns (fuel : nat) (d per_depth made attempts seed : Z)
    (out out' : list Runner.Instance) (seed' : Z) :
  gen_depth fuel d per_depth made attempts seed out = Some (Runner.Returns (out', seed')) →
  ∃ new, out' = out ++ new
         ∧ Z.of_nat (length new) = Z.max 0 (per_depth - made)
         ∧ Forall (made_for d) new
         ∧ seeds_between seed seed' new.
Proof.
  revert made attempts seed out.
  induction fuel as [|fuel IH]; intros made attempts seed out; simpl; [done|].
  destruct (Z.ltb_spec made per_depth) as [Hlt|Hge].
  - destruct (inst_scramble d seed) as [s|] eqn:Hs; [|done].
    destruct (inst_is_solvable s) eqn:Hsol.
    + destruct (Z.ltb_spec (per_depth * 2000) (attempts + 1)); [done|].
      intros Hr. apply IH in Hr as (new & -> & Hlen & Hall & Hseeds).
      exists (Runner.mkInstance (seed + 1) d s :: new).
      split; [by rewrite <- app_assoc|]. split; [simpl length; lia|].
      split.
      * constructor; [|done]. unfold made_for. simpl.
        replace (seed + 1 - 1) with seed by lia. done.
      * simpl. split; [lia|done].
    + destruct (Z.ltb_spec (per_depth * 2000) (attempts + 1)); [done|].
      intros Hr. apply IH in Hr as (new & -> & Hlen & Hall & Hseeds).
      exists new. do 3 (split; [done|]).
      eapply seeds_between_weaken; [|done]. lia.
  - intros [= <- <-]. exists []. rewrite app_nil_r.
    split; [done|]. split; [simpl; lia|]. split; [constructor|simpl; lia].
Qed.

(** The depths of the instances made: [per_depth] times each depth, in the
    order of [depths]. *)
Definition depths_made (depths : list Z) (per_depth : Z) : list Z :=
  depths ≫= (λ d, replicate (Z.to_nat per_depth) d).

Lemma made_for_depths (d : Z) (new : list Runner.Instance) :
  Forall (made_for d) new → Runner.depth <$> new = replicate (length new) d.
Proof.
  induction 1 as [|i r [Hd _] _ IH]; [done|].
  rewrite fmap_cons, Hd, IH. done.
Qed.

Lemma gen_depths_returns (fuel : nat) (depths : list Z) (per_depth seed : Z)
    (out out' : list Runner.Instance) :
  gen_depths fuel depths per_depth seed out = Some (Runner.Returns out') →
  ∃ new seed', out' = out ++ new
    ∧ Runner.depth <$> new = depths_made depths per_depth
    ∧ Forall (λ i, ∃ d, d ∈ depths ∧ made_for d i) new
    ∧ seeds_between seed seed' new.
Proof.
  revert seed out. induction depths as [|d depths IH]; intros seed out; simpl.
  - intros [= <-]. exists [], seed. rewrite app_nil_r.
    split; [done|]. split; [done|]. split; [constructor|simpl; lia].
  - destruct (gen_depth fuel d per_depth 0 0 seed out) as [[[out1 seed1]|e]|] eqn:Hd;
      [|done..].
    apply gen_depth_returns in Hd as (new1 & -> & Hlen & Hall & Hseeds).
    intros Hr. apply IH in Hr as (new2 & seed' & -> & Hdep & Hall2 & Hseeds2).
    exists (new1 ++ new2), seed'. split; [by rewrite app_assoc|]. split; [|split].
    + rewrite fmap_app, Hdep, (made_for_depths d new1 Hall).
      unfold depths_made. simpl. do 2 f_equal. lia.
    + apply Forall_app. split.
      * eapply Forall_impl; [exact Hall|]. intros i Hi. exists d. split; [by left|done].
      * eapply Forall_impl; [exact Hall2|]. intros i (d' & Hd' & Hi).
        exists d'. split; [by right|done].
    + by eapply seeds_between_app.
Qed.

(** Every attempt but the last of a round leaves the loop running: the
    loop ends within [per_depth * 2000 + 1] attempts. *)
Lemma gen_depth_terminates (fuel : nat) (d per_depth made attempts seed : Z)
    (out : list Runner.Instance) :
  Z.max 0 (per_depth * 2000 + 1 - attempts) < Z.of_nat fuel →
  is_Some (gen_depth fuel d per_depth made attempts seed out).
Proof.
  revert made attempts seed out.
  induction fuel as [|fuel IH]; intros made attempts seed out Hf; simpl; [lia|].
  destruct (Z.ltb_spec made per_depth) as [Hlt|Hge]; [|by eexists].
  destruct (inst_scramble d seed) as [s|]; [|by eexists].
  destruct (inst_is_solvable s);
    (destruct (Z.ltb_spec (per_depth * 2000) (attempts + 1)); [by eexists|]);
    apply IH; lia.
Qed.

Lemma gen_depths_terminates (fuel : nat) (depths : list Z) (per_depth seed : Z)
    (out : list Runner.Instance) :
  Z.max 0 (per_depth * 2000 + 1) < Z.of_nat fuel →
  is_Some (gen_depths fuel depths per_depth seed out).
Proof.
  intros Hf. revert seed out. induction depths as [|d depths IH]; intros seed out; simpl.
  - by eexists.
  - destruct (gen_depth_terminates fuel d per_depth 0 0 seed out) as [r Hd]; [lia|].
    rewrite Hd. destruct r as [[o s]|e]; [apply IH|by eexists].
Qed.

(** When no scrambled state passes the test, the round gives up. *)
Lemma gen_depth_gives_up (fuel : nat) (d per_depth attempts seed : Z)
    (out : list Runner.Instance) :
  (∀ sd, ∃ s, inst_scramble d sd = Some s ∧ inst_is_solvable s = false) →
  1 ≤ per_depth →
  Z.max 0 (per_depth * 2000 + 1 - attempts) < Z.of_nat fuel →
  gen_depth fuel d per_depth 0 attempts seed out = Some (Runner.Raises Runner.RuntimeError).
Proof.
  intros Hno Hpd. revert attempts seed.
  induction fuel as [|fuel IH]; intros attempts seed Hf; simpl; [lia|].
  destruct (Z.ltb_spec 0 per_depth) as [_|?]; [|lia].
  destruct (Hno seed) as (s & -> & ->).
  destruct (Z.ltb_spec (per_depth * 2000) (attempts + 1)); [done|].
  apply IH. lia.
Qed.

(** When every scrambled state passes the test, [per_depth] attempts make
    the round, with the seeds that follow [seed]. *)
Lemma gen_depth_all (fuel : nat) (d per_depth made seed : Z) (out : list Runner.Instance) :
  (∀ sd, ∃ s, inst_scramble d sd = Some s ∧ inst_is_solvable s = true) →
  0 ≤ made ≤ per_depth →
  per_depth - made < Z.of_nat fuel →
  ∃ new, gen_depth fuel d per_depth made made seed out
         = Some (Runner.Returns (out ++ new, seed + (per_depth - made)))
         ∧ Runner.seed <$> new
           = (λ k, seed + 1 + Z.of_nat k) <$> seq 0 (Z.to_nat (per_depth - made)).
Proof.
  intros Hall. revert made seed out.
  induction fuel as [|fuel IH]; intros made seed out Hm Hf; simpl; [lia|].
  destruct (Z.ltb_spec made per_depth) as [Hlt|Hge].
  - destruct (Hall seed) as (s & -> & ->).
    destruct (Z.ltb_spec (per_depth * 2000) (made + 1)); [lia|].
    destruct (IH (made + 1) (seed + 1) (out ++ [Runner.mkInstance (seed + 1) d s]))
      as (new & -> & Hseeds); [lia..|].
    exists (Runner.mkInstance (seed + 1) d s :: new). split.
    + rewrite <- app_assoc. simpl. do 3 f_equal. lia.
    + replace (Z.to_nat (per_depth - made)) with (S (Z.to_nat (per_depth - (made + 1))))
        by lia.
      rewrite fmap_cons, Hseeds. cbn [seq fmap list_fmap]. f_equal; [simpl; lia|].
      rewrite <- fmap_S_seq, <- list_fmap_compose.
      apply list_fmap_ext. intros k x _. simpl. lia.
  - exists []. rewrite app_nil_r. replace (per_depth - made) with 0 by lia.
    split; [do 3 f_equal; lia|done].
Qed.

Lemma gen_depths_all (fuel : nat) (depths : list Z) (per_depth seed : Z)
    (out : list Runner.Instance) :
  (∀ d sd, ∃ s, inst_scramble d sd = Some s ∧ inst_is_solvable s = true) →
  0 ≤ per_depth →
  per_depth < Z.of_nat fuel →
  ∃ new, gen_depths fuel depths per_depth seed out = Some (Runner.Returns (out ++ new))
         ∧ Runner.seed <$> new
           = (λ k, seed + 1 + Z.of_nat k)
               <$> seq 0 (Z.to_nat per_depth * length depths).
Proof.
  intros Hall Hpd Hf. revert seed out.
  induction depths as [|d depths IH]; intros seed out; simpl.
  - exists []. rewrite app_nil_r, Nat.mul_0_r. done.
  - destruct (gen_depth_all fuel d per_depth 0 seed out (Hall d)) as (new1 & -> & Hs1);
      [lia..|].
    destruct (IH (seed + (per_depth - 0)) (out ++ new1)) as (new2 & -> & Hs2).
    exists (new1 ++ new2). split; [by rewrite app_assoc|].
    rewrite fmap_app, Hs1, Hs2.
    replace (Z.to_nat per_depth * S (length depths))%nat
      with (Z.to_nat per_depth + Z.to_nat per_depth * length depths)%nat by lia.
    rewrite seq_app, fmap_app. replace (per_depth - 0) with per_depth by lia.
    f_equal. simpl.
    replace (seq (Z.to_nat per_depth) (Z.to_nat per_depth * length depths))
      with (seq (Z.to_nat per_depth + 0) (Z.to_nat per_depth * length depths))
      by (f_equal; lia).
    rewrite <- (fmap_add_seq (Z.to_nat per_depth) 0), <- list_fmap_compose.
    apply list_fmap_ext. intros k x _. simpl. lia.
Qed.
End GenTheory.

(** * What the searches return is real *)

(** ** [a_star]: the cost is that of a path, whatever the heuristic *)

Section AStarSound.
Context {St : Type} `{Countable St}.
Variable default_neighbors : St → list (St * Z).
Variable clock : nat → Q.
Variable goal : St.
Variable hfun : St → Z.
Variable neighbors_fn : option (St → list (St * Z)).
Variable tie_break : string.
Variable return_path : bool.
Variable timeout_sec : option Q.
Variable start : St.

Abbreviation nbrs := (AStar.neighbors default_neighbors neighbors_fn).

(** An ["ok"] record holds the cost of a path from [start] to [goal]. *)
Definition cost_real (neighbors : St → list (St * Z)) (r : gmap string (Value St)) : Prop :=
  termination_is r "ok" →
  ∃ g, r !! "g"%string = Some (VInt g) ∧ path_cost neighbors start g goal.

Lemma astar_cost_real fuel r :
  AStar.a_star default_neighbors clock goal hfun neighbors_fn tie_break return_path
               timeout_sec fuel start = Some r →
  cost_real nbrs r.
Proof.
  unfold AStar.a_star.
  apply (astar_loop_rule default_neighbors clock goal hfun neighbors_fn tie_break
           return_path timeout_sec (clock 0%nat)
           (heap_wf default_neighbors hfun neighbors_fn start) (cost_real nbrs)).
  - intros st tm _ _ Hok. discriminate Hok.
  - intros st tm _ _ Hok. discriminate Hok.
  - intros st e rest tick1 Hw Hp _. by eapply heap_wf_popped.
  - intros st e rest tick1 tm Hw Hp _ Hg _.
    destruct (heap_wf_popped _ _ _ _ st e rest tick1 Hw Hp) as [He _].
    exists (AStar.item_g (AStar.entry_item e)). split; [reflexivity|].
    rewrite <- Hg. by eapply item_wf_path_cost.
  - intros st e rest tick1 Hw Hp _ _.
    destruct (heap_wf_popped _ _ _ _ st e rest tick1 Hw Hp) as [He Hw'].
    by apply heap_wf_expand.
  - apply heap_wf_init.
Qed.
End AStarSound.

(** ** [ida_star]: the cost is that of a path within the last bound *)

Section IdaSound.
Context {St : Type} `{Countable St}.
Variable default_neighbors : St → list (St * Z).
Variable clock : nat → Q.
Variable goal : St.
Variable hfun : St → Z.
Variable neighbors_fn : option (St → list (St * Z)).
Variable use_bpmx : bool.
Variable return_path : bool.
Variable timeout_sec : option Q.
Variable start : St.
Hypothesis hfun_nonneg : ∀ s, 0 ≤ hfun s.
Hypothesis costs_nonneg :
  ∀ s s2 c, (s2, c) ∈ IdaStar.neighbors default_neighbors neighbors_fn s → 0 ≤ c.

Abbreviation inbrs := (IdaStar.neighbors default_neighbors neighbors_fn).

(** The value [-1] comes with the cost of a path to the goal, not above
    the bound. *)
Definition found_real (bound : Z) (ret : IdaStar.DfsRet)
    (st : IdaStar.IState (St:=St)) : Prop :=
  IdaStar.is_found ret = true →
  ∃ g, IdaStar.solution_g st = Some g ∧ path_cost inbrs start g goal ∧ g ≤ bound.

Lemma dfs_found_real t0 fuel (state : St) (g bound h_s depth : Z) st ret st' :
  0 ≤ g → 0 ≤ h_s → path_cost inbrs start g state →
  IdaStar.dfs default_neighbors clock goal hfun neighbors_fn use_bpmx timeout_sec
              t0 fuel state g bound h_s depth st = Some (ret, st') →
  found_real bound ret st'.
Proof.
  revert state g h_s depth st ret st'.
  induction fuel as [|fuel IH]; intros state g h_s depth st ret st' Hg Hh Hpath Hr;
    [done|].
  rewrite ida_dfs_unfold in Hr.
  destruct (timed_out clock timeout_sec t0 (IdaStar.tick st)) as [[|] tick1].
  { injection Hr as <- <-. done. }
  cbv zeta in Hr.
  destruct (Z.ltb_spec bound (g + h_s)).
  { injection Hr as <- <-. intros Hf. simpl in Hf. apply Z.eqb_eq in Hf. lia. }
  case_bool_decide as Hgoal.
  { injection Hr as <- <-. intros _. exists g. split; [done|].
    split; [by rewrite <- Hgoal|lia]. }
  revert Hr.
  apply (children_rule hfun use_bpmx _ state g bound depth
           (λ l hp mn _, 0 ≤ hp ∧ IdaStar.is_found mn = false
                         ∧ ∀ s2 c, (s2, c) ∈ l → (s2, c) ∈ inbrs state)
           (found_real bound)).
  - intros hp mn st0 (_ & Hmn & _) Hf. congruence.
  - intros s2 c l hp mn st0 (? & ? & Hl) _. split; [done|]. split; [done|].
    intros s3 c3 ?. apply (Hl s3 c3), elem_of_cons. by right.
  - intros s2 c l hp mn st0 v (Hhp & _ & Hl) _ Hb Hf.
    simpl in Hf. apply Z.eqb_eq in Hf. subst v.
    assert (0 ≤ c).
    { eapply costs_nonneg, (Hl s2 c), elem_of_cons. by left. }
    pose proof (bpmx_nonneg use_bpmx g bound hp (hfun s2) c Hg Hhp (hfun_nonneg s2)) as Hn.
    rewrite Hb in Hn. lia.
  - intros s2 c l hp mn st0 hp' h2 t st2 (Hhp & Hmn & Hl) _ Hb Hrec.
    assert ((s2, c) ∈ inbrs state) as Hin by (apply (Hl s2 c), elem_of_cons; by left).
    assert (0 ≤ c) by (by eapply costs_nonneg).
    pose proof (bpmx_nonneg use_bpmx g bound hp (hfun s2) c Hg Hhp (hfun_nonneg s2)) as Hn.
    rewrite Hb in Hn. destruct Hn as [Hhp' Hh2].
    apply IH in Hrec; [|lia|lia|by eapply path_cost_snoc].
    split; [done|]. split.
    + intros _ Hf _. by apply Hrec.
    + intros _ Hf _. split; [done|]. split; [by apply min_ret_not_found|].
      intros s3 c3 ?. apply (Hl s3 c3), elem_of_cons. by right.
  - split; [done|]. split; [done|]. by intros s2 c.
Qed.

(** An ["ok"] record holds the cost of a path from [start] to [goal], and
    that cost is not above ["bound_final"]. *)
Definition ida_cost_real (r : gmap string (Value St)) : Prop :=
  termination_is r "ok" →
  ∃ g b, r !! "g"%string = Some (VInt g) ∧ r !! "bound_final"%string = Some (VInt b)
         ∧ path_cost inbrs start g goal ∧ g ≤ b.

Lemma ida_loop_cost_real t0 fd fuel h0 bound (st : IdaStar.IState) r :
  0 ≤ h0 →
  IdaStar.loop default_neighbors clock goal hfun neighbors_fn use_bpmx return_path
               timeout_sec t0 fd fuel start h0 bound st = Some r →
  ida_cost_real r.
Proof.
  intros Hh0. revert bound st. induction fuel as [|fuel IH]; intros bound st Hr; [done|].
  cbn [IdaStar.loop] in Hr.
  destruct (IdaStar.dfs _ _ _ _ _ _ _ _ _ _ _ _ _ _ _) as [[ret st1]|] eqn:Hd; [|done].
  apply dfs_found_real in Hd; [|done|done|constructor].
  destruct ret as [|t|].
  - injection Hr as <-. intros Hok. discriminate Hok.
  - destruct (Z.eqb_spec t (-1)) as [->|Hne]; [|by eapply IH].
    destruct Hd as (g & Hg & Hpath & Hle); [done|]. rewrite Hg in Hr.
    destruct (if return_path then _ else _) as [p|]; [|done].
    injection Hr as <-. intros _. exists g, bound. by split_and!.
  - injection Hr as <-. intros Hok. discriminate Hok.
Qed.

Lemma ida_star_cost_real fuel r :
  IdaStar.ida_star default_neighbors clock goal hfun neighbors_fn use_bpmx return_path
                   timeout_sec fuel start = Some r →
  ida_cost_real r.
Proof. unfold IdaStar.ida_star. apply ida_loop_cost_real, hfun_nonneg. Qed.
End IdaSound.

(** ** [bfs]: the path follows edges and [g] counts them *)

Section BfsSound.
Context {St : Type} `{Countable St}.
Variable clock : nat → Q.
Variable goal : St.
Variable nbrs : St → list (St * Z).
Variable timeout_sec : option Q.
Variable start : St.

(** Every link of [parent] is an edge, and only [start] has no parent. *)
Definition parent_ok (par : gmap St (option St)) : Prop :=
  ∀ s, match par !! s with
       | Some (Some p) => ∃ c, (s, c) ∈ nbrs p
       | Some None => s = start
       | None => True
       end.

Lemma walk_back_sound par fuel (s : St) (path0 : list St) (g0 : Z) path g :
  parent_ok par →
  Bfs.walk_back fuel par s path0 g0 = Some (path, g) →
  ∃ new, path = path0 ++ new ∧ g = g0 + Z.of_nat (length new)
         ∧ head new = Some s ∧ last new = Some start ∧ valid_back nbrs new.
Proof.
  intros Hpar. revert s path0 g0.
  induction fuel as [|fuel IH]; intros s path0 g0 Hw; [done|].
  simpl in Hw. pose proof (Hpar s) as Hs.
  destruct (par !! s) as [[p|]|] eqn:Hps; [| |done].
  - apply IH in Hw as (new & -> & -> & Hh & Hl & Hv).
    exists (s :: new). split; [by rewrite <- app_assoc|].
    split; [simpl length; lia|]. split; [done|].
    destruct new as [|p' new]; [done|]. injection Hh as ->.
    split; [done|]. split; [done|done].
  - injection Hw as <- <-. exists [s]. subst s. by split_and!.
Qed.

Definition bfs_inv (st : Bfs.BState (St:=St)) : Prop := parent_ok (Bfs.parent st).

Lemma bfs_visit_inv (s : St) (l : list (St * Z)) (st : Bfs.BState) :
  (∀ e, e ∈ l → e ∈ nbrs s) → bfs_inv st → bfs_inv (foldl (Bfs.visit s) st l).
Proof.
  revert st. induction l as [|[s2 c] l IH]; intros st Hl Hi; [done|].
  simpl. apply IH; [intros e He; apply Hl; by right|].
  unfold Bfs.visit. simpl. case_bool_decide; [done|].
  intros x. unfold bfs_inv in Hi. simpl.
  destruct (decide (x = s2)) as [->|Hne].
  - rewrite lookup_insert_eq. exists c. apply Hl. by left.
  - rewrite lookup_insert_ne by done. apply Hi.
Qed.

(** An ["ok"] record holds a path from [start] to [goal] along edges and
    the number of its edges. *)
Definition bfs_path_real (r : gmap string (Value St)) : Prop :=
  termination_is r "ok" →
  ∃ p, r !! "path"%string = Some (VPath p)
       ∧ is_path_from_to nbrs start goal p
       ∧ r !! "g"%string = Some (VInt (Z.of_nat (length p) - 1)).

Lemma bfs_loop_sound t0 fp fuel (st : Bfs.BState) r :
  bfs_inv st →
  Bfs.loop clock goal nbrs timeout_sec t0 fp fuel st = Some r →
  bfs_path_real r.
Proof.
  revert st. induction fuel as [|fuel IH]; intros st Hi Hr; [done|].
  cbn [Bfs.loop] in Hr.
  destruct (Bfs.q st) as [|s rest] eqn:Hq.
  { injection Hr as <-. intros Hok. discriminate Hok. }
  destruct (timed_out clock timeout_sec t0 (Bfs.tick st)) as [[|] tick1].
  { injection Hr as <-. intros Hok. discriminate Hok. }
  case_bool_decide as Hgoal.
  - destruct (Bfs.walk_back fp (Bfs.parent st) s [] 0) as [[path g]|] eqn:Hw; [|done].
    injection Hr as <-. intros _.
    apply (walk_back_sound _ _ _ _ _ _ _ Hi) in Hw as (new & -> & -> & Hh & Hl & Hv).
    exists (reverse new). simpl. split; [reflexivity|]. split.
    + split; [|split].
      * by rewrite head_reverse.
      * by rewrite last_reverse, Hh, Hgoal.
      * by apply valid_path_reverse.
    + rewrite length_reverse. cbn. repeat f_equal; lia.
  - eapply IH; [|exact Hr]. by apply bfs_visit_inv.
Qed.

Lemma bfs_sound fuel r :
  Bfs.bfs clock goal nbrs timeout_sec fuel start = Some r → bfs_path_real r.
Proof.
  unfold Bfs.bfs. apply bfs_loop_sound.
  intros s. unfold Bfs.init. simpl.
  destruct (decide (s = start)) as [->|Hne].
  - by rewrite lookup_singleton_eq.
  - by rewrite lookup_singleton_ne.
Qed.
End BfsSound.

(** ** [dfs]: [g] is the number of edges of a path *)

Section DfsSound.
Context {St : Type} `{Countable St}.
Variable clock : nat → Q.
Variable goal : St.
Variable nbrs : St → list (St * Z).
Variable max_depth : option Z.
Variable timeout_sec : option Q.
Variable start : St.

(** A frame holds a state, its distance along the current path and some of
    its edges. *)
Definition frame_ok (fr : Dfs.Frame (St:=St)) : Prop :=
  let '(s, d, it, _) := fr in
  (∃ n, d = Z.of_nat n ∧ steps nbrs start n s) ∧ ∀ e, e ∈ it → e ∈ nbrs s.

Definition dfs_steps_real (r : gmap string (Value St)) : Prop :=
  termination_is r "ok" →
  ∃ n, r !! "g"%string = Some (VInt (Z.of_nat n)) ∧ steps nbrs start n goal
       ∧ ∀ m, max_depth = Some m → Z.of_nat n ≤ m.

Lemma steps_snoc (s t u : St) (n : nat) (c : Z) :
  steps nbrs s n t → (u, c) ∈ nbrs t → steps nbrs s (S n) u.
Proof.
  induction 1 as [s|s s1 c1 n t Hin Hs IH]; intros Hu.
  - eapply steps_cons; [done|constructor].
  - eapply steps_cons; [done|by apply IH].
Qed.

Lemma dfs_loop_sound t0 fuel (st : Dfs.DState) r :
  Forall frame_ok (Dfs.stack st) →
  Dfs.loop clock goal nbrs max_depth timeout_sec t0 fuel st = Some r →
  dfs_steps_real r.
Proof.
  revert st. induction fuel as [|fuel IH]; intros st Hi Hr; [done|].
  cbn [Dfs.loop] in Hr.
  destruct (Dfs.stack st) as [|[[[s d] it] did] below] eqn:Hst.
  { injection Hr as <-. intros Hok. discriminate Hok. }
  apply Forall_cons in Hi as [[(n & -> & Hs) Hit] Hbelow].
  destruct (timed_out clock timeout_sec t0 (Dfs.tick st)) as [[|] tick1].
  { injection Hr as <-. intros Hok. discriminate Hok. }
  destruct it as [|[s2 cost] it'].
  { case_bool_decide; [|done]. eapply IH; [|exact Hr]. done. }
  assert (Forall frame_ok ((s, Z.of_nat n, it', did) :: below)) as Hrest.
  { apply Forall_cons. split; [|done]. split; [by exists n|].
    intros e He. apply Hit. by right. }
  destruct (Dfs.too_deep max_depth (Z.of_nat n)) eqn:Hdeep.
  { eapply IH; [|exact Hr]. done. }
  case_bool_decide.
  { eapply IH; [|exact Hr]. done. }
  assert (steps nbrs start (S n) s2) as Hs2.
  { eapply steps_snoc; [exact Hs|]. apply Hit. by left. }
  case_bool_decide as Hgoal.
  - injection Hr as <-. intros _. exists (S n). split; [|split].
    + replace (Z.of_nat (S n)) with (Z.of_nat n + 1) by lia. reflexivity.
    + by rewrite <- Hgoal.
    + intros m ->. simpl in Hdeep. apply Z.ltb_ge in Hdeep. lia.
  - eapply IH; [|exact Hr]. simpl.
    apply Forall_cons. split.
    + split; [exists (S n); split; [lia|done]|done].
    + apply Forall_cons. split; [|done]. split; [by exists n|].
      intros e He. apply Hit. by right.
Qed.

Lemma dfs_sound fuel r :
  Dfs.dfs clock goal nbrs max_depth timeout_sec fuel start = Some r →
  (start = goal ∧ r !! "g"%string = Some (VInt 0))
  ∨ (start ≠ goal ∧ dfs_steps_real r).
Proof.
  unfold Dfs.dfs. case_bool_decide as Hg.
  - intros [= <-]. left. by split.
  - intros Hr. right. split; [done|]. eapply dfs_loop_sound; [|exact Hr]. simpl.
    apply Forall_cons. split; [|done]. split; [|done].
    exists 0%nat. split; [done|constructor].
Qed.
End DfsSound.

(** * The domains under the searches *)

(** ** The random walk is a path of the puzzle graph *)

Section ScramblePath.
Context {G : Type} (Random : Z → G) (choice : G → list nat → nat * G).
Hypothesis choice_elem : ∀ g cand, cand ≠ [] → (choice g cand).1 ∈ cand.
Variable nei : nat → option (list nat).

(** The moves of the blank by the table [nei]: the body that the three
    [neighbors] share. *)
Definition table_moves (s : State) : list (State * Z) :=
  match index 0 s with
  | Some z => match nei z with
              | Some js => blank_moves s z js
              | None => []
              end
  | None => []
  end.

Lemma scramble_step_edge (s s' : State) (lb lb' : option nat) (g g' : G) :
  scramble_step choice nei (s, lb, g) = Some (s', lb', g') →
  (s', 1) ∈ table_moves s.
Proof.
  unfold scramble_step, table_moves.
  destruct (index 0 s) as [z|]; [|done]. simpl.
  destruct (nei z) as [js|]; [|done]. simpl.
  set (cand := match lb with
               | Some lb0 => if bool_decide (lb0 ∈ js) && bool_decide (1 < length js)%nat
                             then list_remove lb0 js else js
               | None => js
               end).
  assert (cand ⊆ js) as Hsub.
  { subst cand. destruct lb as [lb0|]; [|done].
    destruct (_ && _); [apply list_remove_subseteq|done]. }
  destruct cand as [|c0 cand'] eqn:Hcand; [done|].
  pose proof (choice_elem g (c0 :: cand') ltac:(done)) as Hin.
  destruct (choice g (c0 :: cand')) as [j g1]. simpl in Hin.
  destruct (swap z j s) as [s1|] eqn:Hsw; [|done]. simpl.
  intros [= <- <- <-]. apply blank_moves_elem. exists j.
  split; [by apply Hsub|done].
Qed.

Lemma scramble_loop_steps (n : nat) (s s' : State) (lb lb' : option nat) (g g' : G) :
  scramble_loop choice nei n (s, lb, g) = Some (s', lb', g') →
  steps table_moves s n s'.
Proof.
  revert s lb g. induction n as [|n IH]; intros s lb g; cbn [scramble_loop].
  - intros [= <- <- <-]. constructor.
  - destruct (scramble_step choice nei (s, lb, g)) as [[[s1 lb1] g1]|] eqn:Hst; [|done].
    cbn [mbind option_bind]. intros Hl. eapply steps_cons.
    + by eapply scramble_step_edge.
    + by eapply IH.
Qed.

Lemma scramble_walk_steps (goal s : State) (depth seed : Z) :
  scramble_walk Random choice nei goal depth seed = Some s →
  steps table_moves goal (Z.to_nat depth) s.
Proof.
  unfold scramble_walk.
  destruct (scramble_loop _ _ _ _) as [[[s1 lb1] g1]|] eqn:Hl; [|done].
  simpl. intros [= <-]. by eapply scramble_loop_steps.
Qed.
End ScramblePath.

(** ** The R×C puzzle: moves can be undone, paths can be walked back *)

Lemma rect_steps_back (self : RectPuzzle.t) (s t : State) (n : nat) :
  (0 < RectPuzzle.size self)%nat → board self s →
  steps (RectPuzzle.neighbors self) s n t →
  board self t ∧ steps (RectPuzzle.neighbors self) t n s.
Proof.
  intros Hsz Hb Hs. induction Hs as [s|s s1 c n t Hin Hs IH]; [split; [done|constructor]|].
  pose proof (rect_board_forward self s s1 c Hin Hb) as Hb1.
  destruct (IH Hb1) as [Hbt Hback]. split; [done|].
  eapply steps_snoc; [exact Hback|]. by eapply rect_neighbors_sym.
Qed.

Lemma rect_reachable_board (self : RectPuzzle.t) (s t : State) :
  board self s → reachable (RectPuzzle.neighbors self) s t → board self t.
Proof.
  intros Hb [n Hp]. induction Hp as [s|s s1 c n t Hin Hp IH]; [done|].
  apply IH. by eapply rect_board_forward.
Qed.

(** What [scramble] returns is a board from which the goal is [depth] moves
    away, or fewer. *)
Lemma rect_scramble_path {G} (Random : Z → G) (choice : G → list nat → nat * G)
    (self : RectPuzzle.t) (depth seed : Z) (s : State) :
  (∀ g cand, cand ≠ [] → (choice g cand).1 ∈ cand) →
  (0 < RectPuzzle.size self)%nat →
  RectPuzzle.scramble Random choice self depth seed = Some s →
  board self s
  ∧ path_cost (RectPuzzle.neighbors self) s (Z.of_nat (Z.to_nat depth))
              (RectPuzzle.GOAL self).
Proof.
  intros Hch Hsz Hs.
  apply (scramble_walk_steps Random choice Hch) in Hs.
  change (table_moves (RectPuzzle._nei self)) with (RectPuzzle.neighbors self) in Hs.
  destruct (rect_steps_back self _ _ _ Hsz ltac:(unfold board; reflexivity) Hs)
    as [Hb Hback].
  split; [done|]. apply steps_path_cost; [apply rect_unit_costs|done].
Qed.

(** ** The searches on the R×C puzzle with the Manhattan distance *)

Section RectSearch.
Variable self : RectPuzzle.t.
Hypothesis Hsz : (0 < RectPuzzle.size self)%nat.
(** the heuristic as the searches call it: the value [manhattan] returns *)
Variable hfun : State → Z.
Hypothesis hfun_manhattan :
  ∀ s m, RectPuzzle.manhattan self s = Some m → hfun s = m.
Hypothesis hfun_nonneg : ∀ s, 0 ≤ hfun s.
Variable start : State.
Hypothesis Hstart : board self start.

Abbreviation rnbrs := (RectPuzzle.neighbors self).
Abbreviation rgoal := (RectPuzzle.GOAL self).

Lemma rect_hfun_consistent :
  consistent_from rnbrs start hfun ∧ reversible_from rnbrs start
  ∧ admissible_from rnbrs start hfun rgoal.
Proof.
  split; [|split].
  - intros s s1 c Hr Hin.
    pose proof (rect_reachable_board self start s Hstart Hr) as Hb.
    destruct (rect_manhattan_move self s s1 c Hsz Hb Hin) as (m & m1 & Hm & Hm1 & _ & _ & Hd).
    rewrite (hfun_manhattan _ _ Hm), (hfun_manhattan _ _ Hm1).
    rewrite (rect_unit_costs self s s1 c Hin). lia.
  - intros s s1 c Hr Hin.
    pose proof (rect_reachable_board self start s Hstart Hr) as Hb.
    rewrite (rect_unit_costs self s s1 c Hin). by eapply rect_neighbors_sym.
  - intros s n Hr Hp.
    destruct (rect_manhattan_path self s n Hsz Hp) as (m & Hm & Hle & _).
    rewrite (hfun_manhattan _ _ Hm). lia.
Qed.

(** The least number of moves to the goal: not above the length of any
    path to it, and of the same parity. *)
Lemma rect_shortest_below (g0 : Z) :
  path_cost rnbrs start g0 rgoal →
  ∃ g, shortest rnbrs start g rgoal ∧ 0 ≤ g ≤ g0 ∧ (g0 - g) mod 2 = 0.
Proof.
  intros Hp0. pose proof (rect_unit_costs self) as Hunit.
  destruct (reachable_shortest rnbrs start rgoal Hunit (ex_intro _ g0 Hp0)) as [g Hg].
  exists g. split; [done|]. destruct Hg as [Hpg Hmin].
  destruct (rect_manhattan_path self start g Hsz Hpg) as (m & Hm & Hmg & Hpar).
  destruct (rect_manhattan_path self start g0 Hsz Hp0) as (m' & Hm' & Hmg0 & Hpar0).
  assert (m' = m) as -> by congruence.
  split; [pose proof (Hmin g0 Hp0); lia|].
  replace (g0 - g) with ((g0 - m) - (g - m)) by lia.
  rewrite Zminus_mod, Hpar, Hpar0. done.
Qed.

(** All three searches return the least number of moves. *)
Lemma rect_search_optimal dn clock tb rp (g : Z) :
  shortest rnbrs start g rgoal →
  ∃ N, ∀ fuel, (N ≤ fuel)%nat →
        (∃ r, AStar.a_star dn clock rgoal hfun (Some rnbrs) tb rp None fuel start
              = Some r ∧ termination_is r "ok" ∧ r !! "g"%string = Some (VInt g))
        ∧ (∀ bpmx,
             ∃ r, IdaStar.ida_star dn clock rgoal hfun (Some rnbrs) bpmx rp None fuel
                                   start = Some r
                  ∧ termination_is r "ok" ∧ r !! "g"%string = Some (VInt g))
        ∧ (∃ r, Bfs.bfs clock rgoal rnbrs None fuel start = Some r
                ∧ termination_is r "ok" ∧ r !! "g"%string = Some (VInt g)).
Proof.
  intros Hg.
  destruct rect_hfun_consistent as (Hcons & Hrev & Hadm).
  pose proof (rect_unit_costs self) as Hunit.
  pose proof (consistent_back _ _ _ Hrev Hcons) as Hback.
  destruct (astar_optimal dn clock rgoal hfun (Some rnbrs) tb rp start g
              Hunit hfun_nonneg Hcons Hadm Hg) as [Na Ha].
  destruct (ida_optimal dn clock rgoal hfun (Some rnbrs) false rp start g
              Hunit hfun_nonneg Hcons Hback Hadm Hg) as [N0 H0].
  destruct (ida_optimal dn clock rgoal hfun (Some rnbrs) true rp start g
              Hunit hfun_nonneg Hcons Hback Hadm Hg) as [N1 H1].
  destruct (bfs_optimal clock rgoal rnbrs start g Hunit Hg) as [Nb Hb].
  exists (Na + N0 + N1 + Nb)%nat.
  intros fuel Hfuel. split; [apply Ha; lia|]. split; [|apply Hb; lia].
  intros [|]; [apply H1|apply H0]; lia.
Qed.
End RectSearch.

(** ** The unsolvable variant is never solved *)

Lemma rect_unsolvable_unreachable (self : RectPuzzle.t) (u : State) :
  (2 ≤ RectPuzzle.R self)%nat → (2 ≤ RectPuzzle.C self)%nat →
  RectPuzzle.is_solvable self u = false →
  ¬ reachable (RectPuzzle.neighbors self) u (RectPuzzle.GOAL self).
Proof.
  intros HR HC Hu [n Hp].
  destruct (rect_reaches_goal_solvable self u n HR HC Hp) as [_ Hs]. congruence.
Qed.

Section NeverSolved.
Context {St : Type} `{Countable St}.
Variable nbrs : St → list (St * Z).
Variables (start goal : St).
Hypothesis Hunreach : ¬ reachable nbrs start goal.

Lemma valid_path_reachable (p : list St) (s t : St) :
  head p = Some s → last p = Some t → valid_path nbrs p → reachable nbrs s t.
Proof.
  revert s. induction p as [|a p IH]; intros s Hh Hl Hv; [done|].
  injection Hh as ->. destruct p as [|b p].
  - injection Hl as ->. exists 0. constructor.
  - destruct Hv as [[c Hc] Hv]. destruct (IH b eq_refl Hl Hv) as [n Hn].
    exists (c + n). by eapply path_step.
Qed.

Lemma steps_reachable (s t : St) (n : nat) : steps nbrs s n t → reachable nbrs s t.
Proof.
  induction 1 as [s|s s1 c n t Hin Hs [m Hm]]; [exists 0; constructor|].
  exists (c + m). by eapply path_step.
Qed.

Lemma astar_never_ok dn clock hfun tb rp tmo fuel r :
  AStar.a_star dn clock goal hfun (Some nbrs) tb rp tmo fuel start = Some r →
  ¬ termination_is r "ok".
Proof.
  intros Hr Hok. apply astar_cost_real in Hr. destruct (Hr Hok) as (g & _ & Hp).
  apply Hunreach. by exists g.
Qed.

Lemma ida_never_ok dn clock hfun bp rp tmo fuel r :
  (∀ s, 0 ≤ hfun s) → (∀ s s2 c, (s2, c) ∈ nbrs s → 0 ≤ c) →
  IdaStar.ida_star dn clock goal hfun (Some nbrs) bp rp tmo fuel start = Some r →
  ¬ termination_is r "ok".
Proof.
  intros Hh Hc Hr Hok. apply ida_star_cost_real in Hr; [|done..].
  destruct (Hr Hok) as (g & b & _ & _ & Hp & _). apply Hunreach. by exists g.
Qed.

Lemma bfs_never_ok clock tmo fuel r :
  Bfs.bfs clock goal nbrs tmo fuel start = Some r → ¬ termination_is r "ok".
Proof.
  intros Hr Hok. apply bfs_sound in Hr. destruct (Hr Hok) as (p & _ & (Hh & Hl & Hv) & _).
  apply Hunreach. by eapply valid_path_reachable.
Qed.

Lemma dfs_never_ok clock md tmo fuel r :
  Dfs.dfs clock goal nbrs md tmo fuel start = Some r → ¬ termination_is r "ok".
Proof.
  intros Hr Hok. apply dfs_sound in Hr as [[-> _]|[_ Hr]].
  - apply Hunreach. exists 0. constructor.
  - destruct (Hr Hok) as (n & _ & Hs & _). apply Hunreach. by eapply steps_reachable.
Qed.
End NeverSolved.

(** * Exhaustion: a goal that cannot be reached *)

Section Exhaust.
Context {St : Type} `{Countable St}.
Variable nbrs : St → list (St * Z).
Variables (start goal : St).
(** a finite set of states that holds the start and is closed under moves *)
Variable B : gset St.
Hypothesis B_start : start ∈ B.
Hypothesis B_closed : ∀ s s1 c, s ∈ B → (s1, c) ∈ nbrs s → s1 ∈ B.
Hypothesis Hunreach : ¬ reachable nbrs start goal.

Lemma path_in_closed (F : gset St) (s t : St) (n : Z) :
  (∀ s s1 c, s ∈ F → (s1, c) ∈ nbrs s → s1 ∈ F) →
  path_cost nbrs s n t → s ∈ F → t ∈ F.
Proof.
  intros Hcl. induction 1 as [s|s s1 c n t Hin Hp IH]; [done|].
  intros Hs. apply IH. by eapply Hcl.
Qed.

Lemma reachable_in_B (s : St) : reachable nbrs start s → s ∈ B.
Proof. intros [n Hp]. by eapply path_in_closed. Qed.

Lemma reachable_step (s s1 : St) (c : Z) :
  reachable nbrs start s → (s1, c) ∈ nbrs s → reachable nbrs start s1.
Proof. intros [n Hp] Hin. exists (n + c). by eapply path_cost_snoc. Qed.

(** A set that holds the start, is closed under moves and holds reachable
    states only is the set of the reachable states. *)
Lemma reachable_set (F : gset St) :
  start ∈ F → (∀ s s1 c, s ∈ F → (s1, c) ∈ nbrs s → s1 ∈ F) →
  (∀ s, s ∈ F → reachable nbrs start s) →
  ∀ s, s ∈ F ↔ reachable nbrs start s.
Proof.
  intros Hs Hcl Hr s. split; [apply Hr|].
  intros [n Hp]. by eapply path_in_closed.
Qed.

(** ** [a_star] *)

Section AStarExhaust.
Variable default_neighbors : St → list (St * Z).
Variable clock : nat → Q.
Variable hfun : St → Z.
Variable tie_break : string.
Variable return_path : bool.

Abbreviation AS := (AStar.AState (St:=St)).
Abbreviation est e := (AStar.item_state (AStar.entry_item e)).

(** [s] has an entry in the heap. *)
Definition queued (st : AS) (s : St) : Prop :=
  ∃ e, e ∈ AStar.open_heap st ∧ est e = s.

Record xinv (st : AS) : Prop := mkXinv {
  x_heap : ∀ e, e ∈ AStar.open_heap st → reachable nbrs start (est e);
  x_closed : ∀ s, s ∈ AStar.closed st → reachable nbrs start s;
  x_expanded : AStar.expanded st = Z.of_nat (size (AStar.closed st));
  x_best : ∀ s, is_Some (AStar.best_g st !! s) → s ∈ AStar.closed st ∨ queued st s;
  x_start : is_Some (AStar.best_g st !! start);
  x_edges : ∀ s s2 c, s ∈ AStar.closed st → (s2, c) ∈ nbrs s →
                      is_Some (AStar.best_g st !! s2)
}.

(** What one round over a neighbour keeps; [n] is the state being
    expanded, whose edges are not all relaxed yet. *)
Record xfold (n : St) (st : AS) : Prop := mkXfold {
  f_heap : ∀ e, e ∈ AStar.open_heap st → reachable nbrs start (est e);
  f_best : ∀ s, is_Some (AStar.best_g st !! s) → s ∈ AStar.closed st ∨ queued st s;
  f_start : is_Some (AStar.best_g st !! start);
  f_edges : ∀ s s2 c, s ∈ AStar.closed st → s ≠ n → (s2, c) ∈ nbrs s →
                      is_Some (AStar.best_g st !! s2)
}.

Lemma relax_xfold (n : St) (node : AStar.PQItem) (st : AS) (s2 : St) (c : Z) :
  let st' := AStar.relax hfun tie_break node st (s2, c) in
  reachable nbrs start s2 → xfold n st →
  xfold n st'
  ∧ AStar.closed st' = AStar.closed st
  ∧ AStar.expanded st' = AStar.expanded st
  ∧ is_Some (AStar.best_g st' !! s2)
  ∧ (∀ s, is_Some (AStar.best_g st !! s) → is_Some (AStar.best_g st' !! s))
  ∧ (length (AStar.open_heap st') ≤ S (length (AStar.open_heap st)))%nat.
Proof.
  intros st' Hr [Hh Hb Hs He].
  destruct (relax_cases hfun tie_break node st s2 c)
    as (Hcl & Hex & _ & _ & [(_ & Hbg & pr & ctr & Hhp)|((b & Hb2 & _) & Hbg & Hhp)]);
    fold st' in Hcl, Hex, Hbg, Hhp.
  - assert (∀ s, is_Some (AStar.best_g st !! s) → is_Some (AStar.best_g st' !! s)) as Hm.
    { intros s Hsome. rewrite Hbg. destruct (decide (s = s2)) as [->|Hne].
      - rewrite lookup_insert_eq. by eexists.
      - by rewrite lookup_insert_ne. }
    split_and!; try done.
    + split.
      * intros e. rewrite Hhp. intros [->|Hin]%elem_of_cons; [done|by apply Hh].
      * intros s. rewrite Hbg, Hcl. destruct (decide (s = s2)) as [->|Hne].
        -- intros _. right. eexists. split; [rewrite Hhp; by left|done].
        -- rewrite lookup_insert_ne by done. intros Hsome.
           destruct (Hb s Hsome) as [?|(e & Hin & Hes)]; [by left|].
           right. exists e. split; [rewrite Hhp; by right|done].
      * by apply Hm.
      * intros s s3 c3. rewrite Hcl. intros Hs1 Hne Hin. apply Hm. by eapply He.
    + rewrite Hbg, lookup_insert_eq. by eexists.
    + rewrite Hhp. simpl. lia.
  - split_and!; try done.
    + split.
      * intros e. rewrite Hhp. apply Hh.
      * intros s. rewrite Hbg, Hcl. intros Hsome.
        destruct (Hb s Hsome) as [?|(e & Hin & Hes)]; [by left|].
        right. exists e. split; [by rewrite Hhp|done].
      * by rewrite Hbg.
      * intros s s3 c3. rewrite Hcl, Hbg. apply He.
    + rewrite Hbg, Hb2. by eexists.
    + by rewrite Hbg.
    + rewrite Hhp. lia.
Qed.

Lemma relax_fold_xfold (n : St) (node : AStar.PQItem) (l : list (St * Z)) :
  ∀ st : AS,
    let st' := foldl (AStar.relax hfun tie_break node) st l in
    (∀ s2 c, (s2, c) ∈ l → reachable nbrs start s2) → xfold n st →
    xfold n st'
    ∧ AStar.closed st' = AStar.closed st
    ∧ AStar.expanded st' = AStar.expanded st
    ∧ (∀ s2 c, (s2, c) ∈ l → is_Some (AStar.best_g st' !! s2))
    ∧ (∀ s, is_Some (AStar.best_g st !! s) → is_Some (AStar.best_g st' !! s))
    ∧ (length (AStar.open_heap st') ≤ length (AStar.open_heap st) + length l)%nat.
Proof.
  induction l as [|[s2 c] l IH]; intros st st' Hl Hx.
  { subst st'. simpl. split_and!; try done; [|lia].
    intros s2 c Hin. by apply elem_of_nil in Hin. }
  subst st'. cbn [foldl].
  destruct (relax_xfold n node st s2 c) as (Hx1 & Hcl1 & Hex1 & Hs1 & Hm1 & Hlen1);
    [apply (Hl s2 c); by left|done|].
  destruct (IH (AStar.relax hfun tie_break node st (s2, c)))
    as (Hx2 & Hcl2 & Hex2 & Hs2 & Hm2 & Hlen2);
    [intros s3 c3 ?; apply (Hl s3 c3); by right|done|].
  split; [done|]. split; [by etrans|]. split; [by etrans|]. split; [|split].
  - intros s3 c3 [[= -> ->]|Hin]%elem_of_cons; [by apply Hm2|by eapply Hs2].
  - intros s Hsome. by apply Hm2, Hm1.
  - cbn [length]. cbn [length] in Hlen2. lia.
Qed.

Definition xpot (st : AS) : nat :=
  (length (AStar.open_heap st)
   + weight (λ s, S (length (nbrs s))) (AStar.closed st) (elements B))%nat.

(** An ["exhausted"] record that counts every reachable state once. *)
Definition exhausted_all (r : gmap string (Value St)) : Prop :=
  termination_is r "exhausted"
  ∧ r !! "g"%string = Some VNone
  ∧ ∃ F : gset St, (∀ s, s ∈ F ↔ reachable nbrs start s)
                   ∧ r !! "expanded"%string = Some (VInt (Z.of_nat (size F))).

Lemma astar_loop_exhausts (t0 : Q) (fuel : nat) :
  ∀ st : AS, xinv st → (xpot st < fuel)%nat →
    ∃ r, AStar.loop default_neighbors clock goal hfun (Some nbrs) tie_break return_path
                    None t0 fuel st = Some r
         ∧ exhausted_all r.
Proof.
  induction fuel as [|fuel IH]; intros st Hi Hpot; [lia|].
  pose proof Hi as [Hh Hc Hex Hb Hs He]. cbn [AStar.loop].
  destruct (AStar.heappop (AStar.open_heap st)) as [[e rest]|] eqn:Hp.
  2: { apply heappop_None in Hp. eexists. split; [reflexivity|].
       split; [reflexivity|]. split; [reflexivity|].
       assert (∀ s, is_Some (AStar.best_g st !! s) → s ∈ AStar.closed st) as Hall.
       { intros s Hsome. destruct (Hb s Hsome) as [?|(e & Hin & _)]; [done|].
         rewrite Hp in Hin. by apply elem_of_nil in Hin. }
       exists (AStar.closed st). split.
       - apply reachable_set; [by apply Hall| |done].
         intros s s1 c Hcl Hin. apply Hall. by eapply He.
       - rewrite <- Hex. reflexivity. }
  change (timed_out clock None t0 (AStar.tick st)) with (false, AStar.tick st).
  cbv beta iota zeta.
  pose proof (heappop_perm _ _ _ Hp) as Hperm.
  assert (length (AStar.open_heap st) = S (length rest)) as Hlen by (by rewrite Hperm).
  assert (e ∈ AStar.open_heap st) as Hein by (rewrite Hperm; by left).
  assert (∀ e', e' ∈ rest → e' ∈ AStar.open_heap st) as Hsub.
  { intros e' ?. rewrite Hperm. by right. }
  unfold xpot in Hpot.
  case_bool_decide as Hcl.
  { apply IH.
    - split; simpl; try done.
      + intros e' ?. by apply Hh, Hsub.
      + intros s Hsome. destruct (Hb s Hsome) as [?|(e' & Hin & Hes)]; [by left|].
        rewrite Hperm in Hin. apply elem_of_cons in Hin as [->|Hin].
        * left. by rewrite <- Hes.
        * right. by exists e'.
    - unfold xpot. simpl. lia. }
  case_bool_decide as Hg.
  { exfalso. apply Hunreach. rewrite <- Hg. by apply Hh. }
  set (n := est e) in *.
  set (st1 := AStar.close_node (AStar.popped st rest (AStar.tick st)) n).
  assert (reachable nbrs start n) as Hrn by (by apply Hh).
  destruct (relax_fold_xfold n (AStar.entry_item e) (nbrs n) st1)
    as (Hx2 & Hcl2 & Hex2 & Hs2 & Hm2 & Hlen2).
  { intros s2 c Hin. by eapply reachable_step. }
  { split; simpl.
    - intros e' ?. by apply Hh, Hsub.
    - intros s Hsome. destruct (Hb s Hsome) as [?|(e' & Hin & Hes)]; [left; set_solver|].
      rewrite Hperm in Hin. apply elem_of_cons in Hin as [->|Hin].
      + left. set_solver.
      + right. by exists e'.
    - done.
    - intros s s2 c [Hsn|Hs1]%elem_of_union Hne Hin; [set_solver|]. by eapply He. }
  change (AStar.neighbors default_neighbors (Some nbrs)) with nbrs.
  apply IH.
  - destruct Hx2 as [Hh2 Hb2 Hst2 He2]. split; try done.
    + rewrite Hcl2. simpl. intros s [Hsn|Hs1]%elem_of_union; [|by apply Hc].
      apply elem_of_singleton in Hsn. by subst s.
    + rewrite Hex2, Hcl2. simpl. rewrite Hex.
      rewrite size_union by set_solver. rewrite size_singleton. lia.
    + intros s s2 c Hs1 Hin. destruct (decide (s = n)) as [->|Hne].
      * by eapply Hs2.
      * by eapply He2.
  - unfold xpot. rewrite Hcl2. simpl AStar.closed. simpl in Hlen2.
    pose proof (weight_close (λ s, S (length (nbrs s))) n (AStar.closed st)
                  ({[n]} ∪ AStar.closed st) (elements B)
                  ltac:(apply elem_of_elements; by apply reachable_in_B) Hcl
                  ltac:(set_solver) ltac:(set_solver)) as Hw.
    cbv beta in Hw. lia.
Qed.

Lemma xinv_init : xinv (AStar.init hfun tie_break start).
Proof.
  split; simpl.
  - intros e ->%list_elem_of_singleton. exists 0. constructor.
  - intros s Hs. by apply elem_of_empty in Hs.
  - change (0 = Z.of_nat (size (∅ : gset St))). by rewrite size_empty.
  - intros s Hsome. right. destruct (decide (s = start)) as [->|Hne].
    + eexists. split; [by apply list_elem_of_singleton|done].
    + rewrite lookup_singleton_ne in Hsome by done. by destruct Hsome.
  - rewrite lookup_singleton_eq. by eexists.
  - intros s s2 c Hs. by apply elem_of_empty in Hs.
Qed.

Lemma astar_exhausts :
  ∃ N, ∀ fuel, (N ≤ fuel)%nat →
    ∃ r, AStar.a_star default_neighbors clock goal hfun (Some nbrs) tie_break
                      return_path None fuel start = Some r
         ∧ exhausted_all r.
Proof.
  exists (S (xpot (AStar.init hfun tie_break start))). intros fuel Hfuel.
  unfold AStar.a_star. apply astar_loop_exhausts; [apply xinv_init|lia].
Qed.
End AStarExhaust.

(** ** [bfs] *)

Section BfsExhaust.
Variable clock : nat → Q.

Abbreviation BS := (Bfs.BState (St:=St)).

(** The edges of [s] all lead to seen states. *)
Definition edges_seen_all (st : BS) (s : St) : Prop :=
  ∀ s2 c, (s2, c) ∈ nbrs s → s2 ∈ Bfs.seen st.

Record yinv (st : BS) : Prop := mkYinv {
  y_seen : ∀ s, s ∈ Bfs.seen st → reachable nbrs start s;
  y_q : ∀ s, s ∈ Bfs.q st → s ∈ Bfs.seen st;
  y_count : Bfs.expanded st + Z.of_nat (length (Bfs.q st)) = Z.of_nat (size (Bfs.seen st));
  y_start : start ∈ Bfs.seen st;
  y_edges : ∀ s, s ∈ Bfs.seen st → s ∈ Bfs.q st ∨ edges_seen_all st s
}.

Definition ypot (st : BS) : nat :=
  (length (Bfs.q st) + weight (λ _, 1%nat) (Bfs.seen st) (elements B))%nat.

(** The rounds over the neighbours of [n], which has left the queue. *)
Record yfold (n : St) (st : BS) : Prop := mkYfold {
  g_seen : ∀ s, s ∈ Bfs.seen st → reachable nbrs start s;
  g_q : ∀ s, s ∈ Bfs.q st → s ∈ Bfs.seen st;
  g_count : Bfs.expanded st + Z.of_nat (length (Bfs.q st)) = Z.of_nat (size (Bfs.seen st));
  g_start : start ∈ Bfs.seen st;
  g_edges : ∀ s, s ∈ Bfs.seen st → s = n ∨ s ∈ Bfs.q st ∨ edges_seen_all st s
}.

Lemma visit_yfold (n : St) (st : BS) (s2 : St) (c : Z) :
  let st' := Bfs.visit n st (s2, c) in
  reachable nbrs start s2 → yfold n st →
  yfold n st' ∧ Bfs.seen st ⊆ Bfs.seen st' ∧ s2 ∈ Bfs.seen st'
  ∧ (ypot st' ≤ ypot st)%nat.
Proof.
  intros st' Hr [Hs Hq Hc Hst He]. subst st'. unfold Bfs.visit. simpl.
  case_bool_decide as Hseen; simpl.
  - split; [by split|]. split; [done|]. split; [done|]. unfold ypot. simpl. lia.
  - split_and!.
    + split; simpl.
      * intros s [->%elem_of_singleton|?]%elem_of_union; [done|by apply Hs].
      * intros s [?| ->%list_elem_of_singleton]%elem_of_app; [|set_solver].
        apply elem_of_union. right. by apply Hq.
      * rewrite length_app, size_union by set_solver. rewrite size_singleton.
        simpl. lia.
      * set_solver.
      * intros s [->%elem_of_singleton|Hs1]%elem_of_union.
        -- right. left. apply elem_of_app. right. by left.
        -- destruct (He s Hs1) as [?|[?|Hall]]; [by left| |].
           ++ right. left. apply elem_of_app. by left.
           ++ right. right. intros s3 c3 Hin. apply elem_of_union. right.
              by eapply Hall.
    + set_solver.
    + set_solver.
    + unfold ypot. simpl. rewrite length_app. simpl.
      pose proof (weight_close (λ _, 1%nat) s2 (Bfs.seen st) ({[s2]} ∪ Bfs.seen st)
                    (elements B)
                    ltac:(apply elem_of_elements; by apply reachable_in_B) Hseen
                    ltac:(set_solver) ltac:(set_solver)) as Hw.
      cbv beta in Hw. lia.
Qed.

Lemma visit_fold_yfold (n : St) (l : list (St * Z)) :
  ∀ st : BS,
    let st' := foldl (Bfs.visit n) st l in
    (∀ s2 c, (s2, c) ∈ l → reachable nbrs start s2) → yfold n st →
    yfold n st'
    ∧ Bfs.seen st ⊆ Bfs.seen st'
    ∧ (∀ s2 c, (s2, c) ∈ l → s2 ∈ Bfs.seen st')
    ∧ (ypot st' ≤ ypot st)%nat.
Proof.
  induction l as [|[s2 c] l IH]; intros st st' Hl Hy.
  { subst st'. simpl. split_and!; try done.
    intros s2 c Hin. by apply elem_of_nil in Hin. }
  subst st'. cbn [foldl].
  destruct (visit_yfold n st s2 c) as (Hy1 & Hsub1 & Hs21 & Hpot1);
    [apply (Hl s2 c); by left|done|].
  destruct (IH (Bfs.visit n st (s2, c))) as (Hy2 & Hsub2 & Hl2 & Hpot2);
    [intros s3 c3 ?; apply (Hl s3 c3); by right|done|].
  split_and!; try done.
  - set_solver.
  - intros s3 c3 [[= -> ->]|Hin]%elem_of_cons; [set_solver|by eapply Hl2].
  - lia.
Qed.

Lemma bfs_loop_exhausts (t0 : Q) (fp fuel : nat) :
  ∀ st : BS, yinv st → (ypot st < fuel)%nat →
    ∃ r, Bfs.loop clock goal nbrs None t0 fp fuel st = Some r ∧ exhausted_all r.
Proof.
  induction fuel as [|fuel IH]; intros st Hi Hpot; [lia|].
  pose proof Hi as [Hs Hq Hc Hst He]. cbn [Bfs.loop].
  destruct (Bfs.q st) as [|n rest] eqn:Hqs.
  { eexists. split; [reflexivity|]. split; [reflexivity|]. split; [reflexivity|].
    exists (Bfs.seen st). split.
    - apply reachable_set; [done| |done].
      intros s s1 c Hin1 Hin. destruct (He s Hin1) as [Hin2|Hall].
      + by apply elem_of_nil in Hin2.
      + by eapply Hall.
    - replace (Z.of_nat (size (Bfs.seen st))) with (Bfs.expanded st)
        by (simpl in Hc; lia).
      reflexivity. }
  change (timed_out clock None t0 (Bfs.tick st)) with (false, Bfs.tick st).
  cbv beta iota zeta.
  assert (n ∈ Bfs.seen st) as Hn by (apply Hq; by left).
  case_bool_decide as Hg.
  { exfalso. apply Hunreach. rewrite <- Hg. by apply Hs. }
  set (st1 := Bfs.mkBState rest _ _ _ _ _ _).
  destruct (visit_fold_yfold n (nbrs n) st1) as (Hy2 & Hsub2 & Hl2 & Hpot2).
  { intros s2 c Hin. eapply reachable_step; [|done]. by apply Hs. }
  { split; simpl; try done.
    - intros s ?. apply Hq. by right.
    - simpl in Hc. lia.
    - intros s Hs1. destruct (He s Hs1) as [[->|?]%elem_of_cons|?]; auto. }
  apply IH.
  - destruct Hy2 as [Hs2 Hq2 Hc2 Hst2 He2]. split; try done.
    intros s Hs1. destruct (He2 s Hs1) as [->|[?|?]]; [|by left|by right].
    right. intros s2 c Hin. by eapply Hl2.
  - assert (ypot st1 < ypot st)%nat; [|lia].
    unfold ypot. subst st1. cbn [Bfs.q Bfs.seen]. rewrite Hqs. cbn [length]. lia.
Qed.

Lemma bfs_exhausts :
  ∃ N, ∀ fuel, (N ≤ fuel)%nat →
    ∃ r, Bfs.bfs clock goal nbrs None fuel start = Some r ∧ exhausted_all r.
Proof.
  exists (S (ypot (Bfs.init start))). intros fuel Hfuel.
  unfold Bfs.bfs. apply bfs_loop_exhausts; [|lia].
  split; simpl.
  - intros s ->%elem_of_singleton. exists 0. constructor.
  - intros s ->%list_elem_of_singleton. by apply elem_of_singleton.
  - change (0 + 1 = Z.of_nat (size ({[start]} : gset St))). by rewrite size_singleton.
  - by apply elem_of_singleton.
  - intros s ->%elem_of_singleton. left. by left.
Qed.
End BfsExhaust.
End Exhaust.

(** * More on the heuristics *)

(** ** The Manhattan distance is zero at the goal only *)

Section RectZero.
Variable self : RectPuzzle.t.
Hypothesis Hsz : (0 < RectPuzzle.size self)%nat.

Lemma mterm_zero (idx : nat) (t : Z) :
  1 ≤ t < Z.of_nat (RectPuzzle.size self) → mterm self idx t = 0 →
  Z.of_nat idx = t - 1.
Proof.
  intros Ht. unfold mterm, RectPuzzle.manhattan_term, RectPuzzle._goal_pos.
  destruct (Z.eqb_spec t 0); [lia|].
  rewrite bool_decide_eq_true_2 by lia. simpl.
  set (C := Z.of_nat (RectPuzzle.C self)).
  assert (0 < C) as HC by (unfold RectPuzzle.size in Hsz; subst C; nia).
  intros H0.
  pose proof (Z.div_mod (Z.of_nat idx) C ltac:(lia)).
  pose proof (Z.div_mod (t - 1) C ltac:(lia)).
  assert (Z.of_nat idx / C = (t - 1) / C) as Hq by lia.
  assert (Z.of_nat idx mod C = (t - 1) mod C) as Hr by lia.
  rewrite Hq, Hr in *. lia.
Qed.

Lemma rsum_zero (k : nat) (s : list Z) (i : nat) (t : Z) :
  rsum self k s = 0 → s !! i = Some t → mterm self (k + i) t = 0.
Proof.
  revert k i. induction s as [|x s IH]; intros k i H0 Hi; [done|].
  simpl in H0. pose proof (mterm_nonneg self k x). pose proof (rsum_nonneg self (S k) s).
  destruct i as [|i]; simpl in Hi.
  - injection Hi as ->. rewrite Nat.add_0_r. lia.
  - replace (k + S i)%nat with (S k + i)%nat by lia. apply IH; [lia|done].
Qed.

Lemma GOAL_lookup (i : nat) :
  RectPuzzle.GOAL self !! i
  = if decide (i < RectPuzzle.size self - 1)%nat then Some (Z.of_nat (S i))
    else if decide (i = RectPuzzle.size self - 1)%nat then Some 0 else None.
Proof.
  unfold RectPuzzle.GOAL. set (n := RectPuzzle.size self).
  destruct (decide (i < n - 1)%nat).
  - rewrite lookup_app_l by (rewrite length_fmap, length_seq; lia).
    rewrite list_lookup_fmap, lookup_seq_lt by done. done.
  - rewrite lookup_app_r by (rewrite length_fmap, length_seq; lia).
    rewrite length_fmap, length_seq. destruct (decide (i = n - 1)%nat) as [->|].
    + by rewrite Nat.sub_diag.
    + destruct (i - (n - 1))%nat as [|j] eqn:E; [lia|done].
Qed.

Lemma rect_manhattan_zero (s : State) :
  board self s → RectPuzzle.manhattan self s = Some 0 → s = RectPuzzle.GOAL self.
Proof.
  intros Hb Hm.
  rewrite (rect_manhattan_Some self s (board_tiles_ok self s Hb)) in Hm.
  injection Hm as Hm.
  destruct (board_facts self s Hsz Hb) as (Hnd & Hlen & _).
  set (n := RectPuzzle.size self) in *.
  assert (∀ i t, s !! i = Some t → t ≠ 0 → t = Z.of_nat (S i) ∧ (i < n - 1)%nat) as Htile.
  { intros i t Hi Ht.
    destruct (board_tiles_ok self s Hb t) as [?|Hr]; [by eapply list_elem_of_lookup_2|done|].
    pose proof (mterm_zero i t Hr (rsum_zero 0 s i t Hm Hi)). fold n in Hr. lia. }
  assert (s !! (n - 1)%nat = Some 0) as Hlast.
  { destruct (lookup_lt_is_Some_2 s (n - 1)%nat) as [t Ht]; [lia|].
    destruct (decide (t = 0)) as [->|Hne]; [done|].
    destruct (Htile _ _ Ht Hne). lia. }
  apply list_eq. intros i. rewrite GOAL_lookup. fold n.
  destruct (decide (i < n - 1)%nat) as [Hi|Hi].
  - destruct (lookup_lt_is_Some_2 s i) as [t Ht]; [lia|]. rewrite Ht. f_equal.
    destruct (decide (t = 0)) as [->|Hne].
    + pose proof (NoDup_lookup s i (n - 1)%nat 0 Hnd Ht Hlast). lia.
    + by destruct (Htile _ _ Ht Hne).
  - destruct (decide (i = n - 1)%nat) as [->|Hne]; [done|].
    apply lookup_ge_None. lia.
Qed.
End RectZero.

(** ** A move leaves the state changed *)

Lemma rect_move_changes (self : RectPuzzle.t) (s s1 : State) (c : Z) :
  (0 < RectPuzzle.size self)%nat → board self s →
  (s1, c) ∈ RectPuzzle.neighbors self s → s1 ≠ s.
Proof.
  intros Hsz Hb Hin ->.
  destruct (rect_manhattan_move self s s c Hsz Hb Hin) as (m & m1 & Hm & Hm1 & _ & _ & Hd).
  rewrite Hm in Hm1. injection Hm1 as <-. lia.
Qed.

(** ** The 3×3 module: paths can be walked back *)

Lemma puzzle8_steps_back (s t : State) (n : nat) :
  board board33 s → steps Puzzle8.neighbors s n t →
  board board33 t ∧ steps Puzzle8.neighbors t n s.
Proof.
  intros Hb Hs. induction Hs as [s|s s1 c n t Hin Hs IH]; [split; [done|constructor]|].
  pose proof (board33_forward s s1 c Hin Hb) as Hb1.
  destruct (IH Hb1) as [Hbt Hback]. split; [done|].
  eapply steps_snoc; [exact Hback|]. by eapply puzzle8_neighbors_sym.
Qed.

Lemma puzzle8_scramble_path {G} (Random : Z → G) (choice : G → list nat → nat * G)
    (depth seed : Z) (s : State) :
  (∀ g cand, cand ≠ [] → (choice g cand).1 ∈ cand) →
  Puzzle8.scramble Random choice depth seed = Some s →
  board board33 s
  ∧ path_cost Puzzle8.neighbors s (Z.of_nat (Z.to_nat depth)) Puzzle8.GOAL.
Proof.
  intros Hch Hs.
  apply (scramble_walk_steps Random choice Hch) in Hs.
  change (table_moves Puzzle8._NEI) with Puzzle8.neighbors in Hs.
  destruct (puzzle8_steps_back _ _ _ ltac:(unfold board; reflexivity) Hs) as [Hb Hback].
  split; [done|]. apply steps_path_cost; [apply puzzle8_unit_costs|done].
Qed.

(** ** The searches on the 3×3 module with its Manhattan distance *)

Lemma puzzle8_heuristic_ok (start : State) :
  board board33 start →
  consistent_from Puzzle8.neighbors start Puzzle8.manhattan
  ∧ reversible_from Puzzle8.neighbors start
  ∧ admissible_from Puzzle8.neighbors start Puzzle8.manhattan Puzzle8.GOAL.
Proof.
  intros Hb.
  assert (∀ s, reachable Puzzle8.neighbors start s → board board33 s) as Hreach.
  { intros s [n Hp]. exact (path_from_board _ _ _ Hb Hp). }
  split; [|split].
  - intros s s1 c Hr Hin.
    destruct (manhattan_move s s1 c (Hreach s Hr) Hin) as [-> ?]. lia.
  - intros s s1 c Hr Hin. rewrite (puzzle8_unit_costs _ _ _ Hin).
    eapply puzzle8_neighbors_sym; [by apply Hreach|exact Hin].
  - intros s n _. apply manhattan_admissible_aux.
Qed.

(** ** Puzzles that the constructor builds, and the set of their boards *)

Lemma rect_new_dims (rows cols : nat) (self : RectPuzzle.t) :
  RectPuzzle.new rows cols = Some self →
  (2 ≤ RectPuzzle.R self)%nat ∧ (2 ≤ RectPuzzle.C self)%nat
  ∧ (4 ≤ RectPuzzle.size self)%nat.
Proof.
  unfold RectPuzzle.new. intros Hnew.
  destruct (bool_decide (2 ≤ rows)%nat) eqn:E1; [|done].
  destruct (bool_decide (2 ≤ cols)%nat) eqn:E2; [|done].
  injection Hnew as <-.
  apply bool_decide_eq_true_1 in E1. apply bool_decide_eq_true_1 in E2.
  unfold RectPuzzle.size. simpl. split; [done|]. split; [done|]. nia.
Qed.

Definition boards (self : RectPuzzle.t) : gset State :=
  list_to_set (permutations (RectPuzzle.GOAL self)).

Lemma elem_of_boards (self : RectPuzzle.t) (s : State) :
  s ∈ boards self ↔ board self s.
Proof.
  unfold boards, board. rewrite elem_of_list_to_set, permutations_Permutation.
  split; intros Hp; by symmetry.
Qed.

(** The tiles of a tuple are those of the board. *)
Lemma tiles_ok_range (self : RectPuzzle.t) (s : State) :
  (0 < RectPuzzle.size self)%nat →
  tiles_ok self s ↔ ∀ t, t ∈ s → 0 ≤ t < Z.of_nat (RectPuzzle.size self).
Proof.
  intros Hsz. unfold tiles_ok, tile_ok. split; intros Hok t Ht; specialize (Hok t Ht); lia.
Qed.

Lemma tiles_ok_dec (self : RectPuzzle.t) (s : State) :
  tiles_ok self s ∨ ¬ tiles_ok self s.
Proof.
  assert (∀ x, Decision (tile_ok self x)) as Hd by (intros x; unfold tile_ok; apply _).
  destruct (decide (Forall (tile_ok self) s)) as [Hok|Hno].
  - left. intros t Ht. by eapply Forall_forall.
  - right. intros Hok. apply Hno. apply Forall_forall. exact Hok.
Qed.

(** ** The generators of the domains never fail the solvability test *)

Lemma puzzle8_scramble_solvable {G} (Random : Z → G) (choice : G → list nat → nat * G) :
  (∀ g cand, cand ≠ [] → (choice g cand).1 ∈ cand) →
  ∀ depth seed, ∃ s, Puzzle8.scramble Random choice depth seed = Some s
                     ∧ Puzzle8.is_solvable s = true.
Proof.
  intros Hch depth seed.
  destruct (scramble_walk_inv Random choice Hch Puzzle8._NEI
              (rect_inv board33) puzzle8_inv_move
              Puzzle8.GOAL depth seed) as (s & Hs & _ & Hsol).
  - split; [unfold board; reflexivity|]. by apply rect_GOAL_solvable; simpl; lia.
  - exists s. split; [done|]. by rewrite puzzle8_is_solvable_rect.
Qed.

Lemma rect_scramble_solvable {G} (Random : Z → G) (choice : G → list nat → nat * G)
    (self : RectPuzzle.t) :
  (∀ g cand, cand ≠ [] → (choice g cand).1 ∈ cand) →
  (2 ≤ RectPuzzle.R self)%nat → (2 ≤ RectPuzzle.C self)%nat →
  ∀ depth seed, ∃ s, RectPuzzle.scramble Random choice self depth seed = Some s
                     ∧ RectPuzzle.is_solvable self s = true.
Proof.
  intros Hch HR HC depth seed.
  destruct (scramble_walk_inv Random choice Hch (RectPuzzle._nei self)
              (rect_inv self) (rect_inv_move self HR HC)
              (RectPuzzle.GOAL self) depth seed) as (s & Hs & _ & Hsol).
  - split; [unfold board; reflexivity|by apply rect_GOAL_solvable].
  - by exists s.
Qed.

(** ** The values of the heuristics are not negative *)

Lemma rect_manhattan_nonneg (self : RectPuzzle.t) (s : State) (m : Z) :
  RectPuzzle.manhattan self s = Some m → 0 ≤ m.
Proof.
  destruct (tiles_ok_dec self s) as [Hok|Hno].
  - rewrite (rect_manhattan_Some self s Hok). intros [= <-]. apply rsum_nonneg.
  - by rewrite (rect_manhattan_None self s Hno).
Qed.

(** ** Paths of the 3×3 module are paths of the 3×3 board of the class *)

Lemma puzzle8_path_rect (s t : State) (n : Z) :
  path_cost Puzzle8.neighbors s n t →
  path_cost (RectPuzzle.neighbors board33) s n t.
Proof.
  induction 1 as [s|s s1 c n t Hin Hp IH]; [constructor|].
  eapply path_step; [|done]. by rewrite <- (puzzle8_neighbors_perm s).
Qed.

Lemma puzzle8_shortest_below (start : State) (g0 : Z) :
  path_cost Puzzle8.neighbors start g0 Puzzle8.GOAL →
  ∃ g, shortest Puzzle8.neighbors start g Puzzle8.GOAL ∧ 0 ≤ g ≤ g0
       ∧ (g0 - g) mod 2 = 0.
Proof.
  intros Hp0.
  destruct (reachable_shortest Puzzle8.neighbors start Puzzle8.GOAL puzzle8_unit_costs
              (ex_intro _ g0 Hp0)) as [g Hg].
  exists g. split; [done|]. destruct Hg as [Hpg Hmin].
  destruct (rect_manhattan_path board33 start g ltac:(vm_compute; lia)
              (puzzle8_path_rect _ _ _ Hpg)) as (m & Hm & Hmg & Hpar).
  destruct (rect_manhattan_path board33 start g0 ltac:(vm_compute; lia)
              (puzzle8_path_rect _ _ _ Hp0)) as (m' & Hm' & Hmg0 & Hpar0).
  assert (m' = m) as -> by congruence.
  split; [pose proof (Hmin g0 Hp0); lia|].
  replace (g0 - g) with ((g0 - m) - (g - m)) by lia.
  rewrite Zminus_mod, Hpar, Hpar0. done.
Qed.

Lemma puzzle8_search_optimal clock tb rp (start : State) (g : Z) :
  board board33 start → shortest Puzzle8.neighbors start g Puzzle8.GOAL →
  ∃ N, ∀ fuel, (N ≤ fuel)%nat →
        (∃ r, AStar.a_star Puzzle8.neighbors clock Puzzle8.GOAL Puzzle8.manhattan None
                           tb rp None fuel start
              = Some r ∧ termination_is r "ok" ∧ r !! "g"%string = Some (VInt g))
        ∧ (∀ bpmx,
             ∃ r, IdaStar.ida_star Puzzle8.neighbors clock Puzzle8.GOAL Puzzle8.manhattan
                                   None bpmx rp None fuel start = Some r
                  ∧ termination_is r "ok" ∧ r !! "g"%string = Some (VInt g))
        ∧ (∃ r, Bfs.bfs clock Puzzle8.GOAL Puzzle8.neighbors None fuel start = Some r
                ∧ termination_is r "ok" ∧ r !! "g"%string = Some (VInt g)).
Proof.
  intros Hb Hg.
  destruct (puzzle8_heuristic_ok start Hb) as (Hcons & Hrev & Hadm).
  pose proof puzzle8_unit_costs as Hunit.
  pose proof (consistent_back _ _ _ Hrev Hcons) as Hback.
  destruct (astar_optimal Puzzle8.neighbors clock Puzzle8.GOAL Puzzle8.manhattan None
              tb rp start g Hunit manhattan_nonneg Hcons Hadm Hg) as [Na Ha].
  destruct (ida_optimal Puzzle8.neighbors clock Puzzle8.GOAL Puzzle8.manhattan None
              false rp start g Hunit manhattan_nonneg Hcons Hback Hadm Hg) as [N0 H0].
  destruct (ida_optimal Puzzle8.neighbors clock Puzzle8.GOAL Puzzle8.manhattan None
              true rp start g Hunit manhattan_nonneg Hcons Hback Hadm Hg) as [N1 H1].
  destruct (bfs_optimal clock Puzzle8.GOAL Puzzle8.neighbors start g Hunit Hg) as [Nb Hb'].
  exists (Na + N0 + N1 + Nb)%nat.
  intros fuel Hfuel. split; [apply Ha; lia|]. split; [|apply Hb'; lia].
  intros [|]; [apply H1|apply H0]; lia.
Qed.

(** ** Exhaustion with either way of passing the neighbours *)

Lemma astar_exhausts_any {St} `{Countable St} (dn : St → list (St * Z))
    (nf : option (St → list (St * Z))) (start goal : St) (B : gset St)
    clock hfun tb rp :
  start ∈ B →
  (∀ s s1 c, s ∈ B → (s1, c) ∈ AStar.neighbors dn nf s → s1 ∈ B) →
  ¬ reachable (AStar.neighbors dn nf) start goal →
  ∃ N, ∀ fuel, (N ≤ fuel)%nat →
    ∃ r, AStar.a_star dn clock goal hfun nf tb rp None fuel start = Some r
         ∧ exhausted_all (AStar.neighbors dn nf) start r.
Proof.
  intros Hs Hcl Hun. destruct nf as [f|].
  - exact (astar_exhausts f start goal B Hs Hcl Hun dn clock hfun tb rp).
  - exact (astar_exhausts dn start goal B Hs Hcl Hun dn clock hfun tb rp).
Qed.

(** * More on the random walks *)

(** ** No move of the walk undoes the one before *)

Lemma list_remove_NoDup (x : nat) (l : list nat) : NoDup l → x ∉ list_remove x l.
Proof.
  induction 1 as [|y l Hy Hnd IH]; simpl; [apply not_elem_of_nil|].
  destruct (Nat.eqb_spec y x) as [->|Hne]; [done|].
  apply not_elem_of_cons. split; [done|exact IH].
Qed.

Section ScrambleBack.
Context {G : Type} (Random : Z → G) (choice : G → list nat → nat * G).
Hypothesis choice_elem : ∀ g cand, cand ≠ [] → (choice g cand).1 ∈ cand.
Variable nei : nat → option (list nat).
Variable n : nat.
(** every entry of the table lists at least two cells of the board, none
    twice, none the cell itself *)
Hypothesis nei_ok :
  ∀ z js, nei z = Some js →
          NoDup js ∧ (2 ≤ length js)%nat ∧ ∀ j, j ∈ js → j ≠ z ∧ (j < n)%nat.

(** A tuple of [n] different entries. *)
Definition wb (s : State) : Prop := NoDup s ∧ length s = n.

Lemma scramble_step_blank (s s' : State) (lb lb' : option nat) (g g' : G) :
  wb s → scramble_step choice nei (s, lb, g) = Some (s', lb', g') →
  wb s' ∧ ∃ z j, index 0 s = Some z ∧ lb' = Some z ∧ index 0 s' = Some j
                 ∧ ∀ b, lb = Some b → j ≠ b.
Proof.
  intros [Hnd Hlen]. unfold scramble_step.
  destruct (index 0 s) as [z|] eqn:Hz; [|done]. simpl.
  destruct (nei z) as [js|] eqn:Hjs; [|done]. simpl.
  destruct (nei_ok z js Hjs) as (Hndj & Hlenj & Hin).
  set (cand := match lb with
               | Some lb0 => if bool_decide (lb0 ∈ js) && bool_decide (1 < length js)%nat
                             then list_remove lb0 js else js
               | None => js
               end).
  assert (cand ⊆ js ∧ ∀ b, lb = Some b → b ∉ cand) as [Hsub Hnb].
  { subst cand. destruct lb as [b|]; [|split; [done|intros b [=]]].
    rewrite (bool_decide_eq_true_2 (1 < length js)%nat) by lia.
    rewrite andb_true_r. case_bool_decide as Hb.
    - split; [apply list_remove_subseteq|]. intros b' [= <-].
      by apply list_remove_NoDup.
    - split; [done|]. by intros b' [= <-]. }
  destruct cand as [|c0 cand'] eqn:Hcand; [done|].
  pose proof (choice_elem g (c0 :: cand') ltac:(done)) as Hch.
  destruct (choice g (c0 :: cand')) as [j g1]. simpl in Hch.
  destruct (Hin j (Hsub j Hch)) as [Hjz Hjn].
  destruct (blank_move_effect s z j Hnd Hz Hjz ltac:(lia)) as (s1 & Hsw & Hperm & Hj & _).
  rewrite Hsw. simpl. intros [= <- <- <-]. split.
  - split; [by rewrite Hperm|by rewrite Hperm].
  - exists z, j. split; [done|]. split; [done|]. split; [done|].
    intros b Hb ->. by apply (Hnb b Hb).
Qed.

Lemma scramble_loop_wb (k : nat) (s s' : State) (lb lb' : option nat) (g g' : G) :
  wb s → scramble_loop choice nei k (s, lb, g) = Some (s', lb', g') → wb s'.
Proof.
  revert s lb g. induction k as [|k IH]; intros s lb g Hwb; cbn [scramble_loop].
  - by intros [= <- <- <-].
  - destruct (scramble_step choice nei (s, lb, g)) as [[[s1 lb1] g1]|] eqn:Hst; [|done].
    cbn [mbind option_bind]. apply IH.
    by destruct (scramble_step_blank _ _ _ _ _ _ Hwb Hst).
Qed.

Lemma scramble_loop_add (a b : nat) st :
  scramble_loop choice nei (a + b) st
  = scramble_loop choice nei a st ≫= scramble_loop choice nei b.
Proof.
  revert st. induction a as [|a IH]; intros st; cbn [scramble_loop Nat.add].
  - done.
  - destruct (scramble_step choice nei st) as [st1|]; [|done].
    cbn [mbind option_bind]. apply IH.
Qed.

(** Two rounds of the loop never bring the state back. *)
Lemma scramble_two_steps (s s2 : State) (lb lb2 : option nat) (g g2 : G) :
  wb s → scramble_loop choice nei 2 (s, lb, g) = Some (s2, lb2, g2) → s2 ≠ s.
Proof.
  intros Hwb. cbn [scramble_loop].
  destruct (scramble_step choice nei (s, lb, g)) as [[[s1 lb1] g1]|] eqn:Hst1; [|done].
  cbn [mbind option_bind].
  destruct (scramble_step choice nei (s1, lb1, g1)) as [[[s2' lb2'] g2']|] eqn:Hst2;
    [|done].
  cbn [mbind option_bind]. intros [= <- <- <-].
  destruct (scramble_step_blank _ _ _ _ _ _ Hwb Hst1) as (Hwb1 & z & j & Hz & -> & Hj & _).
  destruct (scramble_step_blank _ _ _ _ _ _ Hwb1 Hst2)
    as (_ & z1 & j1 & _ & _ & Hj1 & Hne).
  intros ->. rewrite Hz in Hj1. injection Hj1 as <-. by apply (Hne z).
Qed.

(** The walk of [depth + 1] is that of [depth] and one more move, the walk
    of [depth + 2] does not end where that of [depth] does. *)
Lemma scramble_walk_next (goal sa : State) (depth seed : Z) :
  wb goal → 0 ≤ depth →
  scramble_walk Random choice nei goal depth seed = Some sa →
  (∀ sb, scramble_walk Random choice nei goal (depth + 1) seed = Some sb →
         (sb, 1) ∈ table_moves nei sa)
  ∧ (∀ sc, scramble_walk Random choice nei goal (depth + 2) seed = Some sc → sc ≠ sa).
Proof.
  intros Hwb Hd. unfold scramble_walk.
  replace (Z.to_nat (depth + 1)) with (Z.to_nat depth + 1)%nat by lia.
  replace (Z.to_nat (depth + 2)) with (Z.to_nat depth + 2)%nat by lia.
  rewrite !scramble_loop_add.
  destruct (scramble_loop choice nei (Z.to_nat depth) (goal, None, Random seed))
    as [[[s lb] g]|] eqn:Hl; [|done].
  cbn [mbind option_bind]. intros [= <-]. split.
  - intros sb.
    destruct (scramble_loop choice nei 1 (s, lb, g)) as [[[s1 lb1] g1]|] eqn:H1; [|done].
    cbn [mbind option_bind]. intros [= <-].
    cbn [scramble_loop] in H1.
    destruct (scramble_step choice nei (s, lb, g)) as [[[s1' lb1'] g1']|] eqn:Hst; [|done].
    cbn [mbind option_bind] in H1. injection H1 as <- <- <-.
    by eapply scramble_step_edge.
  - intros sc.
    destruct (scramble_loop choice nei 2 (s, lb, g)) as [[[s2 lb2] g2]|] eqn:H2; [|done].
    cbn [mbind option_bind]. intros [= <-].
    eapply scramble_two_steps; [|exact H2]. by eapply scramble_loop_wb.
Qed.
End ScrambleBack.

Lemma rect_nei_ok (self : RectPuzzle.t) :
  (2 ≤ RectPuzzle.R self)%nat → (2 ≤ RectPuzzle.C self)%nat →
  ∀ z js, RectPuzzle._nei self z = Some js →
          NoDup js ∧ (2 ≤ length js)%nat
          ∧ ∀ j, j ∈ js → j ≠ z ∧ (j < RectPuzzle.size self)%nat.
Proof.
  intros HR HC z js Hjs.
  destruct (rect_nei_length self z js HR HC Hjs) as [[Hlo _] Hnd].
  split; [done|]. split; [done|]. intros j Hj.
  destruct (rect_nei_sym self z j js Hjs Hj) as [Hne _].
  destruct (nei_cases self z j js Hjs Hj) as (_ & Hlt & _). done.
Qed.

Lemma puzzle8_NEI_ok :
  ∀ z js, Puzzle8._NEI z = Some js →
          NoDup js ∧ (2 ≤ length js)%nat ∧ ∀ j, j ∈ js → j ≠ z ∧ (j < 9)%nat.
Proof.
  intros z js Hjs.
  assert (z < 9)%nat as Hz.
  { do 9 (destruct z as [|z]; [lia|]). done. }
  pose proof (puzzle8_NEI_perm z) as Hp. rewrite Hjs in Hp.
  destruct (RectPuzzle._nei board33 z) as [js'|] eqn:Hjs'; [|done].
  destruct (rect_nei_ok board33 ltac:(simpl; lia) ltac:(simpl; lia) z js' Hjs')
    as (Hnd & Hlen & Hin).
  split; [by rewrite Hp|]. split; [by rewrite Hp|].
  intros j Hj. apply Hin. by rewrite <- Hp.
Qed.

(** * More on the linear conflict *)

(** ** No conflict at the goal *)

Lemma foldl_id {A B} (f : A → B → A) (l : list B) (a : A) :
  (∀ acc y, y ∈ l → f acc y = acc) → foldl f a l = a.
Proof.
  induction l as [|y l IH]; intros Hf; simpl; [done|].
  rewrite Hf by (by left). apply IH. intros acc y' ?. apply Hf. by right.
Qed.

(** A line whose tiles of the row (or column) [r] come in the order of
    their goal positions adds nothing. *)
Lemma conflicts_ordered_aux (line : list Z) (f : nat → Z → nat * Z)
    (along across : Z → Z) (r m : Z) :
  (∀ i t, (f i t).2 = t) →
  (∀ i j a b, (i < j)%nat → line !! i = Some a → line !! j = Some b →
              a ≠ 0 → b ≠ 0 → along a = r → along b = r → across a ≤ across b) →
  pair_loop (filter (λ ct : nat * Z, ct.2 ≠ 0 ∧ along ct.2 = r) (imap f line))
            (λ a b m, if Z.ltb (across b.2) (across a.2) then m + 2 else m) m
  = m.
Proof.
  revert f. induction line as [|x l IH]; intros f Hf Hord; [done|].
  rewrite imap_cons.
  assert (pair_loop (filter (λ ct : nat * Z, ct.2 ≠ 0 ∧ along ct.2 = r) (imap (f ∘ S) l))
            (λ a b m, if Z.ltb (across b.2) (across a.2) then m + 2 else m) m = m) as Hrest.
  { apply IH; [intros i t; apply Hf|].
    intros i j a b Hij Ha Hb. by apply (Hord (S i) (S j)); [lia|..]. }
  rewrite filter_cons. case_decide as HP; [|exact Hrest].
  rewrite pair_loop_cons. rewrite foldl_id; [exact Hrest|].
  intros acc y Hy. apply list_elem_of_filter in Hy as [[Hy0 Hyr] Hy].
  apply list_elem_of_lookup in Hy as [i Hi].
  apply list_lookup_imap_Some in Hi as (t & Ht & ->).
  unfold compose in *. rewrite !Hf in *. destruct HP as [Hx0 Hxr].
  pose proof (Hord 0%nat (S i) x t ltac:(lia) eq_refl Ht Hx0 Hy0 Hxr Hyr).
  destruct (Z.ltb_spec (across t) (across x)); [lia|done].
Qed.

Lemma conflicts_ordered (line : list Z) (along across : Z → Z) (r m : Z) :
  (∀ i j a b, (i < j)%nat → line !! i = Some a → line !! j = Some b →
              a ≠ 0 → b ≠ 0 → along a = r → along b = r → across a ≤ across b) →
  RectPuzzle.conflicts line along across r m = m.
Proof. intros Hord. unfold RectPuzzle.conflicts. by apply conflicts_ordered_aux. Qed.

Section RectGoalConflicts.
Variable self : RectPuzzle.t.
Hypothesis Hsz : (0 < RectPuzzle.size self)%nat.

Lemma GOAL_increasing (p q : nat) (a b : Z) :
  (p < q)%nat → RectPuzzle.GOAL self !! p = Some a → RectPuzzle.GOAL self !! q = Some b →
  a ≠ 0 → b ≠ 0 → 1 ≤ a < b ∧ b < Z.of_nat (RectPuzzle.size self).
Proof.
  rewrite !GOAL_lookup by done. intros Hpq Ha Hb Ha0 Hb0.
  repeat case_decide; simplify_eq; lia.
Qed.

Lemma goal_row_col (t : Z) :
  1 ≤ t < Z.of_nat (RectPuzzle.size self) →
  RectPuzzle.goal_row self t = (t - 1) / Z.of_nat (RectPuzzle.C self)
  ∧ RectPuzzle.goal_col self t = (t - 1) mod Z.of_nat (RectPuzzle.C self).
Proof.
  intros Ht. unfold RectPuzzle.goal_row, RectPuzzle.goal_col, RectPuzzle._goal_pos.
  by rewrite bool_decide_eq_true_2 by done.
Qed.

Lemma goal_order (a b : Z) :
  1 ≤ a < b → b < Z.of_nat (RectPuzzle.size self) →
  (RectPuzzle.goal_row self a = RectPuzzle.goal_row self b →
   RectPuzzle.goal_col self a ≤ RectPuzzle.goal_col self b)
  ∧ (RectPuzzle.goal_col self a = RectPuzzle.goal_col self b →
     RectPuzzle.goal_row self a ≤ RectPuzzle.goal_row self b).
Proof.
  intros Hab Hb.
  destruct (goal_row_col a ltac:(lia)) as [-> ->].
  destruct (goal_row_col b ltac:(lia)) as [-> ->].
  set (C := Z.of_nat (RectPuzzle.C self)).
  assert (0 < C) as HC by (unfold RectPuzzle.size in Hsz; subst C; nia).
  pose proof (Z.div_mod (a - 1) C ltac:(lia)).
  pose proof (Z.div_mod (b - 1) C ltac:(lia)).
  pose proof (Z.mod_pos_bound (a - 1) C HC). pose proof (Z.mod_pos_bound (b - 1) C HC).
  split; intros Heq; [rewrite Heq in *; lia|].
  rewrite Heq in *. nia.
Qed.

Lemma GOAL_row_conflicts (r : nat) (m : Z) :
  RectPuzzle.conflicts
    (take (RectPuzzle.C self) (drop (r * RectPuzzle.C self) (RectPuzzle.GOAL self)))
    (RectPuzzle.goal_row self) (RectPuzzle.goal_col self) (Z.of_nat r) m = m.
Proof.
  apply conflicts_ordered. intros i j a b Hij Ha Hb Ha0 Hb0 Hra Hrb.
  apply lookup_take_Some in Ha as [Ha _]. apply lookup_take_Some in Hb as [Hb _].
  rewrite lookup_drop in Ha, Hb.
  destruct (GOAL_increasing (r * RectPuzzle.C self + i) (r * RectPuzzle.C self + j) a b
              ltac:(lia) Ha Hb Ha0 Hb0) as [Hab Hlt].
  apply (goal_order a b Hab Hlt). congruence.
Qed.

Lemma GOAL_col_conflicts (c : nat) (col : list Z) (m : Z) :
  mapM (λ r, RectPuzzle.GOAL self !! (c + r * RectPuzzle.C self)%nat)
       (seq 0 (RectPuzzle.R self)) = Some col →
  RectPuzzle.conflicts col (RectPuzzle.goal_col self) (RectPuzzle.goal_row self)
                       (Z.of_nat c) m = m.
Proof.
  intros Hcol%mapM_Some_1.
  assert (0 < RectPuzzle.C self)%nat as HC by (unfold RectPuzzle.size in Hsz; nia).
  apply conflicts_ordered. intros i j a b Hij Ha Hb Ha0 Hb0 Hca Hcb.
  destruct (Forall2_lookup_r _ _ _ _ _ Hcol Ha) as (ri & Hri & Hai).
  destruct (Forall2_lookup_r _ _ _ _ _ Hcol Hb) as (rj & Hrj & Hbj).
  apply lookup_seq in Hri as [-> _]. apply lookup_seq in Hrj as [-> _].
  simpl in Hai, Hbj.
  destruct (GOAL_increasing (c + (0 + i) * RectPuzzle.C self)
              (c + (0 + j) * RectPuzzle.C self) a b ltac:(nia) Hai Hbj Ha0 Hb0)
    as [Hab Hlt].
  apply (goal_order a b Hab Hlt). congruence.
Qed.

Lemma rect_linear_conflict_GOAL :
  RectPuzzle.linear_conflict self (RectPuzzle.GOAL self) = Some 0.
Proof.
  unfold RectPuzzle.linear_conflict. rewrite rect_manhattan_GOAL. simpl.
  rewrite (foldl_id _ (seq 0 (RectPuzzle.R self)) 0)
    by (intros acc r _; apply GOAL_row_conflicts).
  destruct (mapM _ _) as [cols|] eqn:Hcols.
  2:{ destruct (rect_linear_conflict_Some self (RectPuzzle.GOAL self)) as [v Hv].
      - apply board_tiles_ok. by unfold board.
      - by rewrite GOAL_length.
      - unfold RectPuzzle.linear_conflict in Hv. rewrite rect_manhattan_GOAL in Hv.
        simpl in Hv. by rewrite Hcols in Hv. }
  simpl. f_equal. apply foldl_id. intros acc [c col] Hin.
  apply list_elem_of_lookup in Hin as [i Hi].
  apply list_lookup_imap_Some in Hi as (col' & Hc' & [= -> ->]).
  apply mapM_Some_1 in Hcols.
  destruct (Forall2_lookup_r _ _ _ _ _ Hcols Hc') as (x & Hx & Hcol).
  apply lookup_seq in Hx as [-> _]. simpl in Hcol.
  by apply GOAL_col_conflicts.
Qed.

(** On boards the linear-conflict value is 0 at the goal only. *)
Lemma rect_linear_conflict_zero (s : State) :
  board self s →
  RectPuzzle.linear_conflict self s = Some 0 → s = RectPuzzle.GOAL self.
Proof.
  intros Hb Hlc.
  destruct (rect_linear_conflict_above self s 0 Hlc) as (m & Hm & k & Hk & Heq).
  pose proof (rect_manhattan_nonneg self s m Hm).
  assert (m = 0) as -> by lia.
  by apply rect_manhattan_zero.
Qed.
End RectGoalConflicts.

(** * Further properties of the code *)

(** ** The R×C class ([src/domains/puzzlemn.py]) *)

(** The 3×4 board and the state one move from its goal, for the examples. *)
Definition board34 : RectPuzzle.t := {| RectPuzzle.R := 3; RectPuzzle.C := 4 |}.
Definition near_goal34 : State := [1;2;3;4;5;6;7;8;9;10;0;11].

Lemma near_goal34_path :
  path_cost (RectPuzzle.neighbors board34) near_goal34 1 (RectPuzzle.GOAL board34).
Proof.
  apply (is_path_sound (RectPuzzle.neighbors board34) _ _ [RectPuzzle.GOAL board34]).
  vm_compute. reflexivity.
Qed.

Lemma near_goal34_board : board board34 near_goal34.
Proof.
  eapply rect_path_board; [exact near_goal34_path|]. unfold board. reflexivity.
Qed.

(** X1. On every board of a puzzle that the constructor builds, [neighbors]
    returns between two and four successors; each of them has cost 1, is a
    board other than the state itself, and has the state among its own
    successors (every move can be undone). *)
Theorem rect_neighbors_on_board (rows cols : nat) (self : RectPuzzle.t) (s : State) :
  RectPuzzle.new rows cols = Some self → board self s →
  (2 ≤ length (RectPuzzle.neighbors self s) ≤ 4)%nat
  ∧ ∀ s1 c, (s1, c) ∈ RectPuzzle.neighbors self s →
      c = 1 ∧ board self s1 ∧ s1 ≠ s ∧ (s, 1) ∈ RectPuzzle.neighbors self s1.
Proof.
  intros (HR & HC & Hsz)%rect_new_dims Hb. split.
  - by apply rect_neighbors_length.
  - intros s1 c Hin. split; [by eapply rect_unit_costs|].
    split; [by eapply rect_board_forward|].
    split; [exact (rect_move_changes self s s1 c ltac:(lia) Hb Hin)|].
    exact (rect_neighbors_sym self s s1 c ltac:(lia) Hb Hin).
Qed.

Lemma rect_neighbors_on_board_witness :
  (2 ≤ length (RectPuzzle.neighbors board34 near_goal34) ≤ 4)%nat
  ∧ ∀ s1 c, (s1, c) ∈ RectPuzzle.neighbors board34 near_goal34 →
      c = 1 ∧ board board34 s1 ∧ s1 ≠ near_goal34
      ∧ (near_goal34, 1) ∈ RectPuzzle.neighbors board34 s1.
Proof.
  exact (rect_neighbors_on_board 3 4 board34 near_goal34 eq_refl near_goal34_board).
Defined.

(** X2. Moves keep [is_solvable]: along every path from a board its value
    stays the same, so a state from which the goal is reached is solvable. *)
Theorem rect_is_solvable_along_paths (rows cols : nat) (self : RectPuzzle.t)
    (s t : State) (n : Z) :
  RectPuzzle.new rows cols = Some self → board self s →
  path_cost (RectPuzzle.neighbors self) s n t →
  RectPuzzle.is_solvable self t = RectPuzzle.is_solvable self s
  ∧ (t = RectPuzzle.GOAL self → RectPuzzle.is_solvable self s = true).
Proof.
  intros (HR & HC & Hsz)%rect_new_dims Hb Hp.
  pose proof (rect_path_solvable self s t n Hp Hb) as Heq. split; [done|].
  intros ->. rewrite <- Heq. by apply rect_GOAL_solvable.
Qed.

Lemma rect_is_solvable_along_paths_witness :
  RectPuzzle.is_solvable board34 (RectPuzzle.GOAL board34)
  = RectPuzzle.is_solvable board34 near_goal34
  ∧ (RectPuzzle.GOAL board34 = RectPuzzle.GOAL board34 →
     RectPuzzle.is_solvable board34 near_goal34 = true).
Proof.
  exact (rect_is_solvable_along_paths 3 4 board34 near_goal34 _ 1 eq_refl
           near_goal34_board near_goal34_path).
Defined.

(** X3. [manhattan] returns exactly on the tuples whose entries are 0 to
    [size - 1], of any length (any other entry is no key of [_goal_pos]),
    and what it returns is not negative. *)
Theorem rect_manhattan_defined (rows cols : nat) (self : RectPuzzle.t) (s : State) :
  RectPuzzle.new rows cols = Some self →
  (is_Some (RectPuzzle.manhattan self s)
   ↔ ∀ t, t ∈ s → 0 ≤ t < Z.of_nat (RectPuzzle.size self))
  ∧ ∀ m, RectPuzzle.manhattan self s = Some m → 0 ≤ m.
Proof.
  intros (HR & HC & Hsz)%rect_new_dims.
  rewrite <- (tiles_ok_range self s) by lia.
  destruct (tiles_ok_dec self s) as [Hok|Hno].
  - rewrite (rect_manhattan_Some self s Hok). split.
    + split; [done|by eexists].
    + intros m [= <-]. apply rsum_nonneg.
  - rewrite (rect_manhattan_None self s Hno). split; [|done].
    split; [by intros [? ?]|done].
Qed.

Lemma rect_manhattan_defined_witness :
  (is_Some (RectPuzzle.manhattan board34 [3; 12; 0])
   ↔ ∀ t, t ∈ [3; 12; 0] → 0 ≤ t < Z.of_nat (RectPuzzle.size board34))
  ∧ ∀ m, RectPuzzle.manhattan board34 [3; 12; 0] = Some m → 0 ≤ m.
Proof. exact (rect_manhattan_defined 3 4 board34 [3; 12; 0] eq_refl). Defined.

(** X4. One move changes the Manhattan distance of a board by exactly 1,
    up or down. *)
Theorem rect_manhattan_step (rows cols : nat) (self : RectPuzzle.t) (s s1 : State)
    (c : Z) :
  RectPuzzle.new rows cols = Some self → board self s →
  (s1, c) ∈ RectPuzzle.neighbors self s →
  ∃ m m1, RectPuzzle.manhattan self s = Some m
          ∧ RectPuzzle.manhattan self s1 = Some m1
          ∧ (m1 = m + 1 ∨ m1 = m - 1).
Proof.
  intros (HR & HC & Hsz)%rect_new_dims Hb Hin.
  destruct (rect_manhattan_move self s s1 c ltac:(lia) Hb Hin)
    as (m & m1 & ? & ? & _ & _ & ?).
  by exists m, m1.
Qed.

Lemma rect_manhattan_step_witness :
  ∃ m m1, RectPuzzle.manhattan board34 near_goal34 = Some m
          ∧ RectPuzzle.manhattan board34 (RectPuzzle.GOAL board34) = Some m1
          ∧ (m1 = m + 1 ∨ m1 = m - 1).
Proof.
  refine (rect_manhattan_step 3 4 board34 near_goal34 _ 1 eq_refl near_goal34_board _).
  apply (bool_decide_unpack _). vm_compute. reflexivity.
Defined.

(** X5. The Manhattan distance of a state is a lower bound of the length of
    every path from it to the goal, and has the parity of that length. *)
Theorem rect_manhattan_lower_bound (rows cols : nat) (self : RectPuzzle.t) (s : State)
    (n : Z) :
  RectPuzzle.new rows cols = Some self →
  path_cost (RectPuzzle.neighbors self) s n (RectPuzzle.GOAL self) →
  ∃ m, RectPuzzle.manhattan self s = Some m ∧ 0 ≤ m ≤ n ∧ (n - m) mod 2 = 0.
Proof.
  intros (HR & HC & Hsz)%rect_new_dims Hp.
  apply rect_manhattan_path; [lia|done].
Qed.

Lemma rect_manhattan_lower_bound_witness :
  ∃ m, RectPuzzle.manhattan board34 near_goal34 = Some m ∧ 0 ≤ m ≤ 1
       ∧ (1 - m) mod 2 = 0.
Proof.
  exact (rect_manhattan_lower_bound 3 4 board34 near_goal34 1 eq_refl near_goal34_path).
Defined.

(** X6. On boards the Manhattan distance is 0 at the goal and nowhere
    else. *)
Theorem rect_manhattan_zero_iff_goal (rows cols : nat) (self : RectPuzzle.t)
    (s : State) :
  RectPuzzle.new rows cols = Some self → board self s →
  RectPuzzle.manhattan self s = Some 0 ↔ s = RectPuzzle.GOAL self.
Proof.
  intros (HR & HC & Hsz)%rect_new_dims Hb. split.
  - apply rect_manhattan_zero; [lia|done].
  - intros ->. apply rect_manhattan_GOAL.
Qed.

Lemma rect_manhattan_zero_iff_goal_witness :
  RectPuzzle.manhattan board34 near_goal34 = Some 0
  ↔ near_goal34 = RectPuzzle.GOAL board34.
Proof.
  exact (rect_manhattan_zero_iff_goal 3 4 board34 near_goal34 eq_refl near_goal34_board).
Defined.

(** X7. Whenever [linear_conflict] returns, so does [manhattan], and the
    linear-conflict value is the Manhattan distance plus an even number that
    is not negative. *)
Theorem rect_linear_conflict_dominates (self : RectPuzzle.t) (s : State) (v : Z) :
  RectPuzzle.linear_conflict self s = Some v →
  ∃ m k, RectPuzzle.manhattan self s = Some m ∧ 0 ≤ k ∧ v = m + 2 * k.
Proof.
  intros (m & Hm & k & Hk & ->)%rect_linear_conflict_above. by exists m, k.
Qed.

Lemma rect_linear_conflict_dominates_witness :
  ∃ m k, RectPuzzle.manhattan board34 [2;1;3;4;5;6;7;8;9;10;11;0] = Some m
         ∧ 0 ≤ k ∧ 4 = m + 2 * k.
Proof.
  refine (rect_linear_conflict_dominates board34 [2;1;3;4;5;6;7;8;9;10;11;0] 4 _).
  vm_compute. reflexivity.
Defined.

(** X8. [linear_conflict] returns exactly on the tuples whose entries are 0
    to [size - 1] and that have at least [size] entries: a shorter tuple
    makes the column loop raise. *)
Theorem rect_linear_conflict_defined (rows cols : nat) (self : RectPuzzle.t)
    (s : State) :
  RectPuzzle.new rows cols = Some self →
  is_Some (RectPuzzle.linear_conflict self s)
  ↔ (∀ t, t ∈ s → 0 ≤ t < Z.of_nat (RectPuzzle.size self))
    ∧ (RectPuzzle.size self ≤ length s)%nat.
Proof.
  intros (HR & HC & Hsz)%rect_new_dims.
  rewrite <- (tiles_ok_range self s) by lia. split.
  - intros [v Hv]. split.
    + destruct (tiles_ok_dec self s) as [|Hno]; [done|].
      unfold RectPuzzle.linear_conflict in Hv.
      by rewrite (rect_manhattan_None self s Hno) in Hv.
    + destruct (decide (RectPuzzle.size self ≤ length s)%nat) as [|Hshort]; [done|].
      by rewrite (rect_linear_conflict_short self s ltac:(lia)) in Hv.
  - intros [Hok Hlen]. by apply rect_linear_conflict_Some.
Qed.

Lemma rect_linear_conflict_defined_witness :
  is_Some (RectPuzzle.linear_conflict board34 [1;2;3])
  ↔ (∀ t, t ∈ [1;2;3] → 0 ≤ t < Z.of_nat (RectPuzzle.size board34))
    ∧ (RectPuzzle.size board34 ≤ length [1;2;3])%nat.
Proof. exact (rect_linear_conflict_defined 3 4 board34 [1;2;3] eq_refl). Defined.

(** ** The N×N class ([src/domains/puzzlen.py]) *)

(** X9. [NPuzzle(n)] is [RectPuzzle(n, n)]: the constructors accept the
    same sizes, and the goal, the successors, the random walk, the
    solvability test and both heuristics are the same functions. *)
Theorem npuzzle_is_square_rect {G} (Random : Z → G) (choice : G → list nat → nat * G)
    (n : nat) (self : NPuzzle.t) (s : State) (depth seed : Z) :
  npuzzle_rect <$> NPuzzle.new n = RectPuzzle.new n n
  ∧ NPuzzle.GOAL self = RectPuzzle.GOAL (npuzzle_rect self)
  ∧ NPuzzle.neighbors self s = RectPuzzle.neighbors (npuzzle_rect self) s
  ∧ NPuzzle.scramble Random choice self depth seed
    = RectPuzzle.scramble Random choice (npuzzle_rect self) depth seed
  ∧ NPuzzle.is_solvable self s = RectPuzzle.is_solvable (npuzzle_rect self) s
  ∧ NPuzzle.manhattan self s = RectPuzzle.manhattan (npuzzle_rect self) s
  ∧ NPuzzle.linear_conflict self s = RectPuzzle.linear_conflict (npuzzle_rect self) s.
Proof.
  split; [|by repeat split].
  unfold NPuzzle.new, RectPuzzle.new. by case_bool_decide.
Qed.

(** ** The 3×3 module ([src/domains/puzzle8.py]) against the classes *)



(** ** The random walks ([scramble] of the three domains) *)

(** X11. With a generator whose [choice] returns an element of its
    non-empty argument, what [scramble] returns is a board from which the
    goal is reached in [depth] moves (in none when [depth] is negative): the
    walk of the generator can be walked back. *)
Theorem scramble_walks_back {G} (Random : Z → G) (choice : G → list nat → nat * G)
    (depth seed : Z) :
  (∀ g cand, cand ≠ [] → (choice g cand).1 ∈ cand) →
  (∀ s, Puzzle8.scramble Random choice depth seed = Some s →
        board board33 s
        ∧ path_cost Puzzle8.neighbors s (Z.max 0 depth) Puzzle8.GOAL)
  ∧ (∀ rows cols self s,
       RectPuzzle.new rows cols = Some self →
       RectPuzzle.scramble Random choice self depth seed = Some s →
       board self s
       ∧ path_cost (RectPuzzle.neighbors self) s (Z.max 0 depth) (RectPuzzle.GOAL self)).
Proof.
  intros Hch. replace (Z.max 0 depth) with (Z.of_nat (Z.to_nat depth)) by lia. split.
  - intros s Hs. by eapply puzzle8_scramble_path.
  - intros rows cols self s (HR & HC & Hsz)%rect_new_dims Hs.
    eapply rect_scramble_path; [done|lia|done].
Qed.

Lemma scramble_walks_back_witness :
  (∀ s, Puzzle8.scramble counter_Random counter_choice 6 0 = Some s →
        board board33 s ∧ path_cost Puzzle8.neighbors s (Z.max 0 6) Puzzle8.GOAL)
  ∧ (∀ rows cols self s,
       RectPuzzle.new rows cols = Some self →
       RectPuzzle.scramble counter_Random counter_choice self 6 0 = Some s →
       board self s
       ∧ path_cost (RectPuzzle.neighbors self) s (Z.max 0 6) (RectPuzzle.GOAL self)).
Proof.
  exact (scramble_walks_back counter_Random counter_choice 6 0 counter_choice_elem).
Defined.

(** ** The experiment runner ([src/experiments/runner.py]) *)

(** X12. On every board of a puzzle that the constructor builds,
    [make_unsolvable_variant] returns a board with the blank at the same
    place and with the other value of [is_solvable]. *)
Theorem unsolvable_variant_flips (rows cols : nat) (self : RectPuzzle.t) (s : State) :
  RectPuzzle.new rows cols = Some self → board self s →
  ∃ u, Runner.make_unsolvable_variant s = Some u
       ∧ board self u
       ∧ index 0 u = index 0 s
       ∧ RectPuzzle.is_solvable self u = negb (RectPuzzle.is_solvable self s).
Proof.
  intros (HR & HC & Hsz)%rect_new_dims Hb.
  destruct (variant_board_Some self s ltac:(lia) Hb) as [u Hu].
  destruct (variant_rect_solvable self s u ltac:(lia) Hb Hu) as [Hbu Hsol].
  exists u. split; [done|]. split; [done|]. split; [by apply variant_blank|done].
Qed.

Lemma unsolvable_variant_flips_witness :
  ∃ u, Runner.make_unsolvable_variant near_goal34 = Some u
       ∧ board board34 u
       ∧ index 0 u = index 0 near_goal34
       ∧ RectPuzzle.is_solvable board34 u
         = negb (RectPuzzle.is_solvable board34 near_goal34).
Proof.
  exact (unsolvable_variant_flips 3 4 board34 near_goal34 eq_refl near_goal34_board).
Defined.

(** X13. [make_unsolvable_variant] undoes itself: applied to what it
    returned it gives the tuple back; what it returns is a permutation of
    the tuple with the blanks where they were. *)
Theorem unsolvable_variant_involutive (s u : State) :
  Runner.make_unsolvable_variant s = Some u →
  Runner.make_unsolvable_variant u = Some s
  ∧ u ≡ₚ s
  ∧ ∀ k, u !! k = Some 0 ↔ s !! k = Some 0.
Proof.
  intros Hu. split; [by apply variant_involutive|].
  split; [by apply variant_Permutation|].
  apply variant_Some in Hu as (A & a & M & b & B & -> & HA & HM & Ha & Hb & ->).
  intros k.
  destruct (decide (k < length A)%nat) as [Hk|Hk].
  { by rewrite !lookup_app_l by done. }
  rewrite !lookup_app_r by lia.
  destruct (k - length A)%nat as [|k1] eqn:E; simpl.
  { split; intros [= ?]; done. }
  destruct (decide (k1 < length M)%nat) as [Hk1|Hk1].
  { by rewrite !lookup_app_l by done. }
  rewrite !lookup_app_r by lia.
  destruct (k1 - length M)%nat as [|k2]; simpl; [|done].
  split; intros [= ?]; done.
Qed.

Lemma unsolvable_variant_involutive_witness :
  Runner.make_unsolvable_variant [2;1;3;4;5;6;7;8;0] = Some [1;2;3;4;5;6;7;8;0]
  ∧ [2;1;3;4;5;6;7;8;0] ≡ₚ [1;2;3;4;5;6;7;8;0]
  ∧ ∀ k, [2;1;3;4;5;6;7;8;0] !! k = Some 0 ↔ [1;2;3;4;5;6;7;8;0] !! k = Some 0.
Proof.
  exact (unsolvable_variant_involutive [1;2;3;4;5;6;7;8;0] [2;1;3;4;5;6;7;8;0] eq_refl).
Defined.

(** X14. [make_unsolvable_variant] raises ([StopIteration]) exactly on the
    tuples with fewer than two entries other than the blank. *)
Theorem unsolvable_variant_raises (s : State) :
  Runner.make_unsolvable_variant s = None
  ↔ (length (filter (λ x, x ≠ 0%Z) s) < 2)%nat.
Proof. apply variant_None. Qed.

(** X15. The instances that [_gen] returns: [per_depth] of them for each
    depth, in the order of [depths]; the state of each is the scramble of
    its depth with the seed before the one recorded (the seed is counted up
    before the instance is stored) and passed [inst_is_solvable]; the seeds
    are above [start_seed] and increase strictly along the list. *)
Theorem gen_instances_sound (inst_scramble : Z → Z → option State)
    (inst_is_solvable : State → bool) (fuel : nat) (depths : list Z)
    (per_depth start_seed : Z) (out : list Runner.Instance) :
  Runner._gen inst_scramble inst_is_solvable fuel depths per_depth start_seed
  = Some (Runner.Returns out) →
  Runner.depth <$> out = depths ≫= (λ d, replicate (Z.to_nat per_depth) d)
  ∧ (∀ i, i ∈ out →
       start_seed < Runner.seed i
       ∧ inst_scramble (Runner.depth i) (Runner.seed i - 1) = Some (Runner.state i)
       ∧ inst_is_solvable (Runner.state i) = true)
  ∧ (∀ k1 k2 i1 i2, (k1 < k2)%nat → out !! k1 = Some i1 → out !! k2 = Some i2 →
       Runner.seed i1 < Runner.seed i2).
Proof.
  unfold Runner._gen. intros Hg.
  apply gen_depths_returns in Hg as (new & seed' & Hout & Hdep & Hall & Hseeds).
  simpl in Hout. subst new. split; [done|]. split.
  - intros i Hi. rewrite Forall_forall in Hall.
    destruct (Hall i Hi) as (d & _ & Hd & Hs & Hsol).
    apply list_elem_of_lookup in Hi as [k Hk].
    destruct (seeds_between_lookup _ _ _ _ _ Hseeds Hk) as [[? _] _].
    split; [done|]. rewrite Hd. by split.
  - intros k1 k2 i1 i2. by eapply seeds_between_increasing.
Qed.

Lemma gen_instances_sound_witness :
  ∃ out, Runner._gen (Puzzle8.scramble counter_Random counter_choice)
                     Puzzle8.is_solvable 10 [2; 3] 2 0 = Some (Runner.Returns out)
  ∧ Runner.depth <$> out = [2; 3] ≫= (λ d, replicate (Z.to_nat 2) d)
  ∧ (∀ i, i ∈ out →
       0 < Runner.seed i
       ∧ Puzzle8.scramble counter_Random counter_choice (Runner.depth i)
                          (Runner.seed i - 1) = Some (Runner.state i)
       ∧ Puzzle8.is_solvable (Runner.state i) = true)
  ∧ (∀ k1 k2 i1 i2, (k1 < k2)%nat → out !! k1 = Some i1 → out !! k2 = Some i2 →
       Runner.seed i1 < Runner.seed i2).
Proof.
  eexists. split; [vm_compute; reflexivity|].
  refine (gen_instances_sound (Puzzle8.scramble counter_Random counter_choice)
            Puzzle8.is_solvable 10 [2; 3] 2 0 _ _).
  vm_compute. reflexivity.
Defined.

(** X16. When every scrambled state passes the test (as with the
    generators of the domains), [_gen] never raises: it returns
    [per_depth] instances per depth, made from the consecutive seeds that
    follow [start_seed]. *)
Theorem gen_all_solvable (inst_scramble : Z → Z → option State)
    (inst_is_solvable : State → bool) (fuel : nat) (depths : list Z)
    (per_depth start_seed : Z) :
  (∀ d sd, ∃ s, inst_scramble d sd = Some s ∧ inst_is_solvable s = true) →
  0 ≤ per_depth < Z.of_nat fuel →
  ∃ out, Runner._gen inst_scramble inst_is_solvable fuel depths per_depth start_seed
         = Some (Runner.Returns out)
         ∧ Runner.seed <$> out
           = (λ k, start_seed + 1 + Z.of_nat k)
               <$> seq 0 (Z.to_nat per_depth * length depths).
Proof.
  intros Hall [Hpd Hf]. unfold Runner._gen.
  destruct (gen_depths_all inst_scramble inst_is_solvable fuel depths per_depth
              start_seed [] Hall Hpd Hf) as (new & Hg & Hs).
  exists new. by split.
Qed.

Lemma gen_all_solvable_witness :
  ∃ out, Runner._gen (Puzzle8.scramble counter_Random counter_choice)
                     Puzzle8.is_solvable 31 [6; 10; 14] 30 0
         = Some (Runner.Returns out)
         ∧ Runner.seed <$> out
           = (λ k, 0 + 1 + Z.of_nat k) <$> seq 0 (Z.to_nat 30 * length [6; 10; 14]).
Proof.
  refine (gen_all_solvable (Puzzle8.scramble counter_Random counter_choice)
            Puzzle8.is_solvable 31 [6; 10; 14] 30 0 _ _).
  - intros d sd. exact (puzzle8_scramble_solvable _ _ counter_choice_elem d sd).
  - simpl. lia.
Defined.

(** X17. [_gen] ends for every generator and every test: no depth takes
    more than [2000 * per_depth + 1] rounds of its loop, after which the
    call has returned or raised. *)
Theorem gen_terminates (inst_scramble : Z → Z → option State)
    (inst_is_solvable : State → bool) (fuel : nat) (depths : list Z)
    (per_depth start_seed : Z) :
  Z.max 0 (per_depth * 2000 + 1) < Z.of_nat fuel →
  is_Some (Runner._gen inst_scramble inst_is_solvable fuel depths per_depth start_seed).
Proof. intros Hf. unfold Runner._gen. by apply gen_depths_terminates. Qed.

Lemma gen_terminates_witness :
  is_Some (Runner._gen (Puzzle8.scramble counter_Random counter_choice)
                       (λ s, negb (Puzzle8.is_solvable s)) 2002 [6; 10] 1 0).
Proof.
  refine (gen_terminates _ _ 2002 [6; 10] 1 0 _). simpl. lia.
Defined.

(** X18. When no scrambled state of the first depth passes the test and at
    least one instance is asked for, [_gen] raises [RuntimeError]. *)
Theorem gen_gives_up (inst_scramble : Z → Z → option State)
    (inst_is_solvable : State → bool) (fuel : nat) (d : Z) (depths : list Z)
    (per_depth start_seed : Z) :
  (∀ sd, ∃ s, inst_scramble d sd = Some s ∧ inst_is_solvable s = false) →
  1 ≤ per_depth →
  per_depth * 2000 + 1 < Z.of_nat fuel →
  Runner._gen inst_scramble inst_is_solvable fuel (d :: depths) per_depth start_seed
  = Some (Runner.Raises Runner.RuntimeError).
Proof.
  intros Hno Hpd Hf. unfold Runner._gen. simpl.
  by rewrite (gen_depth_gives_up inst_scramble inst_is_solvable fuel d per_depth 0
                start_seed [] Hno Hpd ltac:(lia)).
Qed.

Lemma gen_gives_up_witness :
  Runner._gen (Puzzle8.scramble counter_Random counter_choice)
              (λ s, negb (Puzzle8.is_solvable s)) 2002 [6; 10] 1 0
  = Some (Runner.Raises Runner.RuntimeError).
Proof.
  refine (gen_gives_up _ _ 2002 6 [10] 1 0 _ _ _).
  - intros sd.
    destruct (puzzle8_scramble_solvable counter_Random counter_choice
                counter_choice_elem 6 sd) as (s & Hs & Hsol).
    exists s. split; [exact Hs|]. by rewrite Hsol.
  - lia.
  - simpl. lia.
Defined.

(** ** The searches: what an ["ok"] record holds *)

(** X19. The cost [g] of an ["ok"] record of [a_star] is the cost of a path
    from the start to the goal: the sum of the costs of its edges, for every
    heuristic, every edge cost, every tie break and timeout, and also when
    no path is asked for. *)
Theorem astar_cost_is_path_cost {St} `{Countable St}
    (dn : St → list (St * Z)) (clock : nat → Q) (goal : St) (hfun : St → Z)
    (nf : option (St → list (St * Z))) (tb : string) (rp : bool)
    (tmo : option Q) (fuel : nat) (start : St) (r : gmap string (Value St)) :
  AStar.a_star dn clock goal hfun nf tb rp tmo fuel start = Some r →
  termination_is r "ok" →
  ∃ g, r !! "g"%string = Some (VInt g)
       ∧ path_cost (AStar.neighbors dn nf) start g goal.
Proof. intros Hr. exact (astar_cost_real dn clock goal hfun nf tb rp tmo start fuel r Hr). Qed.

Lemma astar_cost_is_path_cost_witness :
  ∃ r g, AStar.a_star Puzzle8.neighbors still_clock Puzzle8.GOAL Puzzle8.linear_conflict
                      None "g" false None 200 six_away = Some r
         ∧ r !! "g"%string = Some (VInt g)
         ∧ path_cost Puzzle8.neighbors six_away g Puzzle8.GOAL.
Proof.
  destruct (run_returns
              (AStar.a_star Puzzle8.neighbors still_clock Puzzle8.GOAL
                            Puzzle8.linear_conflict None "g" false None 200 six_away))
    as [r E]; [vm_compute; reflexivity|].
  destruct (astar_cost_is_path_cost Puzzle8.neighbors still_clock Puzzle8.GOAL
              Puzzle8.linear_conflict None "g" false None 200 six_away r E)
    as (g & Hg & Hp).
  - run_key E.
  - exists r, g. split; [exact E|]. split; [exact Hg|exact Hp].
Defined.

(** X20. With a heuristic and edge costs that are not negative, the cost
    [g] of an ["ok"] record of [ida_star] is the cost of a path from the
    start to the goal and is not above ["bound_final"], with and without
    BPMX. *)
Theorem ida_cost_is_path_cost {St} `{Countable St}
    (dn : St → list (St * Z)) (clock : nat → Q) (goal : St) (hfun : St → Z)
    (nf : option (St → list (St * Z))) (bp rp : bool)
    (tmo : option Q) (fuel : nat) (start : St) (r : gmap string (Value St)) :
  (∀ s, 0 ≤ hfun s) →
  (∀ s s2 c, (s2, c) ∈ IdaStar.neighbors dn nf s → 0 ≤ c) →
  IdaStar.ida_star dn clock goal hfun nf bp rp tmo fuel start = Some r →
  termination_is r "ok" →
  ∃ g b, r !! "g"%string = Some (VInt g)
         ∧ r !! "bound_final"%string = Some (VInt b)
         ∧ path_cost (IdaStar.neighbors dn nf) start g goal ∧ g ≤ b.
Proof.
  intros Hh Hc Hr.
  exact (ida_star_cost_real dn clock goal hfun nf bp rp tmo start Hh Hc fuel r Hr).
Qed.

Lemma ida_cost_is_path_cost_witness :
  ∃ r g b, IdaStar.ida_star Puzzle8.neighbors still_clock Puzzle8.GOAL Puzzle8.manhattan
                            None true false None 20 six_away = Some r
           ∧ r !! "g"%string = Some (VInt g)
           ∧ r !! "bound_final"%string = Some (VInt b)
           ∧ path_cost Puzzle8.neighbors six_away g Puzzle8.GOAL ∧ g ≤ b.
Proof.
  destruct (run_returns
              (IdaStar.ida_star Puzzle8.neighbors still_clock Puzzle8.GOAL
                                Puzzle8.manhattan None true false None 20 six_away))
    as [r E]; [vm_compute; reflexivity|].
  destruct (ida_cost_is_path_cost Puzzle8.neighbors still_clock Puzzle8.GOAL
              Puzzle8.manhattan None true false None 20 six_away r)
    as (g & b & Hg & Hb & Hp & Hle).
  - exact manhattan_nonneg.
  - intros s s2 c Hin. rewrite (puzzle8_unit_costs s s2 c Hin). lia.
  - exact E.
  - run_key E.
  - exists r, g, b. split; [exact E|]. split; [exact Hg|]. split; [exact Hb|].
    split; [exact Hp|exact Hle].
Defined.

(** X21. An ["ok"] record of [bfs] holds a path that starts at the start,
    ends at the goal and follows edges, and its [g] is the number of edges of
    that path, whatever the edge costs. *)
Theorem bfs_path_is_valid {St} `{Countable St}
    (clock : nat → Q) (goal : St) (nbrs : St → list (St * Z))
    (tmo : option Q) (fuel : nat) (start : St) (r : gmap string (Value St)) :
  Bfs.bfs clock goal nbrs tmo fuel start = Some r →
  termination_is r "ok" →
  ∃ p, r !! "path"%string = Some (VPath p)
       ∧ is_path_from_to nbrs start goal p
       ∧ r !! "g"%string = Some (VInt (Z.of_nat (length p) - 1)).
Proof. intros Hr. exact (bfs_sound clock goal nbrs tmo start fuel r Hr). Qed.

Lemma bfs_path_is_valid_witness :
  ∃ r p, Bfs.bfs still_clock 1%nat one_edge None 10 0%nat = Some r
         ∧ r !! "path"%string = Some (VPath p)
         ∧ is_path_from_to one_edge 0%nat 1%nat p
         ∧ r !! "g"%string = Some (VInt (Z.of_nat (length p) - 1)).
Proof.
  destruct (run_returns (Bfs.bfs still_clock 1%nat one_edge None 10 0%nat))
    as [r E]; [vm_compute; reflexivity|].
  destruct (bfs_path_is_valid still_clock 1%nat one_edge None 10 0%nat r E)
    as (p & Hp & Hv & Hg).
  - run_key E.
  - exists r, p. split; [exact E|]. split; [exact Hp|]. split; [exact Hv|exact Hg].
Defined.

(** X22. An ["ok"] record of [dfs] holds [g = 0] when the start is the
    goal, and otherwise the number of edges of a path from the start to the
    goal, not above [max_depth] when one is set. *)
Theorem dfs_cost_is_path_length {St} `{Countable St}
    (clock : nat → Q) (goal : St) (nbrs : St → list (St * Z)) (md : option Z)
    (tmo : option Q) (fuel : nat) (start : St) (r : gmap string (Value St)) :
  Dfs.dfs clock goal nbrs md tmo fuel start = Some r →
  termination_is r "ok" →
  ∃ n, r !! "g"%string = Some (VInt (Z.of_nat n))
       ∧ steps nbrs start n goal
       ∧ (start = goal → n = 0%nat)
       ∧ (start ≠ goal → ∀ m, md = Some m → Z.of_nat n ≤ m).
Proof.
  intros Hr Hok. destruct (dfs_sound clock goal nbrs md tmo start fuel r Hr)
    as [[-> Hg]|[Hne Hs]].
  - exists 0%nat. split; [exact Hg|]. split; [constructor|]. split; [done|done].
  - destruct (Hs Hok) as (n & Hg & Hst & Hmd). exists n.
    split; [done|]. split; [done|]. split; [done|]. intros _. exact Hmd.
Qed.

Lemma dfs_cost_is_path_length_witness :
  ∃ r n, Dfs.dfs still_clock Puzzle8.GOAL Puzzle8.neighbors (Some 5) None 200 near_goal
         = Some r
         ∧ r !! "g"%string = Some (VInt (Z.of_nat n))
         ∧ steps Puzzle8.neighbors near_goal n Puzzle8.GOAL
         ∧ (near_goal = Puzzle8.GOAL → n = 0%nat)
         ∧ (near_goal ≠ Puzzle8.GOAL → ∀ m, Some 5 = Some m → Z.of_nat n ≤ m).
Proof.
  destruct (run_returns
              (Dfs.dfs still_clock Puzzle8.GOAL Puzzle8.neighbors (Some 5) None 200
                       near_goal))
    as [r E]; [vm_compute; reflexivity|].
  destruct (dfs_cost_is_path_length still_clock Puzzle8.GOAL Puzzle8.neighbors (Some 5)
              None 200 near_goal r E) as (n & Hg & Hs & H0 & Hm).
  - run_key E.
  - exists r, n. split; [exact E|]. split; [exact Hg|]. split; [exact Hs|].
    split; [exact H0|exact Hm].
Defined.

(** ** The searches: a goal that cannot be reached *)

(** The 2×2 board and an unsolvable state of it, for the examples. *)
Definition board22 : RectPuzzle.t := {| RectPuzzle.R := 2; RectPuzzle.C := 2 |}.
Definition swapped22 : State := [2;1;3;0].

Lemma swapped22_board : board board22 swapped22.
Proof. unfold board. apply (bool_decide_unpack _). vm_compute. reflexivity. Qed.

Lemma boards_closed (self : RectPuzzle.t) (s s1 : State) (c : Z) :
  s ∈ boards self → (s1, c) ∈ RectPuzzle.neighbors self s → s1 ∈ boards self.
Proof. rewrite !elem_of_boards. intros Hb Hin. by eapply rect_board_forward. Qed.

(** X23. When the states that can be reached lie in a finite set and the
    goal is not among them, [a_star] without timeout ends with
    ["exhausted"] and no cost after expanding every state that can be
    reached exactly once, whatever the heuristic and the tie break. *)
Theorem astar_exhausts_unreachable {St} `{Countable St}
    (dn : St → list (St * Z)) (clock : nat → Q) (goal : St) (hfun : St → Z)
    (nf : option (St → list (St * Z))) (tb : string) (rp : bool) (start : St)
    (B : gset St) :
  start ∈ B →
  (∀ s s1 c, s ∈ B → (s1, c) ∈ AStar.neighbors dn nf s → s1 ∈ B) →
  ¬ reachable (AStar.neighbors dn nf) start goal →
  ∃ N, ∀ fuel, (N ≤ fuel)%nat →
    ∃ r (F : gset St),
      AStar.a_star dn clock goal hfun nf tb rp None fuel start = Some r
      ∧ termination_is r "exhausted" ∧ r !! "g"%string = Some VNone
      ∧ (∀ s, s ∈ F ↔ reachable (AStar.neighbors dn nf) start s)
      ∧ r !! "expanded"%string = Some (VInt (Z.of_nat (size F))).
Proof.
  intros Hs Hcl Hun.
  destruct (astar_exhausts_any dn nf start goal B clock hfun tb rp Hs Hcl Hun) as [N HN].
  exists N. intros fuel Hf. destruct (HN fuel Hf) as (r & Hr & Hex & Hg & F & HF & He).
  by exists r, F.
Qed.

Lemma astar_exhausts_unreachable_witness :
  ∃ N, ∀ fuel, (N ≤ fuel)%nat →
    ∃ r (F : gset State),
      AStar.a_star Puzzle8.neighbors still_clock (RectPuzzle.GOAL board22)
                   (λ _, 0) (Some (RectPuzzle.neighbors board22)) "h" false None fuel
                   swapped22 = Some r
      ∧ termination_is r "exhausted" ∧ r !! "g"%string = Some VNone
      ∧ (∀ s, s ∈ F ↔ reachable (RectPuzzle.neighbors board22) swapped22 s)
      ∧ r !! "expanded"%string = Some (VInt (Z.of_nat (size F))).
Proof.
  refine (astar_exhausts_unreachable Puzzle8.neighbors still_clock
            (RectPuzzle.GOAL board22) (λ _, 0) (Some (RectPuzzle.neighbors board22))
            "h" false swapped22 (boards board22) _ _ _).
  - apply elem_of_boards. exact swapped22_board.
  - intros s s1 c. apply boards_closed.
  - apply rect_unsolvable_unreachable; [simpl; lia|simpl; lia|].
    vm_compute. reflexivity.
Defined.

(** X24. Under the same conditions [bfs] without timeout ends with
    ["exhausted"] and no cost after expanding every state that can be
    reached exactly once. *)
Theorem bfs_exhausts_unreachable {St} `{Countable St}
    (clock : nat → Q) (goal : St) (nbrs : St → list (St * Z)) (start : St)
    (B : gset St) :
  start ∈ B →
  (∀ s s1 c, s ∈ B → (s1, c) ∈ nbrs s → s1 ∈ B) →
  ¬ reachable nbrs start goal →
  ∃ N, ∀ fuel, (N ≤ fuel)%nat →
    ∃ r (F : gset St),
      Bfs.bfs clock goal nbrs None fuel start = Some r
      ∧ termination_is r "exhausted" ∧ r !! "g"%string = Some VNone
      ∧ (∀ s, s ∈ F ↔ reachable nbrs start s)
      ∧ r !! "expanded"%string = Some (VInt (Z.of_nat (size F))).
Proof.
  intros Hs Hcl Hun.
  destruct (bfs_exhausts nbrs start goal B Hs Hcl Hun clock) as [N HN].
  exists N. intros fuel Hf. destruct (HN fuel Hf) as (r & Hr & Hex & Hg & F & HF & He).
  by exists r, F.
Qed.

Lemma bfs_exhausts_unreachable_witness :
  ∃ N, ∀ fuel, (N ≤ fuel)%nat →
    ∃ r (F : gset State),
      Bfs.bfs still_clock (RectPuzzle.GOAL board22) (RectPuzzle.neighbors board22) None
              fuel swapped22 = Some r
      ∧ termination_is r "exhausted" ∧ r !! "g"%string = Some VNone
      ∧ (∀ s, s ∈ F ↔ reachable (RectPuzzle.neighbors board22) swapped22 s)
      ∧ r !! "expanded"%string = Some (VInt (Z.of_nat (size F))).
Proof.
  refine (bfs_exhausts_unreachable still_clock (RectPuzzle.GOAL board22)
            (RectPuzzle.neighbors board22) swapped22 (boards board22) _ _ _).
  - apply elem_of_boards. exact swapped22_board.
  - intros s s1 c. apply boards_closed.
  - apply rect_unsolvable_unreachable; [simpl; lia|simpl; lia|].
    vm_compute. reflexivity.
Defined.

(** ** The runs of the runner ([main] of [src/experiments/runner.py]) *)

(** X25. The unsolvable variant of a solvable board is never solved: on
    the variant none of the four searches returns ["ok"], whatever the
    heuristic (not negative for [ida_star]), the tie break, the depth bound,
    the timeout and the clock. *)
Theorem unsolvable_variant_never_solved (rows cols : nat) (self : RectPuzzle.t)
    (s u : State) :
  RectPuzzle.new rows cols = Some self → board self s →
  RectPuzzle.is_solvable self s = true →
  Runner.make_unsolvable_variant s = Some u →
  (∀ dn clock hfun tb rp tmo fuel r,
     AStar.a_star dn clock (RectPuzzle.GOAL self) hfun (Some (RectPuzzle.neighbors self))
                  tb rp tmo fuel u = Some r →
     ¬ termination_is r "ok")
  ∧ (∀ dn clock hfun bp rp tmo fuel r,
       (∀ x, 0 ≤ hfun x) →
       IdaStar.ida_star dn clock (RectPuzzle.GOAL self) hfun
                        (Some (RectPuzzle.neighbors self)) bp rp tmo fuel u = Some r →
       ¬ termination_is r "ok")
  ∧ (∀ clock tmo fuel r,
       Bfs.bfs clock (RectPuzzle.GOAL self) (RectPuzzle.neighbors self) tmo fuel u
       = Some r →
       ¬ termination_is r "ok")
  ∧ (∀ clock md tmo fuel r,
       Dfs.dfs clock (RectPuzzle.GOAL self) (RectPuzzle.neighbors self) md tmo fuel u
       = Some r →
       ¬ termination_is r "ok").
Proof.
  intros (HR & HC & Hsz)%rect_new_dims Hb Hsol Hu.
  destruct (variant_rect_solvable self s u ltac:(lia) Hb Hu) as [Hbu Hflip].
  rewrite Hsol in Hflip. simpl in Hflip.
  pose proof (rect_unsolvable_unreachable self u HR HC Hflip) as Hun.
  split; [|split; [|split]].
  - intros dn clock hfun tb rp tmo fuel r. by apply astar_never_ok.
  - intros dn clock hfun bp rp tmo fuel r Hh. apply ida_never_ok; [done|done|].
    intros x x2 c Hin. rewrite (rect_unit_costs self x x2 c Hin). lia.
  - intros clock tmo fuel r. by apply bfs_never_ok.
  - intros clock md tmo fuel r. by apply dfs_never_ok.
Qed.

Lemma unsolvable_variant_never_solved_witness :
  (∀ dn clock hfun tb rp tmo fuel r,
     AStar.a_star dn clock (RectPuzzle.GOAL board33) hfun
                  (Some (RectPuzzle.neighbors board33)) tb rp tmo fuel
                  [2;1;3;4;5;6;7;8;0] = Some r →
     ¬ termination_is r "ok")
  ∧ (∀ dn clock hfun bp rp tmo fuel r,
       (∀ x, 0 ≤ hfun x) →
       IdaStar.ida_star dn clock (RectPuzzle.GOAL board33) hfun
                        (Some (RectPuzzle.neighbors board33)) bp rp tmo fuel
                        [2;1;3;4;5;6;7;8;0] = Some r →
       ¬ termination_is r "ok")
  ∧ (∀ clock tmo fuel r,
       Bfs.bfs clock (RectPuzzle.GOAL board33) (RectPuzzle.neighbors board33) tmo fuel
               [2;1;3;4;5;6;7;8;0] = Some r →
       ¬ termination_is r "ok")
  ∧ (∀ clock md tmo fuel r,
       Dfs.dfs clock (RectPuzzle.GOAL board33) (RectPuzzle.neighbors board33) md tmo
               fuel [2;1;3;4;5;6;7;8;0] = Some r →
       ¬ termination_is r "ok").
Proof.
  refine (unsolvable_variant_never_solved 3 3 board33 (RectPuzzle.GOAL board33)
            [2;1;3;4;5;6;7;8;0] eq_refl _ _ _).
  - unfold board. reflexivity.
  - vm_compute. reflexivity.
  - vm_compute. reflexivity.
Defined.

(** X26. On the unsolvable variant of a solvable board, [a_star] and [bfs]
    run without timeout both end with ["exhausted"], after expanding the
    same number of states: each state that can be reached from the variant,
    once; all of these are boards that are not solvable. *)
Theorem unsolvable_variant_exhausts (rows cols : nat) (self : RectPuzzle.t)
    (s u : State) :
  RectPuzzle.new rows cols = Some self → board self s →
  RectPuzzle.is_solvable self s = true →
  Runner.make_unsolvable_variant s = Some u →
  ∃ F : gset State,
    (∀ x, x ∈ F ↔ reachable (RectPuzzle.neighbors self) u x)
    ∧ (∀ x, x ∈ F → board self x ∧ RectPuzzle.is_solvable self x = false)
    ∧ ∀ dn clock hfun tb rp,
        ∃ N, ∀ fuel, (N ≤ fuel)%nat →
          ∃ ra rb,
            AStar.a_star dn clock (RectPuzzle.GOAL self) hfun
                         (Some (RectPuzzle.neighbors self)) tb rp None fuel u = Some ra
            ∧ Bfs.bfs clock (RectPuzzle.GOAL self) (RectPuzzle.neighbors self) None
                      fuel u = Some rb
            ∧ termination_is ra "exhausted" ∧ termination_is rb "exhausted"
            ∧ ra !! "expanded"%string = Some (VInt (Z.of_nat (size F)))
            ∧ rb !! "expanded"%string = Some (VInt (Z.of_nat (size F))).
Proof.
  intros (HR & HC & Hsz)%rect_new_dims Hb Hsol Hu.
  destruct (variant_rect_solvable self s u ltac:(lia) Hb Hu) as [Hbu Hflip].
  rewrite Hsol in Hflip. simpl in Hflip.
  pose proof (rect_unsolvable_unreachable self u HR HC Hflip) as Hun.
  assert (u ∈ boards self) as HuB by (by apply elem_of_boards).
  pose proof (λ x x1 c, boards_closed self x x1 c) as Hcl.
  destruct (bfs_exhausts (RectPuzzle.neighbors self) u (RectPuzzle.GOAL self)
              (boards self) HuB Hcl Hun still_clock) as [N0 HN0].
  destruct (HN0 N0 ltac:(lia)) as (r0 & _ & _ & _ & F & HF & _).
  exists F. split; [done|]. split.
  { intros x [n Hp]%HF. split.
    - by eapply rect_reachable_board; [|exists n].
    - by rewrite (rect_path_solvable self u x n Hp Hbu). }
  intros dn clock hfun tb rp.
  destruct (astar_exhausts (RectPuzzle.neighbors self) u (RectPuzzle.GOAL self)
              (boards self) HuB Hcl Hun dn clock hfun tb rp) as [Na HNa].
  destruct (bfs_exhausts (RectPuzzle.neighbors self) u (RectPuzzle.GOAL self)
              (boards self) HuB Hcl Hun clock) as [Nb HNb].
  exists (Na + Nb)%nat. intros fuel Hf.
  destruct (HNa fuel ltac:(lia)) as (ra & Hra & Hexa & _ & Fa & HFa & Hea).
  destruct (HNb fuel ltac:(lia)) as (rb & Hrb & Hexb & _ & Fb & HFb & Heb).
  assert (Fa = F) as -> by (apply set_eq; intros x; by rewrite HFa, HF).
  assert (Fb = F) as -> by (apply set_eq; intros x; by rewrite HFb, HF).
  by exists ra, rb.
Qed.

Lemma unsolvable_variant_exhausts_witness :
  ∃ F : gset State,
    (∀ x, x ∈ F ↔ reachable (RectPuzzle.neighbors board22) swapped22 x)
    ∧ (∀ x, x ∈ F → board board22 x ∧ RectPuzzle.is_solvable board22 x = false)
    ∧ ∀ dn clock hfun tb rp,
        ∃ N, ∀ fuel, (N ≤ fuel)%nat →
          ∃ ra rb,
            AStar.a_star dn clock (RectPuzzle.GOAL board22) hfun
                         (Some (RectPuzzle.neighbors board22)) tb rp None fuel swapped22
            = Some ra
            ∧ Bfs.bfs clock (RectPuzzle.GOAL board22) (RectPuzzle.neighbors board22) None
                      fuel swapped22 = Some rb
            ∧ termination_is ra "exhausted" ∧ termination_is rb "exhausted"
            ∧ ra !! "expanded"%string = Some (VInt (Z.of_nat (size F)))
            ∧ rb !! "expanded"%string = Some (VInt (Z.of_nat (size F))).
Proof.
  refine (unsolvable_variant_exhausts 2 2 board22 [1;2;3;0] swapped22 eq_refl _ _ _).
  - unfold board. reflexivity.
  - vm_compute. reflexivity.
  - vm_compute. reflexivity.
Defined.

(** X27. The instances of the R×C class are solved with the least number of
    moves: from what [scramble] returns, [a_star], [ida_star] (with and
    without BPMX) and [bfs], run without timeout with the Manhattan distance
    of the class, all return ["ok"] and the same [g], the least number of
    moves to the goal; it is at most [depth] and has the parity of
    [depth]. *)
Theorem rect_instance_solved_optimally {G} (Random : Z → G)
    (choice : G → list nat → nat * G) (rows cols : nat) (self : RectPuzzle.t)
    (hfun : State → Z) (depth seed : Z) (s : State) :
  (∀ g cand, cand ≠ [] → (choice g cand).1 ∈ cand) →
  RectPuzzle.new rows cols = Some self →
  (∀ x m, RectPuzzle.manhattan self x = Some m → hfun x = m) →
  (∀ x, 0 ≤ hfun x) →
  RectPuzzle.scramble Random choice self depth seed = Some s →
  ∃ g, shortest (RectPuzzle.neighbors self) s g (RectPuzzle.GOAL self)
    ∧ 0 ≤ g ≤ Z.max 0 depth ∧ (Z.max 0 depth - g) mod 2 = 0
    ∧ ∀ dn clock tb rp,
        ∃ N, ∀ fuel, (N ≤ fuel)%nat →
          (∃ r, AStar.a_star dn clock (RectPuzzle.GOAL self) hfun
                             (Some (RectPuzzle.neighbors self)) tb rp None fuel s
                = Some r ∧ termination_is r "ok" ∧ r !! "g"%string = Some (VInt g))
          ∧ (∀ bpmx,
               ∃ r, IdaStar.ida_star dn clock (RectPuzzle.GOAL self) hfun
                                     (Some (RectPuzzle.neighbors self)) bpmx rp None
                                     fuel s = Some r
                    ∧ termination_is r "ok" ∧ r !! "g"%string = Some (VInt g))
          ∧ (∃ r, Bfs.bfs clock (RectPuzzle.GOAL self) (RectPuzzle.neighbors self) None
                          fuel s = Some r
                  ∧ termination_is r "ok" ∧ r !! "g"%string = Some (VInt g)).
Proof.
  intros Hch (HR & HC & Hsz)%rect_new_dims Hh Hnn Hs.
  assert (0 < RectPuzzle.size self)%nat as Hpos by lia.
  destruct (rect_scramble_path Random choice self depth seed s Hch Hpos Hs) as [Hb Hp].
  replace (Z.of_nat (Z.to_nat depth)) with (Z.max 0 depth) in Hp by lia.
  destruct (rect_shortest_below self Hpos s _ Hp) as (g & Hg & Hle & Hpar).
  exists g. split; [done|]. split; [done|]. split; [done|].
  intros dn clock tb rp.
  exact (rect_search_optimal self Hpos hfun Hh Hnn s Hb dn clock tb rp g Hg).
Qed.

Lemma rect_instance_solved_optimally_witness :
  ∃ s g, RectPuzzle.scramble counter_Random counter_choice board34 5 7 = Some s
    ∧ shortest (RectPuzzle.neighbors board34) s g (RectPuzzle.GOAL board34)
    ∧ 0 ≤ g ≤ Z.max 0 5 ∧ (Z.max 0 5 - g) mod 2 = 0
    ∧ ∀ dn clock tb rp,
        ∃ N, ∀ fuel, (N ≤ fuel)%nat →
          (∃ r, AStar.a_star dn clock (RectPuzzle.GOAL board34)
                             (λ x, default 0 (RectPuzzle.manhattan board34 x))
                             (Some (RectPuzzle.neighbors board34)) tb rp None fuel s
                = Some r ∧ termination_is r "ok" ∧ r !! "g"%string = Some (VInt g))
          ∧ (∀ bpmx,
               ∃ r, IdaStar.ida_star dn clock (RectPuzzle.GOAL board34)
                                     (λ x, default 0 (RectPuzzle.manhattan board34 x))
                                     (Some (RectPuzzle.neighbors board34)) bpmx rp None
                                     fuel s = Some r
                    ∧ termination_is r "ok" ∧ r !! "g"%string = Some (VInt g))
          ∧ (∃ r, Bfs.bfs clock (RectPuzzle.GOAL board34) (RectPuzzle.neighbors board34)
                          None fuel s = Some r
                  ∧ termination_is r "ok" ∧ r !! "g"%string = Some (VInt g)).
Proof.
  destruct (run_returns (RectPuzzle.scramble counter_Random counter_choice board34 5 7))
    as [s E]; [vm_compute; reflexivity|].
  destruct (rect_instance_solved_optimally counter_Random counter_choice 3 4 board34
              (λ x, default 0 (RectPuzzle.manhattan board34 x)) 5 7 s
              counter_choice_elem eq_refl) as (g & Hg).
  - intros x m ->. reflexivity.
  - intros x. destruct (RectPuzzle.manhattan board34 x) as [m|] eqn:Em; [|done].
    exact (rect_manhattan_nonneg board34 x m Em).
  - exact E.
  - exists s, g. split; [exact E|exact Hg].
Defined.

(** X28. The instances of the 3×3 module are solved with the least number
    of moves: from what [scramble] returns, [a_star], [ida_star] (with and
    without BPMX) and [bfs], run without timeout on the default neighbours
    with [manhattan], all return ["ok"] and the same [g], the least number of
    moves to the goal; it is at most [depth] and has the parity of
    [depth]. *)
Theorem puzzle8_instance_solved_optimally {G} (Random : Z → G)
    (choice : G → list nat → nat * G) (depth seed : Z) (s : State) :
  (∀ g cand, cand ≠ [] → (choice g cand).1 ∈ cand) →
  Puzzle8.scramble Random choice depth seed = Some s →
  ∃ g, shortest Puzzle8.neighbors s g Puzzle8.GOAL
    ∧ 0 ≤ g ≤ Z.max 0 depth ∧ (Z.max 0 depth - g) mod 2 = 0
    ∧ ∀ clock tb rp,
        ∃ N, ∀ fuel, (N ≤ fuel)%nat →
          (∃ r, AStar.a_star Puzzle8.neighbors clock Puzzle8.GOAL Puzzle8.manhattan None
                             tb rp None fuel s
                = Some r ∧ termination_is r "ok" ∧ r !! "g"%string = Some (VInt g))
          ∧ (∀ bpmx,
               ∃ r, IdaStar.ida_star Puzzle8.neighbors clock Puzzle8.GOAL
                                     Puzzle8.manhattan None bpmx rp None fuel s = Some r
                    ∧ termination_is r "ok" ∧ r !! "g"%string = Some (VInt g))
          ∧ (∃ r, Bfs.bfs clock Puzzle8.GOAL Puzzle8.neighbors None fuel s = Some r
                  ∧ termination_is r "ok" ∧ r !! "g"%string = Some (VInt g)).
Proof.
  intros Hch Hs.
  destruct (puzzle8_scramble_path Random choice depth seed s Hch Hs) as [Hb Hp].
  replace (Z.of_nat (Z.to_nat depth)) with (Z.max 0 depth) in Hp by lia.
  destruct (puzzle8_shortest_below s _ Hp) as (g & Hg & Hle & Hpar).
  exists g. split; [done|]. split; [done|]. split; [done|].
  intros clock tb rp. exact (puzzle8_search_optimal clock tb rp s g Hb Hg).
Qed.

Lemma puzzle8_instance_solved_optimally_witness :
  ∃ g, shortest Puzzle8.neighbors [1;2;3;4;0;8;7;6;5] g Puzzle8.GOAL
    ∧ 0 ≤ g ≤ Z.max 0 6 ∧ (Z.max 0 6 - g) mod 2 = 0
    ∧ ∀ clock tb rp,
        ∃ N, ∀ fuel, (N ≤ fuel)%nat →
          (∃ r, AStar.a_star Puzzle8.neighbors clock Puzzle8.GOAL Puzzle8.manhattan None
                             tb rp None fuel [1;2;3;4;0;8;7;6;5]
                = Some r ∧ termination_is r "ok" ∧ r !! "g"%string = Some (VInt g))
          ∧ (∀ bpmx,
               ∃ r, IdaStar.ida_star Puzzle8.neighbors clock Puzzle8.GOAL
                                     Puzzle8.manhattan None bpmx rp None fuel
                                     [1;2;3;4;0;8;7;6;5] = Some r
                    ∧ termination_is r "ok" ∧ r !! "g"%string = Some (VInt g))
          ∧ (∃ r, Bfs.bfs clock Puzzle8.GOAL Puzzle8.neighbors None fuel
                          [1;2;3;4;0;8;7;6;5] = Some r
                  ∧ termination_is r "ok" ∧ r !! "g"%string = Some (VInt g)).
Proof.
  refine (puzzle8_instance_solved_optimally counter_Random counter_choice 6 0
            [1;2;3;4;0;8;7;6;5] counter_choice_elem _).
  vm_compute. reflexivity.
Defined.

(** ** More on the heuristics and the random walks *)

(** X29. On boards [linear_conflict] is 0 at the goal and nowhere else. *)
Theorem rect_linear_conflict_zero_iff_goal (rows cols : nat) (self : RectPuzzle.t)
    (s : State) :
  RectPuzzle.new rows cols = Some self → board self s →
  RectPuzzle.linear_conflict self s = Some 0 ↔ s = RectPuzzle.GOAL self.
Proof.
  intros (HR & HC & Hsz)%rect_new_dims Hb. split.
  - apply rect_linear_conflict_zero; [lia|done].
  - intros ->. apply rect_linear_conflict_GOAL. lia.
Qed.

Lemma rect_linear_conflict_zero_iff_goal_witness :
  RectPuzzle.linear_conflict board34 near_goal34 = Some 0
  ↔ near_goal34 = RectPuzzle.GOAL board34.
Proof.
  exact (rect_linear_conflict_zero_iff_goal 3 4 board34 near_goal34 eq_refl
           near_goal34_board).
Defined.

(** X30. No move of [scramble] undoes the one before: with the same seed,
    the walks of [depth], [depth + 1] and [depth + 2] moves end in three
    states of which each next one is a successor of the one before and the
    third is not the first. *)
Theorem scramble_next_depth {G} (Random : Z → G) (choice : G → list nat → nat * G)
    (depth seed : Z) :
  (∀ g cand, cand ≠ [] → (choice g cand).1 ∈ cand) →
  0 ≤ depth →
  (∃ sa sb sc,
     Puzzle8.scramble Random choice depth seed = Some sa
     ∧ Puzzle8.scramble Random choice (depth + 1) seed = Some sb
     ∧ Puzzle8.scramble Random choice (depth + 2) seed = Some sc
     ∧ (sb, 1) ∈ Puzzle8.neighbors sa ∧ (sc, 1) ∈ Puzzle8.neighbors sb ∧ sc ≠ sa)
  ∧ (∀ rows cols self,
       RectPuzzle.new rows cols = Some self →
       ∃ sa sb sc,
         RectPuzzle.scramble Random choice self depth seed = Some sa
         ∧ RectPuzzle.scramble Random choice self (depth + 1) seed = Some sb
         ∧ RectPuzzle.scramble Random choice self (depth + 2) seed = Some sc
         ∧ (sb, 1) ∈ RectPuzzle.neighbors self sa
         ∧ (sc, 1) ∈ RectPuzzle.neighbors self sb ∧ sc ≠ sa).
Proof.
  intros Hch Hd. split.
  - destruct (puzzle8_scramble_solvable Random choice Hch depth seed) as (sa & Ha & _).
    destruct (puzzle8_scramble_solvable Random choice Hch (depth + 1) seed)
      as (sb & Hb & _).
    destruct (puzzle8_scramble_solvable Random choice Hch (depth + 2) seed)
      as (sc & Hc & _).
    assert (wb 9 Puzzle8.GOAL) as Hwb.
    { split; [|done]. apply (GOAL_NoDup board33). }
    destruct (scramble_walk_next Random choice Hch Puzzle8._NEI 9 puzzle8_NEI_ok
                Puzzle8.GOAL sa depth seed Hwb Hd Ha) as [H1 H2].
    destruct (scramble_walk_next Random choice Hch Puzzle8._NEI 9 puzzle8_NEI_ok
                Puzzle8.GOAL sb (depth + 1) seed Hwb ltac:(lia) Hb) as [H3 _].
    exists sa, sb, sc. do 3 (split; [done|]). split; [by apply H1|].
    split; [|by apply H2]. apply H3.
    by replace (depth + 1 + 1) with (depth + 2) by lia.
  - intros rows cols self (HR & HC & Hsz)%rect_new_dims.
    destruct (rect_scramble_solvable Random choice self Hch HR HC depth seed)
      as (sa & Ha & _).
    destruct (rect_scramble_solvable Random choice self Hch HR HC (depth + 1) seed)
      as (sb & Hb & _).
    destruct (rect_scramble_solvable Random choice self Hch HR HC (depth + 2) seed)
      as (sc & Hc & _).
    assert (wb (RectPuzzle.size self) (RectPuzzle.GOAL self)) as Hwb.
    { split; [apply GOAL_NoDup|apply GOAL_length; lia]. }
    pose proof (rect_nei_ok self HR HC) as Hok.
    destruct (scramble_walk_next Random choice Hch (RectPuzzle._nei self) _ Hok
                (RectPuzzle.GOAL self) sa depth seed Hwb Hd Ha) as [H1 H2].
    destruct (scramble_walk_next Random choice Hch (RectPuzzle._nei self) _ Hok
                (RectPuzzle.GOAL self) sb (depth + 1) seed Hwb ltac:(lia) Hb) as [H3 _].
    exists sa, sb, sc. do 3 (split; [done|]). split; [by apply H1|].
    split; [|by apply H2]. apply H3.
    by replace (depth + 1 + 1) with (depth + 2) by lia.
Qed.

Lemma scramble_next_depth_witness :
  (∃ sa sb sc,
     Puzzle8.scramble counter_Random counter_choice 6 0 = Some sa
     ∧ Puzzle8.scramble counter_Random counter_choice (6 + 1) 0 = Some sb
     ∧ Puzzle8.scramble counter_Random counter_choice (6 + 2) 0 = Some sc
     ∧ (sb, 1) ∈ Puzzle8.neighbors sa ∧ (sc, 1) ∈ Puzzle8.neighbors sb ∧ sc ≠ sa)
  ∧ (∀ rows cols self,
       RectPuzzle.new rows cols = Some self →
       ∃ sa sb sc,
         RectPuzzle.scramble counter_Random counter_choice self 6 0 = Some sa
         ∧ RectPuzzle.scramble counter_Random counter_choice self (6 + 1) 0 = Some sb
         ∧ RectPuzzle.scramble counter_Random counter_choice self (6 + 2) 0 = Some sc
         ∧ (sb, 1) ∈ RectPuzzle.neighbors self sa
         ∧ (sc, 1) ∈ RectPuzzle.neighbors self sb ∧ sc ≠ sa).
Proof.
  refine (scramble_next_depth counter_Random counter_choice 6 0 counter_choice_elem _).
  lia.
Defined.
